(** * KResearch: execution layer, rate tracker, citation registry, outline debate

    A shallow embedding of the TypeScript services of KResearch and the
    properties its specification states about them.

    - [Registry]    : [CitationManager] (services/citationManager.ts)
    - [Double]      : the numbers of the interval configuration
    - [Tracker]     : [ApiIntervalManager] (services/apiIntervalManager.ts)
    - [Execution]   : [executeWithRetry] (services/geminiClient.ts)
    - [Negotiation] : [generateAcademicOutline], the variant with in-place
                      retries and an observer callback

    Conventions.  JavaScript numbers that hold integers (ids, counters,
    HTTP statuses, timestamps in milliseconds) are [Z]; the numbers of the
    interval configuration and their products are IEEE 754 doubles
    ([Double.number]); the backoff delay with its [Math.random()] jitter
    is an exact rational [Q].  Strings are [string] over code units
    0..255.  Platform
    primitives whose code is not part of the repository ([new URL],
    [JSON.parse], the clock, the random source, the network) enter as
    section variables or as the script of an environment.

    The models come first; [Spec] holds the vocabulary in which the
    properties are stated and [Scenario] the concrete inputs used as
    examples; the properties follow, one module per component. *)

From Stdlib Require Import ZArith QArith Qround Bool List String Ascii.
From Stdlib Require Import DecimalString Lia Lqa Arith Permutation Sorted.
From Stdlib Require DecimalPos SpecFloat.
Import ListNotations.

Open Scope string_scope.
Open Scope Z_scope.

(** ** JavaScript strings *)

Module JsString.

(** Template-literal rendering of an integral number. *)
Definition showZ (n : Z) : string := NilEmpty.string_of_int (Z.to_int n).

(** White space removed by [String.prototype.trim] (code units below 256). *)
Definition isWhite (c : ascii) : bool :=
  let n := nat_of_ascii c in
  ((9 <=? n) && (n <=? 13) || (n =? 32) || (n =? 160))%nat.

Fixpoint trimStart (s : string) : string :=
  match s with
  | EmptyString => EmptyString
  | String c r => if isWhite c then trimStart r else s
  end.

Fixpoint trimEnd (s : string) : string :=
  match s with
  | EmptyString => EmptyString
  | String c r =>
      match trimEnd r with
      | EmptyString => if isWhite c then EmptyString else String c EmptyString
      | r' => String c r'
      end
  end.

Definition trim (s : string) : string := trimEnd (trimStart s).

(** [!text || text.trim() === ''] *)
Definition isBlank (s : string) : bool := String.eqb (trim s) "".

Definition lowerChar (c : ascii) : ascii :=
  let n := nat_of_ascii c in
  if ((65 <=? n) && (n <=? 90))%nat then ascii_of_nat (n + 32)
  else if ((192 <=? n) && (n <=? 222) && negb (n =? 215))%nat
       then ascii_of_nat (n + 32)
  else c.

Fixpoint toLowerCase (s : string) : string :=
  match s with
  | EmptyString => EmptyString
  | String c r => String (lowerChar c) (toLowerCase r)
  end.

(** [parts.join(sep)] *)
Fixpoint join (sep : string) (parts : list string) : string :=
  match parts with
  | [] => ""
  | [p] => p
  | p :: rest => p ++ sep ++ join sep rest
  end.

Definition isDigit (c : ascii) : bool :=
  let n := nat_of_ascii c in ((48 <=? n) && (n <=? 57))%nat.

Fixpoint takeDigits (s : string) : string :=
  match s with
  | String c r => if isDigit c then String c (takeDigits r) else ""
  | EmptyString => ""
  end.

(** [s.match(/(\d+)/)?.[1]]: the first maximal run of decimal digits. *)
Fixpoint firstDigits (s : string) : option string :=
  match s with
  | EmptyString => None
  | String c r => if isDigit c then Some (takeDigits s) else firstDigits r
  end.

(** [parseInt(digits, 10)] on a string of decimal digits. *)
Fixpoint parseDigitsFrom (acc : Z) (s : string) : Z :=
  match s with
  | EmptyString => acc
  | String c r => parseDigitsFrom (10 * acc + (Z.of_nat (nat_of_ascii c) - 48)) r
  end.

Definition parseInt (digits : string) : Z := parseDigitsFrom 0 digits.

(** First character that [JSON.parse] does not skip as white space. *)
Fixpoint skipJsonSpace (s : string) : string :=
  match s with
  | String c r =>
      let n := nat_of_ascii c in
      if ((n =? 32) || (n =? 9) || (n =? 10) || (n =? 13))%nat
      then skipJsonSpace r else s
  | EmptyString => EmptyString
  end.

Definition startsWithBrace (s : string) : bool :=
  match skipJsonSpace s with
  | String c _ => Ascii.eqb c "{"%char
  | EmptyString => false
  end.

(** [x || fallback] on an optional string: empty strings are falsy. *)
Definition orElse (x : option string) (fallback : string) : string :=
  match x with
  | Some s => if String.eqb s "" then fallback else s
  | None => fallback
  end.

End JsString.
Import JsString.

(** ** Citation registry ([CitationManager]) *)

Module Registry.

(** [interface Citation] of types.ts; optional fields are [option]s. *)
Record Citation := mkCitation {
  url : string;
  title : string;
  id : option Z;
  authors : option string;
  year : option string;
  source : option string;
  accessDate : option string;
  timesCited : option Z
}.

(** The three components of a parsed [URL] that [normalizeUrl] reads. *)
Record URL := mkURL {
  protocol : string;
  hostname : string;
  pathname : string
}.

(** [Map<string, Citation>] keeps insertion order: an association list
    with unique keys, new keys appended. *)
Definition CitationMap := list (string * Citation).

Record CitationManager := mkManager {
  citations : CitationMap;
  citationCounter : Z
}.

(** [new CitationManager()], also the state after [clear()]. *)
Definition newManager : CitationManager := mkManager [] 1.

Definition clear (_ : CitationManager) : CitationManager := newManager.

Fixpoint mapGet (key : string) (m : CitationMap) : option Citation :=
  match m with
  | [] => None
  | (k, c) :: rest => if String.eqb k key then Some c else mapGet key rest
  end.

Fixpoint mapSet (key : string) (c : Citation) (m : CitationMap) : CitationMap :=
  match m with
  | [] => [(key, c)]
  | (k, c0) :: rest =>
      if String.eqb k key then (k, c) :: rest else (k, c0) :: mapSet key c rest
  end.

Definition keysOf (m : CitationMap) : list string := map fst m.

(** [citation.id === id] *)
Definition hasId (i : Z) (c : Citation) : bool :=
  match id c with
  | Some j => j =? i
  | None => false
  end.

(** [for (const citation of this.citations.values()) if (citation.id === id) return citation] *)
Fixpoint getCitationById (i : Z) (m : CitationMap) : option Citation :=
  match m with
  | [] => None
  | (_, c) :: rest => if hasId i c then Some c else getCitationById i rest
  end.

(** [(citation.timesCited || 0) + 1] *)
Definition bumped (c : Citation) : Citation :=
  mkCitation (url c) (title c) (id c) (authors c) (year c) (source c)
    (accessDate c)
    (Some (match timesCited c with Some t => t | None => 0 end + 1)).

(** One round of the loop of [recordCitationUsage]: the record found by
    [getCitationById] is the object stored in the map, so the assignment
    to [timesCited] changes the stored record in place. *)
Fixpoint recordOne (i : Z) (m : CitationMap) : CitationMap :=
  match m with
  | [] => []
  | (k, c) :: rest =>
      if hasId i c then (k, bumped c) :: rest else (k, c) :: recordOne i rest
  end.

Definition recordUsageMap (ids : list Z) (m : CitationMap) : CitationMap :=
  fold_left (fun acc i => recordOne i acc) ids m.

Definition recordCitationUsage (ids : list Z) (mgr : CitationManager)
  : CitationManager :=
  mkManager (recordUsageMap ids (citations mgr)) (citationCounter mgr).

(** [[...citationIds].sort((a, b) => a - b)]: numeric ascending order. *)
Fixpoint insertAsc (x : Z) (l : list Z) : list Z :=
  match l with
  | [] => [x]
  | y :: rest => if x <=? y then x :: l else y :: insertAsc x rest
  end.

Fixpoint sortAsc (l : list Z) : list Z :=
  match l with
  | [] => []
  | x :: rest => insertAsc x (sortAsc rest)
  end.

(** [start === end ? `${start}` : `${start}-${end}`] *)
Definition renderRange (r : Z * Z) : string :=
  let (a, b) := r in
  if a =? b then showZ a else showZ a ++ "-" ++ showZ b.

(** The [for] loop over [sortedIds[1..]], with [ranges] holding the text
    pushed so far. *)
Fixpoint mergeLoop (rest : list Z) (start fin : Z) (ranges : list string)
  : list string :=
  match rest with
  | [] => (ranges ++ [renderRange (start, fin)])%list
  | x :: rest' =>
      if x =? fin + 1 then mergeLoop rest' start x ranges
      else mergeLoop rest' x x (ranges ++ [renderRange (start, fin)])%list
  end.

Definition renderSorted (sortedIds : list Z) : string :=
  match sortedIds with
  | [] => "[]"
  | first :: rest => "[" ++ join ", " (mergeLoop rest first first []) ++ "]"
  end.

Definition generateMultipleInTextCitations (citationIds : list Z)
    (mgr : CitationManager) : string * CitationManager :=
  match citationIds with
  | [] => ("", mgr)
  | [one] => ("[" ++ showZ one ++ "]", recordCitationUsage citationIds mgr)
  | _ => (renderSorted (sortAsc citationIds),
          recordCitationUsage citationIds mgr)
  end.

Definition generateInTextCitation (citationId : Z) (mgr : CitationManager)
  : string * CitationManager :=
  ("[" ++ showZ citationId ++ "]", recordCitationUsage [citationId] mgr).

Section WithPlatform.

(** [new URL(url)]: [None] when the constructor throws. *)
Variable parseURL : string -> option URL.

(** [new Date().toISOString().split('T')[0]] *)
Variable today : string.

Definition normalizeUrl (u : string) : string :=
  match parseURL u with
  | Some o => protocol o ++ "//" ++ toLowerCase (hostname o) ++ pathname o
  | None => trim (toLowerCase u)
  end.

Definition getCitationKey (c : Citation) : string := normalizeUrl (url c).

(** The result is the number returned; [None] stands for [undefined],
    which a stored record without an [id] would give. *)
Definition addCitation (c : Citation) (mgr : CitationManager)
  : option Z * CitationManager :=
  let key := getCitationKey c in
  match mapGet key (citations mgr) with
  | Some stored => (id stored, mgr)
  | None =>
      let newCitation :=
        mkCitation (url c) (title c) (Some (citationCounter mgr))
          (authors c) (year c) (source c)
          (Some (orElse (accessDate c) today)) (Some 0) in
      (id newCitation,
       mkManager (mapSet key newCitation (citations mgr))
                 (citationCounter mgr + 1))
  end.

(** [citations.map(citation => this.addCitation(citation))] *)
Fixpoint addCitations (cs : list Citation) (mgr : CitationManager)
  : list (option Z) * CitationManager :=
  match cs with
  | [] => ([], mgr)
  | c :: rest =>
      let (i, mgr1) := addCitation c mgr in
      let (is_, mgr2) := addCitations rest mgr1 in
      (i :: is_, mgr2)
  end.

End WithPlatform.

End Registry.


(** ** JavaScript numbers

    A [number] is an IEEE 754 binary64 value.  Products are rounded to the
    nearest double, ties to even, as [SpecFloat] specifies; comparisons,
    [Math.min] and [Math.round] go by the exact value. *)

Module Double.

Definition number : Type := SpecFloat.spec_float.

Definition prec : Z := 53.
Definition emax : Z := 1024.

(** [x * y] *)
Definition mul (x y : number) : number := SpecFloat.SFmul prec emax x y.

(** The double of a whole number, and of the decimal literal [n / d]:
    the double nearest to the quotient. *)
Definition ofZ (z : Z) : number := SpecFloat.binary_normalize prec emax z 0 false.

Definition ratio (n d : Z) : number := SpecFloat.SFdiv prec emax (ofZ n) (ofZ d).

(** The value of a number. *)
Inductive Extended := NotANumber | MinusInfinity | Finite (q : Q) | PlusInfinity.

Definition power2 (e : Z) : Q :=
  match e with
  | Z0 => 1
  | Zpos p => inject_Z (Zpos (2 ^ p)%positive)
  | Zneg p => 1 # (2 ^ p)%positive
  end.

Definition extended (x : number) : Extended :=
  match x with
  | SpecFloat.S754_nan => NotANumber
  | SpecFloat.S754_infinity negative =>
      if negative then MinusInfinity else PlusInfinity
  | SpecFloat.S754_zero _ => Finite 0
  | SpecFloat.S754_finite negative m e =>
      Finite (inject_Z (if negative then Zneg m else Zpos m) * power2 e)
  end.

(** [x < y] *)
Definition lt (x y : number) : bool :=
  match extended x, extended y with
  | NotANumber, _ | _, NotANumber => false
  | _, MinusInfinity => false
  | MinusInfinity, _ => true
  | PlusInfinity, _ => false
  | Finite _, PlusInfinity => true
  | Finite a, Finite b => negb (Qle_bool b a)
  end.

(** [n >= x] for a whole number [n], which is exact as a double. *)
Definition geCount (n : Z) (x : number) : bool :=
  match extended x with
  | NotANumber | PlusInfinity => false
  | MinusInfinity => true
  | Finite q => Qle_bool q (inject_Z n)
  end.

Definition isNegativeZero (x : number) : bool :=
  match x with
  | SpecFloat.S754_zero negative => negative
  | _ => false
  end.

(** [Math.min(x, y)]: [NaN] when either is; of two zeros the negative one. *)
Definition mathMin (x y : number) : number :=
  match extended x, extended y with
  | NotANumber, _ | _, NotANumber => SpecFloat.S754_nan
  | _, _ =>
      if lt y x then y
      else if lt x y then x
      else if isNegativeZero y then y else x
  end.

(** What [Math.round] returns: a number without a fraction, which is exact
    as a double and held as [Z] (the sign of a zero is dropped), or the
    [NaN] or infinity it was given. *)
Inductive Rounded :=
| RoundedNaN
| RoundedInfinity (negative : bool)
| Whole (n : Z).

(** [Math.round(x)]: the nearest whole number, a tie going up. *)
Definition mathRound (x : number) : Rounded :=
  match extended x with
  | NotANumber => RoundedNaN
  | MinusInfinity => RoundedInfinity true
  | PlusInfinity => RoundedInfinity false
  | Finite q => Whole (Qfloor (q + (1 # 2)))
  end.

End Double.


(** ** Rate-adaptation tracker ([ApiIntervalManager]) *)

Module Tracker.

(** The modes that reach [calculateDelay]: those of [ResearchMode] in
    types.ts, and ['Quick'], which the [switch] names. *)
Inductive ResearchMode := Balanced | DeepDive | Fast | UltraFast | Quick.

Record ApiIntervalConfig := mkConfig {
  baseDelayMs : Double.number;
  dynamicAdjustment : bool;
  deepDiveMultiplier : Double.number;
  balancedMultiplier : Double.number;
  quickMultiplier : Double.number;
  errorThreshold : Double.number;
  errorMultiplier : Double.number
}.

(** [DEFAULT_SETTINGS.apiIntervalConfig] of settingsService.ts:
    15000, 1.2, 1.1, 1.0, 3 and 1.5. *)
Definition defaultConfig : ApiIntervalConfig :=
  mkConfig (Double.ofZ 15000) true (Double.ratio 12 10) (Double.ratio 11 10)
    (Double.ofZ 1) (Double.ofZ 3) (Double.ratio 15 10).

(** [errorHistory]: timestamps in milliseconds, oldest first. *)
Definition ErrorHistory := list Z.

Definition MAX_ERROR_HISTORY : nat := 10.

(** [record429Error], with [now] the value of [Date.now()]. *)
Definition record429Error (now : Z) (h : ErrorHistory) : ErrorHistory :=
  let h' := (h ++ [now])%list in
  if (MAX_ERROR_HISTORY <? List.length h')%nat then tl h' else h'.

Definition clearErrorHistory (_ : ErrorHistory) : ErrorHistory := [].

(** [getRecentErrorCount]: entries newer than five minutes. *)
Definition getRecentErrorCount (now : Z) (h : ErrorHistory) : Z :=
  let fiveMinutesAgo := now - 5 * 60 * 1000 in
  Z.of_nat (List.length (filter (fun timestamp => fiveMinutesAgo <? timestamp) h)).

Definition maxDelay : Double.number := Double.ofZ 20000.

(** [calculateDelay(mode, config)]; [settings] is what
    [settingsService.getSettings().apiIntervalConfig] holds.  A mode
    without a [case] leaves [baseDelay] as it is. *)
Definition calculateDelay (settings : ApiIntervalConfig) (now : Z)
    (h : ErrorHistory) (mode : ResearchMode)
    (config : option ApiIntervalConfig) : Double.Rounded :=
  let intervalConfig := match config with Some c => c | None => settings end in
  let baseDelay := baseDelayMs intervalConfig in
  let baseDelay :=
    match mode with
    | DeepDive => Double.mul baseDelay (deepDiveMultiplier intervalConfig)
    | Balanced => Double.mul baseDelay (balancedMultiplier intervalConfig)
    | Quick => Double.mul baseDelay (quickMultiplier intervalConfig)
    | Fast | UltraFast => baseDelay
    end in
  let baseDelay :=
    if dynamicAdjustment intervalConfig then
      let recentErrors := getRecentErrorCount now h in
      if Double.geCount recentErrors (errorThreshold intervalConfig)
      then Double.mul baseDelay (errorMultiplier intervalConfig)
      else baseDelay
    else baseDelay in
  let finalDelay := Double.mathMin baseDelay maxDelay in
  Double.mathRound finalDelay.

End Tracker.


(** ** Execution layer ([executeWithRetry]) *)

Module Execution.

(** The [retryDelay] member of an entry of [error.details], as the
    [catch] block tests it: missing or falsy ([null], [false], [0]), a
    string, or any other value, which is truthy and has no [match]. *)
Inductive DelayMember :=
| NoDelay
| DelayText (d : string)
| DelayOther.

(** An entry of [error.details] with its ['@type'] and [retryDelay]
    members.  An entry that is no object, or whose ['@type'] is no
    string, never has the type looked for: any other [atType] stands for
    it. *)
Record Detail := mkDetail {
  atType : string;
  retryDelay : DelayMember
}.

(** An entry of the array [error.details]: [null], or a value whose
    members can be read. *)
Inductive Entry :=
| NullEntry
| Holds (d : Detail).

(** [error.details] of an error body: missing or [null], an array, or
    any other value, which has no [find]. *)
Inductive Details :=
| NoDetails
| DetailList (entries : list Entry)
| NoList.

(** What the code reads from a body after [JSON.parse]:
    [error.message] and [error.details] of an error body,
    [candidates[0].content.parts[0].text] of a result. *)
Record Payload := mkPayload {
  errorMessage : option string;
  errorDetails : Details;
  primaryText : option string
}.

(** An HTTP response: [parsed] is [None] when [JSON.parse(responseText)]
    throws. *)
Record Reply := mkReply {
  status : Z;
  responseText : string;
  parsed : option Payload
}.

(** [response.ok] *)
Definition isOk (r : Reply) : bool := (200 <=? status r) && (status r <=? 299).

(** A thrown value, with the properties the [catch] block reads. *)
Record JsError := mkError {
  name : string;
  message : string;
  errStatus : option Z;
  data : option Payload
}.

(** How the call in flight ends when the caller does not abort it. *)
Inductive InFlight :=
| TimesOut
| Rejects (e : JsError)
| Replies (r : Reply).

(** The environment of one attempt.  [cancelInFlight]: the caller fires
    its signal while the call is in flight; [cancelInBackoff]: the caller
    fires its signal during the sleep that follows the attempt.  An
    [AbortSignal] fires once: either flag has an effect only if the signal
    exists and has not fired before. *)
Record Attempt := mkAttempt {
  cancelInFlight : bool;
  inFlight : InFlight;
  random : Q;
  clock : Z;
  cancelInBackoff : bool
}.

(** The rejection of an aborted [fetch]. *)
Definition abortError : JsError :=
  mkError "AbortError" "signal is aborted without reason" None None.

Definition plainError (msg : string) : JsError := mkError "Error" msg None None.

(** The error thrown for [!response.ok]. *)
Definition apiError (r : Reply) : JsError :=
  match parsed r with
  | None =>
      mkError "Error"
        ("API Error: " ++ showZ (status r) ++ " - " ++ responseText r)
        (Some (status r)) None
  | Some errorData =>
      mkError "Error"
        (orElse (errorMessage errorData) ("API Error: " ++ showZ (status r)))
        (Some (status r)) (Some errorData)
  end.

Definition jsonParseError : JsError := plainError "Failed to parse JSON response".

Definition emptyResponseError : JsError := plainError "Empty response from API".

(** The state of the caller's [AbortSignal]: [None] when no signal was
    passed, otherwise its [aborted] flag. *)
Definition Signal := option bool.

Definition aborted (s : Signal) : bool :=
  match s with Some b => b | None => false end.

Definition fire (s : Signal) : Signal :=
  match s with Some _ => Some true | None => None end.

(** Every attempt builds [combinedSignal] anew and registers [onAbort] on
    the caller's signal; the listener runs only for an [abort] event
    dispatched after the registration, and the loop does not read
    [userSignal.aborted] before it calls [fetch].  So the caller aborts the
    call in flight exactly when the signal fires during that call. *)
Definition abortsCall (s : Signal) (a : Attempt) : bool :=
  match s with
  | Some false => cancelInFlight a
  | _ => false
  end.

(** Whether the caller's signal fires during the sleep after an attempt. *)
Definition firesInBackoff (s : Signal) (a : Attempt) : bool :=
  match s with
  | Some false => cancelInBackoff a
  | _ => false
  end.

(** The inner [try]: the value returned, or the error thrown. *)
Definition tryFetch (s : Signal) (a : Attempt) : (JsError + string) * Signal :=
  if abortsCall s a then (inl abortError, fire s)
  else
    match inFlight a with
    | TimesOut => (inl abortError, s)
    | Rejects e => (inl e, s)
    | Replies r =>
        if isOk r then
          match parsed r with
          | None => (inl jsonParseError, s)
          | Some result =>
              let text := match primaryText result with
                          | Some t => t
                          | None => ""
                          end in
              if isBlank text then (inl emptyResponseError, s)
              else (inr text, s)
          end
        else (inl (apiError r), s)
    end.

Definition retryInfoType : string := "type.googleapis.com/google.rpc.RetryInfo".

(** The [TypeError]s of the [catch] block, in the engine's wording:
    [details] has no [find], an entry is [null], [retryDelay] has no
    [match]. *)
Definition typeError (msg : string) : JsError := mkError "TypeError" msg None None.

Definition findIsNoFunction : JsError :=
  typeError "error.data?.error?.details?.find is not a function".

Definition readOfNull : JsError :=
  typeError "Cannot read properties of null (reading '@type')".

Definition matchIsNoFunction : JsError :=
  typeError "retryInfo.retryDelay.match is not a function".

(** [details.find(d => d['@type'] === ...)] on an array: the callback
    reads ['@type'] of every entry up to the first that matches. *)
Fixpoint findEntry (entries : list Entry) : JsError + option Detail :=
  match entries with
  | [] => inr None
  | NullEntry :: _ => inl readOfNull
  | Holds d :: rest =>
      if String.eqb (atType d) retryInfoType then inr (Some d) else findEntry rest
  end.

(** [error.data?.error?.details?.find(d => d['@type'] === ...)]: the
    entry found, or the [TypeError] raised. *)
Definition findRetryInfo (e : JsError) : JsError + option Detail :=
  match data e with
  | Some p =>
      match errorDetails p with
      | NoDetails => inr None
      | DetailList entries => findEntry entries
      | NoList => inl findIsNoFunction
      end
  | None => inr None
  end.

(** The seconds of a server-suggested delay, when the [RetryInfo] entry
    has a non-empty [retryDelay] that contains a digit; or the
    [TypeError] raised on the way. *)
Definition suggestedSeconds (e : JsError) : JsError + option Z :=
  match findRetryInfo e with
  | inl thrown => inl thrown
  | inr (Some retryInfo) =>
      match retryDelay retryInfo with
      | DelayText d =>
          if String.eqb d "" then inr None
          else match firstDigits d with
               | Some digits => inr (Some (parseInt digits))
               | None => inr None
               end
      | NoDelay => inr None
      | DelayOther => inl matchIsNoFunction
      end
  | inr None => inr None
  end.

Definition isServerError (e : JsError) : bool :=
  match errStatus e with
  | Some s => (500 <=? s) && (s <? 600)
  | None => false
  end.

Definition isRateLimit (e : JsError) : bool :=
  match errStatus e with
  | Some s => s =? 429
  | None => false
  end.

Definition maxRetriesPerKeyCycle : Z := 2.

(** What happened, in order. *)
Inductive Event :=
| Fetched (attempt : Z) (key : string)
| Recorded429 (at_ : Z)
| Slept (delayMs : Q)
| CallerCancelled.

Inductive Result :=
| Success (text : string)
| Thrown (e : JsError)
| AllKeysFailedError (msg : string).

(** Modelled from the spec: the credential pool of apiKeyService.ts, whose
    code is not in the repository snapshot.  [getNextApiKey] returns the
    credential at the cursor and advances the cursor round-robin. *)
Record Pool := mkPool {
  keys : list string;
  cursor : nat
}.

Definition getNextApiKey (p : Pool) : string * Pool :=
  let n := List.length (keys p) in
  (nth (cursor p mod n) (keys p) "", mkPool (keys p) (S (cursor p) mod n)).

Record State := mkState {
  pool : Pool;
  signal : Signal;
  lastError : option JsError;
  history : Tracker.ErrorHistory;
  events : list Event
}.

Definition logged (st : State) (ev : list Event) : State :=
  mkState (pool st) (signal st) (lastError st) (history st)
    (events st ++ ev)%list.

Section WithJSON.

(** [JSON.parse(m)?.error?.message] for a text [m] that parses to an
    object; [None] when parsing throws or the member is missing. *)
Variable embeddedMessage : string -> option string.

(** [getCleanErrorMessage]; a text that does not start with a brace cannot
    parse to an object, so its [parsed?.error?.message] is undefined. *)
Definition getCleanErrorMessage (error : option JsError) : string :=
  match error with
  | None => "An unknown error occurred."
  | Some e =>
      if String.eqb (message e) "" then ""
      else if startsWithBrace (message e)
           then orElse (embeddedMessage (message e)) (message e)
      else message e
  end.

(** Whether the [catch] block takes the backoff branch. *)
Definition backsOff (e : JsError) : bool :=
  let errorMessage := getCleanErrorMessage (Some e) in
  isServerError e || isRateLimit e || String.eqb errorMessage "Failed to fetch"
  || String.eqb errorMessage "Empty response from API"
  || String.eqb errorMessage "Failed to parse JSON response".

(** The delay slept in the backoff branch, or the [TypeError] raised
    while the suggested delay of a 429 is read. *)
Definition backoffDelay (attempt : Z) (e : JsError) (rand : Q) : JsError + Q :=
  let retriesOnThisKey := (attempt - 1) mod maxRetriesPerKeyCycle in
  let baseDelay := if isServerError e then 5000 else 3000 in
  let delayMs := (inject_Z (baseDelay * 2 ^ retriesOnThisKey) + rand * 1000)%Q in
  if isRateLimit e then
    match suggestedSeconds e with
    | inl thrown => inl thrown
    | inr (Some delaySeconds) => inr (inject_Z (delaySeconds * 1000 + 500))
    | inr None => inr delayMs
    end
  else inr delayMs.

(** The [catch] block: [inl] throws, with the state left behind; [inr]
    goes on to the next attempt. *)
Definition catchBlock (attempt : Z) (a : Attempt) (e : JsError) (st : State)
  : (JsError * State) + State :=
  if String.eqb (name e) "AbortError" && aborted (signal st) then inl (e, st)
  else
    let st1 := mkState (pool st) (signal st) (Some e) (history st) (events st) in
    if backsOff e then
      let st2 :=
        if isRateLimit e then
          mkState (pool st1) (signal st1) (lastError st1)
            (Tracker.record429Error (clock a) (history st1))
            (events st1 ++ [Recorded429 (clock a)])%list
        else st1 in
      match backoffDelay attempt e (random a) with
      | inl thrown => inl (thrown, st2)
      | inr delayMs =>
          let st3 := logged st2 [Slept delayMs] in
          if firesInBackoff (signal st3) a then
            inr (mkState (pool st3) (fire (signal st3)) (lastError st3) (history st3)
                   (events st3 ++ [CallerCancelled])%list)
          else inr st3
      end
    else inr st1.

(** The [for] loop from [attempt] on, with [remaining] iterations left. *)
Fixpoint attempts (env : Z -> Attempt) (remaining : nat) (attempt : Z)
    (st : State) : Result * State :=
  match remaining with
  | O =>
      (AllKeysFailedError
         ("All API keys failed. Last error: " ++ getCleanErrorMessage (lastError st)),
       st)
  | S remaining' =>
      let (key, pool') := getNextApiKey (pool st) in
      let st0 := mkState pool' (signal st) (lastError st) (history st) (events st) in
      if String.eqb key "" then attempts env remaining' (attempt + 1) st0
      else
        let a := env attempt in
        let st1 :=
          logged st0
            (if abortsCall (signal st0) a
             then [Fetched attempt key; CallerCancelled]
             else [Fetched attempt key]) in
        match tryFetch (signal st1) a with
        | (inr text, s) =>
            (Success text,
             mkState (pool st1) s (lastError st1) (history st1) (events st1))
        | (inl error, s) =>
            let st2 := mkState (pool st1) s (lastError st1) (history st1)
                         (events st1) in
            match catchBlock attempt a error st2 with
            | inl (thrown, st3) => (Thrown thrown, st3)
            | inr st3 => attempts env remaining' (attempt + 1) st3
            end
        end
  end.

(** [operationToRestMethod[operationName]] *)
Definition restMethodOf (operationName : string) : option string :=
  if String.eqb operationName "generateContent" then Some "generateContent"
  else None.

Definition initialState (p : Pool) (s : Signal) (h : Tracker.ErrorHistory)
  : State := mkState p s None h [].

(** [`${modelName}`] for a [params.model] that may be missing. *)
Definition showModel (modelName : option string) : string :=
  match modelName with Some m => m | None => "undefined" end.

Definition invalidCall (operationName : string) (modelName : option string)
  : JsError :=
  plainError ("Invalid model or operation for API call: "
              ++ showModel modelName ++ ", " ++ operationName).

(** [executeWithRetry(operationName, params, userSignal)]; [modelName] is
    [params.model]. *)
Definition executeWithRetry (env : Z -> Attempt) (operationName : string)
    (modelName : option string) (p : Pool) (userSignal : Signal)
    (h : Tracker.ErrorHistory) : Result * State :=
  let st := initialState p userSignal h in
  if (List.length (keys p) =? 0)%nat then
    (Thrown (plainError
       "No API keys provided. Please add at least one key in the application settings."),
     st)
  else
    let maxAttempts := (List.length (keys p) * Z.to_nat maxRetriesPerKeyCycle)%nat in
    match restMethodOf operationName with
    | Some _ =>
        if String.eqb (orElse modelName "") "" then
          (Thrown (invalidCall operationName modelName), st)
        else attempts env maxAttempts 1 st
    | None => (Thrown (invalidCall operationName modelName), st)
    end.

End WithJSON.

End Execution.


(** ** Negotiation engine ([generateAcademicOutline]) *)

Module Negotiation.

Inductive AgentPersona := Alpha | Beta.

(** [nextPersona === 'Alpha' ? 'Beta' : 'Alpha'] *)
Definition flip (p : AgentPersona) : AgentPersona :=
  match p with Alpha => Beta | Beta => Alpha end.

(** [interface AcademicOutlineTurn], as far as the loop reads it. *)
Record AcademicOutlineTurn := mkTurn {
  thought : string;
  action : string;
  final_outline : option string
}.

(** A value returned by [ai.models.generateContent]: [text] is
    [response.text] (empty when missing), [parsedTurn] is
    [parseJsonFromMarkdown(response.text)] ([None] for [null]) and
    [blockReason] is [response.promptFeedback?.blockReason]. *)
Record Response := mkResponse {
  text : string;
  parsedTurn : option AcademicOutlineTurn;
  blockReason : option string
}.

Definition Conversation := list (AgentPersona * string).

(** What a prompt depends on besides the fixed query, file and role. *)
Inductive Request :=
| TurnRequest (persona : AgentPersona) (conversation : Conversation)
    (isFirstTurn : bool)
| FinalRequest (conversation : Conversation).

Inductive Outcome :=
| Throws (msg : string)
| Responds (r : Response).

(** One call of [ai.models.generateContent] as the environment answers
    it.  [firesDuringCall]: the caller fires its signal while the call is
    pending; [firesDuringWait]: the caller fires it during the retry wait
    that follows. *)
Record Call := mkCall {
  outcome : Outcome;
  firesDuringCall : bool;
  firesDuringWait : bool
}.

(** The turn source: the answer to the [n]-th call (counted from 0) with
    the given request. *)
Definition Source := nat -> Request -> Call.

Definition Signal := option bool.

Definition aborted (s : Signal) : bool :=
  match s with Some b => b | None => false end.

Definition fireIf (b : bool) (s : Signal) : Signal :=
  match s with
  | Some old => Some (old || b)
  | None => None
  end.

Inductive Event :=
| TurnStarted (debateTurns : Z) (persona : AgentPersona)
| Called (request : Request)
| Waited (retryDelay : Z)
| Updated (persona : AgentPersona) (thought : string).

Inductive Result :=
| Outline (markdown : string)
| Failed (msg : string)
| OutOfFuel.

Record State := mkState {
  debateTurns : Z;
  currentConversation : Conversation;
  nextPersona : AgentPersona;
  signal : Signal;
  calls : nat;
  events : list Event
}.

Definition abortedMessage : string := "Academic outline generation was aborted".

Definition maxTurnRetries : Z := 2.

(** The result of the retry loop of one turn. *)
Inductive TurnResult :=
| TurnThrew (msg : string)
| TurnFailed
| TurnParsed (parsedResponse : AcademicOutlineTurn).

Section WithSource.

Variable source : Source.

(** [await ai.models.generateContent(...)]: the call is logged and
    counted, and the signal may fire while it is pending. *)
Definition generateContent (req : Request) (st : State) : Outcome * State :=
  let c := source (calls st) req in
  (outcome c,
   mkState (debateTurns st) (currentConversation st) (nextPersona st)
     (fireIf (firesDuringCall c) (signal st)) (S (calls st))
     (events st ++ [Called req])%list).

(** [await new Promise(res => setTimeout(res, retryDelay))] after the call
    numbered [n]. *)
Definition wait (n : nat) (req : Request) (retryDelay : Z) (st : State) : State :=
  mkState (debateTurns st) (currentConversation st) (nextPersona st)
    (fireIf (firesDuringWait (source n req)) (signal st)) (calls st)
    (events st ++ [Waited retryDelay])%list.

(** The pause before the next attempt of a turn. *)
Definition retryPause (n : nat) (req : Request) (turnAttempt : Z) (st : State)
  : State :=
  if turnAttempt <? maxTurnRetries then
    wait n req (if turnAttempt =? 1 then 3000 else 6000) st
  else st.

(** [for (let turnAttempt = 1; turnAttempt <= maxTurnRetries; turnAttempt++)],
    with [remaining] iterations left. *)
Fixpoint turnAttempts (remaining : nat) (turnAttempt : Z) (req : Request)
    (st : State) : TurnResult * State :=
  match remaining with
  | O => (TurnFailed, st)
  | S remaining' =>
      if aborted (signal st) then (TurnThrew abortedMessage, st)
      else
        let n := calls st in
        match generateContent req st with
        | (Throws msg, st1) => (TurnThrew msg, st1)
        | (Responds response, st1) =>
            if aborted (signal st1) then (TurnThrew abortedMessage, st1)
            else if isBlank (text response) then
              turnAttempts remaining' (turnAttempt + 1) req
                (retryPause n req turnAttempt st1)
            else
              match parsedTurn response with
              | Some tempParsed =>
                  if String.eqb (thought tempParsed) "" then
                    turnAttempts remaining' (turnAttempt + 1) req
                      (retryPause n req turnAttempt st1)
                  else (TurnParsed tempParsed, st1)
              | None =>
                  turnAttempts remaining' (turnAttempt + 1) req
                    (retryPause n req turnAttempt st1)
              end
        end
  end.

(** [parsedResponse.action === 'finalize_outline' && parsedResponse.final_outline] *)
Definition finalized (t : AcademicOutlineTurn) : option string :=
  if String.eqb (action t) "finalize_outline" then
    match final_outline t with
    | Some o => if String.eqb o "" then None else Some o
    | None => None
    end
  else None.

(** The code after the [while] loop. *)
Definition finalGeneration (st : State) : Result * State :=
  match generateContent (FinalRequest (currentConversation st)) st with
  | (Throws msg, st1) => (Failed msg, st1)
  | (Responds finalResponse, st1) =>
      if String.eqb (text finalResponse) "" then
        match blockReason finalResponse with
        | Some reason =>
            if String.eqb reason "" then
              (Failed "Failed to generate academic outline due to an empty response from the API.", st1)
            else
              (Failed ("Failed to generate final academic outline: Request was blocked by the API. Reason: " ++ reason), st1)
        | None =>
            (Failed "Failed to generate academic outline due to an empty response from the API.", st1)
        end
      else (Outline (trim (text finalResponse)), st1)
  end.

(** The [while (debateTurns < maxDebateRounds)] loop and what follows it.
    [hasObserver] tells whether [onDebateUpdate] was passed. *)
Fixpoint debate (fuel : nat) (maxDebateRounds : Z) (hasObserver : bool)
    (st : State) : Result * State :=
  if debateTurns st <? maxDebateRounds then
    match fuel with
    | O => (OutOfFuel, st)
    | S fuel' =>
        if aborted (signal st) then (Failed abortedMessage, st)
        else
          let st1 :=
            mkState (debateTurns st + 1) (currentConversation st)
              (nextPersona st) (signal st) (calls st)
              (events st ++ [TurnStarted (debateTurns st + 1) (nextPersona st)])%list in
          let isFirstTurn :=
            match currentConversation st1 with [] => true | _ => false end in
          let req := TurnRequest (nextPersona st1) (currentConversation st1)
                       isFirstTurn in
          match turnAttempts (Z.to_nat maxTurnRetries) 1 req st1 with
          | (TurnThrew msg, st2) => (Failed msg, st2)
          | (TurnFailed, st2) =>
              debate fuel' maxDebateRounds hasObserver
                (mkState (debateTurns st2 + 1) (currentConversation st2)
                   (flip (nextPersona st2)) (signal st2) (calls st2) (events st2))
          | (TurnParsed parsedResponse, st2) =>
              let st3 :=
                mkState (debateTurns st2)
                  (currentConversation st2
                     ++ [(nextPersona st2, thought parsedResponse)])%list
                  (nextPersona st2) (signal st2) (calls st2)
                  (if hasObserver
                   then events st2
                          ++ [Updated (nextPersona st2) (thought parsedResponse)]
                   else events st2)%list in
              match finalized parsedResponse with
              | Some outline => (Outline outline, st3)
              | None =>
                  debate fuel' maxDebateRounds hasObserver
                    (mkState (debateTurns st3) (currentConversation st3)
                       (flip (nextPersona st3)) (signal st3) (calls st3)
                       (events st3))
              end
          end
    end
  else finalGeneration st.

Definition initialState (s : Signal) : State := mkState 0 [] Alpha s 0 [].

(** [generateAcademicOutline(..., signal, onDebateUpdate)] with
    [researchParams.maxDebateRounds = maxDebateRounds]. *)
Definition generateAcademicOutline (maxDebateRounds : Z) (s : Signal)
    (hasObserver : bool) : Result * State :=
  debate (Z.to_nat maxDebateRounds) maxDebateRounds hasObserver (initialState s).

End WithSource.

(** Counters read off the event log. *)
Definition isFinalCall (e : Event) : bool :=
  match e with Called (FinalRequest _) => true | _ => false end.

Definition count (f : Event -> bool) (st : State) : nat :=
  List.length (filter f (events st)).

Fixpoint waitsOf (l : list Event) : list Z :=
  match l with
  | [] => []
  | Waited d :: rest => d :: waitsOf rest
  | _ :: rest => waitsOf rest
  end.

Fixpoint updatesOf (l : list Event) : Conversation :=
  match l with
  | [] => []
  | Updated p t :: rest => (p, t) :: updatesOf rest
  | _ :: rest => updatesOf rest
  end.

Fixpoint startsOf (l : list Event) : list AgentPersona :=
  match l with
  | [] => []
  | TurnStarted _ p :: rest => p :: startsOf rest
  | _ :: rest => startsOf rest
  end.

End Negotiation.


(** ** Views of the citation registry ([getAllCitations] and its filters) *)

Module Views.
Import Registry.

(** [(a.id || 0)] *)
Definition idOrZero (c : Citation) : Z :=
  match id c with Some i => i | None => 0 end.

(** [(c.timesCited || 0)] *)
Definition usage (c : Citation) : Z :=
  match timesCited c with Some t => t | None => 0 end.

(** [citations.sort((a, b) => (a.id || 0) - (b.id || 0))]: the sort is
    stable, records with equal ids keep their order. *)
Fixpoint insertById (c : Citation) (l : list Citation) : list Citation :=
  match l with
  | [] => [c]
  | d :: rest =>
      if idOrZero c <=? idOrZero d then c :: l else d :: insertById c rest
  end.

Fixpoint sortById (l : list Citation) : list Citation :=
  match l with
  | [] => []
  | c :: rest => insertById c (sortById rest)
  end.

Definition getAllCitations (mgr : CitationManager) : list Citation :=
  sortById (map snd (citations mgr)).

Definition getCitedCitations (mgr : CitationManager) : list Citation :=
  filter (fun c => 0 <? usage c) (getAllCitations mgr).

Definition getUncitedCitations (mgr : CitationManager) : list Citation :=
  filter (fun c => usage c =? 0) (getAllCitations mgr).

Record Stats := mkStats {
  total : Z;
  cited : Z;
  uncited : Z
}.

Definition getStats (mgr : CitationManager) : Stats :=
  let all := getAllCitations mgr in
  let citedList := filter (fun c => 0 <? usage c) all in
  mkStats (Z.of_nat (List.length all)) (Z.of_nat (List.length citedList))
    (Z.of_nat (List.length all) - Z.of_nat (List.length citedList)).

End Views.


(** ** Citation marks in text ([CitationTextProcessor]) *)

Module TextProcessor.
Import Registry.

(** The ids collected by the loop, when every one of them is a number. *)
Fixpoint numbers (l : list (option Z)) : option (list Z) :=
  match l with
  | [] => Some []
  | Some i :: rest =>
      match numbers rest with
      | Some is_ => Some (i :: is_)
      | None => None
      end
  | None :: _ => None
  end.

Section WithPlatform.

Variable parseURL : string -> option URL.
Variable today : string.

(** [insertCitationMarks(text, citations)].  The result is [None] when
    [addCitation] returns [undefined] for a stored record without an id,
    a case the numeric renderer does not cover. *)
Definition insertCitationMarks (text : string) (cs : list Citation)
    (mgr : CitationManager) : option (string * CitationManager) :=
  match cs with
  | [] => Some (text, mgr)
  | _ =>
      let (ids, mgr1) := addCitations parseURL today cs mgr in
      match numbers ids with
      | Some citationIds =>
          let (citationMark, mgr2) :=
            generateMultipleInTextCitations citationIds mgr1 in
          Some (trim text ++ " " ++ citationMark, mgr2)
      | None => None
      end
  end.

End WithPlatform.

(** [s.split(sep)] for a separator of one character. *)
Fixpoint split (sep : ascii) (s : string) : list string :=
  match s with
  | EmptyString => [EmptyString]
  | String c r =>
      if Ascii.eqb c sep then EmptyString :: split sep r
      else match split sep r with
           | first :: rest => String c first :: rest
           | [] => [String c EmptyString]
           end
  end.

(** [s.includes(c)] *)
Fixpoint includes (c : ascii) (s : string) : bool :=
  match s with
  | EmptyString => false
  | String d r => Ascii.eqb d c || includes c r
  end.

(** The value of a digit in the given radix. *)
Definition digitValue (radix : Z) (c : ascii) : option Z :=
  let n := Z.of_nat (nat_of_ascii c) in
  let v := if (48 <=? n) && (n <=? 57) then Some (n - 48)
           else if (97 <=? n) && (n <=? 122) then Some (n - 87)
           else if (65 <=? n) && (n <=? 90) then Some (n - 55)
           else None in
  match v with
  | Some d => if d <? radix then Some d else None
  | None => None
  end.

(** The longest prefix of digits, read from the left. *)
Fixpoint readDigits (radix : Z) (acc : option Z) (s : string) : option Z :=
  match s with
  | EmptyString => acc
  | String c r =>
      match digitValue radix c with
      | Some d =>
          readDigits radix
            (Some (radix * match acc with Some a => a | None => 0 end + d)) r
      | None => acc
      end
  end.

(** [parseInt(s)] without a radix: leading white space, a sign, the
    prefix [0x] or [0X] for radix 16, then digits; [None] is [NaN]. *)
Definition parseInt (s : string) : option Z :=
  let s1 := trimStart s in
  let signed :=
    match s1 with
    | String "-" r => (true, r)
    | String "+" r => (false, r)
    | _ => (false, s1)
    end in
  let based :=
    match snd signed with
    | String "0" (String "x" r) => (16, r)
    | String "0" (String "X" r) => (16, r)
    | other => (10, other)
    end in
  match readDigits (fst based) None (snd based) with
  | Some v => Some (if fst signed then - v else v)
  | None => None
  end.

(** [for (let i = start; i <= end; i++) ids.push(i)] *)
Definition range (first last : Z) : list Z :=
  map (fun k => first + Z.of_nat k) (seq 0 (Z.to_nat (last - first + 1))).

(** The body of the loop over the parts of [parseCitationString]. *)
Definition parsePart (part : string) : list Z :=
  let trimmed := trim part in
  if includes "-" trimmed then
    match map (fun s => parseInt (trim s)) (split "-" trimmed) with
    | Some first :: Some last :: _ => range first last
    | _ => []
    end
  else
    match parseInt trimmed with
    | Some i => [i]
    | None => []
    end.

Definition parseCitationString (citationStr : string) : list Z :=
  flat_map parsePart (split "," citationStr).

End TextProcessor.


(** ** Error statistics of the tracker ([getErrorStats]) *)

Module Stats.
Import Tracker.

Record ErrorStats := mkErrorStats {
  total : Z;
  recent : Z
}.

Definition getErrorStats (now : Z) (h : ErrorHistory) : ErrorStats :=
  mkErrorStats (Z.of_nat (List.length h)) (getRecentErrorCount now h).

End Stats.


(** ** The outline debate without retries (the second [generateAcademicOutline]) *)

Module StrictOutline.
Import Negotiation.

(** [const maxDebateRounds = 4] *)
Definition maxDebateRounds : Z := 4.

(** The message of the [TypeError] raised by [parsedResponse.thought] when
    [parseJsonFromMarkdown] returned [null] (as V8 words it). *)
Definition nullThought : string :=
  "Cannot read properties of null (reading 'thought')".

Definition emptyFinal : string := "Failed to generate academic outline".

Section WithSource.

Variable source : Source.

(** The code after the [while] loop. *)
Definition finalGeneration (st : State) : Result * State :=
  match generateContent source (FinalRequest (currentConversation st)) st with
  | (Throws msg, st1) => (Failed msg, st1)
  | (Responds finalResponse, st1) =>
      if String.eqb (text finalResponse) "" then (Failed emptyFinal, st1)
      else (Outline (trim (text finalResponse)), st1)
  end.

(** The [while (debateTurns < maxDebateRounds)] loop and what follows it.
    [parseJsonFromMarkdown] returns [null] for a blank text; a thought
    that is missing or empty is pushed as it is. *)
Fixpoint debate (fuel : nat) (st : State) : Result * State :=
  if debateTurns st <? maxDebateRounds then
    match fuel with
    | O => (OutOfFuel, st)
    | S fuel' =>
        if aborted (signal st) then (Failed abortedMessage, st)
        else
          let st1 :=
            mkState (debateTurns st + 1) (currentConversation st)
              (nextPersona st) (signal st) (calls st)
              (events st ++ [TurnStarted (debateTurns st + 1) (nextPersona st)])%list in
          let isFirstTurn :=
            match currentConversation st1 with [] => true | _ => false end in
          let req := TurnRequest (nextPersona st1) (currentConversation st1)
                       isFirstTurn in
          match generateContent source req st1 with
          | (Throws msg, st2) => (Failed msg, st2)
          | (Responds response, st2) =>
              if aborted (signal st2) then (Failed abortedMessage, st2)
              else
                match (if isBlank (text response) then None
                       else parsedTurn response) with
                | None => (Failed nullThought, st2)
                | Some parsedResponse =>
                    let st3 :=
                      mkState (debateTurns st2)
                        (currentConversation st2
                           ++ [(nextPersona st2, thought parsedResponse)])%list
                        (nextPersona st2) (signal st2) (calls st2) (events st2) in
                    match finalized parsedResponse with
                    | Some outline => (Outline outline, st3)
                    | None =>
                        debate fuel'
                          (mkState (debateTurns st3) (currentConversation st3)
                             (flip (nextPersona st3)) (signal st3) (calls st3)
                             (events st3))
                    end
                end
          end
    end
  else finalGeneration st.

(** [generateAcademicOutline(..., signal)] *)
Definition generateAcademicOutline (s : Signal) : Result * State :=
  debate (Z.to_nat maxDebateRounds) (initialState s).

End WithSource.

End StrictOutline.


(** ** Citations of a search ([executeSingleSearch]) *)

Module Search.
Import Registry.

(** [chunk.web] of a grounding chunk. *)
Record Chunk := mkChunk {
  uri : string;
  chunkTitle : option string
}.

(** [{ url: chunk.web.uri, title: chunk.web.title || chunk.web.uri }] *)
Definition rawCitation (chunk : Chunk) : Citation :=
  mkCitation (uri chunk) (orElse (chunkTitle chunk) (uri chunk))
    None None None None None None.

(** [new Map(rawCitations.map(c => [c.url, c]))]: a repeated key keeps
    its place and takes the later value. *)
Definition byUrl (rawCitations : list Citation) : CitationMap :=
  fold_left (fun m c => mapSet (url c) c m) rawCitations [].

(** [Array.from(new Map(...).values())] *)
Definition uniqueCitations (rawCitations : list Citation) : list Citation :=
  map snd (byUrl rawCitations).

(** The [citations] of the result; [groundingChunks] is [None] when the
    response carries no grounding metadata. *)
Definition citationsOf (groundingChunks : option (list Chunk)) : list Citation :=
  let rawCitations :=
    match groundingChunks with
    | Some chunks => map rawCitation chunks
    | None => []
    end in
  uniqueCitations rawCitations.

End Search.


(** ** The research context ([ResearchContextManager]) *)

Module Context.
Import Tracker.

(** [contextStack] is an array: [push] appends, [pop] takes the last. *)
Record ResearchContext := mkContext {
  currentMode : ResearchMode;
  contextStack : list ResearchMode
}.

Definition newContext : ResearchContext := mkContext Balanced [].

Definition setMode (mode : ResearchMode) (ctx : ResearchContext) : ResearchContext :=
  mkContext mode (contextStack ctx).

Definition getCurrentMode (ctx : ResearchContext) : ResearchMode := currentMode ctx.

Definition pushMode (mode : ResearchMode) (ctx : ResearchContext) : ResearchContext :=
  mkContext mode (contextStack ctx ++ [currentMode ctx])%list.

(** [popMode()]: the value returned and the context left. *)
Definition popMode (ctx : ResearchContext) : ResearchMode * ResearchContext :=
  match rev (contextStack ctx) with
  | [] => (currentMode ctx, ctx)
  | top :: below => (currentMode ctx, mkContext top (rev below))
  end.

Definition clearStack (ctx : ResearchContext) : ResearchContext :=
  mkContext (currentMode ctx) [].

(** [getContextInfo()]: [currentMode] and [stackDepth]. *)
Definition getContextInfo (ctx : ResearchContext) : ResearchMode * Z :=
  (currentMode ctx, Z.of_nat (List.length (contextStack ctx))).

(** [pushMode] for each mode in turn, and [n] calls of [popMode] with the
    values they return. *)
Definition pushAll (modes : list ResearchMode) (ctx : ResearchContext)
  : ResearchContext :=
  fold_left (fun c m => pushMode m c) modes ctx.

Fixpoint popTimes (n : nat) (ctx : ResearchContext)
  : list ResearchMode * ResearchContext :=
  match n with
  | O => ([], ctx)
  | S n' =>
      let (returned, ctx1) := popMode ctx in
      let (others, ctx2) := popTimes n' ctx1 in
      (returned :: others, ctx2)
  end.

End Context.


(** ** The start of a synthesis ([synthesizeReport], [getCitationInstructions]) *)

Module Synthesis.
Import Registry Views.

Section WithPlatform.

Variable parseURL : string -> option URL.
Variable today : string.

(** [citationManager.clear(); citationManager.addCitations(citations)] *)
Definition initializeCitations (cs : list Citation) (mgr : CitationManager)
  : CitationManager :=
  snd (addCitations parseURL today cs (clear mgr)).

End WithPlatform.

Definition newline : string := String (ascii_of_nat 10) EmptyString.

(** [`${citation.id}`] *)
Definition showId (i : option Z) : string :=
  match i with Some n => showZ n | None => "undefined" end.

(** [`[${citation.id}] ${citation.title} (${citation.url})`] *)
Definition citationLine (c : Citation) : string :=
  "[" ++ showId (id c) ++ "] " ++ title c ++ " (" ++ url c ++ ")".

(** Which of the two texts [getCitationInstructions] returns, with the
    values it puts into the second one: [stats.total] and [citationList]. *)
Inductive CitationInstructions :=
| NoCitationsAvailable
| Available (total : Z) (citationList : string).

Definition getCitationInstructions (mgr : CitationManager) : CitationInstructions :=
  let stats := getStats mgr in
  let availableCitations := getAllCitations mgr in
  if (List.length availableCitations =? 0)%nat then NoCitationsAvailable
  else Available (total stats) (join newline (map citationLine availableCitations)).

End Synthesis.


(** ** JSON inside markdown ([parseJsonFromMarkdown] of utils.ts) *)

Module Markdown.

(** [s.startsWith(p)] *)
Fixpoint startsWith (p s : string) : bool :=
  match p, s with
  | EmptyString, _ => true
  | String a p', String b s' => Ascii.eqb a b && startsWith p' s'
  | String _ _, EmptyString => false
  end.

Fixpoint drop (n : nat) (s : string) : string :=
  match n, s with
  | O, _ => s
  | S n', String _ r => drop n' r
  | S _, EmptyString => EmptyString
  end.

Definition fence : string := "```".

(** The text before and after the first fence. *)
Fixpoint splitAtFence (s : string) : option (string * string) :=
  match s with
  | EmptyString => None
  | String c r =>
      if startsWith fence s then Some (EmptyString, drop 3 s)
      else match splitAtFence r with
           | Some (before, after) => Some (String c before, after)
           | None => None
           end
  end.

(** Group 2 of [text.match(/```(json)?\s*([\s\S]*?)\s*```/)]: the match
    starts at the first fence, takes the tag [json] when it is there and
    all white space after it; the lazy group ends where only white space
    separates it from the next fence. *)
Definition codeBlock (text : string) : option string :=
  match splitAtFence text with
  | None => None
  | Some (_, afterFence) =>
      let afterTag :=
        if startsWith "json" afterFence then drop 4 afterFence else afterFence in
      match splitAtFence (trimStart afterTag) with
      | None => None
      | Some (content, _) => Some (trimEnd content)
      end
  end.

(** [s.indexOf(c)] and [s.lastIndexOf(c)] for a character; [-1] when absent. *)
Fixpoint indexOf (c : ascii) (s : string) : Z :=
  match s with
  | EmptyString => -1
  | String d r =>
      if Ascii.eqb d c then 0
      else let i := indexOf c r in if i <? 0 then -1 else i + 1
  end.

Fixpoint lastIndexOf (c : ascii) (s : string) : Z :=
  match s with
  | EmptyString => -1
  | String d r =>
      let j := lastIndexOf c r in
      if j <? 0 then (if Ascii.eqb d c then 0 else -1) else j + 1
  end.

(** [s.substring(first, last)] for [0 <= first <= last]. *)
Definition substring (first last : Z) (s : string) : string :=
  String.substring (Z.to_nat first) (Z.to_nat (last - first)) s.

Section WithJSON.

Context {A : Type}.

(** [JSON.parse]; [None] when it throws. *)
Variable jsonParse : string -> option A.

(** [parseJsonFromMarkdown(text)]; [None] is [null]. *)
Definition parseJsonFromMarkdown (text : string) : option A :=
  if String.eqb text "" || String.eqb (trim text) "" then None
  else
    let jsonStr := match codeBlock text with Some block => block | None => text end in
    let firstBrace := indexOf "{" jsonStr in
    let lastBrace := lastIndexOf "}" jsonStr in
    if (firstBrace =? -1) || (lastBrace =? -1) || (lastBrace <? firstBrace) then None
    else jsonParse (substring firstBrace (lastBrace + 1) jsonStr).

End WithJSON.

End Markdown.


(** ** Citations grouped by domain ([advancedDeduplication]) *)

Module Dedup.
Import Registry.

(** [Map<string, Citation[]>], in insertion order. *)
Definition Groups := list (string * list Citation).

Fixpoint groupGet (key : string) (g : Groups) : option (list Citation) :=
  match g with
  | [] => None
  | (k, members) :: rest => if String.eqb k key then Some members else groupGet key rest
  end.

Fixpoint groupSet (key : string) (members : list Citation) (g : Groups) : Groups :=
  match g with
  | [] => [(key, members)]
  | (k, old) :: rest =>
      if String.eqb k key then (k, members) :: rest
      else (k, old) :: groupSet key members rest
  end.

(** [s.includes(needle)] *)
Fixpoint includesText (needle s : string) : bool :=
  match s with
  | EmptyString => Markdown.startsWith needle EmptyString
  | String _ r => Markdown.startsWith needle s || includesText needle r
  end.

(** [host.replace(/^www\./, '')] *)
Definition stripWww (host : string) : string :=
  if Markdown.startsWith "www." host then Markdown.drop 4 host else host.

(** [(a.title?.length || 0) + (a.url.includes('https') ? 10 : 0)] *)
Definition score (c : Citation) : Z :=
  Z.of_nat (String.length (title c))
  + (if includesText "https" (url c) then 10 else 0).

(** [domainCitations.sort((a, b) => bScore - aScore)]: highest score
    first; the sort is stable. *)
Fixpoint insertByScore (c : Citation) (l : list Citation) : list Citation :=
  match l with
  | [] => [c]
  | d :: rest =>
      if score c <? score d then d :: insertByScore c rest else c :: l
  end.

Fixpoint sortByScore (l : list Citation) : list Citation :=
  match l with
  | [] => []
  | c :: rest => insertByScore c (sortByScore rest)
  end.

(** What one group contributes to the result. *)
Definition best (domainCitations : list Citation) : list Citation :=
  match domainCitations with
  | [only] => [only]
  | _ => firstn 2 (sortByScore domainCitations)
  end.

Section WithPlatform.

Variable parseURL : string -> option URL.

(** The domain of a citation whose URL parses. *)
Definition domainOf (c : Citation) : option string :=
  match parseURL (url c) with
  | Some u => Some (stripWww (toLowerCase (hostname u)))
  | None => None
  end.

(** One round of [citations.forEach]. *)
Definition addToGroups (g : Groups) (c : Citation) : Groups :=
  match domainOf c with
  | Some domain =>
      match groupGet domain g with
      | Some members => groupSet domain (members ++ [c])%list g
      | None => groupSet domain [c] g
      end
  | None => groupSet ("invalid_" ++ url c) [c] g
  end.

Definition advancedDeduplication (citations : list Citation) : list Citation :=
  flat_map (fun group => best (snd group)) (fold_left addToGroups citations []).

End WithPlatform.

End Dedup.


(** ** Vocabulary of the specification *)

Module Spec.

(** Position of the first occurrence of [k] in [l] ([length l] when absent). *)
Fixpoint indexOf (k : string) (l : list string) : nat :=
  match l with
  | [] => O
  | x :: rest => if String.eqb x k then O else S (indexOf k rest)
  end.

(** The distinct elements of [l] in the order of their first occurrence. *)
Fixpoint firstSeen (l : list string) : list string :=
  match l with
  | [] => []
  | k :: rest => k :: filter (fun x => negb (String.eqb x k)) (firstSeen rest)
  end.

(** The keys of the map after the keys [ks] were added to a map with keys
    [seen]: the accumulator view of [firstSeen]. *)
Fixpoint seenAfter (seen ks : list string) : list string :=
  match ks with
  | [] => seen
  | k :: rest =>
      if existsb (String.eqb k) seen then seenAfter seen rest
      else seenAfter (seen ++ [k]) rest
  end.

Definition without (seen l : list string) : list string :=
  filter (fun x => negb (existsb (String.eqb x) seen)) l.


(** The stored records carry the ids [start], [start + 1], ... in
    insertion order. *)
Fixpoint numberedFrom (start : Z) (m : Registry.CitationMap) : Prop :=
  match m with
  | [] => True
  | (_, c) :: rest => Registry.id c = Some start /\ numberedFrom (start + 1) rest
  end.

(** The invariant of a registry: ids number the records from 1 and the
    counter is the next free id. *)
Definition wellNumbered (mgr : Registry.CitationManager) : Prop :=
  numberedFrom 1 (Registry.citations mgr)
  /\ Registry.citationCounter mgr
     = 1 + Z.of_nat (List.length (Registry.citations mgr)).

(** The integers [a, a+1, ..., b] (empty when [b < a]). *)
Definition interval (r : Z * Z) : list Z :=
  let (a, b) := r in
  map (fun i => a + Z.of_nat i) (seq 0 (Z.to_nat (b - a + 1))).

Definition wellFormed (r : Z * Z) : Prop := fst r <= snd r.

(** No two neighbouring ranges could have been merged into one. *)
Fixpoint unmergeable (rs : list (Z * Z)) : Prop :=
  match rs with
  | (_, b) :: (((a', _) :: _) as rest) => a' <> b + 1 /\ unmergeable rest
  | _ => True
  end.

(** A range put in front of a list of ranges: it absorbs the first of
    them when that one starts right after it. *)
Definition extend (r : Z * Z) (rs : list (Z * Z)) : list (Z * Z) :=
  let (s, f) := r in
  match rs with
  | (a, b) :: rs' => if a =? f + 1 then (s, b) :: rs' else (s, f) :: rs
  | [] => [(s, f)]
  end.

(** Consecutive runs merged into ranges: [x] joins the range that follows
    it when that range starts at [x + 1]. *)
Fixpoint runs (l : list Z) : list (Z * Z) :=
  match l with
  | [] => []
  | x :: rest => extend (x, x) (runs rest)
  end.

(** The in-text mark as the specification words it: sort, merge, render. *)
Definition renderMark (ids : list Z) : string :=
  "[" ++ join ", " (map Registry.renderRange (runs (Registry.sortAsc ids))) ++ "]".

(** Ascending order, repetitions allowed. *)
Fixpoint ascending (l : list Z) : Prop :=
  match l with
  | x :: ((y :: _) as rest) => x <= y /\ ascending rest
  | _ => True
  end.

(** Usage count of the record with the given id ([None]: no such record). *)
Definition usageOf (i : Z) (m : Registry.CitationMap) : option Z :=
  match Registry.getCitationById i m with
  | Some c => Some (match Registry.timesCited c with Some t => t | None => 0 end)
  | None => None
  end.

(** The claim that one call of [recordCitationUsage] counts every
    referenced record once. *)
Definition usedOnce (ids : list Z) (before after : Registry.CitationMap) : Prop :=
  forall i t, In i ids -> usageOf i before = Some t -> usageOf i after = Some (t + 1).

(** The base delay after the [switch] on the mode, as the code computes
    it. *)
Definition plainProduct (mode : Tracker.ResearchMode)
    (c : Tracker.ApiIntervalConfig) : Double.number :=
  match mode with
  | Tracker.DeepDive => Double.mul (Tracker.baseDelayMs c) (Tracker.deepDiveMultiplier c)
  | Tracker.Balanced => Double.mul (Tracker.baseDelayMs c) (Tracker.balancedMultiplier c)
  | Tracker.Quick => Double.mul (Tracker.baseDelayMs c) (Tracker.quickMultiplier c)
  | Tracker.Fast | Tracker.UltraFast => Tracker.baseDelayMs c
  end.

(** The product the specification names for an escalated delay, as the
    code computes it: from left to right, each product a double. *)
Definition escalatedProduct (mode : Tracker.ResearchMode)
    (c : Tracker.ApiIntervalConfig) : Double.number :=
  Double.mul (plainProduct mode c) (Tracker.errorMultiplier c).

(** The claim that an escalated delay is at least the clamped product. *)
Definition atLeastEscalated (mode : Tracker.ResearchMode)
    (c : Tracker.ApiIntervalConfig) (delay : Double.Rounded) : Prop :=
  match Double.extended (Double.mathMin (escalatedProduct mode c) Tracker.maxDelay),
        delay with
  | Double.Finite q, Double.Whole n => (q <= inject_Z n)%Q
  | _, _ => False
  end.

(** A number that is finite and above zero, and a configuration whose
    delay and factors are such numbers. *)
Definition positiveNumber (x : Double.number) : Prop :=
  exists m e, x = SpecFloat.S754_finite false m e.

Definition positiveConfig (c : Tracker.ApiIntervalConfig) : Prop :=
  positiveNumber (Tracker.baseDelayMs c)
  /\ positiveNumber (Tracker.deepDiveMultiplier c)
  /\ positiveNumber (Tracker.balancedMultiplier c)
  /\ positiveNumber (Tracker.quickMultiplier c)
  /\ positiveNumber (Tracker.errorMultiplier c).

(** The error the inner [try] of an attempt throws when the caller does
    not abort the call ([None]: the attempt succeeds). *)
Definition raised (a : Execution.Attempt) : option Execution.JsError :=
  match Execution.tryFetch None a with
  | (inl e, _) => Some e
  | (inr _, _) => None
  end.

(** An attempt that ends with an HTTP status 5xx. *)
Definition serverErrorAttempt (a : Execution.Attempt) : bool :=
  negb (Execution.cancelInFlight a)
  && match Execution.inFlight a with
     | Execution.Replies r =>
         (500 <=? Execution.status r) && (Execution.status r <? 600)
     | _ => false
     end.

(** The error of a 429 whose retry information the [catch] block cannot
    read: [details] is no array, holds [null] before the entry looked
    for, or the [retryDelay] of that entry is no string. *)
Definition unreadable (e : Execution.JsError) : bool :=
  Execution.isRateLimit e
  && match Execution.suggestedSeconds e with
     | inl _ => true
     | inr _ => false
     end.

(** An attempt that fails with an error other than an abort, and after
    which the [catch] block goes on. *)
Definition failingAttempt (a : Execution.Attempt) : bool :=
  negb (Execution.cancelInFlight a)
  && match raised a with
     | Some e =>
         negb (String.eqb (Execution.name e) "AbortError") && negb (unreadable e)
     | None => false
     end.

(** How the aggregate error names a failed answer: by the message of
    its error body (the message embedded in it, when that message is
    itself the text of an error body), and by its status when the body
    carries no message; by status and raw text when the body does not
    parse. *)
Definition namedBy (embeddedMessage : string -> option string)
    (r : Execution.Reply) : string :=
  match Execution.parsed r with
  | None => "API Error: " ++ showZ (Execution.status r) ++ " - " ++ Execution.responseText r
  | Some body =>
      match Execution.errorMessage body with
      | Some m =>
          if String.eqb m "" then "API Error: " ++ showZ (Execution.status r)
          else if startsWithBrace m then
            match embeddedMessage m with
            | Some inner => if String.eqb inner "" then m else inner
            | None => m
            end
          else m
      | None => "API Error: " ++ showZ (Execution.status r)
      end
  end.

(** The attempts made and the delays slept, read off the event log. *)
Fixpoint fetchesOf (l : list Execution.Event) : list (Z * string) :=
  match l with
  | [] => []
  | Execution.Fetched i k :: rest => (i, k) :: fetchesOf rest
  | _ :: rest => fetchesOf rest
  end.

Fixpoint delaysOf (l : list Execution.Event) : list Q :=
  match l with
  | [] => []
  | Execution.Slept d :: rest => d :: delaysOf rest
  | _ :: rest => delaysOf rest
  end.

(** Pools whose credentials are all non-empty. *)
Definition usable (p : Execution.Pool) : Prop :=
  Execution.keys p <> [] /\ Forall (fun k => k <> "") (Execution.keys p).

(** An attempt answered with status 2xx and a body that parses but
    carries no text, or only white space. *)
Definition blankAttempt (a : Execution.Attempt) : bool :=
  negb (Execution.cancelInFlight a)
  && match Execution.inFlight a with
     | Execution.Replies r =>
         Execution.isOk r
         && match Execution.parsed r with
            | Some p =>
                isBlank (match Execution.primaryText p with
                         | Some t => t
                         | None => ""
                         end)
            | None => false
            end
     | _ => false
     end.

(** The attempts started after the caller's signal fired. *)
Fixpoint fetchesAfterCancel (l : list Execution.Event) : list (Z * string) :=
  match l with
  | [] => []
  | Execution.CallerCancelled :: rest => fetchesOf rest
  | _ :: rest => fetchesAfterCancel rest
  end.

(** The attempt numbers [i, i+1, ..., i+n-1]. *)
Definition attemptsFrom (i : Z) (n : nat) : list Z :=
  map (fun k => i + Z.of_nat k) (seq 0 n).

(** The claim that a failed attempt of any retryable class is followed by
    a delay of at least three seconds. *)
Definition backsOffAfterFailure (l : list Execution.Event) : Prop :=
  exists d, delaysOf l = [d] /\ (3000 <= d)%Q.

(** A call during which the caller's signal stays as it is. *)
Definition quiet (c : Negotiation.Call) : bool :=
  negb (Negotiation.firesDuringCall c) && negb (Negotiation.firesDuringWait c).

(** The turn a response is accepted as: text not blank, parsed, with a
    non-empty thought. *)
Definition accepted (c : Negotiation.Call) : option Negotiation.AcademicOutlineTurn :=
  match Negotiation.outcome c with
  | Negotiation.Responds r =>
      if isBlank (Negotiation.text r) then None
      else match Negotiation.parsedTurn r with
           | Some t => if String.eqb (Negotiation.thought t) "" then None else Some t
           | None => None
           end
  | Negotiation.Throws _ => None
  end.

(** A turn answer that is accepted and does not finalize. *)
Definition continues (c : Negotiation.Call) : bool :=
  quiet c
  && match accepted c with
     | Some t => match Negotiation.finalized t with Some _ => false | None => true end
     | None => false
     end.


(** A turn answer that is returned but not accepted. *)
Definition unusable (c : Negotiation.Call) : bool :=
  quiet c
  && match Negotiation.outcome c with
     | Negotiation.Responds _ =>
         match accepted c with Some _ => false | None => true end
     | Negotiation.Throws _ => false
     end.

(** A turn source that never throws, never finalizes and leaves the
    caller's signal alone. *)
Definition neverFinalizes (source : Negotiation.Source) : Prop :=
  forall n p conv first,
    let c := source n (Negotiation.TurnRequest p conv first) in
    continues c = true \/ unusable c = true.

(** A turn source that never returns a usable turn. *)
Definition neverUsable (source : Negotiation.Source) : Prop :=
  forall n p conv first,
    unusable (source n (Negotiation.TurnRequest p conv first)) = true.

(** The request of the turn that starts in state [st]. *)
Definition turnRequestOf (st : Negotiation.State) : Negotiation.Request :=
  Negotiation.TurnRequest (Negotiation.nextPersona st)
    (Negotiation.currentConversation st)
    (match Negotiation.currentConversation st with [] => true | _ => false end).



(** The state after a turn that started in [st] and was skipped. *)
Definition afterSkipped (st : Negotiation.State) : Negotiation.State :=
  let p := Negotiation.nextPersona st in
  Negotiation.mkState (Negotiation.debateTurns st + 1 + 1)
    (Negotiation.currentConversation st) (Negotiation.flip p)
    (Negotiation.signal st) (S (S (Negotiation.calls st)))
    (Negotiation.events st
     ++ [Negotiation.TurnStarted (Negotiation.debateTurns st + 1) p;
         Negotiation.Called (turnRequestOf st);
         Negotiation.Waited 3000;
         Negotiation.Called (turnRequestOf st)])%list.

(** What the retry loop of a turn leaves untouched. *)
Definition sameTurn (st st' : Negotiation.State) : Prop :=
  Negotiation.debateTurns st' = Negotiation.debateTurns st
  /\ Negotiation.currentConversation st' = Negotiation.currentConversation st
  /\ Negotiation.nextPersona st' = Negotiation.nextPersona st
  /\ Negotiation.updatesOf (Negotiation.events st') = Negotiation.updatesOf (Negotiation.events st)
  /\ Negotiation.startsOf (Negotiation.events st') = Negotiation.startsOf (Negotiation.events st)
  /\ filter Negotiation.isFinalCall (Negotiation.events st') = filter Negotiation.isFinalCall (Negotiation.events st).

(** The number of scripted turns in a log. *)
Definition turnsIn (st : Negotiation.State) : nat :=
  List.length (Negotiation.startsOf (Negotiation.events st)).

(** The claim that the fallback call is round [N + 1]: exactly [N]
    scripted turns precede the one fallback call. *)
Definition fallbackAtRound (N : Z) (st : Negotiation.State) : Prop :=
  Z.of_nat (turnsIn st) = N /\ Negotiation.count Negotiation.isFinalCall st = 1%nat.

Definition spoke (p : Negotiation.AgentPersona) (conv : Negotiation.Conversation)
  : bool :=
  existsb (fun entry =>
             match fst entry, p with
             | Negotiation.Alpha, Negotiation.Alpha => true
             | Negotiation.Beta, Negotiation.Beta => true
             | _, _ => false
             end) conv.

End Spec.


(** ** Concrete inputs *)

Module Scenario.

(** Splits [s] before the first character that satisfies [stop]. *)
Fixpoint upTo (stop : ascii -> bool) (s : string) : string * string :=
  match s with
  | EmptyString => ("", "")
  | String c r =>
      if stop c then ("", s)
      else let (a, b) := upTo stop r in (String c a, b)
  end.

Definition oneOf (chars : string) (c : ascii) : bool :=
  existsb (Ascii.eqb c) (list_ascii_of_string chars).

(** A small stand-in for [new URL] on texts of the shape
    [scheme://host/path?query#fragment]; anything else does not parse. *)
Definition parseSimpleURL (u : string) : option Registry.URL :=
  match index 0 "://" u with
  | Some (S n) =>
      let rest := substring (S n + 3) (String.length u) u in
      let (host, afterHost) := upTo (oneOf "/?#") rest in
      let (path, _) := upTo (oneOf "?#") afterHost in
      if String.eqb host "" then None
      else Some (Registry.mkURL (toLowerCase (substring 0 (S n) u) ++ ":")
                   (toLowerCase host)
                   (if String.eqb path "" then "/" else path))
  | _ => None
  end.

Definition cite (u t : string) : Registry.Citation :=
  Registry.mkCitation u t None None None None None None.

Definition today : string := "2025-01-01".

Definition paperA := cite "https://Example.org/paper?utm=1" "A".
Definition paperB := cite "https://arxiv.org/abs/1#sec2" "B".
Definition paperA' := cite "https://example.org/paper#top" "A again".
Definition draft1 := cite "  Notes/Draft-1 " "draft".
Definition draft2 := cite "notes/draft-1" "draft, retyped".

(** A registry that holds [paperA] under id 1 and [paperB] under id 2. *)
Definition twoPapers : Registry.CitationManager :=
  snd (Registry.addCitations parseSimpleURL today [paperA; paperB]
         Registry.newManager).

(** An interval configuration with a base delay of 1002 ms. *)
Definition oddBase : Tracker.ApiIntervalConfig :=
  Tracker.mkConfig (Double.ofZ 1002) true (Double.ratio 12 10) (Double.ratio 11 10)
    (Double.ofZ 1) (Double.ofZ 3) (Double.ratio 15 10).

(** A base delay of 50 ms with a factor of 1.15 for mode Balanced and an
    error factor of 1: the product is the double just below 57.5. *)
Definition smallProduct : Tracker.ApiIntervalConfig :=
  Tracker.mkConfig (Double.ofZ 50) true (Double.ofZ 1) (Double.ratio 115 100)
    (Double.ofZ 1) (Double.ofZ 3) (Double.ofZ 1).

(** Three rate-limit events recorded within the last second before [noon]. *)
Definition noon : Z := 1700000000000.

Definition threeRecent : Tracker.ErrorHistory :=
  Tracker.record429Error (noon - 100)
    (Tracker.record429Error (noon - 500)
       (Tracker.record429Error (noon - 900) [])).

Definition noEmbedded (_ : string) : option string := None.

Definition twoKeys : Execution.Pool := Execution.mkPool ["key-AAAA"; "key-BBBB"] 0.

Definition unavailable : Execution.Reply :=
  Execution.mkReply 503 "Service Unavailable" None.

Definition answer : Execution.Reply :=
  Execution.mkReply 200 "{...}"
    (Some (Execution.mkPayload None Execution.NoDetails (Some "forty-two"))).

Definition blankAnswer : Execution.Reply :=
  Execution.mkReply 200 "{...}" (Some (Execution.mkPayload None Execution.NoDetails (Some "  "))).

Definition quota : Execution.Reply :=
  Execution.mkReply 429 "{...}"
    (Some (Execution.mkPayload (Some "Quota exceeded")
             (Execution.DetailList
                [Execution.Holds
                   (Execution.mkDetail Execution.retryInfoType
                      (Execution.DelayText "17s"))]) None)).

Definition plainly (f : Execution.InFlight) : Execution.Attempt :=
  Execution.mkAttempt false f (1 # 4) noon false.

(** Every attempt is answered with status 503. *)
Definition alwaysUnavailable (_ : Z) : Execution.Attempt :=
  plainly (Execution.Replies unavailable).

(** Every attempt is answered with status 503, and the caller fires its
    signal during the sleep that follows the first attempt. *)
Definition cancelledWhileWaiting (attempt : Z) : Execution.Attempt :=
  Execution.mkAttempt false (Execution.Replies unavailable) (1 # 4) noon
    (attempt =? 1).

(** As before, but the second attempt is answered. *)
Definition cancelledThenAnswered (attempt : Z) : Execution.Attempt :=
  Execution.mkAttempt false
    (Execution.Replies (if attempt =? 1 then unavailable else answer))
    (1 # 4) noon (attempt =? 1).

(** The caller fires its signal while the second call is in flight. *)
Definition cancelledInFlight (attempt : Z) : Execution.Attempt :=
  Execution.mkAttempt (attempt =? 2) (Execution.Replies unavailable) (1 # 4)
    noon false.

(** The first attempt times out, the second is answered. *)
Definition timeoutThenAnswered (attempt : Z) : Execution.Attempt :=
  plainly (if attempt =? 1 then Execution.TimesOut else Execution.Replies answer).

(** Every attempt is answered with a blank text. *)
Definition alwaysBlank (_ : Z) : Execution.Attempt :=
  plainly (Execution.Replies blankAnswer).

Definition reply (t : Negotiation.AcademicOutlineTurn) : Negotiation.Call :=
  Negotiation.mkCall
    (Negotiation.Responds (Negotiation.mkResponse "{...}" (Some t) None))
    false false.

(** Alpha always continues; Beta continues on its first turn and
    finalizes on its second. *)
Definition scripted : Negotiation.Source :=
  fun _ req =>
    match req with
    | Negotiation.TurnRequest Negotiation.Alpha _ _ =>
        reply (Negotiation.mkTurn "frame the review" "continue_debate" None)
    | Negotiation.TurnRequest Negotiation.Beta conv _ =>
        if Spec.spoke Negotiation.Beta conv
        then reply (Negotiation.mkTurn "settled" "finalize_outline"
                      (Some "# Outline"))
        else reply (Negotiation.mkTurn "add subsections" "continue_debate" None)
    | Negotiation.FinalRequest _ =>
        Negotiation.mkCall
          (Negotiation.Responds
             (Negotiation.mkResponse "# Fallback outline " None None))
          false false
    end.

(** Every turn answer is text that does not parse. *)
Definition garbled : Negotiation.Source :=
  fun _ req =>
    match req with
    | Negotiation.TurnRequest _ _ _ =>
        Negotiation.mkCall
          (Negotiation.Responds (Negotiation.mkResponse "not json" None None))
          false false
    | Negotiation.FinalRequest _ =>
        Negotiation.mkCall
          (Negotiation.Responds
             (Negotiation.mkResponse "# Fallback outline " None None))
          false false
    end.

End Scenario.


(** ** Further vocabulary: invariants and reachable states *)

Module Notions.

(** Registries built by the operations of the manager and of the text
    processor, with [new URL] fixed and the date free at every call. *)
Inductive Reachable (parseURL : string -> option Registry.URL)
  : Registry.CitationManager -> Prop :=
| reach_new : Reachable parseURL Registry.newManager
| reach_add today c mgr :
    Reachable parseURL mgr ->
    Reachable parseURL (snd (Registry.addCitation parseURL today c mgr))
| reach_addMany today cs mgr :
    Reachable parseURL mgr ->
    Reachable parseURL (snd (Registry.addCitations parseURL today cs mgr))
| reach_record ids mgr :
    Reachable parseURL mgr ->
    Reachable parseURL (Registry.recordCitationUsage ids mgr)
| reach_cite i mgr :
    Reachable parseURL mgr ->
    Reachable parseURL (snd (Registry.generateInTextCitation i mgr))
| reach_citeMany ids mgr :
    Reachable parseURL mgr ->
    Reachable parseURL (snd (Registry.generateMultipleInTextCitations ids mgr))
| reach_insert today text cs mgr out mgr' :
    Reachable parseURL mgr ->
    TextProcessor.insertCitationMarks parseURL today text cs mgr = Some (out, mgr') ->
    Reachable parseURL mgr'
| reach_clear mgr :
    Reachable parseURL mgr ->
    Reachable parseURL (Registry.clear mgr).

(** Every record has a usage count, and none is negative. *)
Definition counted (m : Registry.CitationMap) : Prop :=
  Forall (fun e => exists t, Registry.timesCited (snd e) = Some t /\ 0 <= t) m.

(** Every record is stored under the normalized form of its own URL. *)
Definition keyed (parseURL : string -> option Registry.URL)
    (m : Registry.CitationMap) : Prop :=
  Forall (fun e => fst e = Registry.getCitationKey parseURL (snd e)) m.

Definition wellKept (parseURL : string -> option Registry.URL)
    (mgr : Registry.CitationManager) : Prop :=
  Spec.wellNumbered mgr
  /\ NoDup (Registry.keysOf (Registry.citations mgr))
  /\ counted (Registry.citations mgr)
  /\ keyed parseURL (Registry.citations mgr).

(** The ids [1, ..., n]. *)
Definition idsUpTo (n : nat) : list Z := map (fun j => 1 + Z.of_nat j) (seq 0 n).

(** Whether [i] occurs in [ids]. *)
Definition mentions (ids : list Z) (i : Z) : bool := existsb (Z.eqb i) ids.

(** Ascending order of the ids of a list of records. *)
Definition ascendingIds (l : list Registry.Citation) : Prop :=
  Spec.ascending (map Views.idOrZero l).

(** Histories that [record429Error] and [clearErrorHistory] build. *)
Inductive Recorded : Tracker.ErrorHistory -> Prop :=
| recorded_new : Recorded []
| recorded_more now h : Recorded h -> Recorded (Tracker.record429Error now h)
| recorded_clear h : Recorded h -> Recorded (Tracker.clearErrorHistory h).

(** [s] is a suffix of [l]. *)
Definition suffixOf (s l : Tracker.ErrorHistory) : Prop :=
  exists dropped, l = (dropped ++ s)%list.

(** Every recorded event is at least five minutes old at [now]. *)
Definition stale (now : Z) (h : Tracker.ErrorHistory) : Prop :=
  Forall (fun t => t + 5 * 60 * 1000 <= now) h.

(** The timestamps passed to [record429Error], read off the event log. *)
Fixpoint recordedOf (l : list Execution.Event) : list Z :=
  match l with
  | [] => []
  | Execution.Recorded429 t :: rest => t :: recordedOf rest
  | _ :: rest => recordedOf rest
  end.

(** The history after the given timestamps were recorded, in order. *)
Definition replay (times : list Z) (h : Tracker.ErrorHistory) : Tracker.ErrorHistory :=
  fold_left (fun acc t => Tracker.record429Error t acc) times h.

(** The delays of the exponential schedule: base 3 s or 5 s, doubled at
    most once, plus less than a second of jitter. *)
Definition exponentialDelay (d : Q) : Prop := (3000 <= d)%Q /\ (d < 11000)%Q.

(** A delay the server suggested: whole seconds plus the buffer. *)
Definition suggestedDelay (d : Q) : Prop :=
  exists seconds : Z, 0 <= seconds /\ d = inject_Z (seconds * 1000 + 500).

(** Environments whose [Math.random()] is in [0, 1). *)
Definition fairDice (env : Z -> Execution.Attempt) : Prop :=
  forall j, (0 <= Execution.random (env j))%Q /\ (Execution.random (env j) < 1)%Q.

(** Environments in which no attempt ends with status 429. *)
Definition noRateLimit (env : Z -> Execution.Attempt) : Prop :=
  forall j e, Spec.raised (env j) = Some e -> Execution.isRateLimit e = false.

(** The caller's signal exists, has not fired, and does not fire during
    the attempt [a] or the sleep after it. *)
Definition undisturbed (a : Execution.Attempt) : bool :=
  negb (Execution.cancelInFlight a) && negb (Execution.cancelInBackoff a).

(** Environments in which the retry information of every 429 can be
    read. *)
Definition readable (env : Z -> Execution.Attempt) : Prop :=
  forall j e, Spec.raised (env j) = Some e -> Spec.unreadable e = false.

(** Every recording in the log is directly followed by a sleep. *)
Fixpoint sleepsAfterRecording (l : list Execution.Event) : Prop :=
  match l with
  | [] => True
  | Execution.Recorded429 _ :: rest =>
      match rest with
      | Execution.Slept _ :: _ => sleepsAfterRecording rest
      | _ => False
      end
  | _ :: rest => sleepsAfterRecording rest
  end.

(** An attempt that is answered with status 2xx and the text [t], which
    is not blank, while the caller does not abort it. *)
Definition answers (t : string) (a : Execution.Attempt) : Prop :=
  Execution.cancelInFlight a = false
  /\ exists r p,
       Execution.inFlight a = Execution.Replies r /\ Execution.isOk r = true
       /\ Execution.parsed r = Some p /\ Execution.primaryText p = Some t
       /\ isBlank t = false.

(** The requests sent, read off the event log. *)
Fixpoint callsOf (l : list Negotiation.Event) : list Negotiation.Request :=
  match l with
  | [] => []
  | Negotiation.Called req :: rest => req :: callsOf rest
  | _ :: rest => callsOf rest
  end.

(** [n] personas in turn, starting with [p]. *)
Fixpoint alternating (p : Negotiation.AgentPersona) (n : nat)
  : list Negotiation.AgentPersona :=
  match n with
  | O => []
  | S n' => p :: alternating (Negotiation.flip p) n'
  end.

(** A request that carries what was said so far: a turn request holds a
    prefix of the conversation [final] and says that it is the first turn
    exactly when that prefix is empty; the final request holds all of it. *)
Definition addressed (final : Negotiation.Conversation)
    (req : Negotiation.Request) : Prop :=
  match req with
  | Negotiation.TurnRequest _ conv first =>
      (exists rest, final = (conv ++ rest)%list)
      /\ first = match conv with [] => true | _ :: _ => false end
  | Negotiation.FinalRequest conv => conv = final
  end.

(** Sources whose every turn answer is accepted as a turn. *)
Definition alwaysAccepted (source : Negotiation.Source) : Prop :=
  forall n p conv first,
    Spec.accepted (source n (Negotiation.TurnRequest p conv first)) <> None.

(** A turn answer that arrives undisturbed and from which
    [parseJsonFromMarkdown] extracts nothing. *)
Definition unparsed (c : Negotiation.Call) : bool :=
  Spec.quiet c
  && match Negotiation.outcome c with
     | Negotiation.Responds r =>
         isBlank (Negotiation.text r)
         || match Negotiation.parsedTurn r with Some _ => false | None => true end
     | Negotiation.Throws _ => false
     end.

(** Two results that are the same outline or the same failure, the
    wording of the failure after an empty final answer apart. *)
Definition agree (strict defensive : Negotiation.Result) : Prop :=
  match strict, defensive with
  | Negotiation.Outline a, Negotiation.Outline b => a = b
  | Negotiation.Failed a, Negotiation.Failed b =>
      a = b \/ a = StrictOutline.emptyFinal
  | _, _ => False
  end.

(** Every character of [s] satisfies [p]. *)
Fixpoint every (p : ascii -> bool) (s : string) : bool :=
  match s with
  | EmptyString => true
  | String c r => p c && every p r
  end.

(** The characters of a rendered range. *)
Definition digitOrHyphen (c : ascii) : bool := isDigit c || Ascii.eqb c "-".

(** The value of a decimal number read from the left, after [acc]. *)
Fixpoint horner (acc : Z) (d : Decimal.uint) : Z :=
  match d with
  | Decimal.Nil => acc
  | Decimal.D0 l => horner (10 * acc + 0) l
  | Decimal.D1 l => horner (10 * acc + 1) l
  | Decimal.D2 l => horner (10 * acc + 2) l
  | Decimal.D3 l => horner (10 * acc + 3) l
  | Decimal.D4 l => horner (10 * acc + 4) l
  | Decimal.D5 l => horner (10 * acc + 5) l
  | Decimal.D6 l => horner (10 * acc + 6) l
  | Decimal.D7 l => horner (10 * acc + 7) l
  | Decimal.D8 l => horner (10 * acc + 8) l
  | Decimal.D9 l => horner (10 * acc + 9) l
  end.

(** A text at which reading decimal digits stops. *)
Definition stops (rest : string) : Prop :=
  match rest with
  | EmptyString => True
  | String c _ => TextProcessor.digitValue 10 c = None
  end.

(** Strings of white space only. *)
Fixpoint allWhite (s : string) : bool :=
  match s with
  | EmptyString => true
  | String c r => isWhite c && allWhite r
  end.

(** A text in braces. *)
Definition braced (inner : string) : string := String "{" (inner ++ "}").

(** The key under which [advancedDeduplication] groups a citation. *)
Definition groupKey (parseURL : string -> option Registry.URL)
    (c : Registry.Citation) : string :=
  match Dedup.domainOf parseURL c with
  | Some domain => domain
  | None => "invalid_" ++ Registry.url c
  end.

(** The citations of [l] grouped under [k]. *)
Definition keptOf (parseURL : string -> option Registry.URL) (k : string)
    (l : list Registry.Citation) : list Registry.Citation :=
  filter (fun c => String.eqb (groupKey parseURL c) k) l.

(** The groups hold what was processed: every key once, no group empty,
    every member under its own key, every processed key present. *)
Definition grouped (parseURL : string -> option Registry.URL)
    (processed : list Registry.Citation) (g : Dedup.Groups) : Prop :=
  NoDup (map fst g)
  /\ (forall k ms, In (k, ms) g ->
        ms <> [] /\ forall m, In m ms -> groupKey parseURL m = k /\ In m processed)
  /\ (forall c, In c processed -> In (groupKey parseURL c) (map fst g)).

(** Every processed citation is still a member of the group of its key. *)
Definition filed (parseURL : string -> option Registry.URL)
    (processed : list Registry.Citation) (g : Dedup.Groups) : Prop :=
  forall c, In c processed ->
    exists ms, In (groupKey parseURL c, ms) g /\ In c ms.

(** The last of the raw citations with the given URL. *)
Definition lastWith (k : string) (rawCitations : list Registry.Citation)
  : option Registry.Citation :=
  find (fun c => String.eqb (Registry.url c) k) (rev rawCitations).

(** Records that were never cited. *)
Definition uncitedRecords (m : Registry.CitationMap) : Prop :=
  Forall (fun e => Registry.timesCited (snd e) = Some 0) m.

End Notions.


(** ** Further concrete inputs *)

Module Cases.

(** Every attempt is answered with status 429 and a suggested delay. *)
Definition alwaysQuota (_ : Z) : Execution.Attempt :=
  Scenario.plainly (Execution.Replies Scenario.quota).

(** A 429 whose [details] is a text, not an array. *)
Definition oddQuota : Execution.Reply :=
  Execution.mkReply 429 "{...}"
    (Some (Execution.mkPayload (Some "Quota exceeded") Execution.NoList None)).

(** The first attempt is answered with a 429 that suggests a delay, the
    second with a 429 whose [details] cannot be read. *)
Definition quotaThenOdd (attempt : Z) : Execution.Attempt :=
  Scenario.plainly
    (Execution.Replies (if attempt =? 1 then Scenario.quota else oddQuota)).

(** Three grounding chunks, the first and the last with the same URI. *)
Definition chunks : list Search.Chunk :=
  [Search.mkChunk "https://a.org/x" (Some "First");
   Search.mkChunk "https://b.org/y" None;
   Search.mkChunk "https://a.org/x" (Some "Again")].

(** [JSON.parse] restricted to the empty object: the number of its
    members, [None] for every other text. *)
Definition parseEmptyObject (s : string) : option nat :=
  if String.eqb s "{}" then Some 0%nat else None.

(** Three citations of one domain and one of another. *)
Definition shortTitle := Scenario.cite "https://www.example.org/a" "short".
Definition plainHttp := Scenario.cite "http://example.org/b" "a much longer title".
Definition middle := Scenario.cite "https://example.org/c" "middle one".

Definition sameDomain : list Registry.Citation :=
  [shortTitle; plainHttp; Scenario.paperB; middle].

(** A base delay of 50 ms with a factor of 1.15 and dynamic adjustment
    off: the product is the double just below 57.5. *)
Definition smallSteps : Tracker.ApiIntervalConfig :=
  Tracker.mkConfig (Double.ofZ 50) false (Double.ofZ 1) (Double.ratio 115 100)
    (Double.ofZ 1) (Double.ofZ 3) (Double.ofZ 1).

(** A threshold of zero: every count reaches it. *)
Definition noThreshold : Tracker.ApiIntervalConfig :=
  Tracker.mkConfig (Double.ofZ 1000) true (Double.ofZ 1) (Double.ofZ 1)
    (Double.ofZ 1) (Double.ofZ 0) (Double.ofZ 2).

End Cases.


(** * Properties *)

(** ** Citation registry *)

Module RegistryFacts.
Import Registry Spec.
Local Open Scope list_scope.

Lemma indexOf_app_in (k : string) (l l' : list string) :
  In k l -> indexOf k (l ++ l') = indexOf k l.
Proof.
  induction l as [|x l IH]; simpl; [tauto|].
  intros [->|Hin].
  - now rewrite String.eqb_refl.
  - destruct (String.eqb x k); [reflexivity|]. now rewrite IH.
Qed.

Lemma indexOf_app_notin (k : string) (l l' : list string) :
  ~ In k l -> indexOf k (l ++ l') = (List.length l + indexOf k l')%nat.
Proof.
  induction l as [|x l IH]; simpl; [reflexivity|].
  intros Hn. destruct (String.eqb_spec x k) as [->|Hne]; [tauto|].
  rewrite IH; tauto.
Qed.

Lemma indexOf_lt (k : string) (l : list string) :
  In k l -> (indexOf k l < List.length l)%nat.
Proof.
  induction l as [|x l IH]; simpl; [tauto|].
  intros [->|Hin].
  - rewrite String.eqb_refl. lia.
  - destruct (String.eqb x k); [lia|]. apply IH in Hin. lia.
Qed.


Lemma existsb_eqb_in (k : string) (l : list string) :
  existsb (String.eqb k) l = true <-> In k l.
Proof.
  rewrite existsb_exists. split.
  - intros (x & Hin & E). apply String.eqb_eq in E. now subst.
  - intros Hin. exists k. split; [assumption|apply String.eqb_refl].
Qed.

Lemma existsb_eqb_notin (k : string) (l : list string) :
  existsb (String.eqb k) l = false <-> ~ In k l.
Proof.
  rewrite <- existsb_eqb_in. destruct (existsb _ l); split; congruence.
Qed.

Lemma without_drop (seen l : list string) (k : string) :
  In k seen ->
  without seen (filter (fun x => negb (String.eqb x k)) l) = without seen l.
Proof.
  intros Hin. unfold without. induction l as [|x l IH]; simpl; [reflexivity|].
  destruct (String.eqb_spec x k) as [->|Hne]; simpl.
  - apply existsb_eqb_in in Hin. rewrite Hin. simpl. exact IH.
  - destruct (existsb (String.eqb x) seen); simpl; now rewrite IH.
Qed.

Lemma without_snoc (seen l : list string) (k : string) :
  without (seen ++ [k]) l = without seen (filter (fun x => negb (String.eqb x k)) l).
Proof.
  unfold without. induction l as [|x l IH]; simpl; [reflexivity|].
  rewrite existsb_app. simpl. rewrite orb_false_r.
  destruct (String.eqb_spec x k) as [->|Hne]; simpl.
  - rewrite orb_true_r. simpl. exact IH.
  - rewrite orb_false_r. destruct (existsb (String.eqb x) seen); simpl; now rewrite IH.
Qed.

Lemma without_cons (seen l : list string) (k : string) :
  without seen (k :: l)
  = if existsb (String.eqb k) seen then without seen l else k :: without seen l.
Proof. unfold without. simpl. now destruct (existsb (String.eqb k) seen). Qed.

Lemma seenAfter_firstSeen (seen ks : list string) :
  seenAfter seen ks = (seen ++ without seen (firstSeen ks))%list.
Proof.
  revert seen. induction ks as [|k ks IH]; intros seen; cbn [seenAfter firstSeen].
  - unfold without. simpl. now rewrite app_nil_r.
  - destruct (existsb (String.eqb k) seen) eqn:E.
    + rewrite IH, without_cons, E. f_equal.
      symmetry. apply without_drop. now apply existsb_eqb_in.
    + rewrite IH, without_cons, E, <- app_assoc. simpl. do 2 f_equal.
      apply without_snoc.
Qed.

Lemma seenAfter_nil (ks : list string) : seenAfter [] ks = firstSeen ks.
Proof.
  rewrite seenAfter_firstSeen. simpl.
  induction (firstSeen ks) as [|x l IH]; [reflexivity|].
  rewrite without_cons. simpl. now rewrite IH.
Qed.

Lemma seenAfter_extends (seen ks : list string) :
  exists ext, seenAfter seen ks = (seen ++ ext)%list.
Proof. eexists. apply seenAfter_firstSeen. Qed.

Lemma seenAfter_in (seen ks : list string) (k : string) :
  In k seen \/ In k ks -> In k (seenAfter seen ks).
Proof.
  revert seen. induction ks as [|x ks IH]; intros seen; simpl.
  - tauto.
  - intros H. destruct (existsb (String.eqb x) seen) eqn:E.
    + apply IH. apply existsb_eqb_in in E. destruct H as [H|[->|H]]; tauto.
    + apply IH. rewrite in_app_iff. simpl.
      destruct H as [H|[->|H]]; tauto.
Qed.


Lemma firstSeen_NoDup (ks : list string) : NoDup (firstSeen ks).
Proof.
  induction ks as [|x ks IH]; simpl; constructor.
  - rewrite filter_In. intros [_ H]. now rewrite String.eqb_refl in H.
  - now apply NoDup_filter.
Qed.

Lemma mapGet_in (k : string) (m : CitationMap) (c : Citation) :
  mapGet k m = Some c -> In k (keysOf m).
Proof.
  induction m as [|[k0 c0] m IH]; simpl; [discriminate|].
  destruct (String.eqb_spec k0 k) as [->|Hne]; [now left|]. intros H. right. now apply IH.
Qed.

Lemma mapGet_notin (k : string) (m : CitationMap) :
  mapGet k m = None -> ~ In k (keysOf m).
Proof.
  induction m as [|[k0 c0] m IH]; simpl; [tauto|].
  destruct (String.eqb_spec k0 k) as [->|Hne]; [discriminate|].
  intros H [E|Hin]; [congruence|]. now apply IH.
Qed.

Lemma mapSet_new (k : string) (c : Citation) (m : CitationMap) :
  mapGet k m = None -> mapSet k c m = (m ++ [(k, c)])%list.
Proof.
  induction m as [|[k0 c0] m IH]; simpl; [reflexivity|].
  destruct (String.eqb k0 k); [discriminate|]. intros H. now rewrite IH.
Qed.

Lemma mapGet_mapSet (k : string) (c : Citation) (m : CitationMap) :
  mapGet k (mapSet k c m) = Some c.
Proof.
  induction m as [|[k0 c0] m IH]; simpl.
  - now rewrite String.eqb_refl.
  - destruct (String.eqb k0 k) eqn:E; simpl; rewrite E; [reflexivity|exact IH].
Qed.

Lemma mapGet_numbered (s : Z) (k : string) (m : CitationMap) (c : Citation) :
  numberedFrom s m -> mapGet k m = Some c ->
  id c = Some (s + Z.of_nat (indexOf k (keysOf m))).
Proof.
  revert s. induction m as [|[k0 c0] m IH]; intros s; simpl; [discriminate|].
  intros [Hid Hrest]. destruct (String.eqb k0 k).
  - intros [= <-]. rewrite Hid. f_equal. lia.
  - intros H. rewrite (IH _ Hrest H). f_equal. lia.
Qed.

Lemma numberedFrom_snoc (s : Z) (m : CitationMap) (k : string) (c : Citation) :
  numberedFrom s m -> id c = Some (s + Z.of_nat (List.length m)) ->
  numberedFrom s (m ++ [(k, c)]).
Proof.
  revert s. induction m as [|[k0 c0] m IH]; intros s; simpl.
  - intros _ ->. split; [f_equal; lia|exact I].
  - intros [Hid Hrest] Hc. split; [assumption|]. apply IH; [assumption|].
    rewrite Hc. f_equal. lia.
Qed.

Lemma numberedFrom_ids (s : Z) (m : CitationMap) :
  numberedFrom s m ->
  map (fun e => id (snd e)) m
  = map (fun j => Some (s + Z.of_nat j)) (seq 0 (List.length m)).
Proof.
  revert s. induction m as [|[k0 c0] m IH]; intros s; simpl; [reflexivity|].
  intros [Hid Hrest]. rewrite Hid, (IH _ Hrest), <- seq_shift, map_map.
  f_equal; [f_equal; lia|]. apply map_ext. intros j. f_equal. lia.
Qed.

Section Adding.

Variable parseURL : string -> option URL.
Variable today : string.

Lemma addCitation_step (c : Citation) (mgr : CitationManager) :
  wellNumbered mgr ->
  let k := getCitationKey parseURL c in
  let r := addCitation parseURL today c mgr in
  wellNumbered (snd r)
  /\ keysOf (citations (snd r)) = seenAfter (keysOf (citations mgr)) [k]
  /\ fst r = Some (1 + Z.of_nat (indexOf k (keysOf (citations (snd r))))).
Proof.
  intros [Hnum Hcnt]. cbn zeta. unfold addCitation.
  destruct (mapGet (getCitationKey parseURL c) (citations mgr)) as [stored|] eqn:G;
    cbn [fst snd seenAfter].
  - pose proof (mapGet_in _ _ _ G) as Hin.
    apply existsb_eqb_in in Hin. rewrite Hin.
    repeat split; try assumption. now apply mapGet_numbered.
  - pose proof (mapGet_notin _ _ G) as Hnin.
    pose proof Hnin as Hex. apply existsb_eqb_notin in Hex. rewrite Hex.
    rewrite (mapSet_new _ _ _ G). unfold wellNumbered.
    cbn [citations citationCounter id].
    unfold keysOf in *. rewrite map_app. cbn [map fst].
    repeat split.
    + apply numberedFrom_snoc; [assumption|]. cbn [id]. now rewrite Hcnt.
    + rewrite length_app. cbn [List.length]. lia.
    + rewrite indexOf_app_notin by assumption. cbn [indexOf].
      rewrite String.eqb_refl, Hcnt, length_map. f_equal. lia.
Qed.

Lemma addCitations_run (cs : list Citation) (mgr : CitationManager) :
  wellNumbered mgr ->
  let ks := map (getCitationKey parseURL) cs in
  let r := addCitations parseURL today cs mgr in
  wellNumbered (snd r)
  /\ keysOf (citations (snd r)) = seenAfter (keysOf (citations mgr)) ks
  /\ fst r = map (fun k => Some (1 + Z.of_nat (indexOf k (keysOf (citations (snd r)))))) ks.
Proof.
  revert mgr. induction cs as [|c cs IH]; intros mgr Hwf; cbn zeta.
  - simpl. tauto.
  - cbn [addCitations map].
    destruct (addCitation_step c mgr Hwf) as (Hwf1 & Hk1 & Hi1).
    destruct (addCitation parseURL today c mgr) as [i mgr1] eqn:E1.
    cbn [fst snd] in *.
    destruct (IH mgr1 Hwf1) as (Hwf2 & Hk2 & Hi2).
    destruct (addCitations parseURL today cs mgr1) as [is_ mgr2] eqn:E2.
    cbn [fst snd] in *.
    repeat split; try apply Hwf2.
    + rewrite Hk2, Hk1. cbn [seenAfter].
      now destruct (existsb _ (keysOf (citations mgr))).
    + rewrite Hi2. f_equal. rewrite Hi1. do 3 f_equal.
      destruct (seenAfter_extends (keysOf (citations mgr1))
                  (map (getCitationKey parseURL) cs)) as [ext Hext].
      rewrite Hk2, Hext. symmetry. apply indexOf_app_in.
      rewrite Hk1. apply seenAfter_in. right. now left.
Qed.

Lemma wellNumbered_new : wellNumbered newManager.
Proof. split; reflexivity. Qed.



Lemma addCitation_stores (c : Citation) (mgr : CitationManager) :
  exists stored,
    mapGet (getCitationKey parseURL c)
      (citations (snd (addCitation parseURL today c mgr))) = Some stored
    /\ id stored = fst (addCitation parseURL today c mgr).
Proof.
  unfold addCitation.
  destruct (mapGet (getCitationKey parseURL c) (citations mgr)) as [stored|] eqn:G;
    cbn [fst snd citations].
  - now exists stored.
  - eexists. split; [apply mapGet_mapSet|reflexivity].
Qed.

(** C10.  [addCitation] is a total function of the URL text: a URL that
    [new URL] rejects gets the lowercased, trimmed text as its key, and a
    second citation whose unparseable URL has the same lowercased, trimmed
    text gets the id of the first, with the registry left as it is. *)
Theorem unparseable_urls_deduplicate (mgr : CitationManager) (c1 c2 : Citation) :
  parseURL (url c1) = None ->
  parseURL (url c2) = None ->
  trim (toLowerCase (url c1)) = trim (toLowerCase (url c2)) ->
  getCitationKey parseURL c1 = trim (toLowerCase (url c1))
  /\ addCitation parseURL today c2 (snd (addCitation parseURL today c1 mgr))
     = (fst (addCitation parseURL today c1 mgr),
        snd (addCitation parseURL today c1 mgr)).
Proof.
  intros P1 P2 E.
  assert (K1 : getCitationKey parseURL c1 = trim (toLowerCase (url c1))).
  { unfold getCitationKey, normalizeUrl. now rewrite P1. }
  assert (K2 : getCitationKey parseURL c2 = getCitationKey parseURL c1).
  { rewrite K1, E. unfold getCitationKey, normalizeUrl. now rewrite P2. }
  split; [exact K1|].
  destruct (addCitation_stores c1 mgr) as (stored & G & Hid).
  unfold addCitation at 1. rewrite K2, G. now rewrite Hid.
Qed.

End Adding.

(** *** In-text marks and usage counts *)

Lemma insertAsc_perm (x : Z) (l : list Z) : Permutation (insertAsc x l) (x :: l).
Proof.
  induction l as [|y l IH]; simpl; [reflexivity|].
  destruct (x <=? y); [reflexivity|].
  rewrite IH. apply perm_swap.
Qed.

Lemma sortAsc_perm (l : list Z) : Permutation (sortAsc l) l.
Proof.
  induction l as [|x l IH]; simpl; [reflexivity|].
  rewrite insertAsc_perm. now constructor.
Qed.

Lemma insertAsc_ascending (x : Z) (l : list Z) :
  ascending l -> ascending (insertAsc x l).
Proof.
  induction l as [|y l IH]; simpl; [tauto|].
  intros H. destruct (x <=? y) eqn:E.
  - simpl. split; [lia|assumption].
  - destruct l as [|z l].
    + simpl. split; [lia|exact I].
    + destruct H as [Hyz Hrest]. specialize (IH Hrest). simpl in IH |- *.
      destruct (x <=? z) eqn:E'; simpl; (split; [lia|assumption]).
Qed.

Lemma sortAsc_ascending (l : list Z) : ascending (sortAsc l).
Proof.
  induction l as [|x l IH]; simpl; [exact I|]. now apply insertAsc_ascending.
Qed.

Lemma extend_head (s f : Z) (rs : list (Z * Z)) :
  exists b rs', extend (s, f) rs = (s, b) :: rs'.
Proof.
  destruct rs as [|[a b] rs]; simpl; [now eexists _, _|].
  destruct (a =? f + 1); now eexists _, _.
Qed.

Lemma extend_merge (s f x : Z) (rs : list (Z * Z)) :
  x = f + 1 -> extend (s, f) (extend (x, x) rs) = extend (s, x) rs.
Proof.
  intros ->. destruct rs as [|[a b] rs]; simpl.
  - now rewrite Z.eqb_refl.
  - destruct (a =? f + 1 + 1); simpl; now rewrite Z.eqb_refl.
Qed.

Lemma extend_apart (s f x : Z) (rs : list (Z * Z)) :
  x <> f + 1 -> extend (s, f) (extend (x, x) rs) = (s, f) :: extend (x, x) rs.
Proof.
  intros Hne. destruct (extend_head x x rs) as (b & rs' & ->). simpl.
  destruct (Z.eqb_spec x (f + 1)); [contradiction|reflexivity].
Qed.

(** The loop of the source pushes exactly the ranges of [runs]. *)
Lemma mergeLoop_runs (rest : list Z) (start fin : Z) (ranges : list string) :
  mergeLoop rest start fin ranges
  = ranges ++ map renderRange (extend (start, fin) (runs rest)).
Proof.
  revert start fin ranges.
  induction rest as [|x rest IH]; intros start fin ranges; cbn [mergeLoop runs].
  - reflexivity.
  - destruct (Z.eqb_spec x (fin + 1)) as [E|N].
    + rewrite IH. now rewrite extend_merge.
    + rewrite IH, extend_apart by assumption.
      rewrite <- app_assoc. reflexivity.
Qed.

Lemma renderSorted_runs (first : Z) (rest : list Z) :
  renderSorted (first :: rest)
  = ("[" ++ join ", " (map renderRange (runs (first :: rest))) ++ "]")%string.
Proof. cbn [renderSorted runs]. now rewrite mergeLoop_runs. Qed.

Lemma interval_cons (a b : Z) :
  a <= b -> interval (a, b) = a :: interval (a + 1, b).
Proof.
  intros H. unfold interval.
  replace (Z.to_nat (b - a + 1)) with (S (Z.to_nat (b - (a + 1) + 1))) by lia.
  cbn [seq map]. f_equal; [lia|].
  rewrite <- seq_shift, map_map. apply map_ext. intros i. lia.
Qed.

Lemma interval_one (a : Z) : interval (a, a) = [a].
Proof.
  unfold interval. replace (a - a + 1) with 1 by lia. simpl. f_equal. lia.
Qed.

Lemma runs_wellFormed (l : list Z) : Forall wellFormed (runs l).
Proof.
  induction l as [|x l IH]; cbn [runs]; [constructor|].
  destruct (runs l) as [|[a b] rs]; simpl.
  - constructor; [unfold wellFormed; simpl; lia|constructor].
  - inversion IH as [|? ? Hab Hrs]; subst. unfold wellFormed in Hab. simpl in Hab.
    destruct (Z.eqb_spec a (x + 1)).
    + constructor; [unfold wellFormed; simpl; lia|assumption].
    + constructor; [unfold wellFormed; simpl; lia|assumption].
Qed.

Lemma runs_intervals (l : list Z) : List.concat (map interval (runs l)) = l.
Proof.
  induction l as [|x l IH]; cbn [runs]; [reflexivity|].
  pose proof (runs_wellFormed l) as Hwf.
  destruct (runs l) as [|[a b] rs]; cbn [extend].
  - cbn [map List.concat] in *. rewrite interval_one. now rewrite <- IH.
  - pose proof (Forall_inv Hwf) as Hab. unfold wellFormed in Hab. simpl in Hab.
    cbn [map List.concat] in IH.
    destruct (Z.eqb_spec a (x + 1)) as [E|N]; cbn [map List.concat].
    + rewrite interval_cons by lia. rewrite <- E. cbn [app]. now rewrite IH.
    + rewrite interval_one. cbn [app]. now rewrite IH.
Qed.

Lemma runs_unmergeable (l : list Z) : unmergeable (runs l).
Proof.
  induction l as [|x l IH]; cbn [runs]; [exact I|].
  destruct (runs l) as [|[a b] rs]; cbn [extend]; [exact I|].
  destruct (Z.eqb_spec a (x + 1)) as [->|N].
  - destruct rs as [|[a' b'] rs]; [exact I|]. exact IH.
  - split; [assumption|exact IH].
Qed.

Lemma hasId_bumped (i : Z) (c : Citation) : hasId i (bumped c) = hasId i c.
Proof. reflexivity. Qed.

Lemma hasId_same (i j : Z) (c : Citation) :
  hasId i c = true -> hasId j c = true -> i = j.
Proof.
  unfold hasId. destruct (id c); [|discriminate]. lia.
Qed.

Lemma usageOf_recordOne (i j : Z) (m : CitationMap) :
  usageOf j (recordOne i m)
  = if j =? i then option_map (fun t => t + 1) (usageOf j m) else usageOf j m.
Proof.
  unfold usageOf. induction m as [|[k c] m IH]; cbn [recordOne getCitationById].
  - now destruct (j =? i).
  - destruct (hasId i c) eqn:Hi; cbn [getCitationById].
    + rewrite hasId_bumped. destruct (hasId j c) eqn:Hj.
      * rewrite (hasId_same _ _ _ Hj Hi), Z.eqb_refl. reflexivity.
      * destruct (Z.eqb_spec j i) as [->|_]; [congruence|reflexivity].
    + destruct (hasId j c) eqn:Hj; [|exact IH].
      destruct (Z.eqb_spec j i) as [->|_]; [congruence|reflexivity].
Qed.

Lemma usageOf_recordUsageMap (ids : list Z) (j : Z) (m : CitationMap) :
  usageOf j (recordUsageMap ids m)
  = option_map (fun t => t + Z.of_nat (count_occ Z.eq_dec ids j)) (usageOf j m).
Proof.
  unfold recordUsageMap. revert m.
  induction ids as [|i ids IH]; intros m; cbn [fold_left count_occ].
  - destruct (usageOf j m); simpl; [f_equal; lia|reflexivity].
  - rewrite IH, usageOf_recordOne.
    destruct (Z.eq_dec i j) as [->|N].
    + rewrite Z.eqb_refl. destruct (usageOf j m); simpl; [f_equal; lia|reflexivity].
    + destruct (Z.eqb_spec j i); [congruence|reflexivity].
Qed.

(** C6, as the code has it.  For a non-empty id list the renderer returns
    the mark of the specification: the ids sorted ascending, consecutive
    runs merged into ranges, rendered as "[a-b, c, d-e]"; the ranges cover
    exactly the sorted ids and no two neighbours could be merged; one id
    renders as "[a]", [1,2,3,5] as "[1-3, 5]" and [7] as "[7]".  The call
    records the usage of the same ids, which raises the usage count of a
    stored record by the number of times its id occurs in the list: by
    exactly 1 for every referenced record when no id is repeated. *)
Theorem in_text_mark_and_usage (first : Z) (rest : list Z) (mgr : CitationManager) :
  let ids := first :: rest in
  let r := generateMultipleInTextCitations ids mgr in
  fst r = renderMark ids
  /\ Permutation (sortAsc ids) ids
  /\ ascending (sortAsc ids)
  /\ List.concat (map interval (runs (sortAsc ids))) = sortAsc ids
  /\ unmergeable (runs (sortAsc ids))
  /\ fst (generateMultipleInTextCitations [first] mgr) = ("[" ++ showZ first ++ "]")%string
  /\ fst (generateMultipleInTextCitations [1; 2; 3; 5] mgr) = "[1-3, 5]"%string
  /\ fst (generateMultipleInTextCitations [7] mgr) = "[7]"%string
  /\ snd r = recordCitationUsage ids mgr
  /\ (forall i, usageOf i (citations (snd r))
               = option_map (fun t => t + Z.of_nat (count_occ Z.eq_dec ids i))
                   (usageOf i (citations mgr)))
  /\ (NoDup ids -> usedOnce ids (citations mgr) (citations (snd r))).
Proof.
  cbn zeta.
  assert (Hsnd : snd (generateMultipleInTextCitations (first :: rest) mgr)
                 = recordCitationUsage (first :: rest) mgr).
  { destruct rest; reflexivity. }
  assert (Huse : forall i,
             usageOf i (citations (snd (generateMultipleInTextCitations (first :: rest) mgr)))
             = option_map (fun t => t + Z.of_nat (count_occ Z.eq_dec (first :: rest) i))
                 (usageOf i (citations mgr))).
  { intros i. rewrite Hsnd. apply usageOf_recordUsageMap. }
  repeat split.
  - destruct rest as [|second rest].
    + unfold renderMark. cbn. now rewrite Z.eqb_refl.
    + cbn [generateMultipleInTextCitations fst]. unfold renderMark.
      pose proof (sortAsc_perm (first :: second :: rest)) as P.
      destruct (sortAsc (first :: second :: rest)) as [|x l] eqn:E.
      * apply Permutation_nil in P. discriminate.
      * apply renderSorted_runs.
  - apply sortAsc_perm.
  - apply sortAsc_ascending.
  - apply runs_intervals.
  - apply runs_unmergeable.
  - exact Hsnd.
  - exact Huse.
  - intros Hnd i t Hin Ht. rewrite Huse, Ht.
    pose proof (proj1 (NoDup_count_occ' Z.eq_dec (first :: rest)) Hnd i Hin) as Hc.
    cbn [option_map]. now rewrite Hc.
Qed.

Lemma in_text_mark_and_usage_witness :
  fst (generateMultipleInTextCitations [2; 1] Scenario.twoPapers) = "[1-2]"%string
  /\ usedOnce [2; 1] (citations Scenario.twoPapers)
       (citations (snd (generateMultipleInTextCitations [2; 1] Scenario.twoPapers))).
Proof.
  pose proof (in_text_mark_and_usage 2 [1] Scenario.twoPapers) as H.
  cbn zeta in H.
  destruct H as (H1 & _ & _ & _ & _ & _ & _ & _ & _ & _ & H11). split.
  - exact H1.
  - apply H11. repeat constructor; simpl; intuition lia.
Defined.

(** C6, the claim as stated, fails on a list that repeats an id: the
    record with id 1 is counted twice by one call with the ids [1, 1]. *)
Lemma repeated_id_counted_twice :
  usageOf 1 (citations Scenario.twoPapers) = Some 0
  /\ usageOf 1 (citations (snd (generateMultipleInTextCitations [1; 1]
                                 Scenario.twoPapers))) = Some 2
  /\ ~ usedOnce [1; 1] (citations Scenario.twoPapers)
        (citations (snd (generateMultipleInTextCitations [1; 1] Scenario.twoPapers))).
Proof.
  repeat split; try reflexivity.
  intros H. specialize (H 1 0 (or_introl eq_refl) eq_refl). discriminate H.
Qed.


Lemma unparseable_urls_deduplicate_witness :
  addCitation Scenario.parseSimpleURL Scenario.today Scenario.draft2
    (snd (addCitation Scenario.parseSimpleURL Scenario.today Scenario.draft1 newManager))
  = (Some 1,
     snd (addCitation Scenario.parseSimpleURL Scenario.today Scenario.draft1 newManager)).
Proof.
  apply (unparseable_urls_deduplicate Scenario.parseSimpleURL Scenario.today
           newManager Scenario.draft1 Scenario.draft2); reflexivity.
Defined.

End RegistryFacts.
(** ** Rate-adaptation tracker *)

Module TrackerFacts.
Import Tracker Spec.
Local Open Scope list_scope.

(** *** Numbers *)

Lemma maxDelay_value :
  exists q, Double.extended maxDelay = Double.Finite q /\ (q == 20000)%Q.
Proof. eexists. split; [vm_compute; reflexivity|]. now vm_compute. Qed.

Lemma mathRound_maxDelay : Double.mathRound maxDelay = Double.Whole 20000.
Proof. vm_compute. reflexivity. Qed.

(** [Math.round] stays within half a unit of its argument. *)
Lemma round_near (q : Q) :
  (q - (1 # 2) < inject_Z (Qfloor (q + (1 # 2))))%Q
  /\ (inject_Z (Qfloor (q + (1 # 2))) <= q + (1 # 2))%Q.
Proof.
  split.
  - pose proof (Qlt_floor (q + (1 # 2))) as H.
    rewrite inject_Z_plus in H.
    apply Qplus_lt_l with (z := 1%Q).
    eapply Qle_lt_trans; [|exact H].
    ring_simplify. apply Qle_refl.
  - apply Qfloor_le.
Qed.

Lemma round_le (q : Q) (n : Z) :
  (q <= inject_Z n)%Q -> Qfloor (q + (1 # 2)) <= n.
Proof.
  intros H.
  apply (Z.le_trans _ (Qfloor (inject_Z n + (1 # 2)))).
  - apply Qfloor_resp_le. now apply Qplus_le_l.
  - assert (E : Qfloor (inject_Z n + (1 # 2)) = n); [|lia].
    pose proof (Qfloor_le (inject_Z n + (1 # 2))) as H1.
    pose proof (Qlt_floor (inject_Z n + (1 # 2))) as H2.
    set (k := Qfloor (inject_Z n + (1 # 2))) in *.
    assert (L1 : (inject_Z k < inject_Z (n + 1))%Q).
    { eapply Qle_lt_trans; [exact H1|]. rewrite inject_Z_plus.
      apply Qplus_lt_r. reflexivity. }
    assert (L2 : (inject_Z n < inject_Z (k + 1))%Q).
    { eapply Qle_lt_trans; [|exact H2].
      rewrite <- (Qplus_0_r (inject_Z n)) at 1. apply Qplus_le_r. discriminate. }
    rewrite <- Zlt_Qlt in L1, L2. lia.
Qed.

Lemma round_ge (q : Q) (n : Z) :
  (inject_Z n <= q)%Q -> n <= Qfloor (q + (1 # 2)).
Proof.
  intros H. rewrite <- (Qfloor_Z n). apply Qfloor_resp_le.
  eapply Qle_trans; [exact H|].
  rewrite <- (Qplus_0_r q) at 1. apply Qplus_le_r. discriminate.
Qed.

(** What clamping to the maximum and rounding give, by the value of the
    delay. *)
Lemma clamp_cases (x : Double.number) :
  match Double.extended x with
  | Double.NotANumber =>
      Double.mathRound (Double.mathMin x maxDelay) = Double.RoundedNaN
  | Double.MinusInfinity =>
      Double.mathRound (Double.mathMin x maxDelay) = Double.RoundedInfinity true
  | Double.PlusInfinity =>
      Double.mathRound (Double.mathMin x maxDelay) = Double.Whole 20000
  | Double.Finite q =>
      ((q <= 20000)%Q ->
       Double.mathRound (Double.mathMin x maxDelay)
       = Double.Whole (Qfloor (q + (1 # 2))))
      /\ ((20000 <= q)%Q ->
          Double.mathRound (Double.mathMin x maxDelay) = Double.Whole 20000)
  end.
Proof.
  destruct maxDelay_value as (qm & Em & Hm).
  assert (Hz : Double.isNegativeZero maxDelay = false) by reflexivity.
  unfold Double.mathMin, Double.lt. rewrite Em, Hz.
  destruct (Double.extended x) as [| |q|] eqn:E; try reflexivity.
  - unfold Double.mathRound. now rewrite E.
  - assert (Hlow : (q <= 20000)%Q ->
              Double.mathRound
                (if negb (Qle_bool q qm) then maxDelay
                 else if negb (Qle_bool qm q) then x else x)
              = Double.Whole (Qfloor (q + (1 # 2)))).
    { intros Hq. assert (L : Qle_bool q qm = true)
        by (apply Qle_bool_iff; now rewrite Hm).
      rewrite L. cbn [negb]. unfold Double.mathRound.
      destruct (negb (Qle_bool qm q)); now rewrite E. }
    split; [exact Hlow|].
    intros Hq. destruct (Qle_bool q qm) eqn:L.
    + apply Qle_bool_iff in L. rewrite Hm in L.
      rewrite Hlow by exact L. f_equal.
      assert (Eq : (q == 20000)%Q) by (now apply Qle_antisym).
      rewrite Eq. reflexivity.
    + cbn [negb]. exact mathRound_maxDelay.
Qed.

(** The delay is never above the maximum. *)
Lemma clamp_at_most (x : Double.number) :
  match Double.mathRound (Double.mathMin x maxDelay) with
  | Double.Whole n => n <= 20000
  | Double.RoundedInfinity negative => negative = true
  | Double.RoundedNaN => Double.extended x = Double.NotANumber
  end.
Proof.
  pose proof (clamp_cases x) as H.
  destruct (Double.extended x) as [| |q|] eqn:E; try (rewrite H; reflexivity).
  - destruct H as [Hlow Hhigh]. destruct (Qlt_le_dec 20000 q) as [L|L].
    + rewrite Hhigh by now apply Qlt_le_weak. lia.
    + rewrite Hlow by exact L. now apply (round_le q 20000).
Qed.

(** *** Products of positive numbers *)

Lemma shr_1_nonneg (mrs : SpecFloat.shr_record) :
  0 <= SpecFloat.shr_m mrs -> 0 <= SpecFloat.shr_m (SpecFloat.shr_1 mrs).
Proof.
  destruct mrs as [m r s]. cbn [SpecFloat.shr_m].
  destruct m as [|[p|p|]|[p|p|]]; cbn; lia.
Qed.

Lemma iter_pos_nonneg (p : positive) (mrs : SpecFloat.shr_record) :
  0 <= SpecFloat.shr_m mrs ->
  0 <= SpecFloat.shr_m (SpecFloat.iter_pos SpecFloat.shr_1 p mrs).
Proof.
  revert mrs. induction p as [p IH|p IH|]; intros mrs H; cbn [SpecFloat.iter_pos].
  - apply IH, IH. now apply shr_1_nonneg.
  - now apply IH, IH.
  - now apply shr_1_nonneg.
Qed.

Lemma shr_fexp_nonneg (m e : Z) (l : SpecFloat.location) :
  0 <= m ->
  0 <= SpecFloat.shr_m (fst (SpecFloat.shr_fexp Double.prec Double.emax m e l)).
Proof.
  intros H. unfold SpecFloat.shr_fexp, SpecFloat.shr.
  assert (H0 : 0 <= SpecFloat.shr_m (SpecFloat.shr_record_of_loc m l))
    by (destruct l as [|[]]; exact H).
  destruct (_ - e) as [|p|p]; cbn [fst]; try exact H0.
  now apply iter_pos_nonneg.
Qed.

Lemma round_nearest_even_nonneg (m : Z) (l : SpecFloat.location) :
  0 <= m -> 0 <= SpecFloat.round_nearest_even m l.
Proof.
  intros H. unfold SpecFloat.round_nearest_even.
  destruct l as [|[]]; try lia. destruct (Z.even m); lia.
Qed.

(** A rounded positive value is a zero, a positive number or infinity. *)
Lemma binary_round_aux_positive (m : positive) (e : Z) :
  let r := SpecFloat.binary_round_aux Double.prec Double.emax false (Zpos m) e
             SpecFloat.loc_Exact in
  r = SpecFloat.S754_zero false \/ positiveNumber r
  \/ r = SpecFloat.S754_infinity false.
Proof.
  cbn zeta. unfold SpecFloat.binary_round_aux.
  pose proof (shr_fexp_nonneg (Zpos m) e SpecFloat.loc_Exact) as H1.
  destruct (SpecFloat.shr_fexp Double.prec Double.emax (Zpos m) e SpecFloat.loc_Exact)
    as [mrs' e'].
  cbn [fst] in H1. specialize (H1 ltac:(lia)).
  pose proof (shr_fexp_nonneg
                (SpecFloat.round_nearest_even (SpecFloat.shr_m mrs')
                   (SpecFloat.loc_of_shr_record mrs')) e' SpecFloat.loc_Exact) as H2.
  destruct (SpecFloat.shr_fexp Double.prec Double.emax
              (SpecFloat.round_nearest_even (SpecFloat.shr_m mrs')
                 (SpecFloat.loc_of_shr_record mrs')) e' SpecFloat.loc_Exact)
    as [mrs'' e''].
  cbn [fst] in H2. specialize (H2 (round_nearest_even_nonneg _ _ H1)).
  destruct (SpecFloat.shr_m mrs'') as [|p|p]; [now left| |lia].
  destruct (e'' <=? _); right; [left; now exists p, e''|now right].
Qed.

Lemma mul_positive (x y : Double.number) :
  positiveNumber x -> positiveNumber y ->
  Double.mul x y = SpecFloat.S754_zero false \/ positiveNumber (Double.mul x y)
  \/ Double.mul x y = SpecFloat.S754_infinity false.
Proof.
  intros (mx & ex & ->) (my & ey & ->). unfold Double.mul, SpecFloat.SFmul.
  cbn [xorb]. apply binary_round_aux_positive.
Qed.

Lemma mul_again (x y : Double.number) :
  x = SpecFloat.S754_zero false \/ positiveNumber x
  \/ x = SpecFloat.S754_infinity false ->
  positiveNumber y ->
  Double.mul x y = SpecFloat.S754_zero false \/ positiveNumber (Double.mul x y)
  \/ Double.mul x y = SpecFloat.S754_infinity false.
Proof.
  intros [->|[Hx| ->]] Hy.
  - destruct Hy as (my & ey & ->). now left.
  - now apply mul_positive.
  - destruct Hy as (my & ey & ->). right; right. reflexivity.
Qed.

Lemma positive_value (x : Double.number) :
  positiveNumber x -> exists q, Double.extended x = Double.Finite q /\ (0 < q)%Q.
Proof.
  intros (m & e & ->). eexists. split; [reflexivity|].
  apply Qmult_lt_0_compat; [reflexivity|].
  unfold Double.power2. destruct e; reflexivity.
Qed.

(** Clamping and rounding a product of positive numbers gives a whole
    number of milliseconds within the maximum. *)
Lemma clamp_positive (x : Double.number) :
  x = SpecFloat.S754_zero false \/ positiveNumber x
  \/ x = SpecFloat.S754_infinity false ->
  exists n, Double.mathRound (Double.mathMin x maxDelay) = Double.Whole n
            /\ 0 <= n <= 20000.
Proof.
  intros [->|[Hx| ->]].
  - exists 0. split; [reflexivity|lia].
  - destruct (positive_value x Hx) as (q & E & Hq).
    pose proof (clamp_cases x) as H. rewrite E in H. destruct H as [Hlow Hhigh].
    destruct (Qlt_le_dec 20000 q) as [L|L].
    + exists 20000. split; [apply Hhigh; now apply Qlt_le_weak|lia].
    + exists (Qfloor (q + (1 # 2))). split; [now apply Hlow|]. split.
      * apply (round_ge q 0). now apply Qlt_le_weak.
      * now apply (round_le q 20000).
  - exists 20000. split; [reflexivity|lia].
Qed.

(** *** The history *)

(** The history after one more event ends with whatever suffix of at most
    ten entries [h ++ [t]] ends with. *)
Lemma record429Error_suffix (t : Z) (h p s : ErrorHistory) :
  h ++ [t] = p ++ s -> (List.length s <= 10)%nat ->
  exists p', record429Error t h = p' ++ s.
Proof.
  intros E Hlen. unfold record429Error, MAX_ERROR_HISTORY. rewrite E.
  destruct (10 <? List.length (p ++ s))%nat eqn:L.
  - apply Nat.ltb_lt in L. rewrite length_app in L.
    destruct p as [|x p]; [simpl in L; lia|]. now exists p.
  - now exists p.
Qed.

Lemma three_events_recorded (h : ErrorHistory) (t1 t2 t3 : Z) :
  exists p,
    record429Error t3 (record429Error t2 (record429Error t1 h)) = p ++ [t1; t2; t3].
Proof.
  destruct (record429Error_suffix t1 h h [t1] eq_refl) as [p1 E1]; [simpl; lia|].
  destruct (record429Error_suffix t2 (record429Error t1 h) p1 [t1; t2]) as [p2 E2];
    [rewrite E1, <- app_assoc; reflexivity|simpl; lia|].
  destruct (record429Error_suffix t3 (record429Error t2 (record429Error t1 h))
              p2 [t1; t2; t3]) as [p3 E3];
    [rewrite E2, <- app_assoc; reflexivity|simpl; lia|].
  now exists p3.
Qed.

Lemma recent_count_app (now : Z) (p s : ErrorHistory) :
  getRecentErrorCount now (p ++ s)
  = getRecentErrorCount now p + getRecentErrorCount now s.
Proof. unfold getRecentErrorCount. rewrite filter_app, length_app. lia. Qed.

Lemma recent_count_nonneg (now : Z) (h : ErrorHistory) :
  0 <= getRecentErrorCount now h.
Proof. unfold getRecentErrorCount. lia. Qed.

(** *** The delay *)

(** A count above one that reaches the threshold reaches it as well. *)
Lemma geCount_above (m n : Z) (x : Double.number) :
  m <= n -> Double.geCount m x = true -> Double.geCount n x = true.
Proof.
  unfold Double.geCount. intros Hmn.
  destruct (Double.extended x) as [| |q|]; try easy.
  intros H. apply Qle_bool_iff in H. apply Qle_bool_iff.
  eapply Qle_trans; [exact H|]. now rewrite <- Zle_Qle.
Qed.

Lemma geCount_default (n : Z) :
  3 <= n -> Double.geCount n (errorThreshold defaultConfig) = true.
Proof.
  intros H. apply (geCount_above 3); [exact H|]. vm_compute. reflexivity.
Qed.

Lemma calculateDelay_escalated (settings : ApiIntervalConfig) (now : Z)
    (h : ErrorHistory) (mode : ResearchMode) (config : option ApiIntervalConfig) :
  let c := match config with Some c => c | None => settings end in
  dynamicAdjustment c = true ->
  Double.geCount (getRecentErrorCount now h) (errorThreshold c) = true ->
  calculateDelay settings now h mode config
  = Double.mathRound (Double.mathMin (escalatedProduct mode c) maxDelay).
Proof.
  cbn zeta. intros Hdyn Hthr. unfold calculateDelay. rewrite Hdyn, Hthr.
  unfold escalatedProduct, plainProduct. now destruct mode.
Qed.

(** The delay before clamping in either branch. *)
Lemma calculateDelay_either (settings : ApiIntervalConfig) (now : Z)
    (h : ErrorHistory) (mode : ResearchMode) (config : option ApiIntervalConfig) :
  let c := match config with Some c => c | None => settings end in
  calculateDelay settings now h mode config
  = Double.mathRound (Double.mathMin (plainProduct mode c) maxDelay)
  \/ calculateDelay settings now h mode config
     = Double.mathRound (Double.mathMin (escalatedProduct mode c) maxDelay).
Proof.
  cbn zeta. unfold calculateDelay, escalatedProduct, plainProduct.
  destruct (dynamicAdjustment _); [destruct (Double.geCount _ _)|];
    destruct mode; auto.
Qed.

Lemma plainProduct_positive (mode : ResearchMode) (c : ApiIntervalConfig) :
  positiveConfig c ->
  plainProduct mode c = SpecFloat.S754_zero false
  \/ positiveNumber (plainProduct mode c)
  \/ plainProduct mode c = SpecFloat.S754_infinity false.
Proof.
  intros (Hb & Hd & Hl & Hq & _). unfold plainProduct.
  destruct mode; try (now apply mul_positive); right; now left.
Qed.

(** C9, as the code has it.  The suggested delay is never above the
    maximum of 20 seconds: it is a whole number of milliseconds of at most
    20000, or minus infinity, or NaN, and for a configuration of positive
    numbers it is a whole number between 0 and 20000.  Three events
    recorded within the last five minutes give a recent count of at least
    3.  With dynamic adjustment on and a recent count that meets the
    threshold, the result is the product baseDelay x modeMultiplier x
    errorMultiplier, each product rounded to a double, clamped to the
    maximum and rounded to the nearest millisecond: it is the maximum
    itself when the product reaches it, and otherwise lies within half a
    millisecond of the product. *)
Theorem calculateDelay_bounds (settings : ApiIntervalConfig) (now : Z)
    (h : ErrorHistory) (mode : ResearchMode) (config : option ApiIntervalConfig)
    (t1 t2 t3 : Z) :
  let c := match config with Some c => c | None => settings end in
  let delay := calculateDelay settings now h mode config in
  let product := escalatedProduct mode c in
  match delay with
  | Double.Whole n => n <= 20000
  | Double.RoundedInfinity negative => negative = true
  | Double.RoundedNaN =>
      Double.extended (plainProduct mode c) = Double.NotANumber
      \/ Double.extended product = Double.NotANumber
  end
  /\ (positiveConfig c -> exists n, delay = Double.Whole n /\ 0 <= n <= 20000)
  /\ (now - 300000 < t1 -> now - 300000 < t2 -> now - 300000 < t3 ->
      3 <= getRecentErrorCount now
             (record429Error t3 (record429Error t2 (record429Error t1 h))))
  /\ (3 <= getRecentErrorCount now h ->
      Double.geCount (getRecentErrorCount now h) (errorThreshold defaultConfig) = true)
  /\ (dynamicAdjustment c = true ->
      Double.geCount (getRecentErrorCount now h) (errorThreshold c) = true ->
      delay = Double.mathRound (Double.mathMin product maxDelay)
      /\ match Double.extended product with
         | Double.Finite q =>
             ((q < 20000)%Q ->
              exists n, delay = Double.Whole n
                        /\ (q - (1 # 2) < inject_Z n)%Q
                        /\ (inject_Z n <= q + (1 # 2))%Q)
             /\ ((20000 <= q)%Q -> delay = Double.Whole 20000)
         | Double.PlusInfinity => delay = Double.Whole 20000
         | Double.MinusInfinity => delay = Double.RoundedInfinity true
         | Double.NotANumber => delay = Double.RoundedNaN
         end).
Proof.
  cbn zeta. split; [|split; [|split; [|split]]].
  - destruct (calculateDelay_either settings now h mode config) as [-> | ->];
      match goal with |- context [Double.mathMin ?x maxDelay] =>
        pose proof (clamp_at_most x) as H;
        destruct (Double.mathRound (Double.mathMin x maxDelay)); auto
      end.
  - intros Hpos.
    destruct (calculateDelay_either settings now h mode config) as [-> | ->];
      apply clamp_positive.
    + now apply plainProduct_positive.
    + apply mul_again; [now apply plainProduct_positive|apply Hpos].
  - intros H1 H2 H3. destruct (three_events_recorded h t1 t2 t3) as [p ->].
    rewrite recent_count_app. pose proof (recent_count_nonneg now p).
    assert (getRecentErrorCount now [t1; t2; t3] = 3); [|lia].
    unfold getRecentErrorCount. cbn [filter].
    replace (5 * 60 * 1000) with 300000 by reflexivity.
    destruct (Z.ltb_spec (now - 300000) t1); [|lia].
    destruct (Z.ltb_spec (now - 300000) t2); [|lia].
    destruct (Z.ltb_spec (now - 300000) t3); [|lia].
    reflexivity.
  - apply geCount_default.
  - intros Hdyn Hthr.
    rewrite (calculateDelay_escalated settings now h mode config Hdyn Hthr).
    split; [reflexivity|].
    match goal with |- context [Double.mathMin ?x maxDelay] =>
      pose proof (clamp_cases x) as H; destruct (Double.extended x) as [| |q|];
        try exact H
    end.
    destruct H as [Hlow Hhigh]. split; [|exact Hhigh].
    intros Hq. exists (Qfloor (q + (1 # 2))).
    split; [apply Hlow; now apply Qlt_le_weak|apply round_near].
Qed.

Lemma calculateDelay_bounds_witness :
  3 <= getRecentErrorCount Scenario.noon Scenario.threeRecent
  /\ calculateDelay defaultConfig Scenario.noon Scenario.threeRecent Balanced None
     = Double.Whole 20000
  /\ calculateDelay defaultConfig Scenario.noon Scenario.threeRecent Balanced
       (Some Scenario.smallProduct) = Double.Whole 57
  /\ exists n,
       calculateDelay defaultConfig Scenario.noon Scenario.threeRecent Balanced
         (Some Scenario.oddBase) = Double.Whole n
       /\ 0 <= n <= 20000.
Proof.
  destruct (calculateDelay_bounds defaultConfig Scenario.noon [] Balanced None
              (Scenario.noon - 900) (Scenario.noon - 500) (Scenario.noon - 100))
    as (_ & _ & Hrecent & _).
  destruct (calculateDelay_bounds defaultConfig Scenario.noon Scenario.threeRecent
              Balanced None (Scenario.noon - 900) (Scenario.noon - 500)
              (Scenario.noon - 100))
    as (_ & _ & _ & Hmet & Hescalated).
  destruct (calculateDelay_bounds defaultConfig Scenario.noon Scenario.threeRecent
              Balanced (Some Scenario.smallProduct) (Scenario.noon - 900)
              (Scenario.noon - 500) (Scenario.noon - 100))
    as (_ & _ & _ & _ & Hsmall).
  destruct (calculateDelay_bounds defaultConfig Scenario.noon Scenario.threeRecent
              Balanced (Some Scenario.oddBase) (Scenario.noon - 900)
              (Scenario.noon - 500) (Scenario.noon - 100))
    as (_ & Hpositive & _).
  assert (H3 : 3 <= getRecentErrorCount Scenario.noon Scenario.threeRecent)
    by (apply Hrecent; reflexivity).
  split; [exact H3|]. split; [|split].
  - destruct (Hescalated eq_refl (Hmet H3)) as [_ H].
    assert (E : exists q, Double.extended (escalatedProduct Balanced defaultConfig)
                          = Double.Finite q /\ (20000 <= q)%Q)
      by (eexists; split; [vm_compute; reflexivity|vm_compute; discriminate]).
    destruct E as (q & E & Hq). rewrite E in H. now apply H.
  - destruct (Hsmall eq_refl eq_refl) as [H _]. rewrite H. vm_compute. reflexivity.
  - apply Hpositive.
    repeat split; eexists; eexists; reflexivity.
Defined.

(** C9, the claim as stated, fails when the product is not a whole number
    of milliseconds below the maximum: with a base delay of 1002 ms in
    mode Balanced the product 1002 x 1.1 x 1.5 is 1653.3, as a double
    a little above that, and the result is 1653. *)
Lemma rounding_undercuts_product :
  dynamicAdjustment Scenario.oddBase = true
  /\ 3 <= getRecentErrorCount Scenario.noon Scenario.threeRecent
  /\ (exists q, Double.extended (escalatedProduct Balanced Scenario.oddBase)
                = Double.Finite q
                /\ (16533 # 10 < q)%Q /\ (q < 16534 # 10)%Q)
  /\ calculateDelay defaultConfig Scenario.noon Scenario.threeRecent Balanced
       (Some Scenario.oddBase) = Double.Whole 1653
  /\ ~ atLeastEscalated Balanced Scenario.oddBase
         (calculateDelay defaultConfig Scenario.noon Scenario.threeRecent Balanced
            (Some Scenario.oddBase)).
Proof.
  split; [reflexivity|]. split; [now vm_compute|]. split.
  - eexists. split; [vm_compute; reflexivity|]. split; vm_compute; reflexivity.
  - split; [vm_compute; reflexivity|].
    unfold atLeastEscalated. vm_compute. intros H. now apply H.
Qed.

End TrackerFacts.


(** ** Execution layer *)

Module ExecutionFacts.
Import Execution Spec.
Local Open Scope list_scope.

Lemma abortsCall_no_cancel (s : Signal) (a : Attempt) :
  cancelInFlight a = false -> abortsCall s a = false.
Proof. intros H. unfold abortsCall. now destruct s as [[|]|]. Qed.

Lemma tryFetch_raised (s : Signal) (a : Attempt) (e : JsError) :
  abortsCall s a = false -> raised a = Some e -> tryFetch s a = (inl e, s).
Proof.
  unfold raised, tryFetch. intros ->. cbn [abortsCall].
  destruct (inFlight a) as [|e0|r]; try (now intros [= <-]).
  destruct (isOk r); [|now intros [= <-]].
  destruct (parsed r) as [p|]; [|now intros [= <-]].
  destruct (isBlank _); [now intros [= <-]|discriminate].
Qed.

(** A value is returned only for an answer with status 2xx whose body
    parses and carries a text that is not blank. *)
Lemma tryFetch_success (s s' : Signal) (a : Attempt) (t : string) :
  tryFetch s a = (inr t, s') ->
  exists r p,
    inFlight a = Replies r /\ isOk r = true /\ parsed r = Some p
    /\ primaryText p = Some t /\ isBlank t = false /\ s' = s.
Proof.
  unfold tryFetch. destruct (abortsCall s a); [discriminate|].
  destruct (inFlight a) as [|e0|r]; try discriminate.
  destruct (isOk r) eqn:Hok; [|discriminate].
  destruct (parsed r) as [p|] eqn:Hp; [|discriminate].
  destruct (primaryText p) as [t0|] eqn:Ht.
  - destruct (isBlank t0) eqn:Hb; [discriminate|].
    intros [= <- <-]. now exists r, p.
  - replace (isBlank "") with true by reflexivity. discriminate.
Qed.

Lemma tryFetch_error (s s' : Signal) (a : Attempt) (e : JsError) :
  tryFetch s a = (inl e, s') ->
  (abortsCall s a = true /\ e = abortError /\ s' = fire s)
  \/ (abortsCall s a = false /\ raised a = Some e /\ s' = s).
Proof.
  unfold tryFetch, raised. destruct (abortsCall s a) eqn:A.
  - intros [= <- <-]. now left.
  - intros H. right. split; [reflexivity|].
    unfold tryFetch. cbn [abortsCall].
    destruct (inFlight a) as [|e0|r].
    + injection H as <- <-. now split.
    + injection H as <- <-. now split.
    + destruct (isOk r).
      * destruct (parsed r) as [p|].
        -- destruct (isBlank _); [|discriminate].
           injection H as <- <-. now split.
        -- injection H as <- <-. now split.
      * injection H as <- <-. now split.
Qed.

Lemma apiError_name (r : Reply) : name (apiError r) = "Error"%string.
Proof. unfold apiError. now destruct (parsed r). Qed.

Lemma apiError_status (r : Reply) : errStatus (apiError r) = Some (status r).
Proof. unfold apiError. now destruct (parsed r). Qed.

Lemma serverError_raised (a : Attempt) :
  serverErrorAttempt a = true ->
  exists r, inFlight a = Replies r /\ raised a = Some (apiError r)
            /\ isServerError (apiError r) = true.
Proof.
  unfold serverErrorAttempt, raised, tryFetch. cbn [abortsCall].
  intros H. apply andb_prop in H as [_ H].
  destruct (inFlight a) as [|e0|r]; try discriminate.
  exists r. split; [reflexivity|].
  assert (Hok : isOk r = false) by (unfold isOk; lia).
  rewrite Hok. split; [reflexivity|].
  unfold isServerError. now rewrite apiError_status.
Qed.

Lemma serverError_readable (e : JsError) :
  isServerError e = true -> unreadable e = false.
Proof.
  unfold isServerError, unreadable, isRateLimit.
  destruct (errStatus e) as [s|]; [|discriminate].
  intros H. destruct (Z.eqb_spec s 429) as [->|_]; [discriminate|reflexivity].
Qed.

Lemma serverError_failing (a : Attempt) :
  serverErrorAttempt a = true -> failingAttempt a = true.
Proof.
  intros H. destruct (serverError_raised a H) as (r & _ & Hr & Hs).
  unfold failingAttempt. rewrite Hr, apiError_name, (serverError_readable _ Hs).
  unfold serverErrorAttempt in H. apply andb_prop in H as [-> _]. reflexivity.
Qed.

Lemma suggestedSeconds_TypeError (e thrown : JsError) :
  suggestedSeconds e = inl thrown -> name thrown = "TypeError"%string.
Proof.
  unfold suggestedSeconds, findRetryInfo.
  assert (F : forall l, findEntry l = inl thrown -> name thrown = "TypeError"%string).
  { induction l as [|[|d] l IH]; cbn [findEntry]; try discriminate.
    - now intros [= <-].
    - destruct (String.eqb _ _); [discriminate|exact IH]. }
  destruct (data e) as [p|]; [|discriminate].
  destruct (errorDetails p) as [|l|]; try discriminate.
  - destruct (findEntry l) as [t|[d|]] eqn:E.
    + intros [= <-]. now apply (F l).
    + destruct (retryDelay d) as [|t|]; try discriminate.
      * destruct (String.eqb t ""); [discriminate|].
        destruct (firstDigits t); discriminate.
      * now intros [= <-].
    + discriminate.
  - now intros [= <-].
Qed.

(** The delay of an error whose retry information can be read. *)
Lemma backoffDelay_readable (attempt : Z) (e : JsError) (rand : Q) :
  unreadable e = false -> exists d, backoffDelay attempt e rand = inr d.
Proof.
  unfold unreadable, backoffDelay. destruct (isRateLimit e); [|now eexists].
  destruct (suggestedSeconds e) as [t|[s|]]; [discriminate| |]; now eexists.
Qed.

Lemma backoffDelay_unreadable (attempt : Z) (e : JsError) (rand : Q) :
  unreadable e = true ->
  exists thrown,
    backoffDelay attempt e rand = inl thrown /\ suggestedSeconds e = inl thrown.
Proof.
  unfold unreadable, backoffDelay. destruct (isRateLimit e); [|discriminate].
  destruct (suggestedSeconds e) as [t|[s|]]; try discriminate. now exists t.
Qed.

Lemma attemptsFrom_S (i : Z) (n : nat) :
  attemptsFrom i (S n) = i :: attemptsFrom (i + 1) n.
Proof.
  unfold attemptsFrom. cbn [seq map]. f_equal; [lia|].
  rewrite <- seq_shift, map_map. apply map_ext. intros k. lia.
Qed.

Lemma getNextApiKey_usable (p : Pool) :
  usable p ->
  String.eqb (fst (getNextApiKey p)) "" = false
  /\ keys (snd (getNextApiKey p)) = keys p.
Proof.
  intros [Hne Hall]. unfold getNextApiKey. cbn [fst snd keys]. split; [|reflexivity].
  apply String.eqb_neq. rewrite Forall_forall in Hall. apply Hall, nth_In.
  apply Nat.mod_upper_bound. destruct (keys p); [congruence|discriminate].
Qed.

Section WithJSON.

Variable embeddedMessage : string -> option string.

Lemma fetchesOf_app (l1 l2 : list Event) :
  fetchesOf (l1 ++ l2) = fetchesOf l1 ++ fetchesOf l2.
Proof.
  induction l1 as [|[] l1 IH]; simpl; rewrite ?IH; reflexivity.
Qed.

Lemma catchBlock_continues (attempt : Z) (a : Attempt) (e : JsError) (st : State) :
  String.eqb (name e) "AbortError" && aborted (signal st) = false ->
  unreadable e = false ->
  exists st',
    catchBlock embeddedMessage attempt a e st = inr st'
    /\ lastError st' = Some e
    /\ pool st' = pool st
    /\ fetchesOf (events st') = fetchesOf (events st).
Proof.
  intros H Hu. unfold catchBlock. rewrite H.
  destruct (backsOff embeddedMessage e); [|now eexists].
  destruct (backoffDelay_readable attempt e (random a) Hu) as [d ->].
  unfold logged. cbn [events signal pool lastError history].
  destruct (isRateLimit e); cbn [events signal pool lastError history];
    destruct (firesInBackoff (signal st) a); eexists; (split; [reflexivity|]);
    cbn [events lastError pool]; repeat split;
    rewrite ?fetchesOf_app; cbn [fetchesOf]; rewrite ?app_nil_r; reflexivity.
Qed.

(** The two ways the [catch] block throws: it rethrows the abort of a
    call whose caller has fired the signal, or it fails to read the retry
    information of a 429, after the recording and before any sleep. *)
Lemma catchBlock_throws (attempt : Z) (a : Attempt) (e : JsError) (st st' : State)
    (thrown : JsError) :
  catchBlock embeddedMessage attempt a e st = inl (thrown, st') ->
  (thrown = e /\ st' = st /\ name e = "AbortError"%string
   /\ aborted (signal st) = true)
  \/ (suggestedSeconds e = inl thrown /\ isRateLimit e = true
      /\ name thrown = "TypeError"%string
      /\ st' = mkState (pool st) (signal st) (Some e)
                 (Tracker.record429Error (clock a) (history st))
                 (events st ++ [Recorded429 (clock a)])).
Proof.
  unfold catchBlock.
  destruct (String.eqb_spec (name e) "AbortError") as [Hn|Hn];
    destruct (aborted (signal st)) eqn:Ha; cbn [andb];
    try (intros [= <- <-]; left; now repeat split).
  all: destruct (backsOff embeddedMessage e); [|discriminate].
  all: unfold backoffDelay.
  all: destruct (isRateLimit e) eqn:Hr;
    [|destruct (firesInBackoff _ a); discriminate].
  all: destruct (suggestedSeconds e) as [t|[sec|]] eqn:Es;
    try (unfold logged; cbn [events signal pool lastError history];
         destruct (firesInBackoff _ a); discriminate).
  all: cbn [events signal pool lastError history]; intros [= <- <-]; right;
    repeat split; now apply (suggestedSeconds_TypeError e).
Qed.

(** One iteration for an attempt that fails without an abort. *)
Lemma attempts_failing_step (env : Z -> Attempt) (n : nat) (i : Z) (st : State) :
  usable (pool st) -> failingAttempt (env i) = true ->
  exists st',
    attempts embeddedMessage env (S n) i st = attempts embeddedMessage env n (i + 1) st'
    /\ lastError st' = raised (env i)
    /\ usable (pool st')
    /\ map fst (fetchesOf (events st')) = map fst (fetchesOf (events st)) ++ [i].
Proof.
  intros Hpool Hfail. cbn [attempts].
  destruct (getNextApiKey_usable _ Hpool) as [Hkey Hkeys].
  destruct (getNextApiKey (pool st)) as [key pool'] eqn:Ek. cbn [fst snd] in *.
  rewrite Hkey. cbn [signal logged events pool lastError history].
  unfold failingAttempt in Hfail. apply andb_prop in Hfail as [Hc Hr].
  apply negb_true_iff in Hc.
  rewrite (abortsCall_no_cancel _ _ Hc).
  destruct (raised (env i)) as [e|] eqn:Er; [|discriminate].
  rewrite (tryFetch_raised _ _ e (abortsCall_no_cancel _ _ Hc) Er).
  apply andb_prop in Hr as [Hr Hu].
  apply negb_true_iff in Hr. apply negb_true_iff in Hu.
  match goal with |- context [catchBlock _ i (env i) e ?s2] =>
    destruct (catchBlock_continues i (env i) e s2) as (st' & Hcb & Hle & Hp & Hf);
      [now rewrite Hr|exact Hu|]
  end.
  rewrite Hcb. exists st'. split; [reflexivity|]. split; [exact Hle|].
  cbn [pool events] in Hp, Hf. split.
  - rewrite Hp. destruct Hpool as [H1 H2]. unfold usable. now rewrite Hkeys.
  - rewrite Hf, fetchesOf_app, map_app. reflexivity.
Qed.

(** When every remaining attempt fails without an abort, the loop makes
    each of them and ends with the aggregate error. *)
Lemma attempts_all_failing (env : Z -> Attempt) (n : nat) (i : Z) (st : State) :
  usable (pool st) ->
  (forall j, i <= j < i + Z.of_nat n -> failingAttempt (env j) = true) ->
  let r := attempts embeddedMessage env n i st in
  fst r = AllKeysFailedError
            ("All API keys failed. Last error: "
             ++ getCleanErrorMessage embeddedMessage (lastError (snd r)))
  /\ map fst (fetchesOf (events (snd r)))
     = map fst (fetchesOf (events st)) ++ attemptsFrom i n
  /\ ((0 < n)%nat -> lastError (snd r) = raised (env (i + Z.of_nat n - 1))).
Proof.
  revert i st. induction n as [|n IH]; intros i st Hpool Hall; cbn zeta.
  - cbn [attempts fst snd]. unfold attemptsFrom. simpl. rewrite app_nil_r.
    repeat split. lia.
  - destruct (attempts_failing_step env n i st Hpool) as (st' & -> & Hle & Hp & Hf);
      [apply Hall; lia|].
    destruct (IH (i + 1) st' Hp) as (H1 & H2 & H3); [intros j Hj; apply Hall; lia|].
    split; [exact H1|]. split.
    + rewrite H2, Hf, <- app_assoc. f_equal. unfold attemptsFrom.
      cbn [seq map app]. f_equal; [lia|].
      rewrite <- seq_shift, map_map. apply map_ext. intros k. lia.
    + intros _. destruct n as [|n].
      * cbn [attempts snd]. rewrite Hle. f_equal. f_equal. lia.
      * rewrite H3 by lia. f_equal. f_equal. lia.
Qed.

(** What [getCleanErrorMessage] makes of the error thrown for an answer
    that is not ok. *)
Lemma getCleanErrorMessage_apiError (r : Reply) :
  getCleanErrorMessage embeddedMessage (Some (apiError r)) = namedBy embeddedMessage r
  /\ namedBy embeddedMessage r <> ""%string.
Proof.
  assert (Hdefault : forall status tail,
            getCleanErrorMessage embeddedMessage
              (Some (mkError "Error" ("API Error: " ++ tail) status None))
            = ("API Error: " ++ tail)%string) by reflexivity.
  assert (Hdefault' : forall status tail body,
            getCleanErrorMessage embeddedMessage
              (Some (mkError "Error" ("API Error: " ++ tail) status (Some body)))
            = ("API Error: " ++ tail)%string) by reflexivity.
  unfold apiError, namedBy.
  destruct (parsed r) as [body|]; [|split; [apply Hdefault|discriminate]].
  unfold orElse at 1. destruct (errorMessage body) as [m|];
    [|split; [apply Hdefault'|discriminate]].
  destruct (String.eqb_spec m "") as [E|N]; [split; [apply Hdefault'|discriminate]|].
  unfold getCleanErrorMessage. cbn [message].
  apply String.eqb_neq in N as N'. rewrite N'.
  destruct (startsWithBrace m); [|split; [reflexivity|exact N]].
  unfold orElse. destruct (embeddedMessage m) as [inner|];
    [|split; [reflexivity|exact N]].
  destruct (String.eqb_spec inner ""); split; try reflexivity; assumption.
Qed.

(** C1.  With a pool of two credentials and two retries per credential, a
    request answered with a status 5xx on every attempt makes exactly the
    attempts 1, 2, 3 and 4 and then fails with [AllKeysFailedError];
    nothing is thrown before that.  The message of the aggregate error
    names the fourth answer: it ends with the message of that answer's
    error body, or with its status when the body has no message, or with
    its status and raw text when the body does not parse, and this text
    is never empty. *)
Theorem server_errors_exhaust_budget (env : Z -> Attempt) (k1 k2 model : string)
    (cur : nat) (userSignal : Signal) (h : Tracker.ErrorHistory) :
  k1 <> ""%string -> k2 <> ""%string -> model <> ""%string ->
  (forall i, 1 <= i <= 4 -> serverErrorAttempt (env i) = true) ->
  let run := executeWithRetry embeddedMessage env "generateContent" (Some model)
               (mkPool [k1; k2] cur) userSignal h in
  map fst (fetchesOf (events (snd run))) = [1; 2; 3; 4]
  /\ exists r,
       inFlight (env 4) = Replies r
       /\ 500 <= status r < 600
       /\ lastError (snd run) = Some (apiError r)
       /\ fst run = AllKeysFailedError
                      ("All API keys failed. Last error: " ++ namedBy embeddedMessage r)
       /\ namedBy embeddedMessage r <> ""%string
       /\ (parsed r = None ->
           namedBy embeddedMessage r
           = ("API Error: " ++ showZ (status r) ++ " - " ++ responseText r)%string).
Proof.
  intros Hk1 Hk2 Hm Hall. cbn zeta. unfold executeWithRetry.
  cbn [keys List.length Nat.eqb restMethodOf String.eqb Ascii.eqb Bool.eqb].
  replace (String.eqb (orElse (Some model) "") "") with false.
  2:{ symmetry. unfold orElse. destruct (String.eqb_spec model ""); [contradiction|].
      now apply String.eqb_neq. }
  destruct (attempts_all_failing env 4 1 (initialState (mkPool [k1; k2] cur) userSignal h))
    as (H1 & H2 & H3).
  - split; [discriminate|]. cbn. repeat constructor; assumption.
  - intros j Hj. apply serverError_failing, Hall. lia.
  - change (2 * Z.to_nat maxRetriesPerKeyCycle)%nat with 4%nat.
    split; [exact H2|].
    destruct (serverError_raised (env 4)) as (r & Hr & Hraised & _); [apply Hall; lia|].
    assert (Hs : 500 <= status r < 600).
    { specialize (Hall 4 ltac:(lia)). unfold serverErrorAttempt in Hall.
      rewrite Hr in Hall. lia. }
    specialize (H3 ltac:(lia)). change (1 + Z.of_nat 4 - 1) with 4 in H3.
    rewrite Hraised in H3.
    destruct (getCleanErrorMessage_apiError r) as [Hclean Hne].
    exists r. split; [exact Hr|]. split; [exact Hs|]. split; [exact H3|].
    split; [rewrite H1, H3, Hclean; reflexivity|]. split; [exact Hne|].
    intros Hp. unfold namedBy. now rewrite Hp.
Qed.

Lemma executeWithRetry_unfold (env : Z -> Attempt) (model : string) (p : Pool)
    (userSignal : Signal) (h : Tracker.ErrorHistory) :
  usable p -> model <> ""%string ->
  executeWithRetry embeddedMessage env "generateContent" (Some model) p userSignal h
  = attempts embeddedMessage env (List.length (keys p) * 2) 1
      (initialState p userSignal h).
Proof.
  intros [Hne _] Hm. unfold executeWithRetry.
  destruct (keys p) as [|k ks] eqn:Ek; [congruence|].
  cbn [List.length Nat.eqb restMethodOf String.eqb Ascii.eqb Bool.eqb orElse].
  destruct (String.eqb_spec model ""); [contradiction|].
  apply String.eqb_neq in n. rewrite n. reflexivity.
Qed.

(** A value returned by the loop is the text of an answer. *)
Lemma attempts_success (env : Z -> Attempt) (n : nat) (i : Z) (st : State)
    (t : string) :
  fst (attempts embeddedMessage env n i st) = Success t ->
  exists j r p,
    i <= j < i + Z.of_nat n /\ inFlight (env j) = Replies r /\ isOk r = true
    /\ parsed r = Some p /\ primaryText p = Some t /\ isBlank t = false.
Proof.
  revert i st. induction n as [|n IH]; intros i st; cbn [attempts].
  - discriminate.
  - destruct (getNextApiKey (pool st)) as [key pool'].
    assert (Step : forall st', fst (attempts embeddedMessage env n (i + 1) st') = Success t ->
              exists j r p,
                i <= j < i + Z.of_nat (S n) /\ inFlight (env j) = Replies r
                /\ isOk r = true /\ parsed r = Some p /\ primaryText p = Some t
                /\ isBlank t = false).
    { intros st' H. destruct (IH _ _ H) as (j & r & p & Hj & Hrest).
      exists j, r, p. split; [lia|exact Hrest]. }
    destruct (String.eqb key ""); [apply Step|].
    destruct (tryFetch _ (env i)) as [[e|text] s] eqn:Et.
    + destruct (catchBlock _ _ _ _ _) as [[thrown st3]|st3]; [discriminate|apply Step].
    + cbn [fst]. intros [= ->].
      destruct (tryFetch_success _ _ _ _ Et) as (r & p & H1 & H2 & H3 & H4 & H5 & _).
      exists i, r, p. repeat split; try assumption; lia.
Qed.

(** The loop throws in two ways only: it rethrows the abort of a call
    whose caller has fired the signal, or it fails with a [TypeError]
    while it reads the retry information of a 429, which is then the last
    error and whose recording ends the log. *)
Lemma attempts_thrown (env : Z -> Attempt) (n : nat) (i : Z) (st : State)
    (e : JsError) :
  fst (attempts embeddedMessage env n i st) = Thrown e ->
  (name e = "AbortError"%string
   /\ aborted (signal (snd (attempts embeddedMessage env n i st))) = true)
  \/ (name e = "TypeError"%string
      /\ exists j last before t,
           i <= j < i + Z.of_nat n
           /\ raised (env j) = Some last
           /\ lastError (snd (attempts embeddedMessage env n i st)) = Some last
           /\ isRateLimit last = true
           /\ suggestedSeconds last = inl e
           /\ events (snd (attempts embeddedMessage env n i st))
              = before ++ [Recorded429 t]).
Proof.
  revert i st. induction n as [|n IH]; intros i st; cbn [attempts].
  - discriminate.
  - destruct (getNextApiKey (pool st)) as [key pool'].
    assert (Step : forall st',
              fst (attempts embeddedMessage env n (i + 1) st') = Thrown e ->
              (name e = "AbortError"%string
               /\ aborted (signal (snd (attempts embeddedMessage env n (i + 1) st')))
                  = true)
              \/ (name e = "TypeError"%string
                  /\ exists j last before t,
                       i <= j < i + Z.of_nat (S n)
                       /\ raised (env j) = Some last
                       /\ lastError (snd (attempts embeddedMessage env n (i + 1) st'))
                          = Some last
                       /\ isRateLimit last = true
                       /\ suggestedSeconds last = inl e
                       /\ events (snd (attempts embeddedMessage env n (i + 1) st'))
                          = before ++ [Recorded429 t])).
    { intros st' H. destruct (IH _ _ H) as [Hl|(Hn & j & last & before & t & Hj & Hrest)];
        [now left|right].
      split; [exact Hn|]. exists j, last, before, t. split; [lia|exact Hrest]. }
    destruct (String.eqb key ""); [apply Step|].
    destruct (tryFetch _ (env i)) as [[e0|text] s] eqn:Et; [|discriminate].
    match goal with |- context [catchBlock _ i (env i) e0 ?s2] =>
      destruct (catchBlock embeddedMessage i (env i) e0 s2) as [[thrown st3]|st3] eqn:Ec
    end; [|apply Step].
    cbn [fst snd]. intros [= ->].
    destruct (catchBlock_throws _ _ _ _ _ _ Ec)
      as [(-> & -> & Hn & Ha)|(Hs & Hr & Hn & ->)].
    + left. now split.
    + right. split; [exact Hn|]. cbn [lastError events].
      destruct (tryFetch_error _ _ _ _ Et) as [(_ & -> & _)|(_ & Hraised & _)];
        [discriminate Hr|].
      eexists i, e0, _, _. split; [lia|]. repeat split; eassumption.
Qed.

(** An abort by the caller while a call is in flight ends the loop at
    once: the abort error is rethrown and no later attempt is made. *)
Lemma abort_in_flight_stops (env : Z -> Attempt) (n : nat) (i : Z) (st : State) :
  usable (pool st) -> abortsCall (signal st) (env i) = true ->
  let r := attempts embeddedMessage env (S n) i st in
  fst r = Thrown abortError
  /\ events (snd r)
     = events st ++ [Fetched i (fst (getNextApiKey (pool st))); CallerCancelled].
Proof.
  intros Hpool Hab. cbn zeta. cbn [attempts].
  destruct (getNextApiKey_usable _ Hpool) as [Hkey _].
  destruct (getNextApiKey (pool st)) as [key pool']. cbn [fst] in *.
  rewrite Hkey. cbn [signal logged events pool lastError history].
  rewrite Hab. unfold tryFetch. rewrite Hab.
  unfold abortsCall in Hab. destruct (signal st) as [[|]|]; try discriminate.
  cbn. split; reflexivity.
Qed.

Lemma delaysOf_app (l1 l2 : list Event) :
  delaysOf (l1 ++ l2) = delaysOf l1 ++ delaysOf l2.
Proof.
  induction l1 as [|[] l1 IH]; simpl; rewrite ?IH; reflexivity.
Qed.

Lemma backoffDelay_exponential (attempt : Z) (e : JsError) (rand : Q) :
  (0 <= rand)%Q -> (rand < 1)%Q ->
  let k := (attempt - 1) mod 2 in
  let base := if isServerError e then 5000 else 3000 in
  match (if isRateLimit e then suggestedSeconds e else inr None) with
  | inl thrown => backoffDelay attempt e rand = inl thrown
  | inr (Some seconds) =>
      backoffDelay attempt e rand = inr (inject_Z (seconds * 1000 + 500))
  | inr None =>
      exists d, backoffDelay attempt e rand = inr d
                /\ (inject_Z (base * 2 ^ k) <= d)%Q
                /\ (d < inject_Z (base * 2 ^ k) + 1000)%Q
  end.
Proof.
  intros H0 H1. cbn zeta. unfold backoffDelay, maxRetriesPerKeyCycle.
  destruct (isRateLimit e); [destruct (suggestedSeconds e) as [t|[s|]]; try reflexivity|];
    eexists; (split; [reflexivity|]); split; lra.
Qed.

(** C7, as the code has it.  A failed attempt that is not a cancellation
    goes on to the next attempt.  When its error is a status 5xx, a status
    429, a "Failed to fetch" rejection, an empty response or a JSON parse
    failure, the layer first sleeps base x 2^((attempt - 1) mod 2) plus
    less than one second of jitter, base being 5 s for 5xx and 3 s
    otherwise; for a 429 whose RetryInfo carries a delay with a number in
    it, that many seconds plus 500 ms is slept instead.  Every 429 is
    recorded in the tracker, whichever delay is used.  Any other failure,
    a timeout among them, is followed by the next attempt without a
    delay.  A 429 whose body is not shaped as the API documents, so that
    its retry information cannot be read, is recorded as well, and then
    the [catch] block itself fails with a [TypeError], before any sleep. *)
Theorem backoff_policy (attempt : Z) (a : Attempt) (e : JsError) (st : State) :
  (0 <= random a)%Q -> (random a < 1)%Q ->
  String.eqb (name e) "AbortError" && aborted (signal st) = false ->
  let k := (attempt - 1) mod 2 in
  let base := if isServerError e then 5000 else 3000 in
  match (if isRateLimit e then suggestedSeconds e else inr None) with
  | inl thrown =>
      name thrown = "TypeError"%string
      /\ catchBlock embeddedMessage attempt a e st
         = inl (thrown,
                mkState (pool st) (signal st) (Some e)
                  (Tracker.record429Error (clock a) (history st))
                  (events st ++ [Recorded429 (clock a)]))
  | inr suggested =>
      exists st',
        catchBlock embeddedMessage attempt a e st = inr st'
        /\ lastError st' = Some e
        /\ (k = 0 \/ k = 1)
        /\ (backsOff embeddedMessage e = true ->
            exists d,
              delaysOf (events st') = delaysOf (events st) ++ [d]
              /\ match suggested with
                 | Some seconds => d = inject_Z (seconds * 1000 + 500)
                 | None => (inject_Z (base * 2 ^ k) <= d)%Q
                           /\ (d < inject_Z (base * 2 ^ k) + 1000)%Q
                 end)
        /\ (isRateLimit e = true ->
            backsOff embeddedMessage e = true
            /\ history st' = Tracker.record429Error (clock a) (history st))
        /\ (isRateLimit e = false -> history st' = history st)
        /\ (backsOff embeddedMessage e = false -> events st' = events st)
  end
  /\ backsOff embeddedMessage emptyResponseError = true
  /\ backsOff embeddedMessage jsonParseError = true
  /\ backsOff embeddedMessage (plainError "Failed to fetch") = true
  /\ backsOff embeddedMessage abortError = false
  /\ (forall r, 500 <= status r < 600 ->
      backsOff embeddedMessage (apiError r) = true
      /\ isServerError (apiError r) = true)
  /\ (forall r, status r = 429 ->
      isRateLimit (apiError r) = true /\ isServerError (apiError r) = false).
Proof.
  intros H0 H1 Hna. cbn zeta.
  split; [|do 4 (split; [reflexivity|]); split].
  - unfold catchBlock. rewrite Hna.
    assert (Hk : (attempt - 1) mod 2 = 0 \/ (attempt - 1) mod 2 = 1).
    { pose proof (Z.mod_pos_bound (attempt - 1) 2). lia. }
    pose proof (backoffDelay_exponential attempt e (random a) H0 H1) as Hd.
    cbn zeta in Hd.
    assert (Hb429 : isRateLimit e = true -> backsOff embeddedMessage e = true).
    { intros Hr. unfold backsOff. rewrite Hr. now rewrite orb_true_r. }
    destruct (isRateLimit e) eqn:Hr.
    + rewrite (Hb429 eq_refl).
      destruct (suggestedSeconds e) as [thrown|suggested] eqn:Es.
      * rewrite Hd. split; [now apply (suggestedSeconds_TypeError e)|reflexivity].
      * assert (Hd' : exists d, backoffDelay attempt e (random a) = inr d
                       /\ match suggested with
                          | Some seconds => d = inject_Z (seconds * 1000 + 500)
                          | None =>
                              (inject_Z ((if isServerError e then 5000 else 3000)
                                         * 2 ^ ((attempt - 1) mod 2)) <= d)%Q
                              /\ (d < inject_Z ((if isServerError e then 5000 else 3000)
                                                * 2 ^ ((attempt - 1) mod 2)) + 1000)%Q
                          end).
        { destruct suggested as [sec|];
            [eexists; split; [exact Hd|reflexivity]|].
          destruct Hd as (d & E & B). now exists d. }
        destruct Hd' as (d & -> & Hdv).
        unfold logged. cbn [events signal pool lastError history].
        destruct (firesInBackoff (signal st) a); eexists;
          (split; [reflexivity|]); cbn [events lastError history];
          (split; [reflexivity|]); (split; [exact Hk|]);
          (split; [intros _; exists d; split;
                    [rewrite ?delaysOf_app; cbn [delaysOf]; rewrite ?app_nil_r;
                     rewrite <- ?app_assoc; reflexivity|exact Hdv]|]);
          repeat split; try reflexivity; discriminate.
    + destruct Hd as (d & -> & Hdv).
      destruct (backsOff embeddedMessage e) eqn:Hb.
      * unfold logged. cbn [events signal pool lastError history].
        destruct (firesInBackoff (signal st) a); eexists;
          (split; [reflexivity|]); cbn [events lastError history];
          (split; [reflexivity|]); (split; [exact Hk|]);
          (split; [intros _; exists d; split;
                    [rewrite ?delaysOf_app; cbn [delaysOf]; rewrite ?app_nil_r;
                     rewrite <- ?app_assoc; reflexivity|exact Hdv]|]);
          repeat split; try reflexivity; discriminate.
      * eexists. split; [reflexivity|]. cbn [lastError history events].
        repeat split; try assumption; discriminate.
  - intros r Hr. unfold backsOff, isServerError. rewrite apiError_status.
    replace ((500 <=? status r) && (status r <? 600)) with true by lia.
    split; reflexivity.
  - intros r Hr. unfold isRateLimit, isServerError.
    rewrite apiError_status, Hr. split; reflexivity.
Qed.

Lemma blank_raised (a : Attempt) :
  blankAttempt a = true -> raised a = Some emptyResponseError.
Proof.
  unfold blankAttempt, raised, tryFetch. cbn [abortsCall].
  intros H. apply andb_prop in H as [_ H].
  destruct (inFlight a) as [|e0|r]; try discriminate.
  apply andb_prop in H as [-> H].
  destruct (parsed r) as [p|]; [|discriminate]. now rewrite H.
Qed.

Lemma blank_failing (a : Attempt) : blankAttempt a = true -> failingAttempt a = true.
Proof.
  intros H. unfold failingAttempt. rewrite (blank_raised a H).
  unfold blankAttempt in H. apply andb_prop in H as [-> _]. reflexivity.
Qed.

Lemma tryFetch_answers (s : Signal) (a : Attempt) (t : string) :
  Notions.answers t a -> tryFetch s a = (inr t, s).
Proof.
  intros (Hc & r & p & Hin & Hok & Hp & Ht & Hb). unfold tryFetch.
  now rewrite (abortsCall_no_cancel _ _ Hc), Hin, Hok, Hp, Ht, Hb.
Qed.

(** After attempts that fail and go on, an answered attempt ends the loop
    with its text. *)
Lemma attempts_first_answer (env : Z -> Attempt) (j n : nat) (i : Z) (st : State)
    (t : string) :
  usable (pool st) ->
  (forall k, i <= k < i + Z.of_nat j -> failingAttempt (env k) = true) ->
  Notions.answers t (env (i + Z.of_nat j)) ->
  fst (attempts embeddedMessage env (j + S n) i st) = Success t
  /\ map fst (fetchesOf (events (snd (attempts embeddedMessage env (j + S n) i st))))
     = map fst (fetchesOf (events st)) ++ attemptsFrom i (S j).
Proof.
  revert i st. induction j as [|j IH]; intros i st Hpool Hall Hgood.
  - cbn [Nat.add]. replace (i + Z.of_nat 0) with i in Hgood by lia.
    cbn [attempts].
    destruct (getNextApiKey_usable _ Hpool) as [Hkey _].
    destruct (getNextApiKey (pool st)) as [key pool']. cbn [fst] in Hkey.
    rewrite Hkey. cbn [signal logged events pool lastError history].
    rewrite (tryFetch_answers _ _ _ Hgood). cbn [fst snd events].
    split; [reflexivity|]. rewrite fetchesOf_app, map_app.
    destruct Hgood as [Hc _]. rewrite (abortsCall_no_cancel _ _ Hc).
    unfold attemptsFrom. cbn. do 3 f_equal. lia.
  - cbn [Nat.add].
    destruct (attempts_failing_step env (j + S n) i st Hpool) as (st' & -> & _ & Hp & Hf);
      [apply Hall; lia|].
    destruct (IH (i + 1) st' Hp) as [H1 H2].
    + intros k Hk. apply Hall. lia.
    + replace (i + 1 + Z.of_nat j) with (i + Z.of_nat (S j)) by lia. exact Hgood.
    + split; [exact H1|]. rewrite H2, Hf, <- app_assoc. f_equal.
      now rewrite (attemptsFrom_S i (S j)).
Qed.

(** C8.  The layer returns a value exactly for an answer with status 2xx
    whose body parses and whose primary text is not blank.  Such an answer
    is returned: the attempt yields its text, and a call whose earlier
    attempts failed and went on returns the text of the first such answer
    without a further attempt.  A value that is returned always stems from
    such an answer.  An answer whose text is empty or white space raises
    the empty-response error, which is never returned or rethrown: the
    layer sleeps the backoff with base 3 s and goes on, and when every
    attempt is answered that way the request ends with the aggregate error
    naming the empty response. *)
Theorem only_nonblank_text_succeeds (env : Z -> Attempt) (model : string)
    (p : Pool) (userSignal : Signal) (h : Tracker.ErrorHistory)
    (attempt : Z) (st : State) :
  let run := executeWithRetry embeddedMessage env "generateContent" (Some model)
               p userSignal h in
  (forall t, fst run = Success t ->
     isBlank t = false
     /\ exists j r payload,
          1 <= j <= 2 * Z.of_nat (List.length (keys p))
          /\ inFlight (env j) = Replies r /\ isOk r = true
          /\ parsed r = Some payload /\ primaryText payload = Some t)
  /\ (forall t, Notions.answers t (env attempt) ->
      tryFetch (signal st) (env attempt) = (inr t, signal st))
  /\ (usable p -> model <> ""%string ->
      forall (j : nat) t,
        (j < 2 * List.length (keys p))%nat ->
        (forall k, 1 <= k < 1 + Z.of_nat j -> failingAttempt (env k) = true) ->
        Notions.answers t (env (1 + Z.of_nat j)) ->
        fst run = Success t
        /\ map fst (fetchesOf (events (snd run))) = attemptsFrom 1 (S j))
  /\ (blankAttempt (env attempt) = true ->
      tryFetch (signal st) (env attempt) = (inl emptyResponseError, signal st)
      /\ exists st',
           catchBlock embeddedMessage attempt (env attempt) emptyResponseError st
           = inr st'
           /\ lastError st' = Some emptyResponseError
           /\ delaysOf (events st')
              = delaysOf (events st)
                ++ [(inject_Z (3000 * 2 ^ ((attempt - 1) mod 2))
                     + random (env attempt) * 1000)%Q])
  /\ (usable p -> model <> ""%string ->
      (forall j, 1 <= j <= 2 * Z.of_nat (List.length (keys p)) ->
                 blankAttempt (env j) = true) ->
      fst run = AllKeysFailedError
                  "All API keys failed. Last error: Empty response from API"
      /\ map fst (fetchesOf (events (snd run)))
         = attemptsFrom 1 (List.length (keys p) * 2)).
Proof.
  cbn zeta. split; [|split; [|split; [|split]]].
  - intros t Ht. unfold executeWithRetry in Ht.
    destruct (List.length (keys p) =? 0)%nat; [discriminate|].
    destruct (restMethodOf "generateContent"); [|discriminate].
    destruct (String.eqb (orElse (Some model) "") ""); [discriminate|].
    destruct (attempts_success _ _ _ _ _ Ht) as (j & r & payload & Hj & H1 & H2 & H3 & H4 & H5).
    split; [exact H5|]. exists j, r, payload.
    repeat split; try assumption; try lia.
    unfold maxRetriesPerKeyCycle in Hj. lia.
  - intros t Hgood. now apply tryFetch_answers.
  - intros Hp Hm j t Hj Hall Hgood. rewrite executeWithRetry_unfold by assumption.
    replace (List.length (keys p) * 2)%nat
      with (j + S (2 * List.length (keys p) - j - 1))%nat by lia.
    exact (attempts_first_answer env j _ 1 (initialState p userSignal h) t Hp Hall Hgood).
  - intros Hb. split.
    + apply tryFetch_raised; [|now apply blank_raised].
      apply abortsCall_no_cancel. unfold blankAttempt in Hb.
      apply andb_prop in Hb as [Hc _]. now apply negb_true_iff.
    + unfold catchBlock. cbn [name emptyResponseError plainError String.eqb Ascii.eqb Bool.eqb andb].
      replace (backsOff embeddedMessage emptyResponseError) with true by reflexivity.
      unfold logged, backoffDelay, maxRetriesPerKeyCycle.
      cbn [isRateLimit isServerError errStatus emptyResponseError plainError
           events signal pool lastError history].
      destruct (firesInBackoff (signal st) (env attempt)); eexists;
        (split; [reflexivity|]); cbn [lastError events]; (split; [reflexivity|]);
        rewrite ?delaysOf_app; cbn [delaysOf]; rewrite ?app_nil_r; reflexivity.
  - intros Hp Hm Hall. rewrite executeWithRetry_unfold by assumption.
    destruct (attempts_all_failing env (List.length (keys p) * 2) 1
                (initialState p userSignal h)) as (H1 & H2 & H3).
    + exact Hp.
    + intros j Hj. apply blank_failing, Hall. lia.
    + split; [|exact H2]. rewrite H1, H3.
      * rewrite blank_raised; [reflexivity|]. apply Hall.
        destruct Hp as [Hne _]. destruct (keys p); [congruence|]. cbn [List.length]. lia.
      * destruct Hp as [Hne _]. destruct (keys p); [congruence|]. cbn [List.length]. lia.
Qed.

End WithJSON.

Lemma backoff_policy_witness :
  exists st',
    catchBlock Scenario.noEmbedded 2 (Scenario.plainly (Replies Scenario.quota))
      (apiError Scenario.quota) (initialState Scenario.twoKeys None [])
    = inr st'
    /\ delaysOf (events st') = [17500%Q]
    /\ history st' = [Scenario.noon].
Proof.
  pose proof (backoff_policy Scenario.noEmbedded 2
                (Scenario.plainly (Replies Scenario.quota))
                (apiError Scenario.quota) (initialState Scenario.twoKeys None []))
    as H.
  assert (Es : suggestedSeconds (apiError Scenario.quota) = inr (Some 17))
    by (vm_compute; reflexivity).
  cbn zeta in H.
  change (isRateLimit (apiError Scenario.quota)) with true in H.
  rewrite Es in H.
  destruct H as [(st' & Hc & _ & _ & Hd & Hr & _) _]; try (now vm_compute).
  exists st'. split; [exact Hc|].
  destruct (Hd eq_refl) as (d & Hds & Hdv). destruct (Hr eq_refl) as [_ Hh].
  split; [|exact Hh]. rewrite Hds. cbn in Hdv. now rewrite Hdv.
Defined.

(** C7, the claim as stated, fails for a timeout: the first attempt times
    out, the caller has not cancelled, and the second attempt follows with
    no delay at all. *)
Lemma timeout_is_retried_without_delay :
  raised (Scenario.timeoutThenAnswered 1) = Some abortError
  /\ events (snd (executeWithRetry Scenario.noEmbedded Scenario.timeoutThenAnswered
                     "generateContent" (Some "gemini-pro"%string)
                     Scenario.twoKeys (Some false) []))
     = [Fetched 1 "key-AAAA"; Fetched 2 "key-BBBB"]
  /\ ~ backsOffAfterFailure
        (events (snd (executeWithRetry Scenario.noEmbedded
                        Scenario.timeoutThenAnswered "generateContent"
                        (Some "gemini-pro"%string) Scenario.twoKeys (Some false) []))).
Proof.
  repeat split. intros (d & Hd & _). discriminate Hd.
Qed.

Lemma only_nonblank_text_succeeds_witness :
  isBlank "forty-two" = false
  /\ fst (executeWithRetry Scenario.noEmbedded Scenario.cancelledThenAnswered
            "generateContent" (Some "gemini-pro"%string) Scenario.twoKeys None [])
     = Success "forty-two"
  /\ tryFetch None (Scenario.cancelledThenAnswered 2) = (inr "forty-two"%string, None)
  /\ tryFetch None (Scenario.alwaysBlank 1) = (inl emptyResponseError, None)
  /\ fst (executeWithRetry Scenario.noEmbedded Scenario.alwaysBlank "generateContent"
            (Some "gemini-pro"%string) Scenario.twoKeys None [])
     = AllKeysFailedError "All API keys failed. Last error: Empty response from API".
Proof.
  assert (Hu : usable Scenario.twoKeys)
    by (split; [discriminate|repeat constructor; discriminate]).
  destruct (only_nonblank_text_succeeds Scenario.noEmbedded
              Scenario.timeoutThenAnswered "gemini-pro" Scenario.twoKeys
              (Some false) [] 1 (initialState Scenario.twoKeys (Some false) []))
    as (Hsuccess & _).
  destruct (only_nonblank_text_succeeds Scenario.noEmbedded
              Scenario.cancelledThenAnswered "gemini-pro" Scenario.twoKeys
              None [] 2 (initialState Scenario.twoKeys None []))
    as (_ & Hanswer & Hfirst & _).
  assert (Hgood : Notions.answers "forty-two" (Scenario.cancelledThenAnswered 2)).
  { split; [reflexivity|]. eexists _, _. repeat split; reflexivity. }
  destruct (only_nonblank_text_succeeds Scenario.noEmbedded Scenario.alwaysBlank
              "gemini-pro" Scenario.twoKeys None [] 1
              (initialState Scenario.twoKeys None []))
    as (_ & _ & _ & Hblank & Hall).
  split; [apply (Hsuccess "forty-two"%string eq_refl)|].
  split.
  { apply (Hfirst Hu ltac:(discriminate) 1%nat "forty-two"%string).
    - cbn. lia.
    - intros k Hk. assert (k = 1) as -> by lia. reflexivity.
    - exact Hgood. }
  split; [exact (Hanswer "forty-two"%string Hgood)|].
  split; [apply (Hblank eq_refl)|].
  apply Hall.
  - exact Hu.
  - discriminate.
  - intros j _. reflexivity.
Defined.

(** C2, the code at the failing input.  The caller fires its signal during
    the sleep after the first attempt.  The attempts 2, 3 and 4 are still
    made and the request ends with the aggregate error instead of the
    cancellation error; when the second attempt is answered, its text is
    returned although the caller had cancelled. *)
Theorem cancel_during_backoff_goes_unnoticed :
  let run := executeWithRetry Scenario.noEmbedded Scenario.cancelledWhileWaiting
               "generateContent" (Some "gemini-pro"%string) Scenario.twoKeys
               (Some false) [] in
  let run' := executeWithRetry Scenario.noEmbedded Scenario.cancelledThenAnswered
                "generateContent" (Some "gemini-pro"%string) Scenario.twoKeys
                (Some false) [] in
  signal (snd run) = Some true
  /\ fetchesAfterCancel (events (snd run))
     = [(2, "key-BBBB"%string); (3, "key-AAAA"%string); (4, "key-BBBB"%string)]
  /\ fst run = AllKeysFailedError
                 "All API keys failed. Last error: API Error: 503 - Service Unavailable"
  /\ fetchesAfterCancel (events (snd run')) = [(2, "key-BBBB"%string)]
  /\ fst run' = Success "forty-two".
Proof. cbn zeta. repeat split. Qed.

Lemma server_errors_exhaust_budget_witness :
  map fst (fetchesOf (events (snd
    (executeWithRetry Scenario.noEmbedded Scenario.alwaysUnavailable
       "generateContent" (Some "gemini-pro"%string) Scenario.twoKeys (Some false) []))))
  = [1; 2; 3; 4]
  /\ fst (executeWithRetry Scenario.noEmbedded Scenario.alwaysUnavailable
            "generateContent" (Some "gemini-pro"%string) Scenario.twoKeys (Some false) [])
     = AllKeysFailedError
         "All API keys failed. Last error: API Error: 503 - Service Unavailable".
Proof.
  assert (Hall : forall i, 1 <= i <= 4 ->
                   serverErrorAttempt (Scenario.alwaysUnavailable i) = true)
    by (intros i _; reflexivity).
  destruct (server_errors_exhaust_budget Scenario.noEmbedded Scenario.alwaysUnavailable
              "key-AAAA" "key-BBBB" "gemini-pro" 0 (Some false) []
              ltac:(discriminate) ltac:(discriminate) ltac:(discriminate) Hall)
    as (Hf & r & Hr & _ & _ & Hrun & _ & Hraw).
  split; [exact Hf|]. unfold Scenario.twoKeys.
  injection Hr as <-. rewrite Hrun, (Hraw eq_refl). reflexivity.
Defined.

End ExecutionFacts.


(** ** Negotiation engine *)

Module NegotiationFacts.
Import Negotiation Spec.
Local Open Scope list_scope.

Lemma fireIf_false (s : Signal) : fireIf false s = s.
Proof. destruct s as [b|]; [|reflexivity]. simpl. now rewrite orb_false_r. Qed.

Lemma updatesOf_app (l1 l2 : list Event) :
  updatesOf (l1 ++ l2) = updatesOf l1 ++ updatesOf l2.
Proof. induction l1 as [|[] l1 IH]; simpl; rewrite ?IH; reflexivity. Qed.

Lemma startsOf_app (l1 l2 : list Event) :
  startsOf (l1 ++ l2) = startsOf l1 ++ startsOf l2.
Proof. induction l1 as [|[] l1 IH]; simpl; rewrite ?IH; reflexivity. Qed.

Lemma waitsOf_app (l1 l2 : list Event) :
  waitsOf (l1 ++ l2) = waitsOf l1 ++ waitsOf l2.
Proof. induction l1 as [|[] l1 IH]; simpl; rewrite ?IH; reflexivity. Qed.

Lemma sameTurn_refl (st : State) : sameTurn st st.
Proof. repeat split. Qed.

Lemma sameTurn_trans (a b c : State) : sameTurn a b -> sameTurn b c -> sameTurn a c.
Proof.
  unfold sameTurn. intros (A1 & A2 & A3 & A4 & A5 & A6) (B1 & B2 & B3 & B4 & B5 & B6).
  repeat split; congruence.
Qed.

Section WithSource.

Variable source : Source.

Lemma generateContent_turn (p : AgentPersona) (conv : Conversation) (first : bool)
    (st : State) :
  sameTurn st (snd (generateContent source (TurnRequest p conv first) st)).
Proof.
  unfold generateContent, sameTurn. cbn [snd debateTurns currentConversation nextPersona events].
  rewrite updatesOf_app, startsOf_app, filter_app. simpl.
  now rewrite !app_nil_r.
Qed.

Lemma retryPause_turn (n : nat) (req : Request) (k : Z) (st : State) :
  sameTurn st (retryPause source n req k st).
Proof.
  unfold retryPause. destruct (k <? maxTurnRetries); [|apply sameTurn_refl].
  unfold wait, sameTurn. cbn [debateTurns currentConversation nextPersona events].
  rewrite updatesOf_app, startsOf_app, filter_app. simpl.
  now rewrite !app_nil_r.
Qed.

Lemma turnAttempts_frame (remaining : nat) (k : Z) (p : AgentPersona)
    (conv : Conversation) (first : bool) (st : State) :
  sameTurn st (snd (turnAttempts source remaining k (TurnRequest p conv first) st)).
Proof.
  revert k st. induction remaining as [|remaining IH]; intros k st; cbn [turnAttempts].
  - apply sameTurn_refl.
  - destruct (aborted (signal st)); [apply sameTurn_refl|].
    pose proof (generateContent_turn p conv first st) as Hg.
    destruct (generateContent source (TurnRequest p conv first) st) as [[msg|response] st1].
    + exact Hg.
    + cbn [snd] in Hg.
      assert (Hnext : sameTurn st
                (snd (turnAttempts source remaining (k + 1) (TurnRequest p conv first)
                        (retryPause source (calls st) (TurnRequest p conv first) k st1)))).
      { eapply sameTurn_trans; [exact Hg|].
        eapply sameTurn_trans; [apply retryPause_turn|apply IH]. }
      destruct (aborted (signal st1)); [exact Hg|].
      destruct (isBlank (text response)); [exact Hnext|].
      destruct (parsedTurn response) as [t|]; [|exact Hnext].
      destruct (String.eqb (thought t) ""); [exact Hnext|exact Hg].
Qed.

Lemma finalGeneration_frame (st : State) :
  currentConversation (snd (finalGeneration source st)) = currentConversation st
  /\ updatesOf (events (snd (finalGeneration source st))) = updatesOf (events st)
  /\ startsOf (events (snd (finalGeneration source st))) = startsOf (events st)
  /\ filter isFinalCall (events (snd (finalGeneration source st)))
     = filter isFinalCall (events st) ++ [Called (FinalRequest (currentConversation st))].
Proof.
  unfold finalGeneration, generateContent.
  destruct (outcome (source (calls st) (FinalRequest (currentConversation st))))
    as [msg|finalResponse];
    [|destruct (String.eqb (text finalResponse) "");
      [destruct (blockReason finalResponse) as [reason|];
       [destruct (String.eqb reason "")|]|]];
    cbn [snd currentConversation events];
    rewrite updatesOf_app, startsOf_app, filter_app; simpl;
    rewrite ?app_nil_r; repeat split.
Qed.

(** With an observer, the updates reported are exactly the accepted
    turns, in order: one call of the observer per accepted turn. *)
Lemma observer_once_per_accepted_turn (fuel : nat) (N : Z) (st : State) :
  updatesOf (events st) = currentConversation st ->
  updatesOf (events (snd (debate source fuel N true st)))
  = currentConversation (snd (debate source fuel N true st)).
Proof.
  revert st. induction fuel as [|fuel IH]; intros st Hinv.
  - cbn [debate]. destruct (debateTurns st <? N); [exact Hinv|].
    destruct (finalGeneration_frame st) as (H1 & H2 & _). congruence.
  - cbn [debate]. destruct (debateTurns st <? N).
    2:{ destruct (finalGeneration_frame st) as (H1 & H2 & _). congruence. }
    destruct (aborted (signal st)); [exact Hinv|].
    match goal with |- context [turnAttempts source ?r ?k (TurnRequest ?p ?c ?f) ?s1] =>
      pose proof (turnAttempts_frame r k p c f s1) as Hf;
      destruct (turnAttempts source r k (TurnRequest p c f) s1) as [[msg| |t] st2]
    end; cbn [snd] in Hf; destruct Hf as (F1 & F2 & F3 & F4 & F5 & F6);
      cbn [debateTurns currentConversation nextPersona events] in *;
      rewrite updatesOf_app in F4; simpl in F4; rewrite app_nil_r in F4.
    + cbn [snd]. congruence.
    + apply IH. cbn [events currentConversation]. congruence.
    + destruct (finalized t).
      * cbn [snd events currentConversation]. rewrite updatesOf_app. simpl. congruence.
      * apply IH. cbn [events currentConversation]. rewrite updatesOf_app. simpl.
        congruence.
Qed.

Lemma quiet_flags (c : Call) :
  quiet c = true -> firesDuringCall c = false /\ firesDuringWait c = false.
Proof.
  unfold quiet. intros H. apply andb_prop in H as [H1 H2].
  now rewrite negb_true_iff in H1, H2.
Qed.

(** An answer that is accepted ends the retry loop of the turn. *)
Lemma attempt_accepted (remaining : nat) (k : Z) (req : Request) (st : State)
    (t : AcademicOutlineTurn) :
  aborted (signal st) = false ->
  quiet (source (calls st) req) = true ->
  accepted (source (calls st) req) = Some t ->
  turnAttempts source (S remaining) k req st
  = (TurnParsed t,
     mkState (debateTurns st) (currentConversation st) (nextPersona st)
       (signal st) (S (calls st)) (events st ++ [Called req])).
Proof.
  intros Ha Hq Hacc. cbn [turnAttempts]. rewrite Ha. unfold generateContent.
  destruct (quiet_flags _ Hq) as [Hc _]. rewrite Hc, fireIf_false.
  unfold accepted in Hacc.
  destruct (outcome (source (calls st) req)) as [msg|r]; [discriminate|].
  cbn [signal]. rewrite Ha.
  destruct (isBlank (text r)); [discriminate|].
  destruct (parsedTurn r) as [t0|]; [|discriminate].
  destruct (String.eqb (thought t0) ""); [discriminate|].
  now injection Hacc as ->.
Qed.

(** An answer that is not accepted leads to the pause and the next
    attempt of the same turn. *)
Lemma attempt_unusable (remaining : nat) (k : Z) (req : Request) (st : State) :
  aborted (signal st) = false ->
  unusable (source (calls st) req) = true ->
  turnAttempts source (S remaining) k req st
  = turnAttempts source remaining (k + 1) req
      (mkState (debateTurns st) (currentConversation st) (nextPersona st)
         (signal st) (S (calls st))
         (if k <? maxTurnRetries
          then events st ++ [Called req; Waited (if k =? 1 then 3000 else 6000)]
          else events st ++ [Called req])).
Proof.
  intros Ha Hu. cbn [turnAttempts]. rewrite Ha. unfold generateContent.
  unfold unusable in Hu. apply andb_prop in Hu as [Hq Hu].
  destruct (quiet_flags _ Hq) as [Hc Hw].
  unfold accepted in Hu. rewrite Hc, fireIf_false.
  destruct (outcome (source (calls st) req)) as [msg|r]; [discriminate|].
  cbn [signal]. rewrite Ha.
  assert (Hp : retryPause source (calls st) req k
                 (mkState (debateTurns st) (currentConversation st) (nextPersona st)
                    (signal st) (S (calls st)) (events st ++ [Called req]))
               = mkState (debateTurns st) (currentConversation st) (nextPersona st)
                   (signal st) (S (calls st))
                   (if k <? maxTurnRetries
                    then events st ++ [Called req; Waited (if k =? 1 then 3000 else 6000)]
                    else events st ++ [Called req])).
  { unfold retryPause, wait. destruct (k <? maxTurnRetries); [|reflexivity].
    cbn [debateTurns currentConversation nextPersona signal calls events].
    rewrite Hw, fireIf_false, <- app_assoc. reflexivity. }
  destruct (isBlank (text r)); [now rewrite Hp|].
  destruct (parsedTurn r) as [t0|]; [|now rewrite Hp].
  destruct (String.eqb (thought t0) ""); [now rewrite Hp|discriminate].
Qed.

Lemma continues_accepted (c : Call) :
  continues c = true ->
  quiet c = true /\ exists t, accepted c = Some t /\ finalized t = None.
Proof.
  unfold continues. intros H. apply andb_prop in H as [Hq H]. split; [exact Hq|].
  destruct (accepted c) as [t|]; [|discriminate]. exists t. split; [reflexivity|].
  now destruct (finalized t).
Qed.

(** A turn of a source that never finalizes ends skipped or accepted
    without a final outline, with the signal as it was. *)
Lemma turn_never_final (p : AgentPersona) (conv : Conversation) (first : bool)
    (st : State) :
  neverFinalizes source -> aborted (signal st) = false ->
  exists res st',
    turnAttempts source 2 1 (TurnRequest p conv first) st = (res, st')
    /\ signal st' = signal st
    /\ (res = TurnFailed \/ exists t, res = TurnParsed t /\ finalized t = None).
Proof.
  intros Hnf Ha.
  destruct (Hnf (calls st) p conv first) as [Hc|Hu].
  - destruct (continues_accepted _ Hc) as (Hq & t & Hacc & Hfin).
    rewrite (attempt_accepted 1 1 _ st t Ha Hq Hacc).
    eexists _, _. split; [reflexivity|]. split; [reflexivity|]. right. now exists t.
  - rewrite (attempt_unusable 1 1 _ st Ha Hu).
    match goal with |- context [turnAttempts source 1 _ _ ?s1] => set (st1 := s1) end.
    assert (Ha1 : aborted (signal st1) = false) by exact Ha.
    destruct (Hnf (calls st1) p conv first) as [Hc|Hu1].
    + destruct (continues_accepted _ Hc) as (Hq & t & Hacc & Hfin).
      rewrite (attempt_accepted 0 (1 + 1) _ st1 t Ha1 Hq Hacc).
      eexists _, _. split; [reflexivity|]. split; [reflexivity|]. right. now exists t.
    + rewrite (attempt_unusable 0 (1 + 1) _ st1 Ha1 Hu1). cbn [turnAttempts].
      eexists _, _. split; [reflexivity|]. split; [reflexivity|]. now left.
Qed.

Lemma turnsIn_started (st st2 : State) (N : Z) :
  startsOf (events st2)
  = startsOf (events st ++ [TurnStarted N (nextPersona st)]) ->
  turnsIn st2 = S (turnsIn st).
Proof.
  unfold turnsIn. intros ->. rewrite startsOf_app, length_app. simpl. lia.
Qed.

(** A source that never finalizes drives the loop to the fallback call
    within the round budget. *)
Lemma debate_never_final (fuel : nat) (N : Z) (hasObserver : bool) (st : State) :
  neverFinalizes source -> aborted (signal st) = false ->
  N - debateTurns st <= Z.of_nat fuel ->
  exists stF,
    debate source fuel N hasObserver st = finalGeneration source stF
    /\ N <= debateTurns stF
    /\ Z.of_nat (turnsIn stF) <= Z.of_nat (turnsIn st) + Z.max (N - debateTurns st) 0
    /\ filter isFinalCall (events stF) = filter isFinalCall (events st).
Proof.
  intros Hnf. revert st. induction fuel as [|fuel IH]; intros st Ha Hfuel.
  - cbn [debate]. destruct (Z.ltb_spec (debateTurns st) N); [lia|].
    exists st. repeat split; lia.
  - cbn [debate]. destruct (Z.ltb_spec (debateTurns st) N) as [Hlt|Hge].
    2:{ exists st. repeat split; lia. }
    rewrite Ha.
    match goal with |- context [turnAttempts source _ 1 (TurnRequest ?p ?c ?f) ?s1] =>
      pose proof (turnAttempts_frame 2 1 p c f s1) as Hf;
      destruct (turn_never_final p c f s1 Hnf Ha) as (res & st2 & Hturn & Hsig & Hres)
    end.
    change (Z.to_nat maxTurnRetries) with 2%nat. rewrite Hturn in *.
    cbn [snd] in Hf. destruct Hf as (F1 & F2 & F3 & F4 & F5 & F6).
    cbn [debateTurns currentConversation nextPersona events signal] in *.
    pose proof (turnsIn_started st st2 _ F5) as Hturns.
    rewrite filter_app in F6. simpl in F6. rewrite app_nil_r in F6.
    destruct Hres as [->|(t & -> & Hfin)].
    + match goal with |- context [debate source fuel N hasObserver ?s3] =>
        destruct (IH s3) as (stF & E & H1 & H2 & H3)
      end; cbn [signal debateTurns]; [congruence|lia|].
      exists stF. split; [exact E|]. split; [exact H1|].
      unfold turnsIn in *. cbn [events debateTurns] in *. split; [lia|congruence].
    + rewrite Hfin.
      match goal with |- context [debate source fuel N hasObserver ?s3] =>
        destruct (IH s3) as (stF & E & H1 & H2 & H3)
      end; cbn [signal debateTurns]; [congruence|lia|].
      exists stF. split; [exact E|]. split; [exact H1|].
      unfold turnsIn in *. cbn [events debateTurns] in *.
      assert (Hs : startsOf (if hasObserver
                             then events st2 ++ [Updated (nextPersona st2) (thought t)]
                             else events st2) = startsOf (events st2)).
      { destruct hasObserver; [|reflexivity]. rewrite startsOf_app. simpl.
        now rewrite app_nil_r. }
      assert (Hfl : filter isFinalCall
                      (if hasObserver
                       then events st2 ++ [Updated (nextPersona st2) (thought t)]
                       else events st2) = filter isFinalCall (events st2)).
      { destruct hasObserver; [|reflexivity]. rewrite filter_app. simpl.
        now rewrite app_nil_r. }
      rewrite Hs in H2. rewrite Hfl in H3. split; [lia|congruence].
Qed.

(** A turn whose two answers are not accepted is skipped. *)
Lemma skipped_turn_step (fuel : nat) (N : Z) (hasObserver : bool) (st : State) :
  debateTurns st < N -> aborted (signal st) = false ->
  unusable (source (calls st) (turnRequestOf st)) = true ->
  unusable (source (S (calls st)) (turnRequestOf st)) = true ->
  debate source (S fuel) N hasObserver st
  = debate source fuel N hasObserver (afterSkipped st).
Proof.
  intros Hlt Ha Hu1 Hu2. cbn [debate].
  destruct (Z.ltb_spec (debateTurns st) N); [|lia]. rewrite Ha.
  change (Z.to_nat maxTurnRetries) with 2%nat.
  cbn [currentConversation nextPersona].
  rewrite attempt_unusable; [|exact Ha|exact Hu1].
  rewrite attempt_unusable; [|exact Ha|exact Hu2].
  cbn [turnAttempts debateTurns currentConversation nextPersona signal calls events].
  change (1 + 1 <? maxTurnRetries) with false.
  change (1 <? maxTurnRetries) with true.
  change (1 =? 1) with true. cbv iota.
  unfold afterSkipped, turnRequestOf. rewrite <- !app_assoc. reflexivity.
Qed.


Lemma finalGeneration_returns (st : State) :
  fst (finalGeneration source st) <> OutOfFuel.
Proof.
  unfold finalGeneration, generateContent.
  destruct (outcome (source (calls st) (FinalRequest (currentConversation st))))
    as [msg|r]; [discriminate|].
  destruct (String.eqb (text r) ""); [|discriminate].
  destruct (blockReason r) as [reason|]; [|discriminate].
  destruct (String.eqb reason ""); discriminate.
Qed.

(** C3, as the code has it.  With round budget N and a turn source that
    never finalizes (whether its answers parse or not), the engine ends
    with the single fallback generation call, made once the budget is
    used up and after at most N scripted turns.  A turn whose two
    attempts, 3 s apart, both fail to parse is skipped: the persona is
    flipped, the round budget goes down, the log is kept and the loop goes
    on. *)
Theorem skipped_turns_end_in_fallback (N : Z) (s : Signal) (hasObserver : bool)
    (fuel : nat) (st : State) :
  (neverFinalizes source -> aborted s = false ->
   let run := generateAcademicOutline source N s hasObserver in
   exists stF,
     run = finalGeneration source stF
     /\ N <= debateTurns stF
     /\ Z.of_nat (turnsIn (snd run)) <= Z.max N 0
     /\ count isFinalCall (snd run) = 1%nat
     /\ fst run <> OutOfFuel)
  /\ (debateTurns st < N -> aborted (signal st) = false ->
      unusable (source (calls st) (turnRequestOf st)) = true ->
      unusable (source (S (calls st)) (turnRequestOf st)) = true ->
      debate source (S fuel) N hasObserver st
      = debate source fuel N hasObserver (afterSkipped st)
      /\ waitsOf (events (afterSkipped st)) = waitsOf (events st) ++ [3000]
      /\ nextPersona (afterSkipped st) = flip (nextPersona st)
      /\ debateTurns st < debateTurns (afterSkipped st)
      /\ currentConversation (afterSkipped st) = currentConversation st).
Proof.
  split.
  - intros Hnf Ha. cbn zeta. unfold generateAcademicOutline.
    destruct (debate_never_final (Z.to_nat N) N hasObserver (initialState s) Hnf Ha)
      as (stF & E & H1 & H2 & H3); [cbn [initialState debateTurns]; lia|].
    exists stF. rewrite E.
    destruct (finalGeneration_frame stF) as (_ & _ & G3 & G4).
    split; [reflexivity|]. split; [exact H1|]. split; [|split].
    + unfold turnsIn in *. rewrite G3. cbn [initialState events startsOf List.length debateTurns] in H2.
      lia.
    + unfold count. rewrite G4, H3. reflexivity.
    + apply finalGeneration_returns.
  - intros Hlt Ha Hu1 Hu2. split; [now apply skipped_turn_step|].
    unfold afterSkipped. cbn [events nextPersona debateTurns currentConversation].
    rewrite waitsOf_app. repeat split. lia.
Qed.



End WithSource.

Lemma garbled_neverUsable : neverUsable Scenario.garbled.
Proof. intros n p conv first. reflexivity. Qed.

Lemma skipped_turns_end_in_fallback_witness :
  Z.of_nat (turnsIn (snd (generateAcademicOutline Scenario.garbled 3 (Some false) true)))
  <= 3
  /\ debate Scenario.garbled 3 3 true (initialState (Some false))
     = debate Scenario.garbled 2 3 true (afterSkipped (initialState (Some false))).
Proof.
  destruct (skipped_turns_end_in_fallback Scenario.garbled 3 (Some false) true 2
              (initialState (Some false))) as [H1 H2].
  split.
  - destruct H1 as (stF & _ & _ & H & _).
    + intros n p conv first. right. apply garbled_neverUsable.
    + reflexivity.
    + exact H.
  - apply H2; reflexivity.
Defined.

(** C3, the claim as stated, fails for a budget of three rounds and a
    source whose answers never parse: each skipped turn uses up two
    rounds, so two scripted turns (not three) precede the fallback call,
    which is made with the round counter at four; the two attempts of a
    turn are 3 s apart and no 6 s delay occurs. *)
Lemma skipped_turn_costs_two_rounds :
  neverUsable Scenario.garbled
  /\ startsOf (events (snd (generateAcademicOutline Scenario.garbled 3 (Some false) true)))
     = [Alpha; Beta]
  /\ debateTurns (snd (generateAcademicOutline Scenario.garbled 3 (Some false) true)) = 4
  /\ waitsOf (events (snd (generateAcademicOutline Scenario.garbled 3 (Some false) true)))
     = [3000; 3000]
  /\ ~ fallbackAtRound 3
        (snd (generateAcademicOutline Scenario.garbled 3 (Some false) true)).
Proof.
  split; [exact garbled_neverUsable|]. repeat split.
  intros [H _]. vm_compute in H. discriminate H.
Qed.


End NegotiationFacts.


(** ** Citation registry: invariants, views and text marks *)

Module ViewsFacts.
Import Registry Spec Notions Views TextProcessor.
Local Open Scope list_scope.

Lemma keysOf_recordOne (i : Z) (m : CitationMap) : keysOf (recordOne i m) = keysOf m.
Proof.
  unfold keysOf. induction m as [|[k c] m IH]; simpl; [reflexivity|].
  destruct (hasId i c); simpl; [reflexivity|now rewrite IH].
Qed.

Lemma numberedFrom_recordOne (i s : Z) (m : CitationMap) :
  numberedFrom s m -> numberedFrom s (recordOne i m).
Proof.
  revert s. induction m as [|[k c] m IH]; intros s; simpl; [tauto|].
  intros [Hid Hrest]. destruct (hasId i c); simpl; split; auto.
Qed.

Lemma counted_recordOne (i : Z) (m : CitationMap) :
  counted m -> counted (recordOne i m).
Proof.
  unfold counted. induction m as [|[k c] m IH]; simpl; [tauto|].
  intros H. pose proof (Forall_inv H) as (t & Ht & Hpos).
  pose proof (Forall_inv_tail H) as Hrest. cbn [snd] in Ht.
  destruct (hasId i c); constructor; auto.
  - cbn [snd bumped timesCited]. rewrite Ht. exists (t + 1). split; [reflexivity|lia].
  - now exists t.
Qed.

Lemma keyed_recordOne (parseURL : string -> option URL) (i : Z) (m : CitationMap) :
  keyed parseURL m -> keyed parseURL (recordOne i m).
Proof.
  unfold keyed. induction m as [|[k c] m IH]; simpl; [tauto|].
  intros H. pose proof (Forall_inv H) as Hk. pose proof (Forall_inv_tail H) as Hrest.
  destruct (hasId i c); constructor; auto.
Qed.

Lemma length_recordOne (i : Z) (m : CitationMap) :
  List.length (recordOne i m) = List.length m.
Proof.
  rewrite <- (length_map fst), <- (length_map fst m).
  change (map fst (recordOne i m)) with (keysOf (recordOne i m)).
  now rewrite keysOf_recordOne.
Qed.

Lemma wellKept_record (parseURL : string -> option URL) (ids : list Z)
    (mgr : CitationManager) :
  wellKept parseURL mgr -> wellKept parseURL (recordCitationUsage ids mgr).
Proof.
  unfold recordCitationUsage, recordUsageMap. destruct mgr as [m n].
  cbn [citations citationCounter]. revert m.
  induction ids as [|i ids IH]; intros m H; cbn [fold_left]; [exact H|].
  apply IH. destruct H as ((Hnum & Hcnt) & Hnd & Hc & Hk).
  cbn [citations citationCounter] in *.
  repeat split; cbn [citations citationCounter].
  - now apply numberedFrom_recordOne.
  - now rewrite length_recordOne.
  - now rewrite keysOf_recordOne.
  - now apply counted_recordOne.
  - now apply keyed_recordOne.
Qed.

Lemma wellKept_add (parseURL : string -> option URL) (today : string)
    (c : Citation) (mgr : CitationManager) :
  wellKept parseURL mgr -> wellKept parseURL (snd (addCitation parseURL today c mgr)).
Proof.
  intros (Hwn & Hnd & Hc & Hk).
  destruct (RegistryFacts.addCitation_step parseURL today c mgr Hwn) as (Hwn' & _ & _).
  split; [exact Hwn'|]. clear Hwn'. unfold addCitation.
  destruct (mapGet (getCitationKey parseURL c) (citations mgr)) eqn:G;
    cbn [snd citations]; [repeat split; assumption|].
  rewrite (RegistryFacts.mapSet_new _ _ _ G).
  pose proof (RegistryFacts.mapGet_notin _ _ G) as Hnin.
  repeat split.
  - unfold keysOf in *. rewrite map_app. cbn [map fst].
    apply NoDup_app; [assumption|repeat constructor; simpl; tauto|].
    intros k Hin [<-|[]]. contradiction.
  - unfold counted. apply Forall_app. split; [exact Hc|].
    constructor; [|constructor]. exists 0. split; [reflexivity|lia].
  - unfold keyed. apply Forall_app. split; [exact Hk|].
    constructor; [|constructor]. reflexivity.
Qed.

Lemma wellKept_addMany (parseURL : string -> option URL) (today : string)
    (cs : list Citation) (mgr : CitationManager) :
  wellKept parseURL mgr -> wellKept parseURL (snd (addCitations parseURL today cs mgr)).
Proof.
  revert mgr. induction cs as [|c cs IH]; intros mgr H; cbn [addCitations]; [exact H|].
  pose proof (wellKept_add parseURL today c mgr H) as H1.
  destruct (addCitation parseURL today c mgr) as [i mgr1]. cbn [snd] in H1.
  specialize (IH mgr1 H1).
  destruct (addCitations parseURL today cs mgr1) as [is_ mgr2]. exact IH.
Qed.

Lemma generateMultiple_state (ids : list Z) (mgr : CitationManager) :
  snd (generateMultipleInTextCitations ids mgr)
  = match ids with [] => mgr | _ => recordCitationUsage ids mgr end.
Proof. destruct ids as [|i [|j ids]]; reflexivity. Qed.

Lemma wellKept_new (parseURL : string -> option URL) : wellKept parseURL newManager.
Proof.
  repeat split; cbn; constructor.
Qed.

(** Every registry that the operations build is well kept. *)
Lemma reachable_wellKept (parseURL : string -> option URL) (mgr : CitationManager) :
  Reachable parseURL mgr -> wellKept parseURL mgr.
Proof.
  induction 1 as [|today c mgr _ IH|today cs mgr _ IH|ids mgr _ IH|i mgr _ IH
                  |ids mgr _ IH|today text cs mgr out mgr' _ IH Hins|mgr _ IH].
  - apply wellKept_new.
  - now apply wellKept_add.
  - now apply wellKept_addMany.
  - now apply wellKept_record.
  - cbn [generateInTextCitation snd]. now apply wellKept_record.
  - rewrite generateMultiple_state. destruct ids; [exact IH|now apply wellKept_record].
  - unfold insertCitationMarks in Hins. destruct cs as [|c cs].
    + now injection Hins as _ <-.
    + pose proof (wellKept_addMany parseURL today (c :: cs) mgr IH) as H1.
      destruct (addCitations parseURL today (c :: cs) mgr) as [ids mgr1].
      cbn [snd] in H1. destruct (numbers ids) as [citationIds|]; [|discriminate].
      pose proof (generateMultiple_state citationIds mgr1) as Hs.
      destruct (generateMultipleInTextCitations citationIds mgr1) as [mark mgr2].
      cbn [snd] in Hs. injection Hins as _ <-. rewrite Hs.
      destruct citationIds; [exact H1|now apply wellKept_record].
  - apply wellKept_new.
Qed.

(** The registry invariant.  Whatever sequence of additions, usage
    records, in-text marks, mark insertions and resets built the registry,
    its records carry the ids 1, 2, ..., n in insertion order (so no id is
    used twice), the counter is n + 1, no key is stored twice, every
    record has a usage count that is not negative, and every record sits
    under the normalized form of its own URL. *)
Theorem registry_invariant (parseURL : string -> option URL) (mgr : CitationManager) :
  Reachable parseURL mgr ->
  map (fun e => id (snd e)) (citations mgr)
  = map Some (idsUpTo (List.length (citations mgr)))
  /\ NoDup (map (fun e => id (snd e)) (citations mgr))
  /\ citationCounter mgr = 1 + Z.of_nat (List.length (citations mgr))
  /\ NoDup (keysOf (citations mgr))
  /\ counted (citations mgr)
  /\ keyed parseURL (citations mgr).
Proof.
  intros H. destruct (reachable_wellKept parseURL mgr H) as ((Hnum & Hcnt) & Hnd & Hc & Hk).
  assert (Hids : map (fun e => id (snd e)) (citations mgr)
                 = map Some (idsUpTo (List.length (citations mgr)))).
  { rewrite (RegistryFacts.numberedFrom_ids 1 _ Hnum). unfold idsUpTo.
    now rewrite map_map. }
  repeat split; try assumption.
  rewrite Hids. apply Finite.Injective_map_NoDup; [intros a b [=]; assumption|].
  unfold idsUpTo. apply Finite.Injective_map_NoDup; [intros a b; lia|apply seq_NoDup].
Qed.

Lemma registry_invariant_witness :
  map (fun e => id (snd e)) (citations Scenario.twoPapers) = [Some 1; Some 2]
  /\ citationCounter Scenario.twoPapers = 3.
Proof.
  destruct (registry_invariant Scenario.parseSimpleURL Scenario.twoPapers)
    as (H1 & _ & H3 & _).
  - apply (reach_addMany Scenario.parseSimpleURL Scenario.today
             [Scenario.paperA; Scenario.paperB] newManager), reach_new.
  - split; [exact H1|exact H3].
Defined.

(** *** Lookups *)

Lemma numberedFrom_in (s : Z) (m : CitationMap) (e : string * Citation) :
  numberedFrom s m -> In e m -> exists j, id (snd e) = Some (s + Z.of_nat j).
Proof.
  revert s. induction m as [|[k c] m IH]; intros s; simpl; [tauto|].
  intros [Hid Hrest] [<-|Hin].
  - exists 0%nat. cbn [snd]. rewrite Hid. f_equal. lia.
  - destruct (IH _ Hrest Hin) as [j Hj]. exists (S j). rewrite Hj. f_equal. lia.
Qed.

Lemma mapGet_In (k : string) (m : CitationMap) (c : Citation) :
  mapGet k m = Some c -> In (k, c) m.
Proof.
  induction m as [|[k0 c0] m IH]; simpl; [discriminate|].
  destruct (String.eqb_spec k0 k) as [->|Hne].
  - intros [= ->]. now left.
  - intros H. right. now apply IH.
Qed.

Lemma getCitationById_numbered (s i : Z) (m : CitationMap) (e : string * Citation) :
  numberedFrom s m -> In e m -> id (snd e) = Some i ->
  getCitationById i m = Some (snd e).
Proof.
  revert s. induction m as [|[k c] m IH]; intros s; simpl; [tauto|].
  intros [Hid Hrest] [<-|Hin] He.
  - cbn [snd] in He. unfold hasId. now rewrite He, Z.eqb_refl.
  - destruct (numberedFrom_in _ _ _ Hrest Hin) as [j Hj].
    unfold hasId. rewrite Hid.
    destruct (Z.eqb_spec s i) as [->|_]; [rewrite He in Hj; injection Hj; lia|].
    now apply (IH _ Hrest Hin).
Qed.

Lemma getCitationById_range (s i : Z) (m : CitationMap) :
  numberedFrom s m ->
  (getCitationById i m = None <-> ~ (s <= i < s + Z.of_nat (List.length m))).
Proof.
  revert s. induction m as [|[k c] m IH]; intros s; cbn [getCitationById numberedFrom List.length].
  - intros _. split; [lia|reflexivity].
  - intros [Hid Hrest]. unfold hasId. rewrite Hid.
    destruct (Z.eqb_spec s i) as [->|Hne].
    + split; [discriminate|lia].
    + rewrite (IH _ Hrest). lia.
Qed.

(** Insert and look up.  On a registry built by the manager,
    [addCitation] returns a number i within 1..n, and looking that number
    up with [getCitationById] finds the very record that is stored under
    the citation's key: a record with id i whose URL normalizes like the
    citation's.  A number outside 1..n is not found. *)
Theorem lookup_by_returned_id (parseURL : string -> option URL) (today : string)
    (c : Citation) (mgr : CitationManager) (j : Z) :
  Reachable parseURL mgr ->
  let r := addCitation parseURL today c mgr in
  let n := Z.of_nat (List.length (citations (snd r))) in
  (exists i stored,
     fst r = Some i /\ 1 <= i <= n
     /\ getCitationById i (citations (snd r)) = Some stored
     /\ mapGet (getCitationKey parseURL c) (citations (snd r)) = Some stored
     /\ id stored = Some i
     /\ getCitationKey parseURL stored = getCitationKey parseURL c)
  /\ (getCitationById j (citations (snd r)) = None <-> ~ (1 <= j <= n)).
Proof.
  intros Hr. cbn zeta.
  pose proof (reachable_wellKept parseURL _ (reach_add parseURL today c mgr Hr))
    as ((Hnum & Hcnt) & Hnd & Hc & Hk).
  destruct (RegistryFacts.addCitation_stores parseURL today c mgr) as (stored & G & Hid).
  pose proof (mapGet_In _ _ _ G) as Hin.
  destruct (numberedFrom_in _ _ _ Hnum Hin) as [p Hp]. cbn [snd] in Hp.
  split.
  - exists (1 + Z.of_nat p), stored.
    pose proof (getCitationById_numbered 1 _ _ _ Hnum Hin Hp) as Hget.
    assert (Hrange : 1 <= 1 + Z.of_nat p
                     < 1 + Z.of_nat (List.length (citations (snd (addCitation parseURL today c mgr))))).
    { destruct (Z_lt_ge_dec (1 + Z.of_nat p)
                  (1 + Z.of_nat (List.length (citations (snd (addCitation parseURL today c mgr))))))
        as [Hlt|Hge]; [lia|].
      assert (Hnone : getCitationById (1 + Z.of_nat p)
                        (citations (snd (addCitation parseURL today c mgr))) = None)
        by (apply (getCitationById_range 1 _ _ Hnum); lia).
      congruence. }
    unfold keyed in Hk. rewrite Forall_forall in Hk.
    pose proof (Hk _ Hin) as Hkey. cbn [fst snd] in Hkey, Hget.
    repeat split; try congruence; try lia.
  - rewrite (getCitationById_range 1 j _ Hnum). lia.
Qed.

Lemma lookup_by_returned_id_witness :
  exists stored,
    getCitationById 1 (citations (snd (addCitation Scenario.parseSimpleURL Scenario.today
                                         Scenario.paperA' Scenario.twoPapers)))
    = Some stored
    /\ url stored = "https://Example.org/paper?utm=1"%string.
Proof.
  destruct (lookup_by_returned_id Scenario.parseSimpleURL Scenario.today
              Scenario.paperA' Scenario.twoPapers 0) as [(i & stored & H) _].
  - apply (reach_addMany Scenario.parseSimpleURL Scenario.today
             [Scenario.paperA; Scenario.paperB] newManager), reach_new.
  - destruct H as (Hi & _ & Hget & _). injection Hi as <-.
    exists stored. split; [exact Hget|].
    vm_compute in Hget. now injection Hget as <-.
Defined.

(** *** Recording usage *)

Lemma recordOne_unknown (i : Z) (m : CitationMap) :
  getCitationById i m = None -> recordOne i m = m.
Proof.
  induction m as [|[k c] m IH]; simpl; [reflexivity|].
  destruct (hasId i c); [discriminate|]. intros H. now rewrite IH.
Qed.

Lemma ids_recordOne (i : Z) (m : CitationMap) :
  map (fun e => (fst e, id (snd e), url (snd e), title (snd e))) (recordOne i m)
  = map (fun e => (fst e, id (snd e), url (snd e), title (snd e))) m.
Proof.
  induction m as [|[k c] m IH]; simpl; [reflexivity|].
  destruct (hasId i c); simpl; [reflexivity|now rewrite IH].
Qed.

(** Recording usage leaves keys, ids, URLs, titles and the counter as they
    are, never lowers a usage count and never creates or drops a record;
    ids that match no record are skipped without any effect. *)
Theorem usage_only_grows (ids : list Z) (mgr : CitationManager) (i : Z) :
  let after := recordCitationUsage ids mgr in
  map (fun e => (fst e, id (snd e), url (snd e), title (snd e))) (citations after)
  = map (fun e => (fst e, id (snd e), url (snd e), title (snd e))) (citations mgr)
  /\ citationCounter after = citationCounter mgr
  /\ (forall t, usageOf i (citations mgr) = Some t ->
      exists t', usageOf i (citations after) = Some t' /\ t <= t')
  /\ (usageOf i (citations mgr) = None -> usageOf i (citations after) = None)
  /\ ((forall k, In k ids -> getCitationById k (citations mgr) = None) ->
      after = mgr).
Proof.
  cbn zeta. split; [|split; [reflexivity|split; [|split]]].
  - unfold recordCitationUsage, recordUsageMap. cbn [citations].
    generalize (citations mgr) as m. induction ids as [|k ids IH]; intros m;
      cbn [fold_left]; [reflexivity|].
    now rewrite IH, ids_recordOne.
  - intros t Ht. cbn [recordCitationUsage citations].
    rewrite RegistryFacts.usageOf_recordUsageMap, Ht. cbn [option_map].
    eexists. split; [reflexivity|lia].
  - intros Ht. cbn [recordCitationUsage citations].
    now rewrite RegistryFacts.usageOf_recordUsageMap, Ht.
  - intros Hun. destruct mgr as [m n]. unfold recordCitationUsage, recordUsageMap.
    cbn [citations citationCounter] in *. f_equal.
    induction ids as [|k ids IH]; cbn [fold_left]; [reflexivity|].
    rewrite recordOne_unknown by (apply Hun; now left).
    apply IH. intros k' Hk'. apply Hun. now right.
Qed.

Lemma usage_only_grows_witness :
  recordCitationUsage [7; 0; -3] Scenario.twoPapers = Scenario.twoPapers.
Proof.
  apply (usage_only_grows [7; 0; -3] Scenario.twoPapers 1).
  intros k [<-|[<-|[<-|[]]]]; reflexivity.
Defined.

(** *** Views *)

Lemma map_insertById (c : Citation) (l : list Citation) :
  map idOrZero (insertById c l) = insertAsc (idOrZero c) (map idOrZero l).
Proof.
  induction l as [|d l IH]; cbn [insertById insertAsc map]; [reflexivity|].
  destruct (idOrZero c <=? idOrZero d); cbn [map]; [reflexivity|now rewrite IH].
Qed.

Lemma map_sortById (l : list Citation) :
  map idOrZero (sortById l) = sortAsc (map idOrZero l).
Proof.
  induction l as [|c l IH]; cbn [sortById sortAsc map]; [reflexivity|].
  now rewrite map_insertById, IH.
Qed.

Lemma insertById_perm (c : Citation) (l : list Citation) :
  Permutation (insertById c l) (c :: l).
Proof.
  induction l as [|d l IH]; cbn [insertById]; [reflexivity|].
  destruct (idOrZero c <=? idOrZero d); [reflexivity|].
  rewrite IH. apply perm_swap.
Qed.

Lemma sortById_perm (l : list Citation) : Permutation (sortById l) l.
Proof.
  induction l as [|c l IH]; cbn [sortById]; [reflexivity|].
  rewrite insertById_perm. now constructor.
Qed.

Lemma ascending_cons (x : Z) (l : list Z) :
  ascending (x :: l) <-> Forall (fun y => x <= y) l /\ ascending l.
Proof.
  revert x. induction l as [|y l IH]; intros x.
  - cbn. split; [now split|tauto].
  - change (ascending (x :: y :: l)) with (x <= y /\ ascending (y :: l)).
    split.
    + intros [Hxy Hrest]. split; [|exact Hrest].
      constructor; [exact Hxy|].
      apply (proj1 (IH y)) in Hrest. destruct Hrest as [Hall _].
      eapply Forall_impl; [|exact Hall]. cbn. intros; lia.
    + intros [Hall Hrest]. split; [now apply Forall_inv in Hall|exact Hrest].
Qed.

Lemma sortById_sorted (l : list Citation) :
  ascending (map idOrZero l) -> sortById l = l.
Proof.
  induction l as [|c l IH]; cbn [sortById map]; [reflexivity|].
  intros H. apply ascending_cons in H. destruct H as [Hall Hrest].
  rewrite (IH Hrest). destruct l as [|d l]; cbn [insertById]; [reflexivity|].
  apply Forall_inv in Hall. cbn [map] in Hall.
  now apply Z.leb_le in Hall as ->.
Qed.

Lemma ascending_from (s : Z) (n : nat) :
  ascending (map (fun j => s + Z.of_nat j) (seq 0 n)).
Proof.
  revert s. induction n as [|n IH]; intros s; [exact I|].
  cbn [seq map]. rewrite <- seq_shift, map_map.
  apply ascending_cons. split.
  - apply Forall_forall. intros y Hy. apply in_map_iff in Hy.
    destruct Hy as (j & <- & _). lia.
  - erewrite map_ext; [apply (IH (s + 1))|]. intros j. cbn. lia.
Qed.

Lemma idOrZero_numbered (s : Z) (m : CitationMap) :
  numberedFrom s m ->
  map idOrZero (map snd m) = map (fun j => s + Z.of_nat j) (seq 0 (List.length m)).
Proof.
  intros H. apply RegistryFacts.numberedFrom_ids in H.
  rewrite map_map.
  assert (E : map (fun e => idOrZero (snd e)) m
              = map (fun o : option Z => match o with Some i => i | None => 0 end)
                  (map (fun e => id (snd e)) m))
    by (rewrite map_map; reflexivity).
  rewrite E, H, map_map. reflexivity.
Qed.

Lemma getAllCitations_numbered (mgr : CitationManager) :
  numberedFrom 1 (citations mgr) ->
  getAllCitations mgr = map snd (citations mgr).
Proof.
  intros H. unfold getAllCitations. apply sortById_sorted.
  rewrite (idOrZero_numbered 1 _ H). apply ascending_from.
Qed.

Lemma filter_split_perm {A : Type} (p q : A -> bool) (l : list A) :
  (forall x, In x l -> q x = negb (p x)) ->
  Permutation (filter p l ++ filter q l) l.
Proof.
  induction l as [|x l IH]; intros H; cbn [filter]; [reflexivity|].
  rewrite (H x (or_introl eq_refl)).
  assert (IH' := IH (fun y Hy => H y (or_intror Hy))).
  destruct (p x); cbn [negb app].
  - now constructor.
  - rewrite <- Permutation_middle. now constructor.
Qed.

Lemma ascending_filter (p : Citation -> bool) (l : list Citation) :
  ascendingIds l -> ascendingIds (filter p l).
Proof.
  unfold ascendingIds. induction l as [|c l IH]; cbn [filter map]; [tauto|].
  intros H. apply ascending_cons in H. destruct H as [Hall Hrest].
  destruct (p c); cbn [map]; [|now apply IH].
  apply ascending_cons. split; [|now apply IH].
  rewrite Forall_forall in *. intros y Hy. apply Hall.
  apply in_map_iff in Hy. destruct Hy as (d & <- & Hd).
  apply in_map. now apply filter_In in Hd.
Qed.

(** The views of a registry built by the manager.  [getAllCitations]
    lists the records in insertion order, which is the order of the ids
    1..n; the cited and the uncited records split that list in two, each
    in ascending order of id and with no record in both; the statistics
    are the lengths of the three lists. *)
Theorem views_partition (parseURL : string -> option URL) (mgr : CitationManager) :
  Reachable parseURL mgr ->
  let n := List.length (citations mgr) in
  getAllCitations mgr = map snd (citations mgr)
  /\ map idOrZero (getAllCitations mgr) = idsUpTo n
  /\ Permutation (getCitedCitations mgr ++ getUncitedCitations mgr)
       (getAllCitations mgr)
  /\ (forall c, In c (getCitedCitations mgr) -> ~ In c (getUncitedCitations mgr))
  /\ ascendingIds (getCitedCitations mgr)
  /\ ascendingIds (getUncitedCitations mgr)
  /\ getStats mgr
     = mkStats (Z.of_nat n)
         (Z.of_nat (List.length (getCitedCitations mgr)))
         (Z.of_nat (List.length (getUncitedCitations mgr))).
Proof.
  intros Hr. cbn zeta.
  destruct (reachable_wellKept parseURL _ Hr) as ((Hnum & _) & _ & Hc & _).
  pose proof (getAllCitations_numbered mgr Hnum) as Hall.
  assert (Hids : map idOrZero (getAllCitations mgr)
                 = idsUpTo (List.length (citations mgr)))
    by (rewrite Hall; apply (idOrZero_numbered 1 _ Hnum)).
  assert (Hasc : ascendingIds (getAllCitations mgr)).
  { unfold ascendingIds. rewrite Hids. apply (ascending_from 1). }
  assert (Hperm : Permutation (getCitedCitations mgr ++ getUncitedCitations mgr)
                    (getAllCitations mgr)).
  { unfold getCitedCitations, getUncitedCitations. apply filter_split_perm.
    intros c Hin. rewrite Hall in Hin. apply in_map_iff in Hin.
    destruct Hin as (e & <- & He).
    unfold counted in Hc. rewrite Forall_forall in Hc.
    destruct (Hc _ He) as (t & Ht & Hpos). unfold usage. rewrite Ht.
    destruct (Z.eqb_spec t 0), (Z.ltb_spec 0 t); cbn; try reflexivity; lia. }
  repeat split; try assumption.
  - intros c Hcited Hun. unfold getCitedCitations, getUncitedCitations in *.
    apply filter_In in Hcited. apply filter_In in Hun.
    destruct Hcited as [_ H1], Hun as [_ H2]. lia.
  - now apply ascending_filter.
  - now apply ascending_filter.
  - unfold getStats. cbn zeta.
    apply Permutation_length in Hperm. rewrite length_app in Hperm.
    fold (getCitedCitations mgr).
    rewrite Hall in *. rewrite length_map in *. f_equal. lia.
Qed.

Lemma views_partition_witness :
  map idOrZero (getAllCitations Scenario.twoPapers) = [1; 2]
  /\ getStats Scenario.twoPapers = mkStats 2 0 2.
Proof.
  destruct (views_partition Scenario.parseSimpleURL Scenario.twoPapers)
    as (_ & Hids & _ & _ & _ & _ & Hstats).
  - apply (reach_addMany Scenario.parseSimpleURL Scenario.today
             [Scenario.paperA; Scenario.paperB] newManager), reach_new.
  - split; [exact Hids|exact Hstats].
Defined.

(** *** Usage seen through the views *)

Lemma usage_recordOne (s i : Z) (m : CitationMap) :
  numberedFrom s m ->
  map (fun c => (idOrZero c, usage c)) (map snd (recordOne i m))
  = map (fun c => (idOrZero c, usage c + (if idOrZero c =? i then 1 else 0)))
      (map snd m).
Proof.
  revert s. induction m as [|[k c] m IH]; intros s; cbn [recordOne numberedFrom];
    [reflexivity|].
  intros [Hid Hrest]. unfold hasId. rewrite Hid.
  assert (Hc : idOrZero c = s) by (unfold idOrZero; now rewrite Hid).
  destruct (Z.eqb_spec s i) as [->|Hne]; cbn [map snd].
  - f_equal.
    + unfold idOrZero, usage. cbn [bumped id timesCited]. rewrite Hid, Z.eqb_refl.
      reflexivity.
    + apply map_ext_in. intros d Hd. apply in_map_iff in Hd.
      destruct Hd as (e & <- & He).
      destruct (numberedFrom_in _ _ _ Hrest He) as [j Hj].
      assert (Hd : idOrZero (snd e) = i + 1 + Z.of_nat j)
        by (unfold idOrZero; now rewrite Hj).
      destruct (Z.eqb_spec (idOrZero (snd e)) i); [lia|]. f_equal. lia.
  - rewrite Hc. destruct (Z.eqb_spec s i); [contradiction|].
    rewrite (IH _ Hrest). f_equal. f_equal. lia.
Qed.

Lemma usage_recordUsageMap (s : Z) (ids : list Z) (m : CitationMap) :
  numberedFrom s m ->
  map (fun c => (idOrZero c, usage c)) (map snd (recordUsageMap ids m))
  = map (fun c => (idOrZero c,
                   usage c + Z.of_nat (count_occ Z.eq_dec ids (idOrZero c))))
      (map snd m).
Proof.
  unfold recordUsageMap. revert m.
  induction ids as [|i ids IH]; intros m Hnum; cbn [fold_left].
  - apply map_ext. intros c. cbn. f_equal. lia.
  - rewrite IH by now apply numberedFrom_recordOne.
    change (map (fun c => (idOrZero c,
                           usage c + Z.of_nat (count_occ Z.eq_dec ids (idOrZero c))))
              (map snd (recordOne i m)))
      with (map (fun c => ((fun p : Z * Z =>
                   (fst p, snd p + Z.of_nat (count_occ Z.eq_dec ids (fst p))))
                  ((fun c => (idOrZero c, usage c)) c)))
              (map snd (recordOne i m))).
    rewrite <- (map_map (fun c => (idOrZero c, usage c))
                  (fun p : Z * Z =>
                     (fst p, snd p + Z.of_nat (count_occ Z.eq_dec ids (fst p))))).
    rewrite (usage_recordOne s i m Hnum), map_map.
    apply map_ext. intros c. cbn [fst snd count_occ]. f_equal.
    destruct (Z.eq_dec i (idOrZero c)) as [->|Hne].
    + rewrite Z.eqb_refl. lia.
    + destruct (Z.eqb_spec (idOrZero c) i); [congruence|lia].
Qed.

Lemma filter_by_pair (q : Z -> bool) (l : list Citation) :
  map idOrZero (filter (fun c => q (usage c)) l)
  = map fst (filter (fun p => q (snd p)) (map (fun c => (idOrZero c, usage c)) l)).
Proof.
  induction l as [|c l IH]; cbn [filter map fst snd]; [reflexivity|].
  destruct (q (usage c)); cbn [map fst]; now rewrite IH.
Qed.

Lemma filter_on_ids (p : Z -> bool) (l : list Citation) :
  map idOrZero (filter (fun c => p (idOrZero c)) l) = filter p (map idOrZero l).
Proof.
  induction l as [|c l IH]; cbn [filter map]; [reflexivity|].
  destruct (p (idOrZero c)); cbn [map]; now rewrite IH.
Qed.

Lemma mentions_in (ids : list Z) (i : Z) : mentions ids i = true <-> In i ids.
Proof.
  unfold mentions. rewrite existsb_exists. split.
  - intros (x & Hx & E). apply Z.eqb_eq in E. now subst.
  - intros H. exists i. split; [exact H|apply Z.eqb_refl].
Qed.

Lemma mentions_count (ids : list Z) (i : Z) :
  mentions ids i = (0 <? Z.of_nat (count_occ Z.eq_dec ids i)).
Proof.
  destruct (mentions ids i) eqn:E.
  - apply mentions_in in E. apply (count_occ_In Z.eq_dec) in E.
    symmetry. apply Z.ltb_lt. lia.
  - symmetry. apply Z.ltb_ge.
    destruct (Nat.eq_dec (count_occ Z.eq_dec ids i) 0) as [->|Hne]; [lia|].
    assert (Hin : In i ids) by (apply (count_occ_In Z.eq_dec); lia).
    apply mentions_in in Hin. congruence.
Qed.

Lemma same_id_same_record (l : list Citation) (c d : Citation) :
  NoDup (map idOrZero l) -> In c l -> In d l -> idOrZero c = idOrZero d -> c = d.
Proof.
  induction l as [|x l IH]; cbn [map In]; [tauto|].
  intros Hnd Hc Hd E. apply NoDup_cons_iff in Hnd. destruct Hnd as [Hx Hnd].
  destruct Hc as [<-|Hc], Hd as [<-|Hd]; try reflexivity.
  - exfalso. apply Hx. rewrite E. now apply in_map.
  - exfalso. apply Hx. rewrite <- E. now apply in_map.
  - now apply IH.
Qed.

Lemma idsUpTo_NoDup (n : nat) : NoDup (idsUpTo n).
Proof.
  unfold idsUpTo. apply Finite.Injective_map_NoDup; [|apply seq_NoDup].
  intros a b. lia.
Qed.

(** Usage seen through the views.  After [recordCitationUsage ids] on a
    registry built by the manager, every record's count has grown by the
    number of occurrences of its id in [ids]; the cited records are those
    that were cited before or whose id is mentioned, the uncited ones are
    the others, both listed by ascending id. *)
Theorem cited_after_usage (parseURL : string -> option URL) (ids : list Z)
    (mgr : CitationManager) :
  Reachable parseURL mgr ->
  let after := recordCitationUsage ids mgr in
  let n := List.length (citations mgr) in
  let before := map idOrZero (getCitedCitations mgr) in
  map (fun c => (idOrZero c, usage c)) (getAllCitations after)
  = map (fun c => (idOrZero c,
                   usage c + Z.of_nat (count_occ Z.eq_dec ids (idOrZero c))))
      (getAllCitations mgr)
  /\ map idOrZero (getCitedCitations after)
     = filter (fun i => mentions ids i || mentions before i) (idsUpTo n)
  /\ map idOrZero (getUncitedCitations after)
     = filter (fun i => negb (mentions ids i || mentions before i)) (idsUpTo n).
Proof.
  intros Hr. cbn zeta.
  destruct (reachable_wellKept parseURL _ Hr) as ((Hnum & _) & _ & Hc & _).
  pose proof (reachable_wellKept parseURL _ (reach_record parseURL ids mgr Hr))
    as ((Hnum' & _) & _ & _ & _).
  pose proof (getAllCitations_numbered _ Hnum) as Hall.
  pose proof (getAllCitations_numbered _ Hnum') as Hall'.
  pose proof (usage_recordUsageMap 1 ids _ Hnum) as Hu.
  assert (Hids : map idOrZero (map snd (citations mgr))
                 = idsUpTo (List.length (citations mgr)))
    by apply (idOrZero_numbered 1 _ Hnum).
  assert (Hpos : forall c, In c (map snd (citations mgr)) -> 0 <= usage c).
  { intros c Hin. apply in_map_iff in Hin. destruct Hin as (e & <- & He).
    unfold counted in Hc. rewrite Forall_forall in Hc.
    destruct (Hc _ He) as (t & Ht & Ht0). unfold usage. now rewrite Ht. }
  assert (Hbefore : forall c, In c (map snd (citations mgr)) ->
            mentions (map idOrZero (getCitedCitations mgr)) (idOrZero c)
            = (0 <? usage c)).
  { intros c Hin. unfold getCitedCitations. rewrite Hall.
    destruct (0 <? usage c) eqn:E.
    - apply mentions_in, in_map, filter_In. now split.
    - destruct (mentions _ (idOrZero c)) eqn:M; [|reflexivity].
      apply mentions_in, in_map_iff in M. destruct M as (d & Ed & Hd).
      apply filter_In in Hd. destruct Hd as [Hd Hcited].
      assert (d = c).
      { apply (same_id_same_record (map snd (citations mgr))); try assumption.
        rewrite Hids. apply idsUpTo_NoDup. }
      subst d. congruence. }
  assert (Hsplit : forall c, In c (map snd (citations mgr)) ->
            (0 <? usage c + Z.of_nat (count_occ Z.eq_dec ids (idOrZero c)))
            = (mentions ids (idOrZero c)
               || mentions (map idOrZero (getCitedCitations mgr)) (idOrZero c))).
  { intros c Hin. rewrite (Hbefore c Hin), mentions_count.
    pose proof (Hpos c Hin).
    destruct (Z.ltb_spec 0 (usage c + Z.of_nat (count_occ Z.eq_dec ids (idOrZero c)))),
             (Z.ltb_spec 0 (Z.of_nat (count_occ Z.eq_dec ids (idOrZero c)))),
             (Z.ltb_spec 0 (usage c)); cbn; try reflexivity; lia. }
  split; [now rewrite Hall, Hall'|]. split.
  - unfold getCitedCitations at 1. rewrite Hall'.
    rewrite (filter_by_pair (fun u => 0 <? u)).
    cbn [recordCitationUsage citations]. rewrite Hu.
    rewrite <- Hids, <- filter_on_ids.
    rewrite (filter_ext_in _ (fun c => 0 <? usage c
               + Z.of_nat (count_occ Z.eq_dec ids (idOrZero c))))
      by (intros c Hin; symmetry; now apply Hsplit).
    generalize (map snd (citations mgr)) as l.
    induction l as [|c l IH]; cbn [filter map fst snd]; [reflexivity|].
    destruct (0 <? _); cbn [map fst]; now rewrite IH.
  - unfold getUncitedCitations at 1. rewrite Hall'.
    rewrite (filter_by_pair (fun u => u =? 0)).
    cbn [recordCitationUsage citations]. rewrite Hu.
    rewrite <- Hids.
    rewrite <- (filter_on_ids (fun i => negb (mentions ids i
               || mentions (map idOrZero (getCitedCitations mgr)) i))).
    rewrite (filter_ext_in _ (fun c => usage c
               + Z.of_nat (count_occ Z.eq_dec ids (idOrZero c)) =? 0)).
    2:{ intros c Hin. rewrite <- (Hsplit c Hin). pose proof (Hpos c Hin).
        destruct (Z.ltb_spec 0 (usage c + Z.of_nat (count_occ Z.eq_dec ids (idOrZero c)))),
                 (Z.eqb_spec (usage c + Z.of_nat (count_occ Z.eq_dec ids (idOrZero c))) 0);
          cbn; try reflexivity; lia. }
    generalize (map snd (citations mgr)) as l.
    induction l as [|c l IH]; cbn [filter map fst snd]; [reflexivity|].
    destruct (_ =? 0); cbn [map fst]; now rewrite IH.
Qed.

Lemma cited_after_usage_witness :
  map idOrZero (getCitedCitations (recordCitationUsage [2; 2; 9] Scenario.twoPapers))
  = [2]
  /\ map idOrZero (getUncitedCitations (recordCitationUsage [2; 2; 9] Scenario.twoPapers))
     = [1].
Proof.
  destruct (cited_after_usage Scenario.parseSimpleURL [2; 2; 9] Scenario.twoPapers)
    as (_ & Hcited & Hun).
  - apply (reach_addMany Scenario.parseSimpleURL Scenario.today
             [Scenario.paperA; Scenario.paperB] newManager), reach_new.
  - split; [exact Hcited|exact Hun].
Defined.

(** *** Marks appended to text *)

Lemma generateMultiple_mark (ids : list Z) (mgr : CitationManager) :
  ids <> [] -> fst (generateMultipleInTextCitations ids mgr) = renderMark ids.
Proof.
  destruct ids as [|a [|b l]]; intros H; [contradiction| |].
  - unfold renderMark. cbn. now rewrite Z.eqb_refl.
  - cbn [generateMultipleInTextCitations fst]. unfold renderMark.
    pose proof (RegistryFacts.sortAsc_perm (a :: b :: l)) as P.
    destruct (sortAsc (a :: b :: l)) as [|x l'] eqn:E.
    + apply Permutation_nil in P. discriminate.
    + apply RegistryFacts.renderSorted_runs.
Qed.

Lemma numbers_some (l : list Z) : numbers (map Some l) = Some l.
Proof. induction l as [|i l IH]; cbn [numbers map]; [reflexivity|now rewrite IH]. Qed.

(** Marks appended to text.  With no citation the text comes back as it
    is, untrimmed, and the registry is not touched.  Otherwise, on a
    registry built by the manager, the call always produces a text: the
    trimmed input, one space, and the merged mark of the ids of the given
    citations, one id per citation in the range 1..n of the registry after
    the additions; those ids are recorded as used, once per citation. *)
Theorem insertCitationMarks_appends (parseURL : string -> option URL)
    (today text : string) (cs : list Citation) (mgr : CitationManager) :
  Reachable parseURL mgr ->
  let added := snd (addCitations parseURL today cs mgr) in
  let keys := keysOf (citations added) in
  let ids := map (fun c => 1 + Z.of_nat (indexOf (getCitationKey parseURL c) keys)) cs in
  insertCitationMarks parseURL today text [] mgr = Some (text, mgr)
  /\ (cs <> [] ->
      insertCitationMarks parseURL today text cs mgr
      = Some ((trim text ++ " " ++ renderMark ids)%string,
              recordCitationUsage ids added))
  /\ Forall (fun i => 1 <= i <= Z.of_nat (List.length (citations added))) ids
  /\ fst (addCitations parseURL today cs mgr) = map Some ids.
Proof.
  intros Hr. cbn zeta.
  destruct (reachable_wellKept parseURL _ Hr) as (Hwn & _).
  destruct (RegistryFacts.addCitations_run parseURL today cs mgr Hwn)
    as (_ & Hkeys & Hids).
  assert (Hfst : fst (addCitations parseURL today cs mgr)
                 = map Some (map (fun c => 1 + Z.of_nat (indexOf (getCitationKey parseURL c)
                       (keysOf (citations (snd (addCitations parseURL today cs mgr)))))) cs))
    by (rewrite Hids, !map_map; reflexivity).
  split; [reflexivity|]. split; [|split; [|exact Hfst]].
  - intros Hne. unfold insertCitationMarks.
    destruct cs as [|c cs']; [contradiction|].
    destruct (addCitations parseURL today (c :: cs') mgr) as [is_ mgr1] eqn:E.
    cbn [fst snd] in *. rewrite Hfst, numbers_some.
    set (ids := map _ (c :: cs')).
    assert (Hids' : ids <> []) by discriminate.
    pose proof (generateMultiple_mark ids mgr1 Hids') as Hmark.
    pose proof (generateMultiple_state ids mgr1) as Hstate.
    destruct (generateMultipleInTextCitations ids mgr1) as [mark mgr2].
    cbn [fst snd] in *. now subst.
  - apply Forall_forall. intros i Hi. apply in_map_iff in Hi.
    destruct Hi as (c & <- & Hc).
    assert (Hin : In (getCitationKey parseURL c)
                    (keysOf (citations (snd (addCitations parseURL today cs mgr))))).
    { rewrite Hkeys. apply RegistryFacts.seenAfter_in. right. now apply in_map. }
    pose proof (RegistryFacts.indexOf_lt _ _ Hin) as Hlt.
    assert (Hlen : List.length (keysOf (citations (snd (addCitations parseURL today cs mgr))))
                   = List.length (citations (snd (addCitations parseURL today cs mgr))))
      by apply length_map.
    rewrite Hlen in Hlt. lia.
Qed.

Lemma insertCitationMarks_appends_witness :
  insertCitationMarks Scenario.parseSimpleURL Scenario.today "  As shown.  "
    [Scenario.paperB; Scenario.paperA'; Scenario.paperA] Scenario.twoPapers
  = Some ("As shown. [1, 1-2]"%string,
          recordCitationUsage [2; 1; 1] Scenario.twoPapers).
Proof.
  destruct (insertCitationMarks_appends Scenario.parseSimpleURL Scenario.today
              "  As shown.  " [Scenario.paperB; Scenario.paperA'; Scenario.paperA]
              Scenario.twoPapers) as (_ & H & _).
  - apply (reach_addMany Scenario.parseSimpleURL Scenario.today
             [Scenario.paperA; Scenario.paperB] newManager), reach_new.
  - rewrite H by discriminate. reflexivity.
Defined.

End ViewsFacts.


(** ** The execution layer over every environment *)

Module ExecutionMore.
Import Execution Spec Notions.
Local Open Scope list_scope.

Lemma recordedOf_app (l1 l2 : list Event) :
  recordedOf (l1 ++ l2) = recordedOf l1 ++ recordedOf l2.
Proof.
  induction l1 as [|[] l1 IH]; simpl; rewrite ?IH; reflexivity.
Qed.

Lemma replay_app (t1 t2 : list Z) (h : Tracker.ErrorHistory) :
  replay (t1 ++ t2) h = replay t2 (replay t1 h).
Proof. unfold replay. apply fold_left_app. Qed.

Lemma replay_Recorded (times : list Z) (h : Tracker.ErrorHistory) :
  Recorded h -> Recorded (replay times h).
Proof.
  revert h. induction times as [|t times IH]; intros h H; [exact H|].
  cbn [replay fold_left]. apply IH. now constructor.
Qed.

Lemma takeDigits_nonneg (s : string) (acc : Z) :
  0 <= acc -> 0 <= parseDigitsFrom acc (takeDigits s).
Proof.
  revert acc. induction s as [|c r IH]; intros acc H; cbn [takeDigits parseDigitsFrom];
    [exact H|].
  destruct (isDigit c) eqn:D; cbn [parseDigitsFrom]; [|exact H].
  apply IH. unfold isDigit in D. apply andb_prop in D as [D _].
  apply Nat.leb_le in D. lia.
Qed.

Lemma firstDigits_taken (s digits : string) :
  firstDigits s = Some digits -> exists s', digits = takeDigits s'.
Proof.
  induction s as [|c r IH]; cbn [firstDigits]; [discriminate|].
  destruct (isDigit c); [|exact IH].
  intros [= <-]. now exists (String c r).
Qed.

Lemma suggestedSeconds_nonneg (e : JsError) (seconds : Z) :
  suggestedSeconds e = inr (Some seconds) -> 0 <= seconds.
Proof.
  unfold suggestedSeconds.
  destruct (findRetryInfo e) as [thrown|[d|]]; try discriminate.
  destruct (retryDelay d) as [|t|]; try discriminate.
  destruct (String.eqb t ""); [discriminate|].
  destruct (firstDigits t) as [digits|] eqn:F; [|discriminate].
  intros [= <-]. destruct (firstDigits_taken _ _ F) as [s' ->].
  now apply takeDigits_nonneg.
Qed.

Lemma exponential_range (attempt : Z) (server : bool) (d : Q) :
  (inject_Z ((if server then 5000 else 3000) * 2 ^ ((attempt - 1) mod 2)) <= d)%Q
  /\ (d < inject_Z ((if server then 5000 else 3000) * 2 ^ ((attempt - 1) mod 2)) + 1000)%Q ->
  exponentialDelay d.
Proof.
  unfold exponentialDelay.
  pose proof (Z.mod_pos_bound (attempt - 1) 2 eq_refl) as B.
  assert (K : (attempt - 1) mod 2 = 0 \/ (attempt - 1) mod 2 = 1) by lia.
  destruct K as [-> | ->]; destruct server;
    match goal with |- context [inject_Z ?z] =>
      let v := eval vm_compute in z in change z with v
    end; unfold inject_Z; intros [H1 H2]; split; lra.
Qed.

Lemma backoffDelay_kind (attempt : Z) (e : JsError) (rand d : Q) :
  (0 <= rand)%Q -> (rand < 1)%Q ->
  backoffDelay attempt e rand = inr d ->
  exponentialDelay d \/ suggestedDelay d.
Proof.
  intros H0 H1 Hd.
  pose proof (ExecutionFacts.backoffDelay_exponential attempt e rand H0 H1) as H.
  cbn zeta in H.
  destruct (isRateLimit e); [destruct (suggestedSeconds e) as [t|[s|]] eqn:S|].
  - congruence.
  - right. exists s. split; [now apply (suggestedSeconds_nonneg e)|congruence].
  - left. destruct H as (d' & E & B). rewrite Hd in E. injection E as <-.
    exact (exponential_range attempt (isServerError e) _ B).
  - left. destruct H as (d' & E & B). rewrite Hd in E. injection E as <-.
    exact (exponential_range attempt (isServerError e) _ B).
Qed.

Lemma sleepsAfterRecording_app (l1 l2 : list Event) :
  sleepsAfterRecording l1 -> sleepsAfterRecording l2 ->
  sleepsAfterRecording (l1 ++ l2).
Proof.
  intros H1 H2. induction l1 as [|ev l1 IH]; [exact H2|].
  destruct ev; cbn [app sleepsAfterRecording] in *; try (now apply IH).
  destruct l1 as [|[] l1]; try contradiction. now apply IH.
Qed.

Lemma getNextApiKey_member (p : Pool) :
  keys (snd (getNextApiKey p)) = keys p
  /\ (fst (getNextApiKey p) <> ""%string -> In (fst (getNextApiKey p)) (keys p)).
Proof.
  unfold getNextApiKey. cbn [fst snd keys]. split; [reflexivity|].
  intros H.
  destruct (nth_in_or_default (cursor p mod List.length (keys p)) (keys p) ""%string)
    as [Hin|Hd]; [exact Hin|contradiction].
Qed.

Section WithJSON.

Variable embeddedMessage : string -> option string.

(** What one pass through the [catch] block adds to the log. *)
Lemma catchBlock_log (attempt : Z) (a : Attempt) (e : JsError) (st st' : State) :
  catchBlock embeddedMessage attempt a e st = inr st' ->
  exists extra,
    events st' = events st ++ extra
    /\ pool st' = pool st
    /\ history st' = replay (recordedOf extra) (history st)
    /\ fetchesOf extra = []
    /\ (List.length (recordedOf extra) <= List.length (delaysOf extra) <= 1)%nat
    /\ (isRateLimit e = false -> recordedOf extra = [])
    /\ ((0 <= random a)%Q -> (random a < 1)%Q ->
        Forall (fun d => exponentialDelay d \/ suggestedDelay d) (delaysOf extra))
    /\ sleepsAfterRecording extra.
Proof.
  unfold catchBlock.
  destruct (String.eqb (name e) "AbortError" && aborted (signal st)); [discriminate|].
  destruct (backsOff embeddedMessage e).
  - destruct (backoffDelay attempt e (random a)) as [thrown|d] eqn:Ed.
    { now destruct (isRateLimit e). }
    unfold logged. cbn [events signal pool lastError history].
    destruct (isRateLimit e); cbn [events signal pool lastError history];
      destruct (firesInBackoff (signal st) a); intros [= <-];
      cbn [events signal pool lastError history]; rewrite <- ?app_assoc;
      eexists; (split; [reflexivity|]); cbn;
      (split; [reflexivity|]); (split; [reflexivity|]); (split; [reflexivity|]);
      (split; [lia|]); (split; [intros; try reflexivity; discriminate|]);
      (split; [|exact I]);
      intros H0 H1; (constructor; [now apply (backoffDelay_kind attempt e (random a))|constructor]).
  - intros [= <-]. exists []. cbn. rewrite app_nil_r.
    repeat split; try lia. intros _ _. constructor.
Qed.

(** What a throwing pass through the [catch] block leaves behind. *)
Lemma catchBlock_throws_log (attempt : Z) (a : Attempt) (e : JsError)
    (st st' : State) (thrown : JsError) :
  catchBlock embeddedMessage attempt a e st = inl (thrown, st') ->
  exists extra,
    events st' = events st ++ extra
    /\ pool st' = pool st
    /\ signal st' = signal st
    /\ history st' = replay (recordedOf extra) (history st)
    /\ fetchesOf extra = [] /\ delaysOf extra = []
    /\ (isRateLimit e = false -> recordedOf extra = [])
    /\ ((name thrown = "AbortError"%string /\ aborted (signal st) = true
         /\ extra = [])
        \/ (name thrown = "TypeError"%string /\ exists t, extra = [Recorded429 t])).
Proof.
  intros H.
  destruct (ExecutionFacts.catchBlock_throws _ _ _ _ _ _ _ H)
    as [(-> & -> & Hn & Ha)|(Hs & Hr & Hn & ->)].
  - exists []. rewrite app_nil_r. repeat split. left. now repeat split.
  - exists [Recorded429 (clock a)]. cbn [events pool signal history].
    repeat split; try congruence. right. split; [exact Hn|now eexists].
Qed.

(** What the loop adds to the log, the pool and the tracker. *)
Lemma attempts_log (env : Z -> Attempt) (n : nat) (i : Z) (st : State) :
  let r := attempts embeddedMessage env n i st in
  exists new,
    events (snd r) = events st ++ new
    /\ keys (pool (snd r)) = keys (pool st)
    /\ history (snd r) = replay (recordedOf new) (history st)
    /\ (List.length (fetchesOf new) <= n)%nat
    /\ (List.length (delaysOf new) <= List.length (fetchesOf new)
        /\ List.length (recordedOf new) <= List.length (fetchesOf new))%nat
    /\ Forall (fun f => i <= fst f < i + Z.of_nat n
                        /\ In (snd f) (keys (pool st)) /\ snd f <> ""%string)
         (fetchesOf new)
    /\ StronglySorted Z.lt (map fst (fetchesOf new))
    /\ (noRateLimit env -> recordedOf new = [])
    /\ (fairDice env ->
        Forall (fun d => exponentialDelay d \/ suggestedDelay d) (delaysOf new)).
Proof.
  revert i st. induction n as [|n IH]; intros i st; cbn zeta.
  - exists []. cbn. rewrite app_nil_r. repeat split; try lia; constructor.
  - cbn [attempts].
    destruct (getNextApiKey_member (pool st)) as [Hkeys Hmem].
    destruct (getNextApiKey (pool st)) as [key pool']. cbn [fst snd] in Hkeys, Hmem.
    destruct (String.eqb_spec key "") as [Hk|Hk].
    + match goal with |- context [attempts _ env n (i + 1) ?s0] =>
        destruct (IH (i + 1) s0) as (new & He & Hp & Hh & Hf & Hd & Hall & Hs & Hr & Hq)
      end.
      cbn [events pool history] in *.
      exists new. repeat split; try assumption; try lia; try congruence.
      eapply Forall_impl; [|exact Hall]. cbn. intros f (H1 & H2 & H3).
      repeat split; try assumption; try lia. congruence.
    + set (st0 := mkState pool' (signal st) (lastError st) (history st) (events st)).
      set (first := if abortsCall (signal st0) (env i)
                    then [Fetched i key; CallerCancelled] else [Fetched i key]).
      assert (Hfirst : fetchesOf first = [(i, key)] /\ delaysOf first = []
                       /\ recordedOf first = []).
      { unfold first. now destruct (abortsCall _ _). }
      destruct Hfirst as (Ff & Fd & Fr).
      assert (Hone : Forall (fun f => i <= fst f < i + Z.of_nat (S n)
                        /\ In (snd f) (keys (pool st)) /\ snd f <> ""%string)
                       [(i, key)]).
      { constructor; [|constructor]. cbn [fst snd]. repeat split; try lia; auto. }
      destruct (tryFetch (signal (logged st0 first)) (env i)) as [[e|text] s] eqn:Et.
      * assert (Hraised : noRateLimit env -> isRateLimit e = false).
        { intros Hno.
          destruct (ExecutionFacts.tryFetch_error _ _ _ _ Et) as [(_ & -> & _)|(_ & Hraised & _)];
            [reflexivity|exact (Hno i e Hraised)]. }
        match goal with |- context [catchBlock _ i (env i) e ?s2] =>
          destruct (catchBlock embeddedMessage i (env i) e s2) as [[thrown st3]|st3] eqn:Ec
        end.
        -- destruct (catchBlock_throws_log _ _ _ _ _ _ Ec)
             as (extra & Xe & Xp & _ & Xh & Xf & Xd & Xr & Xk).
           cbn [events pool history logged st0] in Xe, Xp, Xh.
           exists (first ++ extra). cbn [fst snd].
           rewrite !ExecutionFacts.fetchesOf_app, !ExecutionFacts.delaysOf_app,
             !recordedOf_app.
           rewrite Ff, Fd, Fr, Xf, Xd. cbn [app List.length map].
           split; [rewrite Xe, <- app_assoc; reflexivity|].
           split; [rewrite Xp; exact Hkeys|].
           split; [exact Xh|].
           split; [lia|]. split.
           { split; [lia|]. destruct Xk as [(_ & _ & ->)|(_ & t & ->)]; cbn; lia. }
           split; [exact Hone|]. split; [repeat constructor|].
           split; [intros Hno; apply Xr; now apply Hraised|].
           intros _. constructor.
        -- destruct (catchBlock_log _ _ _ _ _ Ec)
             as (extra & Xe & Xp & Xh & Xf & Xd & Xr & Xq & _).
           cbn [events pool history logged st0] in Xe, Xp, Xh.
           destruct (IH (i + 1) st3)
             as (new & He & Hp & Hh & Hf & Hd & Hall & Hs & Hr & Hq).
           exists (first ++ extra ++ new).
           rewrite !ExecutionFacts.fetchesOf_app, !ExecutionFacts.delaysOf_app, !recordedOf_app.
           rewrite Ff, Fd, Fr, Xf. cbn [app List.length map].
           rewrite !length_app.
           split; [rewrite He, Xe, <- !app_assoc; reflexivity|].
           split; [rewrite Hp, Xp; exact Hkeys|].
           split; [rewrite Hh, Xh, replay_app; reflexivity|].
           split; [lia|]. split; [lia|].
           split.
           { constructor; [now apply Forall_inv in Hone|].
             eapply Forall_impl; [|exact Hall]. cbn. intros f (H1 & H2 & H3).
             repeat split; try assumption; try lia.
             rewrite Xp in H2. cbn [pool] in H2. congruence. }
           split.
           { constructor; [exact Hs|].
             apply Forall_forall. intros j Hj. apply in_map_iff in Hj.
             destruct Hj as (f & <- & Hf').
             rewrite Forall_forall in Hall. destruct (Hall f Hf') as (H1 & _).
             cbn [fst]. lia. }
           split.
           { intros Hno. rewrite (Hr Hno), app_nil_r. apply Xr. now apply Hraised. }
           { intros Hfair. apply Forall_app. split; [|now apply Hq].
             destruct (Hfair i) as [H0 H1]. now apply Xq. }
      * exists first. cbn [snd events pool history logged st0].
        rewrite Ff, Fd, Fr. cbn [List.length map replay fold_left].
        repeat split; try assumption; try lia; try reflexivity.
        -- repeat constructor.
        -- intros _. constructor.
Qed.

(** Every recording of the loop is directly followed by a sleep, unless
    the loop ends with a [TypeError]: the last entry of the log is then a
    recording that no sleep follows. *)
Lemma attempts_recordings (env : Z -> Attempt) (n : nat) (i : Z) (st : State) :
  let r := attempts embeddedMessage env n i st in
  exists new,
    events (snd r) = events st ++ new
    /\ ((forall e, fst r = Thrown e -> name e <> "TypeError"%string) ->
        sleepsAfterRecording new)
    /\ (forall e, fst r = Thrown e -> name e = "TypeError"%string ->
        exists before t,
          new = before ++ [Recorded429 t] /\ sleepsAfterRecording before).
Proof.
  revert i st. induction n as [|n IH]; intros i st; cbn zeta.
  - exists []. cbn. rewrite app_nil_r. repeat split. intros e. discriminate.
  - cbn [attempts].
    destruct (getNextApiKey (pool st)) as [key pool'].
    destruct (String.eqb key "").
    + match goal with |- context [attempts _ env n (i + 1) ?s0] =>
        destruct (IH (i + 1) s0) as (new & He & H1 & H2)
      end.
      exists new. cbn [events] in He. now repeat split.
    + set (st0 := mkState pool' (signal st) (lastError st) (history st) (events st)).
      set (first := if abortsCall (signal st0) (env i)
                    then [Fetched i key; CallerCancelled] else [Fetched i key]).
      assert (Hfirst : sleepsAfterRecording first)
        by (unfold first; now destruct (abortsCall _ _)).
      destruct (tryFetch (signal (logged st0 first)) (env i)) as [[e|text] s] eqn:Et.
      * match goal with |- context [catchBlock _ i (env i) e ?s2] =>
          destruct (catchBlock embeddedMessage i (env i) e s2) as [[thrown st3]|st3] eqn:Ec
        end.
        -- destruct (catchBlock_throws_log _ _ _ _ _ _ Ec)
             as (extra & Xe & _ & _ & _ & _ & _ & _ & Xk).
           cbn [events logged st0] in Xe.
           exists (first ++ extra). cbn [fst snd].
           split; [rewrite Xe, <- app_assoc; reflexivity|]. split.
           ++ intros Hnot. destruct Xk as [(_ & _ & ->)|(Hn & _)].
              ** now rewrite app_nil_r.
              ** exfalso. now apply (Hnot thrown).
           ++ intros e' [= <-] Hn. destruct Xk as [(Hn' & _)|(_ & t & ->)].
              ** rewrite Hn in Hn'. discriminate.
              ** now exists first, t.
        -- destruct (catchBlock_log _ _ _ _ _ Ec)
             as (extra & Xe & _ & _ & _ & _ & _ & _ & Xs).
           cbn [events logged st0] in Xe.
           destruct (IH (i + 1) st3) as (new & He & H1 & H2).
           exists (first ++ extra ++ new).
           split; [rewrite He, Xe, <- !app_assoc; reflexivity|]. split.
           ++ intros Hnot. apply sleepsAfterRecording_app; [exact Hfirst|].
              apply sleepsAfterRecording_app; [exact Xs|now apply H1].
           ++ intros e' He' Hn. destruct (H2 e' He' Hn) as (before & t & -> & Hb).
              exists (first ++ extra ++ before), t.
              split; [now rewrite <- !app_assoc|].
              apply sleepsAfterRecording_app; [exact Hfirst|].
              now apply sleepsAfterRecording_app.
      * exists first. cbn [fst snd events logged st0].
        split; [reflexivity|]. split; [intros _; exact Hfirst|].
        intros e. discriminate.
Qed.

(** The three ways a call starts. *)
Lemma executeWithRetry_cases (env : Z -> Attempt) (operationName : string)
    (modelName : option string) (p : Pool) (userSignal : Signal)
    (h : Tracker.ErrorHistory) :
  let run := executeWithRetry embeddedMessage env operationName modelName p userSignal h in
  (exists e, run = (Thrown e, initialState p userSignal h)
             /\ name e = "Error"%string
             /\ (keys p = [] \/ restMethodOf operationName = None
                 \/ orElse modelName "" = ""%string))
  \/ (keys p <> [] /\ restMethodOf operationName <> None
      /\ orElse modelName "" <> ""%string
      /\ run = attempts embeddedMessage env (List.length (keys p) * 2) 1
                 (initialState p userSignal h)).
Proof.
  cbn zeta. unfold executeWithRetry.
  destruct (keys p) as [|k ks] eqn:Ek.
  - left. eexists. cbn [List.length Nat.eqb]. split; [reflexivity|]. split; [reflexivity|].
    now left.
  - cbn [List.length Nat.eqb].
    destruct (restMethodOf operationName) as [m|] eqn:Em.
    + destruct (String.eqb_spec (orElse modelName "") "") as [E|N].
      * left. eexists. split; [reflexivity|]. split; [reflexivity|]. now right; right.
      * right. repeat split; try discriminate; try assumption.
    + left. eexists. split; [reflexivity|]. split; [reflexivity|]. now right; left.
Qed.

(** The budget of a call, for every environment.  A call to a pool of
    k credentials makes at most 2k attempts, numbered upwards within
    1..2k, each with a non-empty credential of the pool; it never sleeps
    more often than it fetches, and it leaves the credentials of the pool
    as they are. *)
Theorem run_stays_within_budget (env : Z -> Attempt) (operationName : string)
    (modelName : option string) (p : Pool) (userSignal : Signal)
    (h : Tracker.ErrorHistory) :
  let run := executeWithRetry embeddedMessage env operationName modelName p userSignal h in
  let log := events (snd run) in
  (List.length (fetchesOf log) <= 2 * List.length (keys p))%nat
  /\ (List.length (delaysOf log) <= List.length (fetchesOf log))%nat
  /\ Forall (fun f => 1 <= fst f <= 2 * Z.of_nat (List.length (keys p))
                      /\ In (snd f) (keys p) /\ snd f <> ""%string)
       (fetchesOf log)
  /\ StronglySorted Z.lt (map fst (fetchesOf log))
  /\ keys (pool (snd run)) = keys p.
Proof.
  cbn zeta.
  destruct (executeWithRetry_cases env operationName modelName p userSignal h)
    as [(e & -> & _)|(_ & _ & _ & ->)].
  - cbn. repeat split; try lia; constructor.
  - destruct (attempts_log env (List.length (keys p) * 2) 1 (initialState p userSignal h))
      as (new & He & Hp & _ & Hf & Hd & Hall & Hs & _).
    cbn [initialState events pool app] in He, Hp, Hall. rewrite He.
    repeat split; try assumption; try lia.
    eapply Forall_impl; [|exact Hall]. cbn beta. intros f (H1 & H2 & H3).
    repeat split; try assumption; lia.
Qed.

(** The tracker and the log.  The history after a call is the history
    before it with the logged rate-limit times recorded in order, so it
    stays a history the tracker could have built, and a call in which no
    attempt ends with status 429 leaves the history as it is.  Every
    recording in the log is directly followed by a sleep, with one
    exception: when the call ends with a [TypeError], raised while the
    retry information of a 429 was read, the recording of that 429 is the
    last entry of the log and no sleep follows it. *)
Theorem tracker_follows_log (env : Z -> Attempt) (operationName : string)
    (modelName : option string) (p : Pool) (userSignal : Signal)
    (h : Tracker.ErrorHistory) :
  let run := executeWithRetry embeddedMessage env operationName modelName p userSignal h in
  let log := events (snd run) in
  history (snd run) = replay (recordedOf log) h
  /\ (Recorded h -> Recorded (history (snd run)))
  /\ (noRateLimit env -> history (snd run) = h)
  /\ ((forall e, fst run = Thrown e -> name e <> "TypeError"%string) ->
      sleepsAfterRecording log)
  /\ (forall e, fst run = Thrown e -> name e = "TypeError"%string ->
      exists before t,
        log = before ++ [Recorded429 t] /\ sleepsAfterRecording before).
Proof.
  cbn zeta.
  destruct (executeWithRetry_cases env operationName modelName p userSignal h)
    as [(e0 & -> & Hn & _)|(_ & _ & _ & ->)].
  - cbn [fst snd initialState history events recordedOf replay fold_left].
    split; [reflexivity|]. split; [now intros H|]. split; [reflexivity|].
    split; [intros _; exact I|].
    intros e [= <-] He. rewrite Hn in He. discriminate.
  - destruct (attempts_log env (List.length (keys p) * 2) 1
                (initialState p userSignal h))
      as (new & He & _ & Hh & _ & _ & _ & _ & Hr & _).
    destruct (attempts_recordings env (List.length (keys p) * 2) 1
                (initialState p userSignal h))
      as (new' & He' & Hs & Ht).
    cbn [initialState events history app] in He, Hh, He'.
    split; [rewrite He; exact Hh|]. split.
    { intros Hrec. rewrite Hh. now apply replay_Recorded. }
    split.
    { intros Hno. rewrite Hh, (Hr Hno). reflexivity. }
    rewrite He'. split; [exact Hs|exact Ht].
Qed.

(** The sleeps of a call.  With a random source in [0, 1), every delay a
    call sleeps is either on the exponential schedule, between 3 s and
    11 s, or a delay the server suggested: whole seconds, not negative,
    plus the 500 ms buffer. *)
Theorem delays_of_a_run (env : Z -> Attempt) (operationName : string)
    (modelName : option string) (p : Pool) (userSignal : Signal)
    (h : Tracker.ErrorHistory) :
  fairDice env ->
  Forall (fun d => exponentialDelay d \/ suggestedDelay d)
    (delaysOf (events (snd (executeWithRetry embeddedMessage env operationName
                              modelName p userSignal h)))).
Proof.
  intros Hfair.
  destruct (executeWithRetry_cases env operationName modelName p userSignal h)
    as [(e & -> & _)|(_ & _ & _ & ->)].
  - constructor.
  - destruct (attempts_log env (List.length (keys p) * 2) 1
                (initialState p userSignal h))
      as (new & He & _ & _ & _ & _ & _ & _ & _ & Hq).
    cbn [initialState events app] in He. rewrite He. now apply Hq.
Qed.

End WithJSON.

Lemma tracker_follows_log_witness :
  history (snd (executeWithRetry Scenario.noEmbedded Scenario.alwaysUnavailable
                  "generateContent" (Some "gemini-pro"%string) Scenario.twoKeys None
                  Scenario.threeRecent))
  = Scenario.threeRecent
  /\ Recorded (history (snd (executeWithRetry Scenario.noEmbedded Cases.alwaysQuota
                  "generateContent" (Some "gemini-pro"%string) Scenario.twoKeys None [])))
  /\ sleepsAfterRecording
       (events (snd (executeWithRetry Scenario.noEmbedded Cases.alwaysQuota
                  "generateContent" (Some "gemini-pro"%string) Scenario.twoKeys None [])))
  /\ exists before t,
       events (snd (executeWithRetry Scenario.noEmbedded Cases.quotaThenOdd
                  "generateContent" (Some "gemini-pro"%string) Scenario.twoKeys None []))
       = before ++ [Recorded429 t]
       /\ sleepsAfterRecording before.
Proof.
  assert (Hquota : fst (executeWithRetry Scenario.noEmbedded Cases.alwaysQuota
                          "generateContent" (Some "gemini-pro"%string)
                          Scenario.twoKeys None [])
                   = AllKeysFailedError "All API keys failed. Last error: Quota exceeded")
    by (vm_compute; reflexivity).
  assert (Hodd : fst (executeWithRetry Scenario.noEmbedded Cases.quotaThenOdd
                        "generateContent" (Some "gemini-pro"%string)
                        Scenario.twoKeys None [])
                 = Thrown findIsNoFunction)
    by (vm_compute; reflexivity).
  destruct (tracker_follows_log Scenario.noEmbedded Scenario.alwaysUnavailable
              "generateContent" (Some "gemini-pro"%string) Scenario.twoKeys None
              Scenario.threeRecent) as (_ & _ & Hsame & _).
  destruct (tracker_follows_log Scenario.noEmbedded Cases.alwaysQuota
              "generateContent" (Some "gemini-pro"%string) Scenario.twoKeys None [])
    as (_ & Hrec & _ & Hslept & _).
  destruct (tracker_follows_log Scenario.noEmbedded Cases.quotaThenOdd
              "generateContent" (Some "gemini-pro"%string) Scenario.twoKeys None [])
    as (_ & _ & _ & _ & Hlast).
  split; [|split; [|split]].
  - apply Hsame. intros j e. vm_compute. now intros [= <-].
  - apply Hrec. constructor.
  - apply Hslept. intros e He. rewrite Hquota in He. discriminate.
  - exact (Hlast findIsNoFunction Hodd eq_refl).
Defined.

Lemma delays_of_a_run_witness :
  Forall (fun d => exponentialDelay d \/ suggestedDelay d)
    (delaysOf (events (snd (executeWithRetry Scenario.noEmbedded Cases.alwaysQuota
                              "generateContent" (Some "gemini-pro"%string)
                              Scenario.twoKeys None [])))).
Proof.
  apply (delays_of_a_run Scenario.noEmbedded Cases.alwaysQuota).
  intros j. split; vm_compute; congruence.
Defined.

(** *** How a call ends *)

Lemma attemptsFrom_snoc (i : Z) (n : nat) :
  attemptsFrom i (S n) = attemptsFrom i n ++ [i + Z.of_nat n].
Proof.
  unfold attemptsFrom. rewrite seq_S, map_app. reflexivity.
Qed.

Lemma fetchesAfterCancel_app (l1 l2 : list Event) :
  ~ In CallerCancelled l1 ->
  fetchesAfterCancel (l1 ++ l2) = fetchesAfterCancel l2.
Proof.
  induction l1 as [|ev l1 IH]; intros H; [reflexivity|].
  cbn [app]. destruct ev; cbn [fetchesAfterCancel];
    try (apply IH; intros Hin; apply H; now right).
  exfalso. apply H. now left.
Qed.

Lemma usable_same_keys (p p' : Pool) : keys p' = keys p -> usable p -> usable p'.
Proof. unfold usable. now intros ->. Qed.

Section Outcomes.

Variable embeddedMessage : string -> option string.

Lemma catchBlock_signal (attempt : Z) (a : Attempt) (e : JsError) (st st' : State) :
  catchBlock embeddedMessage attempt a e st = inr st' ->
  lastError st' = Some e
  /\ (signal st' = signal st
      \/ (signal st = Some false /\ signal st' = Some true)).
Proof.
  unfold catchBlock.
  destruct (String.eqb (name e) "AbortError" && aborted (signal st)); [discriminate|].
  destruct (backsOff embeddedMessage e).
  - destruct (backoffDelay attempt e (random a)) as [thrown|d];
      [now destruct (isRateLimit e)|].
    unfold logged. cbn [events signal pool lastError history].
    destruct (isRateLimit e); cbn [events signal pool lastError history];
      destruct (firesInBackoff (signal st) a) eqn:F; intros [= <-];
      cbn [signal lastError]; (split; [reflexivity|]);
      try (now left);
      right; unfold firesInBackoff in F; destruct (signal st) as [[|]|];
      try discriminate; now split.
  - intros [= <-]. cbn [signal lastError]. split; [reflexivity|now left].
Qed.

(** Without a caller's signal the signal stays absent. *)
Lemma attempts_no_signal (env : Z -> Attempt) (n : nat) (i : Z) (st : State) :
  signal st = None ->
  signal (snd (attempts embeddedMessage env n i st)) = None.
Proof.
  revert i st. induction n as [|n IH]; intros i st Hs; cbn [attempts]; [exact Hs|].
  destruct (getNextApiKey (pool st)) as [key pool'].
  destruct (String.eqb key ""); [now apply IH|].
  cbn [signal logged]. rewrite Hs.
  destruct (tryFetch None (env i)) as [[e|text] s] eqn:Et.
  - destruct (ExecutionFacts.tryFetch_error _ _ _ _ Et) as [(Ha & _)|(_ & _ & ->)]; [discriminate|].
    match goal with |- context [catchBlock _ i (env i) e ?s2] =>
      destruct (catchBlock embeddedMessage i (env i) e s2) as [[thrown st3]|st3] eqn:Ec
    end.
    + destruct (catchBlock_throws_log _ _ _ _ _ _ _ Ec) as (_ & _ & _ & Xs & _).
      exact Xs.
    + apply IH. destruct (catchBlock_signal _ _ _ _ _ Ec) as (_ & [H|[H _]]);
        [exact H|discriminate].
  - destruct (ExecutionFacts.tryFetch_success _ _ _ _ Et)
      as (_ & _ & _ & _ & _ & _ & _ & ->).
    reflexivity.
Qed.

(** The aggregate error is reported only after the last attempt, and it
    names the error of the last failed attempt. *)
Lemma attempts_exhausted (env : Z -> Attempt) (n : nat) (i : Z) (st : State)
    (msg : string) :
  usable (pool st) ->
  fst (attempts embeddedMessage env n i st) = AllKeysFailedError msg ->
  msg = ("All API keys failed. Last error: "
         ++ getCleanErrorMessage embeddedMessage
              (lastError (snd (attempts embeddedMessage env n i st))))%string
  /\ map fst (fetchesOf (events (snd (attempts embeddedMessage env n i st))))
     = map fst (fetchesOf (events st)) ++ attemptsFrom i n.
Proof.
  revert i st. induction n as [|n IH]; intros i st Hpool; cbn [attempts].
  - cbn [fst snd]. intros [= <-]. split; [reflexivity|].
    unfold attemptsFrom. cbn. now rewrite app_nil_r.
  - destruct (ExecutionFacts.getNextApiKey_usable _ Hpool) as [Hkey Hkeys].
    destruct (getNextApiKey (pool st)) as [key pool']. cbn [fst snd] in Hkey, Hkeys.
    rewrite Hkey. cbn [signal logged events pool lastError history].
    destruct (tryFetch _ (env i)) as [[e|text] s] eqn:Et; [|discriminate].
    match goal with |- context [catchBlock _ i (env i) e ?s2] =>
      destruct (catchBlock embeddedMessage i (env i) e s2) as [[thrown st3]|st3] eqn:Ec
    end; [discriminate|].
    destruct (catchBlock_log _ _ _ _ _ _ Ec) as (extra & Xe & Xp & _ & Xf & _).
    cbn [events pool] in Xe, Xp.
    intros H. destruct (IH (i + 1) st3) with (2 := H) as [Hm Hf].
    { apply (usable_same_keys (pool st)); [|exact Hpool]. now rewrite Xp. }
    split; [exact Hm|].
    rewrite Hf, Xe, !ExecutionFacts.fetchesOf_app, Xf, app_nil_r, map_app,
      ExecutionFacts.attemptsFrom_S, <- app_assoc.
    f_equal. now destruct (abortsCall _ _).
Qed.

(** A failed attempt during which the caller does nothing. *)
Lemma failing_step_quiet (env : Z -> Attempt) (n : nat) (i : Z) (st : State) :
  usable (pool st) -> failingAttempt (env i) = true ->
  cancelInBackoff (env i) = false ->
  exists st' extra,
    attempts embeddedMessage env (S n) i st = attempts embeddedMessage env n (i + 1) st'
    /\ usable (pool st')
    /\ signal st' = signal st
    /\ events st' = events st ++ Fetched i (fst (getNextApiKey (pool st))) :: extra
    /\ fetchesOf extra = []
    /\ ~ In CallerCancelled extra.
Proof.
  intros Hpool Hfail Hquiet. cbn [attempts].
  destruct (ExecutionFacts.getNextApiKey_usable _ Hpool) as [Hkey Hkeys].
  destruct (getNextApiKey (pool st)) as [key pool']. cbn [fst snd] in *.
  rewrite Hkey. cbn [signal logged events pool lastError history].
  unfold failingAttempt in Hfail. apply andb_prop in Hfail as [Hc Hr].
  apply negb_true_iff in Hc.
  rewrite (ExecutionFacts.abortsCall_no_cancel _ _ Hc).
  destruct (raised (env i)) as [e|] eqn:Er; [|discriminate].
  rewrite (ExecutionFacts.tryFetch_raised _ _ e
             (ExecutionFacts.abortsCall_no_cancel _ _ Hc) Er).
  apply andb_prop in Hr as [Hr Hread].
  apply negb_true_iff in Hr. apply negb_true_iff in Hread.
  assert (Hfb : firesInBackoff (signal st) (env i) = false)
    by (unfold firesInBackoff; rewrite Hquiet; now destruct (signal st) as [[|]|]).
  unfold catchBlock. cbn [signal]. rewrite Hr. cbn [andb].
  assert (Hu : usable pool') by (now apply (usable_same_keys (pool st))).
  destruct (backsOff embeddedMessage e).
  - destruct (ExecutionFacts.backoffDelay_readable i e (random (env i)) Hread) as [d ->].
    unfold logged. cbn [events signal pool lastError history].
    destruct (isRateLimit e); cbn [events signal pool lastError history];
      rewrite Hfb; eexists; eexists; (split; [reflexivity|]);
      cbn [events signal pool lastError history];
      (split; [exact Hu|]); (split; [reflexivity|]);
      rewrite <- ?app_assoc; (split; [reflexivity|]); (split; [reflexivity|]);
      cbn; intuition discriminate.
  - eexists; exists []; (split; [reflexivity|]).
    cbn [events signal pool lastError history].
    split; [exact Hu|]. split; [reflexivity|]. split; [reflexivity|].
    split; [reflexivity|]. intros [].
Qed.

Lemma abort_after_failures (env : Z -> Attempt) (m n : nat) (i : Z) (st : State) :
  usable (pool st) -> signal st = Some false ->
  ~ In CallerCancelled (events st) ->
  (forall j, i <= j < i + Z.of_nat m ->
     failingAttempt (env j) = true /\ cancelInBackoff (env j) = false) ->
  cancelInFlight (env (i + Z.of_nat m)) = true ->
  let r := attempts embeddedMessage env (m + S n) i st in
  fst r = Thrown abortError
  /\ map fst (fetchesOf (events (snd r)))
     = map fst (fetchesOf (events st)) ++ attemptsFrom i (S m)
  /\ fetchesAfterCancel (events (snd r)) = []
  /\ exists before key,
       events (snd r) = before ++ [Fetched (i + Z.of_nat m) key; CallerCancelled].
Proof.
  revert i st. induction m as [|m IH]; intros i st Hpool Hs Hlog Hall Hc; cbn zeta.
  - cbn [Nat.add]. replace (i + Z.of_nat 0) with i in * by lia.
    assert (Hab : abortsCall (signal st) (env i) = true)
      by (unfold abortsCall; now rewrite Hs).
    destruct (ExecutionFacts.abort_in_flight_stops embeddedMessage env n i st Hpool Hab)
      as [H1 H2].
    split; [exact H1|]. rewrite H2.
    rewrite ExecutionFacts.fetchesOf_app, map_app, fetchesAfterCancel_app by exact Hlog.
    rewrite ExecutionFacts.attemptsFrom_S. split; [reflexivity|]. split; [reflexivity|].
    eexists _, _. reflexivity.
  - cbn [Nat.add].
    destruct (Hall i) as [Hf Hq]; [lia|].
    destruct (failing_step_quiet env (m + S n) i st Hpool Hf Hq)
      as (st' & extra & -> & Hp' & Hs' & He' & Hx & Hnc).
    destruct (IH (i + 1) st') as (H1 & H2 & H3 & before & key & H4).
    + exact Hp'.
    + now rewrite Hs'.
    + rewrite He'. intros Hin. apply in_app_or in Hin.
      destruct Hin as [Hin|[Hin|Hin]]; [now apply Hlog|discriminate|now apply Hnc].
    + intros j Hj. apply Hall. lia.
    + replace (i + 1 + Z.of_nat m) with (i + Z.of_nat (S m)) by lia. exact Hc.
    + split; [exact H1|]. split; [|split; [exact H3|]].
      * rewrite H2, He', ExecutionFacts.fetchesOf_app. cbn [fetchesOf].
        rewrite Hx, map_app. cbn [map fst].
        rewrite (ExecutionFacts.attemptsFrom_S i (S m)), <- app_assoc. reflexivity.
      * exists before, key. rewrite H4.
        replace (i + 1 + Z.of_nat m) with (i + Z.of_nat (S m)) by lia. reflexivity.
Qed.

(** How a call ends.  An error other than the aggregate one is thrown in
    three cases only: before any attempt, when the pool is empty or the
    model or operation is missing; when a call was aborted and the
    caller's signal has fired; and when an attempt was answered with a 429
    whose retry information cannot be read, in which case the [catch]
    block fails with a [TypeError] after it has recorded the 429.  So a
    call without a signal, in an environment where every 429 can be read,
    ends with a text or with the aggregate error.  With a pool of
    non-empty credentials the aggregate error is reported only after all
    2k attempts were made, and it names the last error. *)
Theorem throws_in_three_ways (env : Z -> Attempt) (operationName : string)
    (modelName : option string) (p : Pool) (userSignal : Signal)
    (h : Tracker.ErrorHistory) :
  let run := executeWithRetry embeddedMessage env operationName modelName p userSignal h in
  (forall e, fst run = Thrown e ->
     (name e = "Error"%string /\ events (snd run) = []
      /\ (keys p = [] \/ restMethodOf operationName = None
          \/ orElse modelName "" = ""%string))
     \/ (name e = "AbortError"%string /\ signal (snd run) = Some true
         /\ userSignal <> None)
     \/ (name e = "TypeError"%string
         /\ exists j last before t,
              1 <= j <= 2 * Z.of_nat (List.length (keys p))
              /\ raised (env j) = Some last
              /\ isRateLimit last = true
              /\ suggestedSeconds last = inl e
              /\ lastError (snd run) = Some last
              /\ events (snd run) = before ++ [Recorded429 t]))
  /\ (userSignal = None -> readable env ->
      keys p <> [] -> restMethodOf operationName <> None ->
      orElse modelName "" <> ""%string ->
      forall e, fst run <> Thrown e)
  /\ (usable p ->
      forall msg, fst run = AllKeysFailedError msg ->
        msg = ("All API keys failed. Last error: "
               ++ getCleanErrorMessage embeddedMessage (lastError (snd run)))%string
        /\ map fst (fetchesOf (events (snd run)))
           = attemptsFrom 1 (2 * List.length (keys p))).
Proof.
  cbn zeta.
  destruct (executeWithRetry_cases embeddedMessage env operationName modelName p
              userSignal h) as [(e0 & -> & Hn & Hwhy)|(Hk & Hop & Hm & ->)].
  - cbn [fst snd]. split; [|split].
    + intros e [= <-]. left. now repeat split.
    + intros _ _ H1 H2 H3. destruct Hwhy as [H|[H|H]]; contradiction.
    + intros _ msg. discriminate.
  - assert (Hthrown : forall e,
              fst (attempts embeddedMessage env (List.length (keys p) * 2) 1
                     (initialState p userSignal h)) = Thrown e ->
              (name e = "AbortError"%string
               /\ signal (snd (attempts embeddedMessage env (List.length (keys p) * 2) 1
                                 (initialState p userSignal h))) = Some true
               /\ userSignal <> None)
              \/ (name e = "TypeError"%string
                  /\ exists j last before t,
                       1 <= j <= 2 * Z.of_nat (List.length (keys p))
                       /\ raised (env j) = Some last
                       /\ isRateLimit last = true
                       /\ suggestedSeconds last = inl e
                       /\ lastError (snd (attempts embeddedMessage env
                                            (List.length (keys p) * 2) 1
                                            (initialState p userSignal h))) = Some last
                       /\ events (snd (attempts embeddedMessage env
                                         (List.length (keys p) * 2) 1
                                         (initialState p userSignal h)))
                          = before ++ [Recorded429 t])).
    { intros e He.
      destruct (ExecutionFacts.attempts_thrown embeddedMessage _ _ _ _ _ He)
        as [[H1 H2]|(H1 & j & last & before & t & Hj & Hr & Hl & Hrl & Hs & Hev)].
      - left. split; [exact H1|].
        destruct (signal (snd (attempts embeddedMessage env (List.length (keys p) * 2) 1
                    (initialState p userSignal h)))) as [[|]|] eqn:Es; try discriminate.
        split; [reflexivity|]. intros ->.
        rewrite attempts_no_signal in Es by reflexivity. discriminate.
      - right. split; [exact H1|]. exists j, last, before, t.
        split; [lia|]. now repeat split. }
    split; [|split].
    + intros e He. right. now apply Hthrown.
    + intros -> Hread _ _ _ e He.
      destruct (Hthrown e He) as [(_ & _ & H)|(_ & j & last & _ & _ & _ & Hr & Hrl & Hs & _)];
        [now apply H|].
      specialize (Hread j last Hr). unfold unreadable in Hread.
      rewrite Hrl, Hs in Hread. discriminate.
    + intros Hu msg Hmsg.
      destruct (attempts_exhausted env _ 1 (initialState p userSignal h) msg Hu Hmsg)
        as [H1 H2].
      split; [exact H1|]. rewrite H2. cbn [initialState events fetchesOf map app].
      f_equal. lia.
Qed.

(** Cancellation in flight.  When the caller fires the signal while an
    attempt is in flight, after any number of attempts that failed and
    went on and during which the signal was not touched, the call ends at
    once with the abort error: the aborted attempt is the last one, the
    log ends with it, and nothing is fetched after the cancellation. *)
Theorem abort_in_flight_ends_run (env : Z -> Attempt) (model : string) (p : Pool)
    (h : Tracker.ErrorHistory) (m : nat) :
  usable p -> model <> ""%string ->
  (m < 2 * List.length (keys p))%nat ->
  (forall j, 1 <= j < 1 + Z.of_nat m ->
     failingAttempt (env j) = true /\ cancelInBackoff (env j) = false) ->
  cancelInFlight (env (1 + Z.of_nat m)) = true ->
  let run := executeWithRetry embeddedMessage env "generateContent" (Some model) p
               (Some false) h in
  fst run = Thrown abortError
  /\ signal (snd run) = Some true
  /\ map fst (fetchesOf (events (snd run))) = attemptsFrom 1 (S m)
  /\ fetchesAfterCancel (events (snd run)) = []
  /\ exists before key,
       events (snd run) = before ++ [Fetched (1 + Z.of_nat m) key; CallerCancelled].
Proof.
  intros Hu Hm Hlt Hall Hc. cbn zeta.
  rewrite (ExecutionFacts.executeWithRetry_unfold embeddedMessage env model p
             (Some false) h Hu Hm).
  replace (List.length (keys p) * 2)%nat
    with (m + S (2 * List.length (keys p) - m - 1))%nat by lia.
  destruct (abort_after_failures env m (2 * List.length (keys p) - m - 1) 1
              (initialState p (Some false) h))
    as (H1 & H2 & H3 & H4); try assumption; try reflexivity.
  { intros []. }
  split; [exact H1|]. split; [|split; [exact H2|split; [exact H3|exact H4]]].
  destruct (ExecutionFacts.attempts_thrown embeddedMessage _ _ _ _ _ H1)
    as [[_ Ha]|[Hn _]]; [|discriminate Hn].
  now destruct (signal _) as [[|]|].
Qed.

(** A failed attempt, whatever the caller does meanwhile. *)
Lemma failing_step_log (env : Z -> Attempt) (n : nat) (i : Z) (st : State) :
  usable (pool st) -> failingAttempt (env i) = true ->
  exists st' extra,
    attempts embeddedMessage env (S n) i st = attempts embeddedMessage env n (i + 1) st'
    /\ usable (pool st')
    /\ events st' = events st ++ Fetched i (fst (getNextApiKey (pool st))) :: extra
    /\ fetchesOf extra = []
    /\ (List.length (delaysOf extra) <= 1)%nat.
Proof.
  intros Hpool Hfail. cbn [attempts].
  destruct (ExecutionFacts.getNextApiKey_usable _ Hpool) as [Hkey Hkeys].
  destruct (getNextApiKey (pool st)) as [key pool']. cbn [fst snd] in *.
  rewrite Hkey. cbn [signal logged events pool lastError history].
  unfold failingAttempt in Hfail. apply andb_prop in Hfail as [Hc Hr].
  apply negb_true_iff in Hc.
  rewrite (ExecutionFacts.abortsCall_no_cancel _ _ Hc).
  destruct (raised (env i)) as [e|] eqn:Er; [|discriminate].
  rewrite (ExecutionFacts.tryFetch_raised _ _ e
             (ExecutionFacts.abortsCall_no_cancel _ _ Hc) Er).
  apply andb_prop in Hr as [Hr Hread].
  apply negb_true_iff in Hr. apply negb_true_iff in Hread.
  match goal with |- context [catchBlock _ i (env i) e ?s2] =>
    destruct (ExecutionFacts.catchBlock_continues embeddedMessage i (env i) e s2)
      as (st' & Hcb & _ & Hp & _); [now rewrite Hr|exact Hread|];
    destruct (catchBlock_log embeddedMessage i (env i) e s2 st' Hcb)
      as (extra & Xe & _ & _ & Xf & Xd & _)
  end.
  rewrite Hcb. exists st', extra. cbn [pool events] in Hp, Xe.
  split; [reflexivity|]. split.
  - rewrite Hp. now apply (usable_same_keys (pool st)).
  - split; [rewrite Xe, <- app_assoc; reflexivity|]. split; [exact Xf|lia].
Qed.

Lemma success_after_failures (env : Z -> Attempt) (j n : nat) (i : Z) (st : State)
    (t : string) :
  usable (pool st) ->
  (forall k, i <= k < i + Z.of_nat j -> failingAttempt (env k) = true) ->
  answers t (env (i + Z.of_nat j)) ->
  let r := attempts embeddedMessage env (j + S n) i st in
  fst r = Success t
  /\ exists new key,
       events (snd r) = events st ++ new ++ [Fetched (i + Z.of_nat j) key]
       /\ map fst (fetchesOf new) = attemptsFrom i j
       /\ (List.length (delaysOf new) <= j)%nat.
Proof.
  revert i st. induction j as [|j IH]; intros i st Hpool Hall Hgood; cbn zeta.
  - cbn [Nat.add]. replace (i + Z.of_nat 0) with i in * by lia.
    destruct Hgood as (Hc & r & p & Hin & Hok & Hp & Ht & Hb).
    cbn [attempts].
    destruct (ExecutionFacts.getNextApiKey_usable _ Hpool) as [Hkey _].
    destruct (getNextApiKey (pool st)) as [key pool']. cbn [fst] in Hkey.
    rewrite Hkey. cbn [signal logged events pool lastError history].
    rewrite (ExecutionFacts.abortsCall_no_cancel _ _ Hc).
    unfold tryFetch. rewrite (ExecutionFacts.abortsCall_no_cancel _ _ Hc).
    rewrite Hin, Hok, Hp, Ht, Hb. cbn [fst snd events].
    split; [reflexivity|]. exists [], key. cbn [app]. repeat split. cbn. lia.
  - cbn [Nat.add].
    destruct (failing_step_log env (j + S n) i st Hpool) as (st' & extra & -> & Hp' & He & Hf & Hd);
      [apply Hall; lia|].
    destruct (IH (i + 1) st' Hp') as (H1 & new & key & E & F & D).
    + intros k Hk. apply Hall. lia.
    + replace (i + 1 + Z.of_nat j) with (i + Z.of_nat (S j)) by lia. exact Hgood.
    + split; [exact H1|].
      exists (Fetched i (fst (getNextApiKey (pool st))) :: extra ++ new), key.
      rewrite E, He.
      replace (i + 1 + Z.of_nat j) with (i + Z.of_nat (S j)) by lia.
      split; [repeat (rewrite <- app_assoc || rewrite <- app_comm_cons); reflexivity|].
      cbn [fetchesOf delaysOf map fst].
      rewrite ExecutionFacts.fetchesOf_app, ExecutionFacts.delaysOf_app, Hf, length_app.
      cbn [app]. rewrite F, ExecutionFacts.attemptsFrom_S. split; [reflexivity|lia].
Qed.

(** The first good answer is returned.  With a pool of non-empty
    credentials, when the attempts before fail and go on (any failure
    short of an abort and of a 429 whose retry information cannot be
    read) and the next one is answered with a text that is not blank,
    the call returns that text: the attempts made are exactly those up to
    the good one, its fetch is the last entry of the log, so nothing is
    slept after it, and at most one delay is slept per failed attempt. *)
Theorem first_good_answer_is_returned (env : Z -> Attempt) (model : string)
    (p : Pool) (userSignal : Signal) (h : Tracker.ErrorHistory) (j : nat) (t : string) :
  usable p -> model <> ""%string ->
  (j < 2 * List.length (keys p))%nat ->
  (forall k, 1 <= k < 1 + Z.of_nat j -> failingAttempt (env k) = true) ->
  answers t (env (1 + Z.of_nat j)) ->
  let run := executeWithRetry embeddedMessage env "generateContent" (Some model) p
               userSignal h in
  fst run = Success t
  /\ map fst (fetchesOf (events (snd run))) = attemptsFrom 1 (S j)
  /\ (List.length (delaysOf (events (snd run))) <= j)%nat
  /\ exists before key,
       events (snd run) = before ++ [Fetched (1 + Z.of_nat j) key].
Proof.
  intros Hu Hm Hlt Hall Hgood. cbn zeta.
  rewrite (ExecutionFacts.executeWithRetry_unfold embeddedMessage env model p
             userSignal h Hu Hm).
  replace (List.length (keys p) * 2)%nat
    with (j + S (2 * List.length (keys p) - j - 1))%nat by lia.
  destruct (success_after_failures env j (2 * List.length (keys p) - j - 1) 1
              (initialState p userSignal h) t Hu Hall Hgood)
    as (H1 & new & key & E & F & D).
  cbn [initialState events app] in E.
  split; [exact H1|]. rewrite E.
  rewrite ExecutionFacts.fetchesOf_app, ExecutionFacts.delaysOf_app, map_app, F, length_app.
  cbn [fetchesOf delaysOf map fst List.length].
  split; [now rewrite attemptsFrom_snoc|]. split; [lia|]. now exists new, key.
Qed.

End Outcomes.

Lemma throws_in_three_ways_witness :
  fst (executeWithRetry Scenario.noEmbedded Scenario.alwaysUnavailable
         "generateContent" (Some "gemini-pro"%string) Scenario.twoKeys None [])
  = AllKeysFailedError "All API keys failed. Last error: API Error: 503 - Service Unavailable"
  /\ map fst (fetchesOf (events (snd (executeWithRetry Scenario.noEmbedded
         Scenario.alwaysUnavailable "generateContent" (Some "gemini-pro"%string)
         Scenario.twoKeys None []))))
     = [1; 2; 3; 4]
  /\ fst (executeWithRetry Scenario.noEmbedded Cases.quotaThenOdd
            "generateContent" (Some "gemini-pro"%string) Scenario.twoKeys None [])
     = Thrown findIsNoFunction
  /\ exists before t,
       events (snd (executeWithRetry Scenario.noEmbedded Cases.quotaThenOdd
                      "generateContent" (Some "gemini-pro"%string)
                      Scenario.twoKeys None []))
       = before ++ [Recorded429 t].
Proof.
  destruct (throws_in_three_ways Scenario.noEmbedded Scenario.alwaysUnavailable
              "generateContent" (Some "gemini-pro"%string) Scenario.twoKeys None [])
    as (_ & Hnever & Hall).
  destruct (throws_in_three_ways Scenario.noEmbedded Cases.quotaThenOdd
              "generateContent" (Some "gemini-pro"%string) Scenario.twoKeys None [])
    as (Hways & _).
  assert (Hread : readable Scenario.alwaysUnavailable).
  { intros j e. vm_compute. now intros [= <-]. }
  assert (Hnot : forall e,
            fst (executeWithRetry Scenario.noEmbedded Scenario.alwaysUnavailable
                   "generateContent" (Some "gemini-pro"%string) Scenario.twoKeys None [])
            <> Thrown e)
    by (apply Hnever; [reflexivity|exact Hread|discriminate|discriminate|discriminate]).
  assert (Hrun : fst (executeWithRetry Scenario.noEmbedded Scenario.alwaysUnavailable
                        "generateContent" (Some "gemini-pro"%string) Scenario.twoKeys
                        None [])
                 = AllKeysFailedError
                     "All API keys failed. Last error: API Error: 503 - Service Unavailable")
    by (vm_compute; reflexivity).
  assert (Hodd : fst (executeWithRetry Scenario.noEmbedded Cases.quotaThenOdd
                        "generateContent" (Some "gemini-pro"%string)
                        Scenario.twoKeys None [])
                 = Thrown findIsNoFunction)
    by (vm_compute; reflexivity).
  assert (Hu : usable Scenario.twoKeys)
    by (split; [discriminate|repeat constructor; discriminate]).
  destruct (Hall Hu _ Hrun) as [_ Hf].
  split; [exact Hrun|]. split; [exact Hf|]. split; [exact Hodd|].
  destruct (Hways findIsNoFunction Hodd)
    as [(Hn & _)|[(Hn & _)|(_ & _ & _ & before & t & _ & _ & _ & _ & _ & He)]];
    [discriminate Hn|discriminate Hn|].
  now exists before, t.
Defined.

Lemma abort_in_flight_ends_run_witness :
  fst (executeWithRetry Scenario.noEmbedded Scenario.cancelledInFlight
         "generateContent" (Some "gemini-pro"%string) Scenario.twoKeys (Some false) [])
  = Thrown abortError
  /\ map fst (fetchesOf (events (snd (executeWithRetry Scenario.noEmbedded
         Scenario.cancelledInFlight "generateContent" (Some "gemini-pro"%string)
         Scenario.twoKeys (Some false) []))))
     = [1; 2].
Proof.
  destruct (abort_in_flight_ends_run Scenario.noEmbedded Scenario.cancelledInFlight
              "gemini-pro" Scenario.twoKeys [] 1) as (H1 & _ & H2 & _).
  - split; [discriminate|repeat constructor; discriminate].
  - discriminate.
  - cbn. lia.
  - intros j Hj. assert (j = 1) as -> by lia. split; reflexivity.
  - reflexivity.
  - split; [exact H1|exact H2].
Defined.

Lemma first_good_answer_is_returned_witness :
  fst (executeWithRetry Scenario.noEmbedded Scenario.cancelledThenAnswered
         "generateContent" (Some "gemini-pro"%string) Scenario.twoKeys None [])
  = Success "forty-two"
  /\ map fst (fetchesOf (events (snd (executeWithRetry Scenario.noEmbedded
         Scenario.cancelledThenAnswered "generateContent" (Some "gemini-pro"%string)
         Scenario.twoKeys None []))))
     = [1; 2].
Proof.
  destruct (first_good_answer_is_returned Scenario.noEmbedded
              Scenario.cancelledThenAnswered "gemini-pro" Scenario.twoKeys None [] 1
              "forty-two") as (H1 & H2 & _).
  - split; [discriminate|repeat constructor; discriminate].
  - discriminate.
  - cbn. lia.
  - intros k Hk. assert (k = 1) as -> by lia. reflexivity.
  - split; [reflexivity|]. eexists _, _. repeat split; reflexivity.
  - split; [exact H1|exact H2].
Defined.

End ExecutionMore.


(** ** The tracker's history and its effect on the delay *)

Module TrackerMore.
Import Tracker Spec Notions.
Local Open Scope list_scope.

Lemma record429Error_length (now : Z) (h : ErrorHistory) :
  (List.length h <= 10)%nat ->
  List.length (record429Error now h) = Nat.min (S (List.length h)) 10.
Proof.
  intros H. unfold record429Error, MAX_ERROR_HISTORY.
  assert (L : List.length (h ++ [now]) = S (List.length h))
    by (rewrite length_app; cbn; lia).
  destruct (10 <? List.length (h ++ [now]))%nat eqn:E.
  - apply Nat.ltb_lt in E. destruct h as [|t h]; cbn in *; [lia|].
    rewrite length_app. cbn. lia.
  - apply Nat.ltb_ge in E. lia.
Qed.

Lemma Recorded_length (h : ErrorHistory) : Recorded h -> (List.length h <= 10)%nat.
Proof.
  induction 1 as [|now h _ IH|h _ _]; cbn; try lia.
  rewrite (record429Error_length now h IH). lia.
Qed.

Lemma record429Error_newest (now : Z) (h : ErrorHistory) :
  exists dropped older,
    h ++ [now] = dropped ++ record429Error now h
    /\ record429Error now h = older ++ [now]
    /\ (List.length dropped <= 1)%nat.
Proof.
  unfold record429Error, MAX_ERROR_HISTORY.
  destruct (10 <? List.length (h ++ [now]))%nat eqn:E.
  - apply Nat.ltb_lt in E. destruct h as [|t h].
    + cbn in E. lia.
    + exists [t], h. cbn. repeat split. lia.
  - exists [], h. cbn. repeat split. lia.
Qed.

Lemma recent_le_total (now : Z) (h : ErrorHistory) :
  getRecentErrorCount now h <= Z.of_nat (List.length h).
Proof.
  unfold getRecentErrorCount. pose proof (filter_length_le
    (fun timestamp => now - 5 * 60 * 1000 <? timestamp) h). lia.
Qed.

Lemma recent_stale (now : Z) (h : ErrorHistory) :
  stale now h -> getRecentErrorCount now h = 0.
Proof.
  unfold stale, getRecentErrorCount. induction 1 as [|t h Ht _ IH]; [reflexivity|].
  cbn [filter]. destruct (Z.ltb_spec (now - 5 * 60 * 1000) t); [lia|exact IH].
Qed.

Lemma geCount_mono (m n : Z) (x : Double.number) :
  m <= n -> Double.geCount n x = false -> Double.geCount m x = false.
Proof.
  unfold Double.geCount. intros Hmn.
  destruct (Double.extended x) as [| |q|]; try easy.
  intros H. destruct (Qle_bool q (inject_Z m)) eqn:E; [|reflexivity].
  apply Qle_bool_iff in E.
  assert (L : Qle_bool q (inject_Z n) = true).
  { apply Qle_bool_iff. eapply Qle_trans; [exact E|]. now rewrite <- Zle_Qle. }
  congruence.
Qed.

Lemma calculateDelay_plain (settings : ApiIntervalConfig) (now : Z)
    (h : ErrorHistory) (mode : ResearchMode) (config : option ApiIntervalConfig) :
  let c := match config with Some c => c | None => settings end in
  dynamicAdjustment c = false
  \/ Double.geCount (getRecentErrorCount now h) (errorThreshold c) = false ->
  calculateDelay settings now h mode config
  = Double.mathRound (Double.mathMin (plainProduct mode c) maxDelay).
Proof.
  cbn zeta. intros H. unfold calculateDelay, plainProduct.
  destruct H as [-> | H].
  - now destruct mode.
  - rewrite H. destruct (dynamicAdjustment _); now destruct mode.
Qed.

(** The history is a window of the ten newest events.  A history built by
    recording and clearing never holds more than ten timestamps; recording
    puts the new timestamp last and drops at most the oldest one; the
    statistics report at most ten events in total and never more recent
    events than events. *)
Theorem history_is_a_window (now t : Z) (h : ErrorHistory) :
  Recorded h ->
  (List.length h <= 10)%nat
  /\ List.length (record429Error now h) = Nat.min (S (List.length h)) 10
  /\ (exists dropped older,
        h ++ [now] = dropped ++ record429Error now h
        /\ record429Error now h = older ++ [now]
        /\ (List.length dropped <= 1)%nat)
  /\ suffixOf (record429Error now h) (h ++ [now])
  /\ 0 <= Stats.recent (Stats.getErrorStats t h)
     <= Stats.total (Stats.getErrorStats t h)
  /\ Stats.total (Stats.getErrorStats t h) <= 10.
Proof.
  intros Hrec. pose proof (Recorded_length h Hrec) as Hlen.
  split; [exact Hlen|]. split; [now apply record429Error_length|].
  split; [apply record429Error_newest|]. split.
  - destruct (record429Error_newest now h) as (dropped & _ & E & _).
    now exists dropped.
  - cbn [Stats.getErrorStats Stats.recent Stats.total].
    pose proof (TrackerFacts.recent_count_nonneg t h).
    pose proof (recent_le_total t h). lia.
Qed.

(** When the history does not escalate.  The delay is the base delay
    times the factor of the mode, the product rounded to a double, clamped
    and rounded to a whole number, and equals the delay for an empty
    history, whenever dynamic adjustment is off, or zero does not reach
    the threshold and every recorded event is at least five minutes old,
    or ten, the capacity of the history, does not reach the threshold.
    With dynamic adjustment on, a threshold that zero reaches escalates
    every delay, even with an empty history. *)
Theorem old_errors_do_not_escalate (settings : ApiIntervalConfig) (now : Z)
    (h : ErrorHistory) (mode : ResearchMode) (config : option ApiIntervalConfig) :
  let c := match config with Some c => c | None => settings end in
  (dynamicAdjustment c = false
   \/ (Double.geCount 0 (errorThreshold c) = false /\ stale now h)
   \/ (Double.geCount 10 (errorThreshold c) = false /\ Recorded h) ->
   calculateDelay settings now h mode config
   = Double.mathRound (Double.mathMin (plainProduct mode c) maxDelay)
   /\ calculateDelay settings now h mode config
      = calculateDelay settings now [] mode config)
  /\ (dynamicAdjustment c = true -> Double.geCount 0 (errorThreshold c) = true ->
      calculateDelay settings now [] mode config
      = Double.mathRound (Double.mathMin (escalatedProduct mode c) maxDelay)).
Proof.
  cbn zeta. split.
  - intros H.
    assert (Hplain : dynamicAdjustment match config with Some c => c | None => settings end
                     = false
                     \/ Double.geCount (getRecentErrorCount now h)
                          (errorThreshold match config with Some c => c | None => settings end)
                        = false).
    { destruct H as [H|[[Hthr Hst]|[Hthr Hrec]]]; [now left| |]; right.
      - now rewrite (recent_stale now h Hst).
      - apply (geCount_mono _ 10); [|exact Hthr].
        pose proof (recent_le_total now h). pose proof (Recorded_length h Hrec). lia. }
    assert (Hempty : dynamicAdjustment match config with Some c => c | None => settings end
                     = false
                     \/ Double.geCount (getRecentErrorCount now [])
                          (errorThreshold match config with Some c => c | None => settings end)
                        = false).
    { destruct H as [H|[[Hthr _]|[Hthr _]]]; [now left| |]; right.
      - exact Hthr.
      - apply (geCount_mono _ 10); [cbn; lia|exact Hthr]. }
    rewrite (calculateDelay_plain settings now h mode config Hplain).
    rewrite (calculateDelay_plain settings now [] mode config Hempty).
    split; reflexivity.
  - intros Hdyn Hthr.
    apply (TrackerFacts.calculateDelay_escalated settings now [] mode config Hdyn).
    exact Hthr.
Qed.

Lemma history_is_a_window_witness :
  List.length (record429Error Scenario.noon Scenario.threeRecent) = 4%nat
  /\ Stats.getErrorStats (Scenario.noon + 299400) Scenario.threeRecent
     = Stats.mkErrorStats 3 2.
Proof.
  destruct (history_is_a_window Scenario.noon (Scenario.noon + 299400)
              Scenario.threeRecent) as (_ & Hlen & _).
  - repeat constructor.
  - split; [exact Hlen|reflexivity].
Defined.

Lemma old_errors_do_not_escalate_witness :
  calculateDelay defaultConfig (Scenario.noon + 300000 - 100) Scenario.threeRecent
    Balanced None = Double.Whole 16500
  /\ calculateDelay defaultConfig Scenario.noon Scenario.threeRecent Balanced
       (Some Cases.smallSteps) = Double.Whole 57
  /\ calculateDelay defaultConfig Scenario.noon [] Balanced (Some Cases.noThreshold)
     = Double.Whole 2000.
Proof.
  destruct (old_errors_do_not_escalate defaultConfig (Scenario.noon + 300000 - 100)
              Scenario.threeRecent Balanced None) as [H _].
  destruct (old_errors_do_not_escalate defaultConfig Scenario.noon
              Scenario.threeRecent Balanced (Some Cases.smallSteps)) as [H57 _].
  destruct (old_errors_do_not_escalate defaultConfig Scenario.noon
              [] Balanced (Some Cases.noThreshold)) as [_ H'].
  split; [|split].
  - destruct H as [H _].
    + right; left. split; [reflexivity|].
      repeat constructor; vm_compute; discriminate.
    + rewrite H. vm_compute. reflexivity.
  - destruct H57 as [H57 _]; [now left|]. rewrite H57. vm_compute. reflexivity.
  - rewrite H' by reflexivity. vm_compute. reflexivity.
Defined.

End TrackerMore.


(** ** The outline debate over every turn source *)

Module NegotiationMore.
Import Negotiation Spec Notions.
Local Open Scope list_scope.

Lemma callsOf_app (l1 l2 : list Event) :
  callsOf (l1 ++ l2) = callsOf l1 ++ callsOf l2.
Proof. induction l1 as [|[] l1 IH]; simpl; rewrite ?IH; reflexivity. Qed.

Lemma app_same_nil {A : Type} (l x : list A) : l ++ x = l -> x = [].
Proof.
  intros H. apply (app_inv_head l). now rewrite app_nil_r.
Qed.

Lemma finalized_nonempty (t : AcademicOutlineTurn) (o : string) :
  finalized t = Some o -> o <> ""%string /\ final_outline t = Some o
                          /\ action t = "finalize_outline"%string.
Proof.
  unfold finalized. destruct (String.eqb_spec (action t) "finalize_outline"); [|discriminate].
  destruct (final_outline t) as [x|]; [|discriminate].
  destruct (String.eqb_spec x ""); [discriminate|]. intros [= <-]. now repeat split.
Qed.

Lemma alternating_length (p : AgentPersona) (n : nat) :
  List.length (alternating p n) = n.
Proof. revert p. induction n as [|n IH]; intros p; cbn; [reflexivity|now rewrite IH]. Qed.

Section WithSource.

Variable source : Source.

(** What the retry loop of one turn costs. *)
Lemma turnAttempts_cost (remaining : nat) (k : Z) (req : Request) (st : State) :
  1 <= k -> Z.of_nat remaining + k = 3 ->
  let r := turnAttempts source remaining k req st in
  (calls st <= calls (snd r) <= calls st + remaining)%nat
  /\ (List.length (callsOf (events (snd r))) + calls st
      = List.length (callsOf (events st)) + calls (snd r))%nat
  /\ (exists w, waitsOf (events (snd r)) = waitsOf (events st) ++ w
                /\ Forall (fun d => d = 3000) w
                /\ (List.length w <= 1)%nat
                /\ (2 <= k -> w = []))
  /\ ((remaining = 0%nat -> aborted (signal st) = false) ->
      (forall msg, fst r <> TurnThrew msg) -> aborted (signal (snd r)) = false).
Proof.
  revert k st. induction remaining as [|remaining IH]; intros k st Hk Hsum; cbn zeta.
  - cbn [turnAttempts fst snd]. split; [lia|]. split; [lia|]. split.
    + exists []. rewrite app_nil_r. repeat split; auto.
    + intros H _. now apply H.
  - cbn [turnAttempts].
    destruct (aborted (signal st)) eqn:A.
    { cbn [fst snd]. split; [lia|]. split; [lia|]. split.
      - exists []. rewrite app_nil_r. repeat split; auto.
      - intros _ H. now contradiction (H abortedMessage). }
    unfold generateContent.
    set (st1 := mkState (debateTurns st) (currentConversation st) (nextPersona st)
                  (fireIf (firesDuringCall (source (calls st) req)) (signal st))
                  (S (calls st)) (events st ++ [Called req])).
    assert (Hstop :
              (calls st <= calls st1 <= calls st + S remaining)%nat
              /\ (List.length (callsOf (events st1)) + calls st
                  = List.length (callsOf (events st)) + calls st1)%nat
              /\ (exists w, waitsOf (events st1) = waitsOf (events st) ++ w
                            /\ Forall (fun d => d = 3000) w
                            /\ (List.length w <= 1)%nat
                            /\ (2 <= k -> w = []))).
    { cbn [st1 calls events].
      rewrite callsOf_app, NegotiationFacts.waitsOf_app, length_app. cbn.
      split; [lia|]. split; [lia|].
      exists []. repeat split; auto. }
    destruct Hstop as (S1 & S2 & S3).
    destruct (outcome (source (calls st) req)) as [msg|response].
    { cbn [fst snd]. split; [exact S1|]. split; [exact S2|]. split; [exact S3|].
      intros _ H. now contradiction (H msg). }
    fold st1.
    destruct (aborted (signal st1)) eqn:A1.
    { cbn [fst snd]. split; [exact S1|]. split; [exact S2|]. split; [exact S3|].
      intros _ H. now contradiction (H abortedMessage). }
    assert (Hretry :
      let r := turnAttempts source remaining (k + 1) req
                 (retryPause source (calls st) req k st1) in
      (calls st <= calls (snd r) <= calls st + S remaining)%nat
      /\ (List.length (callsOf (events (snd r))) + calls st
          = List.length (callsOf (events st)) + calls (snd r))%nat
      /\ (exists w, waitsOf (events (snd r)) = waitsOf (events st) ++ w
                    /\ Forall (fun d => d = 3000) w
                    /\ (List.length w <= 1)%nat
                    /\ (2 <= k -> w = []))
      /\ ((S remaining = 0%nat -> false = false) ->
          (forall msg, fst r <> TurnThrew msg) -> aborted (signal (snd r)) = false)).
    { cbn zeta.
      destruct (IH (k + 1) (retryPause source (calls st) req k st1))
        as (C1 & C2 & (w & W1 & W2 & W3 & W4) & C4); [lia|lia|].
      assert (Hp : calls (retryPause source (calls st) req k st1) = S (calls st)
                   /\ callsOf (events (retryPause source (calls st) req k st1))
                      = callsOf (events st) ++ [req]
                   /\ waitsOf (events (retryPause source (calls st) req k st1))
                      = waitsOf (events st) ++ (if k <? maxTurnRetries then [3000] else [])
                   /\ ((k <? maxTurnRetries) = false ->
                       signal (retryPause source (calls st) req k st1) = signal st1)).
      { unfold retryPause, wait. destruct (k <? maxTurnRetries) eqn:L.
        - cbn [calls events st1].
          rewrite !callsOf_app, !NegotiationFacts.waitsOf_app. cbn.
          rewrite !app_nil_r.
          unfold maxTurnRetries in L. apply Z.ltb_lt in L.
          assert (k = 1) as -> by lia. cbn. repeat split. discriminate.
        - cbn [calls events st1].
          rewrite !callsOf_app, !NegotiationFacts.waitsOf_app. cbn.
          rewrite !app_nil_r. repeat split. }
      destruct Hp as (P1 & P2 & P3 & P4).
      rewrite P1 in C1, C2. rewrite P2, length_app in C2. cbn in C2.
      split; [lia|]. split; [lia|]. split.
      - rewrite W1, P3, <- app_assoc.
        exists ((if k <? maxTurnRetries then [3000] else []) ++ w).
        split; [reflexivity|].
        unfold maxTurnRetries. destruct (Z.ltb_spec k 2).
        + assert (w = []) as -> by (apply W4; lia).
          repeat split; [repeat constructor|cbn; lia|lia].
        + cbn [app]. repeat split; try assumption. intros _. apply W4. lia.
      - intros _ Hres. apply C4; [|exact Hres].
        intros ->. rewrite P4; [exact A1|].
        unfold maxTurnRetries. apply Z.ltb_ge. lia. }
    cbn zeta in Hretry.
    destruct (isBlank (text response)); [exact Hretry|].
    destruct (parsedTurn response) as [t|]; [|exact Hretry].
    destruct (String.eqb (thought t) ""); [exact Hretry|].
    cbn [fst snd]. split; [exact S1|]. split; [exact S2|]. split; [exact S3|].
    intros _ _. exact A1.
Qed.

(** What the final generation costs. *)
Lemma finalGeneration_cost (st : State) :
  let r := finalGeneration source st in
  fst r <> OutOfFuel
  /\ calls (snd r) = S (calls st)
  /\ callsOf (events (snd r))
     = callsOf (events st) ++ [FinalRequest (currentConversation st)]
  /\ waitsOf (events (snd r)) = waitsOf (events st)
  /\ events (snd r) = events st ++ [Called (FinalRequest (currentConversation st))].
Proof.
  cbn zeta. unfold finalGeneration, generateContent.
  destruct (outcome (source (calls st) (FinalRequest (currentConversation st))))
    as [msg|finalResponse];
    [|destruct (String.eqb (text finalResponse) "");
      [destruct (blockReason finalResponse) as [reason|];
       [destruct (String.eqb reason "")|]|]];
    cbn [fst snd calls events];
    rewrite callsOf_app, NegotiationFacts.waitsOf_app; cbn; rewrite ?app_nil_r;
    repeat split; discriminate.
Qed.

(** What the debate costs, from any state. *)
Lemma debate_cost (fuel : nat) (N : Z) (hasObserver : bool) (st : State) :
  (Z.to_nat (N - debateTurns st) <= fuel)%nat ->
  let r := debate source fuel N hasObserver st in
  fst r <> OutOfFuel
  /\ (exists k,
        startsOf (events (snd r))
        = startsOf (events st) ++ alternating (nextPersona st) k
        /\ (k <= Z.to_nat (N - debateTurns st))%nat
        /\ (calls st <= calls (snd r) <= calls st + 2 * k + 1)%nat
        /\ exists w, waitsOf (events (snd r)) = waitsOf (events st) ++ w
                     /\ Forall (fun d => d = 3000) w
                     /\ (List.length w <= k)%nat)
  /\ (List.length (callsOf (events (snd r))) + calls st
      = List.length (callsOf (events st)) + calls (snd r))%nat
  /\ (List.length (filter isFinalCall (events (snd r)))
      <= List.length (filter isFinalCall (events st)) + 1)%nat
  /\ (hasObserver = false ->
      updatesOf (events (snd r)) = updatesOf (events st))
  /\ (forall o, fst r = Outline o ->
      filter isFinalCall (events (snd r)) = filter isFinalCall (events st) ->
      aborted (signal (snd r)) = false /\ o <> ""%string).
Proof.
  revert st. induction fuel as [|fuel IH]; intros st Hfuel; cbn zeta.
  all: cbn [debate]; destruct (Z.ltb_spec (debateTurns st) N) as [Hlt|Hge].
  all: try (
    destruct (finalGeneration_cost st) as (G1 & G2 & G3 & G4 & G5);
    destruct (NegotiationFacts.finalGeneration_frame source st) as (F1 & F2 & F3 & F4);
    split; [exact G1|]; split;
    [exists 0%nat; cbn [alternating]; rewrite app_nil_r;
     split; [exact F3|]; split; [lia|]; split; [lia|];
     exists []; rewrite app_nil_r; repeat split; auto|];
    split; [rewrite G3, length_app, G2; cbn; lia|];
    split; [rewrite F4, length_app; cbn; lia|];
    split; [intros _; exact F2|];
    intros o _ Hf; rewrite F4 in Hf; apply app_same_nil in Hf; discriminate).
  - lia.
  - destruct (aborted (signal st)) eqn:A.
    { cbn [fst snd]. split; [discriminate|]. split.
      - exists 0%nat. cbn [alternating]. rewrite app_nil_r.
        split; [reflexivity|]. split; [lia|]. split; [lia|].
        exists []. rewrite app_nil_r. repeat split; auto.
      - split; [lia|]. split; [lia|]. split; [reflexivity|]. discriminate. }
    set (st1 := mkState (debateTurns st + 1) (currentConversation st) (nextPersona st)
                  (signal st) (calls st)
                  (events st ++ [TurnStarted (debateTurns st + 1) (nextPersona st)])).
    cbn [currentConversation nextPersona].
    match goal with |- context [turnAttempts source ?r ?k (TurnRequest ?p ?c ?f) st1] =>
      pose proof (NegotiationFacts.turnAttempts_frame source r k p c f st1) as Hf;
      pose proof (turnAttempts_cost r k (TurnRequest p c f) st1) as Hc;
      destruct (turnAttempts source r k (TurnRequest p c f) st1) as [res st2]
    end.
    cbn [snd fst] in Hf, Hc.
    destruct Hf as (F1 & F2 & F3 & F4 & F5 & F6).
    destruct Hc as (C1 & C2 & (w & W1 & W2 & W3 & _) & C4); [lia|reflexivity|].
    cbn [st1 debateTurns currentConversation nextPersona events calls signal] in *.
    rewrite NegotiationFacts.updatesOf_app in F4.
    rewrite NegotiationFacts.startsOf_app in F5.
    rewrite filter_app in F6. rewrite NegotiationFacts.waitsOf_app in W1.
    rewrite callsOf_app in C2.
    cbn in F4, F5, F6, W1, C2. rewrite app_nil_r in F4, F6, W1, C2.
    change (Z.to_nat maxTurnRetries) with 2%nat in C1.
    assert (Hend : forall (out : Result) (ev : list Event),
              out <> OutOfFuel ->
              startsOf ev = [] -> callsOf ev = [] -> waitsOf ev = [] ->
              filter isFinalCall ev = [] ->
              (hasObserver = false -> updatesOf ev = []) ->
              (forall o, out = Outline o ->
                 aborted (signal st2) = false /\ o <> ""%string) ->
              out <> OutOfFuel
              /\ (exists k,
                    startsOf (events st2 ++ ev)
                    = startsOf (events st) ++ alternating (nextPersona st) k
                    /\ (k <= Z.to_nat (N - debateTurns st))%nat
                    /\ (calls st <= calls st2 <= calls st + 2 * k + 1)%nat
                    /\ exists w', waitsOf (events st2 ++ ev) = waitsOf (events st) ++ w'
                                  /\ Forall (fun d => d = 3000) w'
                                  /\ (List.length w' <= k)%nat)
              /\ (List.length (callsOf (events st2 ++ ev)) + calls st
                  = List.length (callsOf (events st)) + calls st2)%nat
              /\ (List.length (filter isFinalCall (events st2 ++ ev))
                  <= List.length (filter isFinalCall (events st)) + 1)%nat
              /\ (hasObserver = false ->
                  updatesOf (events st2 ++ ev) = updatesOf (events st))
              /\ (forall o, out = Outline o ->
                  filter isFinalCall (events st2 ++ ev) = filter isFinalCall (events st) ->
                  aborted (signal st2) = false /\ o <> ""%string)).
    { intros out ev Hout E1 E2 E3 E4 E5 E6.
      rewrite NegotiationFacts.startsOf_app, callsOf_app, NegotiationFacts.waitsOf_app,
        NegotiationFacts.updatesOf_app, filter_app, E1, E2, E3, E4, !app_nil_r.
      split; [exact Hout|]. split.
      - exists 1%nat. cbn [alternating]. split; [exact F5|]. split; [lia|].
        split; [lia|]. exists w. repeat split; assumption.
      - split; [lia|]. split; [rewrite F6; lia|]. split.
        + intros Ho. now rewrite (E5 Ho), app_nil_r.
        + intros o Ho _. now apply E6. }
    assert (Hgo : forall (st3 : State),
              debateTurns st + 1 <= debateTurns st3 ->
              nextPersona st3 = flip (nextPersona st) ->
              calls st3 = calls st2 -> signal st3 = signal st2 ->
              startsOf (events st3) = startsOf (events st2) ->
              callsOf (events st3) = callsOf (events st2) ->
              waitsOf (events st3) = waitsOf (events st2) ->
              filter isFinalCall (events st3) = filter isFinalCall (events st2) ->
              (hasObserver = false -> updatesOf (events st3) = updatesOf (events st2)) ->
              let r := debate source fuel N hasObserver st3 in
              fst r <> OutOfFuel
              /\ (exists k,
                    startsOf (events (snd r))
                    = startsOf (events st) ++ alternating (nextPersona st) k
                    /\ (k <= Z.to_nat (N - debateTurns st))%nat
                    /\ (calls st <= calls (snd r) <= calls st + 2 * k + 1)%nat
                    /\ exists w', waitsOf (events (snd r)) = waitsOf (events st) ++ w'
                                  /\ Forall (fun d => d = 3000) w'
                                  /\ (List.length w' <= k)%nat)
              /\ (List.length (callsOf (events (snd r))) + calls st
                  = List.length (callsOf (events st)) + calls (snd r))%nat
              /\ (List.length (filter isFinalCall (events (snd r)))
                  <= List.length (filter isFinalCall (events st)) + 1)%nat
              /\ (hasObserver = false ->
                  updatesOf (events (snd r)) = updatesOf (events st))
              /\ (forall o, fst r = Outline o ->
                  filter isFinalCall (events (snd r)) = filter isFinalCall (events st) ->
                  aborted (signal (snd r)) = false /\ o <> ""%string)).
    { intros st3 D P Cc Sg E1 E2 E3 E4 E5. cbn zeta.
      destruct (IH st3) as (I1 & (k & K1 & K2 & K3 & w' & V1 & V2 & V3) & I3 & I4 & I5 & I6);
        [lia|].
      split; [exact I1|]. split.
      - exists (S k). cbn [alternating]. rewrite K1, E1, F5, P, <- app_assoc.
        split; [reflexivity|]. split; [lia|]. split; [lia|].
        exists (w ++ w'). rewrite V1, E3, W1, <- app_assoc.
        split; [reflexivity|]. split; [now apply Forall_app|].
        rewrite length_app. lia.
      - split; [rewrite E2 in I3; lia|].
        split; [rewrite E4, F6 in I4; exact I4|]. split.
        + intros Ho. rewrite (I5 Ho), (E5 Ho). exact F4.
        + intros o Ho Hfin. apply (I6 o Ho). rewrite Hfin, E4. now symmetry. }
    destruct res as [msg| |t].
    + cbn [fst snd]. rewrite <- (app_nil_r (events st2)).
      apply Hend; try reflexivity; try discriminate.
    + apply Hgo; cbn [debateTurns nextPersona calls signal events]; try reflexivity.
      * lia.
      * now rewrite F3.
    + destruct (finalized t) as [o|] eqn:Fin.
      * cbn [fst snd events]. destruct hasObserver.
        -- apply Hend; try reflexivity; try discriminate.
           intros o' [= <-]. split.
           ++ apply C4; [discriminate|discriminate].
           ++ now destruct (finalized_nonempty t o Fin).
        -- rewrite <- (app_nil_r (events st2)).
           apply Hend; try reflexivity; try discriminate.
           intros o' [= <-]. split.
           ++ apply C4; [discriminate|discriminate].
           ++ now destruct (finalized_nonempty t o Fin).
      * apply Hgo; cbn [debateTurns nextPersona calls signal events currentConversation];
          try reflexivity.
        -- lia.
        -- now rewrite F3.
        -- destruct hasObserver; [|reflexivity].
           now rewrite NegotiationFacts.startsOf_app, app_nil_r.
        -- destruct hasObserver; [|reflexivity].
           now rewrite callsOf_app, app_nil_r.
        -- destruct hasObserver; [|reflexivity].
           now rewrite NegotiationFacts.waitsOf_app, app_nil_r.
        -- destruct hasObserver; [|reflexivity].
           now rewrite filter_app, app_nil_r.
        -- intros ->. reflexivity.
Qed.

(** The debate always ends, within its budget.  For every turn source,
    round budget, signal and observer the engine returns an outline or
    fails; it starts at most N turns, with Alpha and Beta strictly taking
    turns from Alpha on, makes at most two calls per turn and one final
    call, waits at most once per turn and only for 3 s, logs every call it
    counts, and reports nothing when no observer was passed. *)
Theorem debate_always_ends (N : Z) (s : Signal) (hasObserver : bool) :
  let run := generateAcademicOutline source N s hasObserver in
  let log := events (snd run) in
  fst run <> OutOfFuel
  /\ (exists k,
        startsOf log = alternating Alpha k
        /\ (k <= Z.to_nat N)%nat
        /\ (calls (snd run) <= 2 * k + 1)%nat
        /\ (List.length (waitsOf log) <= k)%nat)
  /\ List.length (callsOf log) = calls (snd run)
  /\ Forall (fun d => d = 3000) (waitsOf log)
  /\ (List.length (filter isFinalCall log) <= 1)%nat
  /\ (hasObserver = false -> updatesOf log = []).
Proof.
  cbn zeta. unfold generateAcademicOutline.
  destruct (debate_cost (Z.to_nat N) N hasObserver (initialState s))
    as (H1 & (k & K1 & K2 & K3 & w & W1 & W2 & W3) & H3 & H4 & H5 & _).
  { cbn [initialState debateTurns]. lia. }
  cbn [initialState debateTurns events calls nextPersona startsOf waitsOf callsOf
       updatesOf filter List.length app] in *.
  split; [exact H1|]. split.
  - exists k. rewrite W1. repeat split; try assumption; lia.
  - split; [lia|]. split; [now rewrite W1|]. split; [lia|exact H5].
Qed.

Lemma second_attempt_counts (req : Request) (st : State) :
  aborted (signal st) = false ->
  calls (snd (turnAttempts source 1 2 req st)) = S (calls st).
Proof.
  intros A. cbn [turnAttempts]. rewrite A. unfold generateContent.
  destruct (outcome (source (calls st) req)) as [msg|r]; [reflexivity|].
  cbn [signal].
  destruct (aborted (fireIf (firesDuringCall (source (calls st) req)) (signal st)));
    [reflexivity|].
  unfold retryPause. change (2 <? maxTurnRetries) with false.
  destruct (isBlank (text r)); [reflexivity|].
  destruct (parsedTurn r) as [t|]; [|reflexivity].
  destruct (String.eqb (thought t) ""); reflexivity.
Qed.

(** Cancellation of the debate.  A signal that has fired before the
    first turn ends the debate with the abort error before any call,
    unless the round budget is zero or less, in which case the loop is
    not entered and the final call is made without looking at the signal.
    An outline that a turn finalized is never empty, and it is returned
    only while the signal has not fired: an answer that arrives after the
    cancellation is never accepted. *)
Theorem cancelled_debate (N : Z) (s : Signal) (hasObserver : bool) :
  let run := generateAcademicOutline source N s hasObserver in
  (0 < N -> aborted s = true -> run = (Failed abortedMessage, initialState s))
  /\ (N <= 0 -> run = finalGeneration source (initialState s))
  /\ (forall o, fst run = Outline o ->
      filter isFinalCall (events (snd run)) = [] ->
      aborted (signal (snd run)) = false /\ o <> ""%string).
Proof.
  cbn zeta. unfold generateAcademicOutline. split; [|split].
  - intros HN Ha. destruct (Z.to_nat N) as [|fuel] eqn:E; [lia|].
    cbn [debate initialState debateTurns signal].
    destruct (Z.ltb_spec 0 N); [|lia]. now rewrite Ha.
  - intros HN. replace (Z.to_nat N) with 0%nat by lia.
    cbn [debate initialState debateTurns]. destruct (Z.ltb_spec 0 N); [lia|reflexivity].
  - intros o Ho Hf.
    destruct (debate_cost (Z.to_nat N) N hasObserver (initialState s))
      as (_ & _ & _ & _ & _ & H6).
    { cbn [initialState debateTurns]. lia. }
    now apply (H6 o Ho).
Qed.

(** *** The variant without retries *)

Lemma strict_finalGeneration_cost (st : State) :
  let r := StrictOutline.finalGeneration source st in
  fst r <> OutOfFuel
  /\ debateTurns (snd r) = debateTurns st
  /\ events (snd r) = events st ++ [Called (FinalRequest (currentConversation st))]
  /\ calls (snd r) = S (calls st).
Proof.
  cbn zeta. unfold StrictOutline.finalGeneration, generateContent.
  destruct (outcome (source (calls st) (FinalRequest (currentConversation st))))
    as [msg|finalResponse]; [|destruct (String.eqb (text finalResponse) "")];
    cbn [fst snd calls events debateTurns]; repeat split; discriminate.
Qed.

Lemma strict_debate_cost (fuel : nat) (st : State) :
  (Z.to_nat (4 - debateTurns st) <= fuel)%nat ->
  let r := StrictOutline.debate source fuel st in
  fst r <> OutOfFuel
  /\ exists k,
       startsOf (events (snd r)) = startsOf (events st) ++ alternating (nextPersona st) k
       /\ (k <= Z.to_nat (4 - debateTurns st))%nat
       /\ (calls st <= calls (snd r) <= calls st + k + 1)%nat
       /\ (List.length (callsOf (events (snd r))) + calls st
           = List.length (callsOf (events st)) + calls (snd r))%nat
       /\ waitsOf (events (snd r)) = waitsOf (events st)
       /\ updatesOf (events (snd r)) = updatesOf (events st)
       /\ (List.length (filter isFinalCall (events (snd r)))
           <= List.length (filter isFinalCall (events st)) + 1)%nat.
Proof.
  revert st. induction fuel as [|fuel IH]; intros st Hfuel; cbn zeta.
  all: cbn [StrictOutline.debate]; unfold StrictOutline.maxDebateRounds;
    destruct (Z.ltb_spec (debateTurns st) 4) as [Hlt|Hge].
  all: try (
    destruct (strict_finalGeneration_cost st) as (G1 & G2 & G3 & G4);
    split; [exact G1|]; exists 0%nat; rewrite G3, G4;
    rewrite NegotiationFacts.startsOf_app, callsOf_app, NegotiationFacts.waitsOf_app,
      NegotiationFacts.updatesOf_app, filter_app, !length_app;
    cbn; rewrite ?app_nil_r; repeat split; lia).
  - lia.
  - destruct (aborted (signal st)) eqn:A.
    { cbn [fst snd]. split; [discriminate|]. exists 0%nat. cbn [alternating].
      rewrite app_nil_r. repeat split; lia. }
    cbn [currentConversation nextPersona]. unfold generateContent.
    cbn [calls events debateTurns currentConversation nextPersona signal].
    set (req := TurnRequest (nextPersona st) (currentConversation st)
                  match currentConversation st with [] => true | _ :: _ => false end).
    set (ev := events st ++ [TurnStarted (debateTurns st + 1) (nextPersona st)]).
    assert (Hev : startsOf (ev ++ [Called req]) = startsOf (events st) ++ [nextPersona st]
                  /\ callsOf (ev ++ [Called req]) = callsOf (events st) ++ [req]
                  /\ waitsOf (ev ++ [Called req]) = waitsOf (events st)
                  /\ updatesOf (ev ++ [Called req]) = updatesOf (events st)
                  /\ filter isFinalCall (ev ++ [Called req])
                     = filter isFinalCall (events st)).
    { unfold ev, req.
      rewrite !NegotiationFacts.startsOf_app, !callsOf_app, !NegotiationFacts.waitsOf_app,
        !NegotiationFacts.updatesOf_app, !filter_app.
      cbn. rewrite !app_nil_r. repeat split. }
    destruct Hev as (E1 & E2 & E3 & E4 & E5).
    assert (Hend : forall (out : Result) (st2 : State),
              out <> OutOfFuel -> events st2 = ev ++ [Called req] ->
              calls st2 = S (calls st) ->
              out <> OutOfFuel
              /\ exists k,
                   startsOf (events st2)
                   = startsOf (events st) ++ alternating (nextPersona st) k
                   /\ (k <= Z.to_nat (4 - debateTurns st))%nat
                   /\ (calls st <= calls st2 <= calls st + k + 1)%nat
                   /\ (List.length (callsOf (events st2)) + calls st
                       = List.length (callsOf (events st)) + calls st2)%nat
                   /\ waitsOf (events st2) = waitsOf (events st)
                   /\ updatesOf (events st2) = updatesOf (events st)
                   /\ (List.length (filter isFinalCall (events st2))
                       <= List.length (filter isFinalCall (events st)) + 1)%nat).
    { intros out st2 Hout -> Hc. split; [exact Hout|]. exists 1%nat.
      rewrite E1, E2, E3, E4, E5, Hc, length_app.
      cbn [alternating List.length]. repeat split; lia. }
    destruct (outcome (source (calls st) req)) as [msg|response].
    { cbn [fst snd]. apply Hend; [discriminate|reflexivity|reflexivity]. }
    destruct (aborted (fireIf _ _)).
    { cbn [fst snd]. apply Hend; [discriminate|reflexivity|reflexivity]. }
    destruct (if isBlank (text response) then None else parsedTurn response) as [t|].
    2:{ cbn [fst snd]. apply Hend; [discriminate|reflexivity|reflexivity]. }
    destruct (finalized t) as [o|].
    { cbn [fst snd]. apply Hend; [discriminate|reflexivity|reflexivity]. }
    match goal with |- context [StrictOutline.debate source fuel ?st3] =>
      destruct (IH st3) as (I1 & k & K1 & K2 & K3 & K4 & K5 & K6 & K7);
        [cbn [debateTurns]; lia|]
    end.
    cbn [debateTurns nextPersona calls events] in *.
    split; [exact I1|]. exists (S k). cbn [alternating].
    rewrite K1, K5, K6, E1, E3, E4, <- app_assoc.
    rewrite E2, length_app in K4. rewrite E5 in K7. cbn in K4.
    repeat split; try lia.
Qed.

(** The variant without retries always ends within five calls.  For
    every turn source and signal it returns an outline or fails, after at
    most four turns taken by Alpha and Beta in turn, one call per turn and
    at most one final call; it never waits and reports to no observer. *)
Theorem strict_debate_always_ends (s : Signal) :
  let run := StrictOutline.generateAcademicOutline source s in
  let log := events (snd run) in
  fst run <> OutOfFuel
  /\ (calls (snd run) <= 5)%nat
  /\ (exists k, startsOf log = alternating Alpha k /\ (k <= 4)%nat
                /\ (calls (snd run) <= k + 1)%nat)
  /\ List.length (callsOf log) = calls (snd run)
  /\ waitsOf log = [] /\ updatesOf log = []
  /\ (List.length (filter isFinalCall log) <= 1)%nat.
Proof.
  cbn zeta. unfold StrictOutline.generateAcademicOutline.
  destruct (strict_debate_cost (Z.to_nat StrictOutline.maxDebateRounds) (initialState s))
    as (H1 & k & K1 & K2 & K3 & K4 & K5 & K6 & K7).
  { cbn. lia. }
  cbn [initialState debateTurns events calls nextPersona startsOf waitsOf callsOf
       updatesOf filter List.length app] in *.
  change (Z.to_nat (4 - 0)) with 4%nat in K2.
  split; [exact H1|]. split; [lia|]. split.
  - exists k. repeat split; try assumption; lia.
  - repeat split; try assumption; lia.
Qed.

Lemma accepted_parts (c : Call) :
  accepted c <> None ->
  exists r t, outcome c = Responds r /\ isBlank (text r) = false
              /\ parsedTurn r = Some t /\ String.eqb (thought t) "" = false.
Proof.
  unfold accepted. destruct (outcome c) as [msg|r]; [congruence|].
  destruct (isBlank (text r)) eqn:B; [congruence|].
  destruct (parsedTurn r) as [t|] eqn:P; [|congruence].
  destruct (String.eqb (thought t) "") eqn:E; [congruence|].
  intros _. exists r, t. repeat split; assumption.
Qed.

Lemma variants_agree_from (fuel : nat) (st : State) :
  alwaysAccepted source ->
  (Z.to_nat (4 - debateTurns st) <= fuel)%nat ->
  agree (fst (StrictOutline.debate source fuel st))
        (fst (debate source fuel StrictOutline.maxDebateRounds false st))
  /\ snd (StrictOutline.debate source fuel st)
     = snd (debate source fuel StrictOutline.maxDebateRounds false st).
Proof.
  intros Hacc. revert st. induction fuel as [|fuel IH]; intros st Hfuel.
  all: cbn [StrictOutline.debate debate]; unfold StrictOutline.maxDebateRounds;
    destruct (Z.ltb_spec (debateTurns st) 4) as [Hlt|Hge].
  all: try (
    unfold StrictOutline.finalGeneration, finalGeneration;
    destruct (generateContent source (FinalRequest (currentConversation st)) st)
      as [[msg|finalResponse] st1];
    [|destruct (String.eqb (text finalResponse) "");
      [destruct (blockReason finalResponse) as [reason|];
       [destruct (String.eqb reason "")|]|]];
    cbn [fst snd agree];
    (split; [first [reflexivity | now left | now right]|reflexivity])).
  - lia.
  - destruct (aborted (signal st)) eqn:A.
    { cbn [fst snd agree]. split; [now left|reflexivity]. }
    change (Z.to_nat maxTurnRetries) with 2%nat.
    cbn [turnAttempts signal currentConversation nextPersona]. rewrite A.
    match goal with |- context [generateContent source ?req ?st1] =>
      destruct (accepted_parts (source (calls st1) req)) as (r & t & Ho & Hb & Hp & Ht);
        [cbn [calls]; apply Hacc|];
      unfold generateContent; rewrite Ho
    end.
    cbn [calls signal events debateTurns currentConversation nextPersona].
    destruct (aborted (fireIf _ (signal st))).
    { cbn [fst snd agree]. split; [now left|reflexivity]. }
    rewrite Hb, Hp, Ht.
    destruct (finalized t) as [o|].
    { cbn [fst snd agree]. split; reflexivity. }
    cbn [calls signal events debateTurns currentConversation nextPersona].
    apply IH. cbn [debateTurns]. lia.
Qed.

(** The two variants agree on well-behaved sources.  When every turn
    answer is accepted as a turn, the variant without retries and the
    defensive variant with a budget of four rounds and no observer make
    the same calls, end in the same state and return the same outline or
    the same failure; only the wording of the failure after an empty
    final answer differs. *)
Theorem variants_agree (s : Signal) :
  alwaysAccepted source ->
  agree (fst (StrictOutline.generateAcademicOutline source s))
        (fst (generateAcademicOutline source 4 s false))
  /\ snd (StrictOutline.generateAcademicOutline source s)
     = snd (generateAcademicOutline source 4 s false).
Proof.
  intros Hacc. unfold StrictOutline.generateAcademicOutline, generateAcademicOutline.
  apply (variants_agree_from (Z.to_nat StrictOutline.maxDebateRounds) (initialState s) Hacc).
  cbn. lia.
Qed.

(** Where the variants differ.  When the first answer arrives undisturbed
    but nothing can be parsed from it, the variant without retries fails
    after that single call, with the error of reading a member of null;
    the defensive variant asks a second time. *)
Theorem strict_fails_where_defensive_retries (N : Z) (s : Signal) (hasObserver : bool) :
  aborted s = false ->
  unparsed (source 0%nat (TurnRequest Alpha [] true)) = true ->
  StrictOutline.generateAcademicOutline source s
  = (Failed StrictOutline.nullThought,
     mkState 1 [] Alpha s 1%nat [TurnStarted 1 Alpha; Called (TurnRequest Alpha [] true)])
  /\ (0 < N -> (2 <= calls (snd (generateAcademicOutline source N s hasObserver)))%nat).
Proof.
  intros Ha Hu. unfold unparsed in Hu. apply andb_prop in Hu as [Hq Hu].
  destruct (NegotiationFacts.quiet_flags _ Hq) as [Hc Hw].
  split.
  - unfold StrictOutline.generateAcademicOutline.
    change (Z.to_nat StrictOutline.maxDebateRounds) with (S 3).
    generalize 3%nat. intros fuel.
    cbn [StrictOutline.debate initialState debateTurns signal currentConversation
         nextPersona calls events].
    unfold StrictOutline.maxDebateRounds. change (0 <? 4) with true. cbv iota.
    rewrite Ha. unfold generateContent.
    cbn [calls signal events debateTurns currentConversation nextPersona app].
    rewrite Hc, NegotiationFacts.fireIf_false, Ha.
    destruct (outcome (source 0%nat (TurnRequest Alpha [] true))) as [msg|r]; [discriminate|].
    destruct (isBlank (text r)); [reflexivity|].
    destruct (parsedTurn r); [discriminate|reflexivity].
  - intros HN. unfold generateAcademicOutline.
    destruct (Z.to_nat N) as [|fuel] eqn:E; [lia|].
    cbn [debate initialState debateTurns signal currentConversation nextPersona calls
         events].
    destruct (Z.ltb_spec 0 N); [|lia]. rewrite Ha.
    change (Z.to_nat maxTurnRetries) with 2%nat.
    assert (Hun : unusable (source 0%nat (TurnRequest Alpha [] true)) = true).
    { unfold unusable, accepted. rewrite Hq.
      destruct (outcome (source 0%nat (TurnRequest Alpha [] true))) as [msg|r];
        [discriminate|].
      destruct (isBlank (text r)); [reflexivity|].
      destruct (parsedTurn r); [discriminate|reflexivity]. }
    rewrite NegotiationFacts.attempt_unusable; [|exact Ha|exact Hun].
    cbn [debateTurns currentConversation nextPersona signal calls events].
    match goal with |- context [turnAttempts source 1 (1 + 1) ?req ?st'] =>
      pose proof (second_attempt_counts req st' Ha) as Hcount;
      pose proof (NegotiationFacts.turnAttempts_frame source 1 2 Alpha [] true st')
        as (Hturns & _);
      change (1 + 1) with 2;
      destruct (turnAttempts source 1 2 req st') as [res st2]
    end.
    cbn [snd calls debateTurns] in Hcount, Hturns.
    destruct res as [msg| |t].
    + cbn [snd]. lia.
    + match goal with |- context [debate source fuel N hasObserver ?st3] =>
        destruct (debate_cost fuel N hasObserver st3) as (_ & (k & _ & _ & K3 & _) & _)
      end.
      { cbn [debateTurns]. lia. }
      cbn [calls] in K3. lia.
    + destruct (finalized t).
      * cbn [snd calls]. lia.
      * match goal with |- context [debate source fuel N hasObserver ?st3] =>
          destruct (debate_cost fuel N hasObserver st3) as (_ & (k & _ & _ & K3 & _) & _)
        end.
        { cbn [debateTurns]. lia. }
        cbn [calls] in K3. lia.
Qed.

(** *** What the requests carry *)

Lemma turnAttempts_calls (remaining : nat) (k : Z) (req : Request) (st : State) :
  let r := turnAttempts source remaining k req st in
  (exists m, callsOf (events (snd r)) = callsOf (events st) ++ repeat req m)
  /\ (forall t, fst r = TurnParsed t -> thought t <> ""%string).
Proof.
  revert k st. induction remaining as [|remaining IH]; intros k st; cbn zeta.
  - cbn [turnAttempts fst snd]. split; [|discriminate].
    exists 0%nat. cbn. now rewrite app_nil_r.
  - cbn [turnAttempts].
    destruct (aborted (signal st)).
    { cbn [fst snd]. split; [|discriminate]. exists 0%nat. cbn. now rewrite app_nil_r. }
    unfold generateContent.
    set (st1 := mkState (debateTurns st) (currentConversation st) (nextPersona st)
                  (fireIf (firesDuringCall (source (calls st) req)) (signal st))
                  (S (calls st)) (events st ++ [Called req])).
    assert (Hone : exists m, callsOf (events st1) = callsOf (events st) ++ repeat req m).
    { exists 1%nat. cbn [st1 events]. now rewrite callsOf_app. }
    assert (Hretry :
      let r := turnAttempts source remaining (k + 1) req
                 (retryPause source (calls st) req k st1) in
      (exists m, callsOf (events (snd r)) = callsOf (events st) ++ repeat req m)
      /\ (forall t, fst r = TurnParsed t -> thought t <> ""%string)).
    { cbn zeta.
      destruct (IH (k + 1) (retryPause source (calls st) req k st1)) as [(m & Hm) Ht].
      split; [|exact Ht]. exists (S m). rewrite Hm.
      assert (Hp : callsOf (events (retryPause source (calls st) req k st1))
                   = callsOf (events st) ++ [req]).
      { unfold retryPause, wait. destruct (k <? maxTurnRetries);
          cbn [events st1]; rewrite !callsOf_app; cbn; now rewrite ?app_nil_r. }
      rewrite Hp, <- app_assoc. reflexivity. }
    cbn zeta in Hretry.
    destruct (outcome (source (calls st) req)) as [msg|response].
    { cbn [fst snd]. split; [exact Hone|discriminate]. }
    fold st1. destruct (aborted (signal st1)).
    { cbn [fst snd]. split; [exact Hone|discriminate]. }
    destruct (isBlank (text response)); [exact Hretry|].
    destruct (parsedTurn response) as [t|]; [|exact Hretry].
    destruct (String.eqb_spec (thought t) ""); [exact Hretry|].
    cbn [fst snd]. split; [exact Hone|]. now intros t' [= <-].
Qed.

Lemma addressed_repeat (final conv : Conversation) (p : AgentPersona) (m : nat) :
  (exists rest, final = conv ++ rest) ->
  Forall (addressed final)
    (repeat (TurnRequest p conv match conv with [] => true | _ :: _ => false end) m).
Proof.
  intros H. apply Forall_forall. intros req Hin. apply repeat_spec in Hin. subst req.
  split; [exact H|reflexivity].
Qed.

Lemma debate_requests (fuel : nat) (N : Z) (hasObserver : bool) (st : State) :
  let r := debate source fuel N hasObserver st in
  exists added newcalls,
    currentConversation (snd r) = currentConversation st ++ added
    /\ callsOf (events (snd r)) = callsOf (events st) ++ newcalls
    /\ Forall (addressed (currentConversation (snd r))) newcalls
    /\ Forall (fun e => snd e <> ""%string) added
    /\ (List.length added + List.length (startsOf (events st))
        <= List.length (startsOf (events (snd r))))%nat.
Proof.
  revert st. induction fuel as [|fuel IH]; intros st; cbn zeta.
  all: cbn [debate]; destruct (debateTurns st <? N).
  all: try (
    destruct (finalGeneration_cost st) as (_ & _ & G3 & _ & _);
    destruct (NegotiationFacts.finalGeneration_frame source st) as (F1 & _ & F3 & _);
    exists [], [FinalRequest (currentConversation st)];
    rewrite F1, F3, G3, app_nil_r;
    repeat split; [repeat constructor; reflexivity|constructor|cbn; lia]).
  - exists [], []. cbn [fst snd]. rewrite !app_nil_r.
    repeat split; try constructor; cbn; lia.
  - destruct (aborted (signal st)).
    { exists [], []. cbn [fst snd]. rewrite !app_nil_r.
      repeat split; try constructor; cbn; lia. }
    set (st1 := mkState (debateTurns st + 1) (currentConversation st) (nextPersona st)
                  (signal st) (calls st)
                  (events st ++ [TurnStarted (debateTurns st + 1) (nextPersona st)])).
    cbn [currentConversation nextPersona].
    match goal with |- context [turnAttempts source ?r ?k (TurnRequest ?p ?c ?f) st1] =>
      pose proof (NegotiationFacts.turnAttempts_frame source r k p c f st1) as Hf;
      pose proof (turnAttempts_calls r k (TurnRequest p c f) st1) as Hc;
      destruct (turnAttempts source r k (TurnRequest p c f) st1) as [res st2]
    end.
    cbn [snd fst] in Hf, Hc.
    destruct Hf as (_ & F2 & F3 & _ & F5 & _).
    destruct Hc as [(m & Hm) Ht].
    cbn [st1 currentConversation nextPersona events] in F2, F3, F5, Hm.
    rewrite NegotiationFacts.startsOf_app in F5. rewrite callsOf_app in Hm.
    cbn in F5, Hm. rewrite app_nil_r in Hm.
    assert (Hgo : forall (st3 : State) (said : Conversation),
              currentConversation st3 = currentConversation st ++ said ->
              Forall (fun e => snd e <> ""%string) said ->
              (List.length said <= 1)%nat ->
              callsOf (events st3) = callsOf (events st2) ->
              startsOf (events st3) = startsOf (events st2) ->
              let r := debate source fuel N hasObserver st3 in
              exists added newcalls,
                currentConversation (snd r) = currentConversation st ++ added
                /\ callsOf (events (snd r)) = callsOf (events st) ++ newcalls
                /\ Forall (addressed (currentConversation (snd r))) newcalls
                /\ Forall (fun e => snd e <> ""%string) added
                /\ (List.length added + List.length (startsOf (events st))
                    <= List.length (startsOf (events (snd r))))%nat).
    { intros st3 said Hconv Hsaid Hlen Hcalls Hstarts. cbn zeta.
      destruct (IH st3) as (added & newcalls & I1 & I2 & I3 & I4 & I5).
      exists (said ++ added), (repeat (TurnRequest (nextPersona st) (currentConversation st)
                 match currentConversation st with [] => true | _ :: _ => false end) m
               ++ newcalls).
      rewrite I1, Hconv, I2, Hcalls, Hm, <- !app_assoc.
      split; [reflexivity|]. split; [reflexivity|]. split; [|split].
      - apply Forall_app. split.
        + apply addressed_repeat. now exists (said ++ added).
        + rewrite I1, Hconv, <- app_assoc in I3. exact I3.
      - now apply Forall_app.
      - rewrite Hstarts, F5, !length_app in I5. rewrite length_app. cbn [List.length] in *. lia. }
    assert (Hend : forall (st3 : State) (said : Conversation),
              currentConversation st3 = currentConversation st ++ said ->
              Forall (fun e => snd e <> ""%string) said ->
              (List.length said <= 1)%nat ->
              callsOf (events st3) = callsOf (events st2) ->
              startsOf (events st3) = startsOf (events st2) ->
              exists added newcalls,
                currentConversation st3 = currentConversation st ++ added
                /\ callsOf (events st3) = callsOf (events st) ++ newcalls
                /\ Forall (addressed (currentConversation st3)) newcalls
                /\ Forall (fun e => snd e <> ""%string) added
                /\ (List.length added + List.length (startsOf (events st))
                    <= List.length (startsOf (events st3)))%nat).
    { intros st3 said Hconv Hsaid Hlen Hcalls Hstarts.
      exists said, (repeat (TurnRequest (nextPersona st) (currentConversation st)
                 match currentConversation st with [] => true | _ :: _ => false end) m).
      rewrite Hcalls, Hm, Hstarts, F5, length_app.
      split; [exact Hconv|]. split; [reflexivity|]. split; [|split].
      - apply addressed_repeat. now exists said.
      - exact Hsaid.
      - cbn [List.length]. lia. }
    destruct res as [msg| |t].
    + cbn [fst snd]. apply (Hend st2 []); try reflexivity; try constructor.
      * now rewrite app_nil_r.
      * cbn. lia.
    + apply (Hgo _ []); cbn [currentConversation events]; try reflexivity;
        try constructor.
      * now rewrite app_nil_r.
      * cbn. lia.
    + assert (Hsaid : Forall (fun e : AgentPersona * string => snd e <> ""%string)
                        [(nextPersona st2, thought t)]).
      { repeat constructor. cbn [snd]. now apply Ht. }
      destruct (finalized t).
      * cbn [fst snd]. apply (Hend _ [(nextPersona st2, thought t)]);
          cbn [currentConversation events]; try exact Hsaid; try (cbn; lia).
        -- now rewrite F2.
        -- destruct hasObserver; [|reflexivity]. now rewrite callsOf_app, app_nil_r.
        -- destruct hasObserver; [|reflexivity].
           now rewrite NegotiationFacts.startsOf_app, app_nil_r.
      * apply (Hgo _ [(nextPersona st2, thought t)]);
          cbn [currentConversation events]; try exact Hsaid; try (cbn; lia).
        -- now rewrite F2.
        -- destruct hasObserver; [|reflexivity]. now rewrite callsOf_app, app_nil_r.
        -- destruct hasObserver; [|reflexivity].
           now rewrite NegotiationFacts.startsOf_app, app_nil_r.
Qed.

(** What the requests carry.  Every turn request holds the thoughts
    accepted so far, a prefix of the final conversation, and is marked as
    the first turn exactly when nothing was accepted before it, so also
    after skipped turns; the final request holds the whole conversation.
    Every thought in the conversation is non-empty, there is at most one
    per turn, and an observer is told exactly the conversation. *)
Theorem requests_carry_the_conversation (N : Z) (s : Signal) (hasObserver : bool) :
  let run := generateAcademicOutline source N s hasObserver in
  let final := currentConversation (snd run) in
  Forall (addressed final) (callsOf (events (snd run)))
  /\ Forall (fun e => snd e <> ""%string) final
  /\ (List.length final <= List.length (startsOf (events (snd run))))%nat
  /\ (hasObserver = true -> updatesOf (events (snd run)) = final).
Proof.
  cbn zeta. unfold generateAcademicOutline.
  destruct (debate_requests (Z.to_nat N) N hasObserver (initialState s))
    as (added & newcalls & H1 & H2 & H3 & H4 & H5).
  cbn [initialState currentConversation events callsOf startsOf app List.length] in *.
  rewrite H2. split; [exact H3|]. split; [now rewrite H1|]. split; [rewrite H1; lia|].
  intros ->. now apply NegotiationFacts.observer_once_per_accepted_turn.
Qed.

End WithSource.

Lemma requests_carry_the_conversation_witness :
  updatesOf (events (snd (generateAcademicOutline Scenario.scripted 20 None true)))
  = currentConversation (snd (generateAcademicOutline Scenario.scripted 20 None true)).
Proof.
  apply (requests_carry_the_conversation Scenario.scripted 20 None true). reflexivity.
Defined.

Lemma debate_always_ends_witness :
  updatesOf (events (snd (generateAcademicOutline Scenario.garbled 3 None false))) = []
  /\ (calls (snd (generateAcademicOutline Scenario.garbled 3 None false)) = 5)%nat.
Proof.
  destruct (debate_always_ends Scenario.garbled 3 None false) as (_ & _ & _ & _ & _ & H).
  split; [exact (H eq_refl)|reflexivity].
Defined.

Lemma cancelled_debate_witness :
  generateAcademicOutline Scenario.scripted 4 (Some true) true
  = (Failed abortedMessage, initialState (Some true))
  /\ fst (generateAcademicOutline Scenario.scripted 0 (Some true) true)
     = Outline "# Fallback outline"
  /\ aborted (signal (snd (generateAcademicOutline Scenario.scripted 4 (Some false) true)))
     = false.
Proof.
  destruct (cancelled_debate Scenario.scripted 4 (Some true) true) as (H1 & _ & _).
  destruct (cancelled_debate Scenario.scripted 0 (Some true) true) as (_ & H2 & _).
  destruct (cancelled_debate Scenario.scripted 4 (Some false) true) as (_ & _ & H3).
  split; [apply H1; [lia|reflexivity]|]. split.
  - rewrite H2 by lia. reflexivity.
  - destruct (H3 "# Outline"%string eq_refl eq_refl) as [Ha _]. exact Ha.
Defined.

Lemma strict_debate_always_ends_witness :
  (calls (snd (StrictOutline.generateAcademicOutline Scenario.scripted None)) <= 5)%nat
  /\ fst (StrictOutline.generateAcademicOutline Scenario.scripted None)
     = Outline "# Outline".
Proof.
  destruct (strict_debate_always_ends Scenario.scripted None) as (_ & H & _).
  split; [exact H|reflexivity].
Defined.

Lemma variants_agree_witness :
  fst (StrictOutline.generateAcademicOutline Scenario.scripted (Some false))
  = Outline "# Outline"
  /\ snd (StrictOutline.generateAcademicOutline Scenario.scripted (Some false))
     = snd (generateAcademicOutline Scenario.scripted 4 (Some false) false).
Proof.
  destruct (variants_agree Scenario.scripted (Some false)) as [_ H].
  - intros n p conv first. destruct p; cbn; [discriminate|].
    destruct (spoke Beta conv); discriminate.
  - split; [reflexivity|exact H].
Defined.

Lemma strict_fails_where_defensive_retries_witness :
  fst (StrictOutline.generateAcademicOutline Scenario.garbled (Some false))
  = Failed StrictOutline.nullThought
  /\ (2 <= calls (snd (generateAcademicOutline Scenario.garbled 20 (Some false) true)))%nat.
Proof.
  destruct (strict_fails_where_defensive_retries Scenario.garbled 20 (Some false) true)
    as [H1 H2]; try reflexivity.
  split; [now rewrite H1|apply H2; lia].
Defined.

End NegotiationMore.


(** ** Search results, the research context and the start of a synthesis *)

Module CallersFacts.
Import Registry Spec Notions Views.
Local Open Scope list_scope.

(** *** Citations of a search *)

Lemma keysOf_mapSet (k : string) (c : Citation) (m : CitationMap) :
  keysOf (mapSet k c m)
  = if existsb (String.eqb k) (keysOf m) then keysOf m else keysOf m ++ [k].
Proof.
  induction m as [|[k0 c0] m IH]; cbn [mapSet keysOf map existsb fst]; [reflexivity|].
  rewrite (String.eqb_sym k k0).
  destruct (String.eqb k0 k) eqn:E; cbn [orb map fst]; [reflexivity|].
  fold (keysOf m). fold (keysOf (mapSet k c m)). rewrite IH.
  now destruct (existsb (String.eqb k) (keysOf m)).
Qed.

Lemma mapGet_mapSet_other (k k' : string) (c : Citation) (m : CitationMap) :
  k <> k' -> mapGet k (mapSet k' c m) = mapGet k m.
Proof.
  intros Hne. induction m as [|[k0 c0] m IH]; cbn [mapSet mapGet].
  - destruct (String.eqb_spec k' k); [congruence|reflexivity].
  - destruct (String.eqb_spec k0 k') as [->|N]; cbn [mapGet].
    + destruct (String.eqb_spec k' k); [congruence|reflexivity].
    + now rewrite IH.
Qed.

Lemma collect_keys (raw : list Citation) (m : CitationMap) :
  keysOf (fold_left (fun m c => mapSet (url c) c m) raw m)
  = seenAfter (keysOf m) (map url raw).
Proof.
  revert m. induction raw as [|c raw IH]; intros m; cbn [fold_left map seenAfter];
    [reflexivity|].
  rewrite IH, keysOf_mapSet. now destruct (existsb _ _).
Qed.

Lemma collect_keyed (raw : list Citation) (m : CitationMap) :
  Forall (fun e => fst e = url (snd e)) m ->
  Forall (fun e => fst e = url (snd e))
    (fold_left (fun m c => mapSet (url c) c m) raw m).
Proof.
  revert m. induction raw as [|c raw IH]; intros m H; cbn [fold_left]; [exact H|].
  apply IH. clear IH. induction m as [|[k0 c0] m IHm]; cbn [mapSet].
  - now repeat constructor.
  - apply Forall_cons_iff in H. destruct H as [H0 Hm].
    destruct (String.eqb_spec k0 (url c)) as [E|N]; constructor; auto.
Qed.

Lemma find_over_app {A : Type} (f : A -> bool) (l1 l2 : list A) :
  find f (l1 ++ l2) = match find f l1 with Some x => Some x | None => find f l2 end.
Proof.
  induction l1 as [|x l1 IH]; cbn [app find]; [reflexivity|].
  now destruct (f x).
Qed.

Lemma collect_get (k : string) (raw : list Citation) (m : CitationMap) :
  mapGet k (fold_left (fun m c => mapSet (url c) c m) raw m)
  = match lastWith k raw with
    | Some c => Some c
    | None => mapGet k m
    end.
Proof.
  unfold lastWith. revert m.
  induction raw as [|c raw IH]; intros m; cbn [fold_left rev find]; [reflexivity|].
  rewrite IH, find_over_app.
  destruct (find (fun c0 => String.eqb (url c0) k) (rev raw)); [reflexivity|].
  cbn [find]. destruct (String.eqb_spec (url c) k) as [<-|N].
  - apply RegistryFacts.mapGet_mapSet.
  - apply mapGet_mapSet_other. congruence.
Qed.

Lemma collect_fresh (raw : list Citation) (m : CitationMap) :
  NoDup (keysOf m ++ map url raw) ->
  fold_left (fun m c => mapSet (url c) c m) raw m = m ++ map (fun c => (url c, c)) raw.
Proof.
  revert m. induction raw as [|c raw IH]; intros m H; cbn [fold_left map].
  - now rewrite app_nil_r.
  - assert (Hnew : mapGet (url c) m = None).
    { destruct (mapGet (url c) m) as [c0|] eqn:G; [|reflexivity].
      apply RegistryFacts.mapGet_in in G. apply NoDup_remove_2 in H.
      exfalso. apply H. apply in_or_app. now left. }
    rewrite (RegistryFacts.mapSet_new _ _ _ Hnew), IH.
    + now rewrite <- app_assoc.
    + unfold keysOf. rewrite map_app. cbn [map fst]. fold (keysOf m).
      rewrite <- app_assoc. exact H.
Qed.

Lemma mapGet_of_member (m : CitationMap) (k : string) (c : Citation) :
  NoDup (keysOf m) -> In (k, c) m -> mapGet k m = Some c.
Proof.
  induction m as [|[k0 c0] m IH]; cbn [keysOf map fst In mapGet]; [tauto|].
  intros Hnd [E|Hin].
  - injection E as -> ->. now rewrite String.eqb_refl.
  - apply NoDup_cons_iff in Hnd. destruct Hnd as [Hk Hnd].
    destruct (String.eqb_spec k0 k) as [->|N].
    + exfalso. apply Hk. change k with (fst (k, c)). now apply in_map.
    + now apply IH.
Qed.

(** The citations of a search result.  No URL occurs twice; the URLs are
    those of the grounding chunks in the order of their first occurrence;
    a URL that several chunks carry keeps its first position but takes
    the citation of the last of them; chunks with distinct URLs pass
    through unchanged, and removing duplicates again changes nothing. *)
Theorem search_citations_are_unique (chunks : list Search.Chunk) :
  let raw := map Search.rawCitation chunks in
  let out := Search.citationsOf (Some chunks) in
  NoDup (map url out)
  /\ map url out = firstSeen (map Search.uri chunks)
  /\ (forall c, In c out -> lastWith (url c) raw = Some c)
  /\ (List.length out <= List.length chunks)%nat
  /\ (NoDup (map Search.uri chunks) -> out = raw)
  /\ Search.uniqueCitations out = out
  /\ Search.citationsOf None = [].
Proof.
  cbn zeta. unfold Search.citationsOf, Search.uniqueCitations, Search.byUrl.
  set (raw := map Search.rawCitation chunks).
  set (m := fold_left (fun m c => mapSet (url c) c m) raw []).
  assert (Hurls : map url raw = map Search.uri chunks)
    by (unfold raw; rewrite map_map; reflexivity).
  assert (Hkeys : keysOf m = firstSeen (map Search.uri chunks)).
  { unfold m. rewrite collect_keys. cbn [keysOf map].
    now rewrite RegistryFacts.seenAfter_nil, Hurls. }
  assert (Hkeyed : Forall (fun e => fst e = url (snd e)) m)
    by (apply collect_keyed; constructor).
  assert (Hout : map url (map snd m) = keysOf m).
  { unfold keysOf. rewrite map_map. apply map_ext_in. intros e He.
    rewrite Forall_forall in Hkeyed. symmetry. now apply Hkeyed. }
  assert (Hnd : NoDup (keysOf m))
    by (rewrite Hkeys; apply RegistryFacts.firstSeen_NoDup).
  assert (Hfresh : forall l, NoDup (map url l) ->
            map snd (fold_left (fun m c => mapSet (url c) c m) l []) = l).
  { intros l Hl. rewrite collect_fresh by exact Hl. cbn [app].
    rewrite map_map. cbn [snd]. apply map_id. }
  split; [now rewrite Hout|]. split; [now rewrite Hout|]. split; [|split; [|split]].
  - intros c Hc. apply in_map_iff in Hc. destruct Hc as ([k c'] & <- & Hin).
    cbn [snd]. rewrite Forall_forall in Hkeyed.
    pose proof (Hkeyed _ Hin) as Hk. cbn [fst snd] in Hk. subst k.
    pose proof (mapGet_of_member m _ _ Hnd Hin) as G.
    unfold m in G. rewrite collect_get in G.
    destruct (lastWith (url c') raw); [exact G|discriminate].
  - rewrite length_map.
    assert (L : List.length m = List.length (keysOf m)) by (unfold keysOf; now rewrite length_map).
    rewrite L, Hkeys.
    assert (Hle : forall l, (List.length (firstSeen l) <= List.length l)%nat).
    { induction l as [|x l IH]; cbn [firstSeen List.length]; [lia|].
      pose proof (filter_length_le (fun y => negb (String.eqb y x)) (firstSeen l)). lia. }
    rewrite <- (length_map Search.uri chunks). apply Hle.
  - intros Hd. apply Hfresh. now rewrite Hurls.
  - split; [|reflexivity]. apply Hfresh. now rewrite Hout.
Qed.

Lemma search_citations_are_unique_witness :
  map title (Search.citationsOf (Some Cases.chunks)) = ["Again"; "https://b.org/y"]%string
  /\ Search.citationsOf (Some (firstn 2 Cases.chunks))
     = map Search.rawCitation (firstn 2 Cases.chunks).
Proof.
  destruct (search_citations_are_unique (firstn 2 Cases.chunks))
    as (_ & _ & _ & _ & H & _).
  split; [reflexivity|]. apply H.
  repeat constructor; cbn; intuition discriminate.
Defined.

(** *** The research context *)

Lemma popMode_pushMode (m : Tracker.ResearchMode) (ctx : Context.ResearchContext) :
  Context.popMode (Context.pushMode m ctx) = (m, ctx).
Proof.
  destruct ctx as [cur stack]. unfold Context.popMode, Context.pushMode.
  cbn [Context.contextStack Context.currentMode].
  rewrite rev_app_distr. cbn [rev app]. now rewrite rev_involutive.
Qed.

Lemma last_default {A : Type} (l : list A) (a d d' : A) :
  last (a :: l) d = last (a :: l) d'.
Proof.
  revert a. induction l as [|y l IH]; intros a; [reflexivity|].
  change (last (a :: y :: l) d) with (last (y :: l) d).
  change (last (a :: y :: l) d') with (last (y :: l) d').
  apply IH.
Qed.

(** The context stack is last in, first out.  Modes pushed one after the
    other are returned by as many pops in reverse order, and the context
    is then what it was before; a mode set between a push and the
    matching pop is returned by that pop and then gone; a pop on an empty
    stack changes nothing and returns the current mode; the stack depth
    counts the pushes. *)
Theorem context_stack_is_lifo (modes : list Tracker.ResearchMode)
    (m m' : Tracker.ResearchMode) (ctx : Context.ResearchContext) :
  Context.popTimes (List.length modes) (Context.pushAll modes ctx) = (rev modes, ctx)
  /\ Context.popMode (Context.setMode m' (Context.pushMode m ctx)) = (m', ctx)
  /\ (Context.contextStack ctx = [] ->
      Context.popMode ctx = (Context.currentMode ctx, ctx))
  /\ snd (Context.getContextInfo (Context.pushAll modes ctx))
     = snd (Context.getContextInfo ctx) + Z.of_nat (List.length modes)
  /\ Context.getCurrentMode (Context.pushAll modes ctx)
     = last modes (Context.currentMode ctx).
Proof.
  split; [|split; [|split; [|split]]].
  - revert ctx. induction modes as [|x modes IH] using rev_ind; intros ctx.
    + reflexivity.
    + unfold Context.pushAll. rewrite fold_left_app, length_app, rev_app_distr.
      cbn [fold_left List.length rev app]. rewrite Nat.add_1_r.
      cbn [Context.popTimes]. rewrite popMode_pushMode.
      fold (Context.pushAll modes ctx). now rewrite IH.
  - destruct ctx as [cur stack]. unfold Context.popMode, Context.setMode, Context.pushMode.
    cbn [Context.contextStack Context.currentMode].
    rewrite rev_app_distr. cbn [rev app]. now rewrite rev_involutive.
  - intros H. unfold Context.popMode. now rewrite H.
  - revert ctx. induction modes as [|x modes IH]; intros ctx.
    + cbn. lia.
    + cbn [Context.pushAll fold_left]. fold (Context.pushAll modes (Context.pushMode x ctx)).
      rewrite IH. unfold Context.getContextInfo, Context.pushMode.
      cbn [snd Context.contextStack List.length]. rewrite length_app. cbn [List.length]. lia.
  - revert ctx. induction modes as [|x modes IH]; intros ctx; [reflexivity|].
    cbn [Context.pushAll fold_left]. fold (Context.pushAll modes (Context.pushMode x ctx)).
    rewrite IH. cbn [Context.pushMode Context.currentMode].
    destruct modes as [|r modes]; [reflexivity|].
    change (last (x :: r :: modes) (Context.currentMode ctx))
      with (last (r :: modes) (Context.currentMode ctx)).
    apply last_default.
Qed.

Lemma context_stack_is_lifo_witness :
  Context.popMode Context.newContext = (Tracker.Balanced, Context.newContext).
Proof.
  apply (context_stack_is_lifo [] Tracker.Fast Tracker.Fast Context.newContext).
  reflexivity.
Defined.

(** *** The start of a synthesis *)

Section WithPlatform.

Variable parseURL : string -> option URL.
Variable today : string.

Lemma addCitation_uncited (c : Citation) (mgr : CitationManager) :
  uncitedRecords (citations mgr) ->
  uncitedRecords (citations (snd (addCitation parseURL today c mgr))).
Proof.
  intros H. unfold addCitation.
  destruct (mapGet (getCitationKey parseURL c) (citations mgr)) as [stored|] eqn:G;
    cbn [snd citations]; [exact H|].
  rewrite (RegistryFacts.mapSet_new _ _ _ G). apply Forall_app. split; [exact H|].
  now repeat constructor.
Qed.

Lemma addCitations_uncited (cs : list Citation) (mgr : CitationManager) :
  uncitedRecords (citations mgr) ->
  uncitedRecords (citations (snd (addCitations parseURL today cs mgr))).
Proof.
  revert mgr. induction cs as [|c cs IH]; intros mgr H; cbn [addCitations]; [exact H|].
  pose proof (addCitation_uncited c mgr H) as H1.
  destruct (addCitation parseURL today c mgr) as [i mgr1]. cbn [snd] in H1.
  pose proof (IH mgr1 H1) as H2.
  destruct (addCitations parseURL today cs mgr1) as [is_ mgr2]. exact H2.
Qed.

Lemma uncited_filter (m : CitationMap) :
  uncitedRecords m -> filter (fun c => 0 <? usage c) (map snd m) = [].
Proof.
  induction 1 as [|e l He _ IH]; [reflexivity|].
  cbn [map filter]. unfold usage at 1. rewrite He. exact IH.
Qed.

(** Every synthesis starts from a fresh registry.  Whatever the registry
    held before, after the initialization it holds one record per
    distinct normalized URL of the given citations, numbered 1..n in
    first-seen order, none of them cited; the statistics read n, 0, n;
    and the instructions for the writer list every record on a line of
    its own, or say that there is none exactly when no citation was
    given. *)
Theorem synthesis_starts_fresh (cs : list Citation) (mgr : CitationManager) :
  let mgr' := Synthesis.initializeCitations parseURL today cs mgr in
  let keys := firstSeen (map (getCitationKey parseURL) cs) in
  let n := List.length keys in
  mgr' = snd (addCitations parseURL today cs newManager)
  /\ keysOf (citations mgr') = keys
  /\ map idOrZero (getAllCitations mgr') = idsUpTo n
  /\ getCitedCitations mgr' = []
  /\ getStats mgr' = mkStats (Z.of_nat n) 0 (Z.of_nat n)
  /\ (Synthesis.getCitationInstructions mgr' = Synthesis.NoCitationsAvailable
      <-> cs = [])
  /\ (cs <> [] ->
      Synthesis.getCitationInstructions mgr'
      = Synthesis.Available (Z.of_nat n)
          (join Synthesis.newline
             (map Synthesis.citationLine (map snd (citations mgr'))))).
Proof.
  cbn zeta. unfold Synthesis.initializeCitations, clear.
  set (mgr' := snd (addCitations parseURL today cs newManager)).
  destruct (RegistryFacts.addCitations_run parseURL today cs newManager
              RegistryFacts.wellNumbered_new) as ((Hnum & _) & Hkeys & _).
  fold mgr' in Hnum, Hkeys. cbn [newManager citations keysOf map] in Hkeys.
  rewrite RegistryFacts.seenAfter_nil in Hkeys.
  assert (Hun : uncitedRecords (citations mgr'))
    by (apply addCitations_uncited; constructor).
  pose proof (ViewsFacts.getAllCitations_numbered mgr' Hnum) as Hall.
  assert (Hlen : List.length (citations mgr')
                 = List.length (firstSeen (map (getCitationKey parseURL) cs))).
  { rewrite <- Hkeys. unfold keysOf. now rewrite length_map. }
  assert (Hcited : getCitedCitations mgr' = []).
  { unfold getCitedCitations. rewrite Hall. now apply uncited_filter. }
  assert (Hstats : getStats mgr'
                   = mkStats (Z.of_nat (List.length (firstSeen (map (getCitationKey parseURL) cs))))
                       0 (Z.of_nat (List.length (firstSeen (map (getCitationKey parseURL) cs))))).
  { unfold getStats. cbn zeta. fold (getCitedCitations mgr').
    rewrite Hcited, Hall, length_map, Hlen. cbn [List.length]. f_equal. lia. }
  assert (Hempty : List.length (firstSeen (map (getCitationKey parseURL) cs)) = 0%nat
                   <-> cs = []).
  { destruct cs; cbn; split; intros; try reflexivity; try discriminate; lia. }
  split; [reflexivity|]. split; [exact Hkeys|]. split.
  { rewrite Hall, <- Hlen. apply (ViewsFacts.idOrZero_numbered 1 _ Hnum). }
  split; [exact Hcited|]. split; [exact Hstats|].
  unfold Synthesis.getCitationInstructions. cbn zeta.
  rewrite Hstats, Hall, length_map, Hlen. cbn [total].
  destruct (Nat.eqb_spec (List.length (firstSeen (map (getCitationKey parseURL) cs))) 0)
    as [E|N].
  - split; [split; [intros _; now apply Hempty|reflexivity]|].
    intros Hne. exfalso. now apply Hne, Hempty.
  - split; [split; [discriminate|]|reflexivity].
    intros ->. exfalso. now apply N.
Qed.

End WithPlatform.

Lemma synthesis_starts_fresh_witness :
  Synthesis.getCitationInstructions
    (Synthesis.initializeCitations Scenario.parseSimpleURL Scenario.today
       [Scenario.paperB; Scenario.paperA; Scenario.paperA'] Scenario.twoPapers)
  = Synthesis.Available 2
      ("[1] B (https://arxiv.org/abs/1#sec2)" ++ Synthesis.newline
       ++ "[2] A (https://Example.org/paper?utm=1)")%string.
Proof.
  destruct (synthesis_starts_fresh Scenario.parseSimpleURL Scenario.today
              [Scenario.paperB; Scenario.paperA; Scenario.paperA'] Scenario.twoPapers)
    as (_ & _ & _ & _ & _ & _ & H).
  rewrite H by discriminate. reflexivity.
Defined.

End CallersFacts.


(** ** JSON inside markdown *)

Module MarkdownFacts.
Import Markdown Notions.
Local Open Scope string_scope.

Lemma append_assoc (a b c : string) : (a ++ b) ++ c = a ++ (b ++ c).
Proof. induction a as [|x a IH]; cbn; [reflexivity|now rewrite IH]. Qed.

Lemma append_nil_r (a : string) : a ++ "" = a.
Proof. induction a as [|x a IH]; cbn; [reflexivity|now rewrite IH]. Qed.

Lemma length_append (a b : string) :
  String.length (a ++ b) = (String.length a + String.length b)%nat.
Proof. induction a as [|x a IH]; cbn; [reflexivity|now rewrite IH]. Qed.

Lemma substring_whole (m : string) (post : string) :
  String.substring 0 (String.length m) (m ++ post) = m.
Proof.
  induction m as [|x m IH]; cbn.
  - now destruct post.
  - now rewrite IH.
Qed.

Lemma substring_mid (pre mid post : string) :
  String.substring (String.length pre) (String.length mid) (pre ++ mid ++ post) = mid.
Proof.
  induction pre as [|x pre IH]; cbn [String.length append String.substring].
  - apply substring_whole.
  - exact IH.
Qed.

Lemma indexOf_ge (c : ascii) (s : string) : -1 <= indexOf c s.
Proof.
  induction s as [|d r IH]; cbn [indexOf]; [lia|].
  destruct (Ascii.eqb d c); [lia|]. destruct (Z.ltb_spec (indexOf c r) 0); lia.
Qed.

Lemma lastIndexOf_ge (c : ascii) (s : string) : -1 <= lastIndexOf c s.
Proof.
  induction s as [|d r IH]; cbn [lastIndexOf]; [lia|].
  destruct (Z.ltb_spec (lastIndexOf c r) 0); [destruct (Ascii.eqb d c); lia|lia].
Qed.

Lemma indexOf_cons_absent (c d : ascii) (r : string) :
  indexOf c (String d r) = -1 -> Ascii.eqb d c = false /\ indexOf c r = -1.
Proof.
  cbn [indexOf]. destruct (Ascii.eqb d c); [discriminate|].
  pose proof (indexOf_ge c r).
  destruct (Z.ltb_spec (indexOf c r) 0); intros; split; try reflexivity; lia.
Qed.

Lemma indexOf_app_absent (c : ascii) (pre rest : string) :
  indexOf c pre = -1 ->
  indexOf c (pre ++ String c rest) = Z.of_nat (String.length pre).
Proof.
  induction pre as [|d pre IH]; intros H.
  - cbn. now rewrite Ascii.eqb_refl.
  - destruct (indexOf_cons_absent _ _ _ H) as [Hd Hr].
    cbn [append indexOf String.length]. rewrite Hd, (IH Hr).
    destruct (Z.ltb_spec (Z.of_nat (String.length pre)) 0); lia.
Qed.

Lemma indexOf_app_none (c : ascii) (a b : string) :
  indexOf c a = -1 -> indexOf c b = -1 -> indexOf c (a ++ b) = -1.
Proof.
  induction a as [|d a IH]; intros Ha Hb; [exact Hb|].
  destruct (indexOf_cons_absent _ _ _ Ha) as [Hd Hr].
  cbn [append indexOf]. now rewrite Hd, (IH Hr Hb).
Qed.

Lemma lastIndexOf_app_absent (c : ascii) (pre post : string) :
  lastIndexOf c post = -1 ->
  lastIndexOf c (pre ++ String c post) = Z.of_nat (String.length pre).
Proof.
  intros H. induction pre as [|d pre IH].
  - cbn [append lastIndexOf String.length]. rewrite H. cbn. now rewrite Ascii.eqb_refl.
  - cbn [append lastIndexOf String.length]. rewrite IH.
    destruct (Z.ltb_spec (Z.of_nat (String.length pre)) 0); lia.
Qed.

Lemma lastIndexOf_split (c : ascii) (s : string) :
  0 <= lastIndexOf c s ->
  exists a b, s = a ++ String c b /\ lastIndexOf c s = Z.of_nat (String.length a).
Proof.
  induction s as [|d r IH]; cbn [lastIndexOf]; [lia|].
  destruct (Z.ltb_spec (lastIndexOf c r) 0) as [Hn|Hp].
  - destruct (Ascii.eqb_spec d c) as [->|N]; [|lia].
    intros _. now exists "", r.
  - intros _. destruct (IH Hp) as (a & b & -> & E).
    exists (String d a), b. cbn [append String.length]. split; [reflexivity|]. lia.
Qed.

(** The text between the first opening and the last closing brace. *)
Lemma braces_split (s : string) :
  0 <= indexOf "{" s -> indexOf "{" s <= lastIndexOf "}" s ->
  exists pre inner post,
    s = pre ++ braced inner ++ post
    /\ indexOf "{" s = Z.of_nat (String.length pre)
    /\ lastIndexOf "}" s = Z.of_nat (String.length pre + 1 + String.length inner).
Proof.
  induction s as [|d r IH]; cbn [indexOf lastIndexOf]; [lia|].
  destruct (Ascii.eqb_spec d "{") as [->|N].
  - intros _. destruct (Z.ltb_spec (lastIndexOf "}" r) 0) as [Hn|Hp]; [cbn; lia|].
    intros _. destruct (lastIndexOf_split _ _ Hp) as (a & b & -> & E).
    exists "", a, b. unfold braced. cbn [append String.length].
    rewrite append_assoc. cbn [append]. repeat split. lia.
  - pose proof (indexOf_ge "{" r) as G.
    destruct (Z.ltb_spec (indexOf "{" r) 0) as [Hn|Hp]; [lia|].
    intros _. destruct (Z.ltb_spec (lastIndexOf "}" r) 0) as [Hn'|Hp'].
    { destruct (Ascii.eqb d "}"); lia. }
    intros Hle. destruct IH as (pre & inner & post & -> & E1 & E2); [lia|lia|].
    exists (String d pre), inner, post. cbn [append String.length].
    repeat split; lia.
Qed.

Lemma extracted (s pre inner post : string) :
  s = pre ++ braced inner ++ post ->
  String.substring (String.length pre) (String.length (braced inner)) s = braced inner.
Proof. intros ->. exact (substring_mid pre (braced inner) post). Qed.

Lemma trimStart_keeps (a b : string) (c : ascii) :
  isWhite c = false -> exists a', trimStart (a ++ String c b) = a' ++ String c b.
Proof.
  intros H. induction a as [|d a IH]; cbn [append trimStart].
  - rewrite H. now exists "".
  - destruct (isWhite d); [exact IH|]. now exists (String d a).
Qed.

Lemma trimEnd_keeps (a b : string) (c : ascii) :
  isWhite c = false -> trimEnd (a ++ String c b) <> "".
Proof.
  intros H. induction a as [|d a IH]; cbn [append trimEnd].
  - destruct (trimEnd b); [now rewrite H|discriminate].
  - destruct (trimEnd (a ++ String c b)); [contradiction|discriminate].
Qed.

Lemma not_blank (a b : string) (c : ascii) :
  isWhite c = false ->
  String.eqb (a ++ String c b) "" || String.eqb (trim (a ++ String c b)) "" = false.
Proof.
  intros H. apply orb_false_iff. split.
  - now destruct a.
  - unfold trim. destruct (trimStart_keeps a b c H) as [a' ->].
    apply String.eqb_neq. now apply trimEnd_keeps.
Qed.

Lemma trimStart_white (w s : string) :
  allWhite w = true -> trimStart (w ++ s) = trimStart s.
Proof.
  induction w as [|d w IH]; cbn [allWhite append trimStart]; [reflexivity|].
  intros H. apply andb_prop in H as [-> Hw]. now apply IH.
Qed.

Lemma trimEnd_white (w : string) : allWhite w = true -> trimEnd w = "".
Proof.
  induction w as [|d w IH]; cbn [allWhite trimEnd]; [reflexivity|].
  intros H. apply andb_prop in H as [-> Hw]. now rewrite (IH Hw).
Qed.

Lemma trimEnd_white_suffix (a w : string) :
  allWhite w = true -> trimEnd (a ++ w) = trimEnd a.
Proof.
  intros H. induction a as [|d a IH]; cbn [append trimEnd].
  - now apply trimEnd_white.
  - now rewrite IH.
Qed.

Lemma trimEnd_ends_nonwhite (a : string) (c : ascii) :
  isWhite c = false -> trimEnd (a ++ String c "") = a ++ String c "".
Proof.
  intros H. induction a as [|d a IH]; cbn [append trimEnd].
  - now rewrite H.
  - rewrite IH. now destruct a.
Qed.

Lemma white_no_backtick (w : string) : allWhite w = true -> indexOf "`" w = -1.
Proof.
  induction w as [|d w IH]; cbn [allWhite indexOf]; [reflexivity|].
  intros H. apply andb_prop in H as [Hd Hw]. rewrite (IH Hw).
  destruct (Ascii.eqb_spec d "`") as [->|N]; [discriminate|reflexivity].
Qed.

Lemma splitAtFence_found (a rest : string) :
  indexOf "`" a = -1 -> splitAtFence (a ++ fence ++ rest) = Some (a, rest).
Proof.
  induction a as [|d a IH]; intros H.
  - reflexivity.
  - destruct (indexOf_cons_absent _ _ _ H) as [Hd Hr].
    cbn [append splitAtFence]. unfold fence at 1. cbn [startsWith]. rewrite Ascii.eqb_sym, Hd.
    cbn [andb]. now rewrite (IH Hr).
Qed.

Lemma trimEnd_braced (inner : string) : trimEnd (braced inner) = braced inner.
Proof.
  unfold braced.
  change (String "{" (inner ++ "}")) with ((String "{" inner) ++ String "}" "").
  now apply trimEnd_ends_nonwhite.
Qed.

Lemma braces_of_braced (inner : string) :
  indexOf "{" (braced inner) = 0
  /\ lastIndexOf "}" (braced inner) = Z.of_nat (String.length inner) + 1.
Proof.
  split; [reflexivity|]. unfold braced.
  change (String "{" (inner ++ "}")) with ((String "{" inner) ++ String "}" "").
  rewrite lastIndexOf_app_absent by reflexivity. cbn [String.length]. lia.
Qed.

Section WithJSON.

Context {A : Type}.
Variable jsonParse : string -> option A.

Lemma parse_of (text jsonStr pre inner post : string) :
  String.eqb text "" || String.eqb (trim text) "" = false ->
  match codeBlock text with Some block => block | None => text end = jsonStr ->
  jsonStr = pre ++ braced inner ++ post ->
  indexOf "{" pre = -1 -> lastIndexOf "}" post = -1 ->
  parseJsonFromMarkdown jsonParse text = jsonParse (braced inner).
Proof.
  intros Hb Hj Hs Hpre Hpost. unfold parseJsonFromMarkdown. rewrite Hb, Hj.
  assert (E1 : indexOf "{" jsonStr = Z.of_nat (String.length pre)).
  { rewrite Hs. unfold braced. cbn [append]. now apply indexOf_app_absent. }
  assert (E2 : lastIndexOf "}" jsonStr
               = Z.of_nat (String.length pre + 1 + String.length inner)).
  { rewrite Hs. unfold braced.
    replace (pre ++ String "{" (inner ++ "}") ++ post)
      with ((pre ++ String "{" inner) ++ String "}" post).
    - rewrite lastIndexOf_app_absent by exact Hpost.
      rewrite length_append. cbn [String.length]. f_equal. lia.
    - rewrite append_assoc. cbn [append]. now rewrite append_assoc. }
  rewrite E1, E2.
  destruct (Z.eqb_spec (Z.of_nat (String.length pre)) (-1)); [lia|].
  destruct (Z.eqb_spec (Z.of_nat (String.length pre + 1 + String.length inner)) (-1));
    [lia|].
  destruct (Z.ltb_spec (Z.of_nat (String.length pre + 1 + String.length inner))
              (Z.of_nat (String.length pre))); [lia|].
  cbn [orb]. f_equal. unfold substring.
  replace (Z.to_nat (Z.of_nat (String.length pre))) with (String.length pre) by lia.
  replace (Z.to_nat (Z.of_nat (String.length pre + 1 + String.length inner) + 1
                     - Z.of_nat (String.length pre)))
    with (String.length (braced inner)).
  - exact (extracted jsonStr pre inner post Hs).
  - unfold braced. cbn [String.length]. rewrite length_append. cbn [String.length]. lia.
Qed.

(** Only text in braces reaches [JSON.parse].  Whatever the text, a value
    is returned only as the result of [JSON.parse] on a string that
    starts with an opening and ends with a closing brace; a blank text
    gives null without any parsing. *)
Theorem only_braced_text_is_parsed (text : string) (v : A) :
  (parseJsonFromMarkdown jsonParse text = Some v ->
   exists inner, jsonParse (braced inner) = Some v)
  /\ (trim text = "" -> parseJsonFromMarkdown jsonParse text = None).
Proof.
  split.
  - unfold parseJsonFromMarkdown.
    destruct (String.eqb text "" || String.eqb (trim text) ""); [discriminate|].
    set (jsonStr := match codeBlock text with Some block => block | None => text end).
    pose proof (indexOf_ge "{" jsonStr) as G1.
    pose proof (lastIndexOf_ge "}" jsonStr) as G2.
    destruct (Z.eqb_spec (indexOf "{" jsonStr) (-1)); [discriminate|].
    destruct (Z.eqb_spec (lastIndexOf "}" jsonStr) (-1)); [discriminate|].
    destruct (Z.ltb_spec (lastIndexOf "}" jsonStr) (indexOf "{" jsonStr));
      [discriminate|].
    cbn [orb]. intros Hparse.
    destruct (braces_split jsonStr) as (pre & inner & post & Hs & E1 & E2); [lia|lia|].
    exists inner. rewrite <- Hparse. f_equal. unfold substring. rewrite E1, E2.
    replace (Z.to_nat (Z.of_nat (String.length pre))) with (String.length pre) by lia.
    replace (Z.to_nat (Z.of_nat (String.length pre + 1 + String.length inner) + 1
                       - Z.of_nat (String.length pre)))
      with (String.length (braced inner)).
    + symmetry. exact (extracted jsonStr pre inner post Hs).
    + unfold braced. cbn [String.length]. rewrite length_append. cbn [String.length]. lia.
  - intros H. unfold parseJsonFromMarkdown. rewrite H. cbn.
    now rewrite orb_true_r.
Qed.

(** An object on its own, in prose or in a fence is found.  When the
    text has no fence, the object may be preceded by text without an
    opening brace and followed by text without a closing brace.  When the
    object, free of backticks, stands in the first fenced block, with or
    without the tag json and with any white space around it, the text
    before the fence and after the closing fence does not matter at all.
    In both cases the result is what [JSON.parse] makes of the object. *)
Theorem object_is_found (pre inner post ws ws' tag : string) :
  (splitAtFence (pre ++ braced inner ++ post) = None ->
   indexOf "{" pre = -1 -> lastIndexOf "}" post = -1 ->
   parseJsonFromMarkdown jsonParse (pre ++ braced inner ++ post)
   = jsonParse (braced inner))
  /\ (indexOf "`" pre = -1 -> indexOf "`" inner = -1 ->
      tag = "" \/ tag = "json" ->
      allWhite ws = true -> allWhite ws' = true ->
      parseJsonFromMarkdown jsonParse
        (pre ++ fence ++ tag ++ ws ++ braced inner ++ ws' ++ fence ++ post)
      = jsonParse (braced inner)).
Proof.
  split.
  - intros Hf Hpre Hpost.
    apply (parse_of _ (pre ++ braced inner ++ post) pre inner post);
      try assumption; try reflexivity.
    + unfold braced. cbn [append]. now apply not_blank.
    + unfold codeBlock. now rewrite Hf.
  - intros Hpre Hin Htag Hws Hws'.
    assert (Hblock : codeBlock (pre ++ fence ++ tag ++ ws ++ braced inner ++ ws'
                                  ++ fence ++ post)
                     = Some (braced inner)).
    { unfold codeBlock. rewrite (splitAtFence_found pre _ Hpre).
      assert (Htagged : (if startsWith "json" (tag ++ ws ++ braced inner ++ ws' ++ fence ++ post)
                         then drop 4 (tag ++ ws ++ braced inner ++ ws' ++ fence ++ post)
                         else tag ++ ws ++ braced inner ++ ws' ++ fence ++ post)
                        = ws ++ braced inner ++ ws' ++ fence ++ post).
      { destruct Htag as [-> | ->]; [|reflexivity].
        cbn [append]. destruct ws as [|d ws]; [reflexivity|].
        cbn [append startsWith]. cbn [allWhite] in Hws. apply andb_prop in Hws as [Hd _].
        destruct (Ascii.eqb_spec "j" d) as [<-|N]; [discriminate|reflexivity]. }
      rewrite Htagged, (trimStart_white ws _ Hws).
      assert (Hts : trimStart (braced inner ++ ws' ++ fence ++ post)
                    = braced inner ++ ws' ++ fence ++ post) by reflexivity.
      rewrite Hts, <- append_assoc.
      rewrite (splitAtFence_found (braced inner ++ ws') post).
      - now rewrite (trimEnd_white_suffix _ _ Hws'), trimEnd_braced.
      - apply indexOf_app_none; [|now apply white_no_backtick].
        unfold braced. cbn [indexOf Ascii.eqb Bool.eqb].
        rewrite (indexOf_app_none "`" inner "}" Hin eq_refl). reflexivity. }
    apply (parse_of _ (braced inner) "" inner ""); try reflexivity.
    + replace (pre ++ fence ++ tag ++ ws ++ braced inner ++ ws' ++ fence ++ post)
        with ((pre ++ fence ++ tag ++ ws) ++ String "{" (inner ++ "}" ++ ws' ++ fence ++ post)).
      * now apply not_blank.
      * unfold braced. rewrite !append_assoc. cbn [append]. now rewrite !append_assoc.
    + now rewrite Hblock.
    + cbn [append]. now rewrite append_nil_r.
Qed.

End WithJSON.

Lemma only_braced_text_is_parsed_witness :
  parseJsonFromMarkdown Cases.parseEmptyObject "   " = None.
Proof.
  apply (only_braced_text_is_parsed Cases.parseEmptyObject "   " 0%nat). reflexivity.
Defined.

Lemma object_is_found_witness :
  parseJsonFromMarkdown Cases.parseEmptyObject "Here it is: {} as asked." = Some 0%nat
  /\ parseJsonFromMarkdown Cases.parseEmptyObject
       ("Sure! " ++ fence ++ "json" ++ String (ascii_of_nat 10) ""
        ++ braced "" ++ String (ascii_of_nat 10) "" ++ fence ++ " Done {.")
     = Some 0%nat.
Proof.
  destruct (object_is_found Cases.parseEmptyObject "Here it is: " "" " as asked."
              "" "" "") as [H1 _].
  destruct (object_is_found Cases.parseEmptyObject "Sure! " "" " Done {."
              (String (ascii_of_nat 10) "") (String (ascii_of_nat 10) "") "json")
    as [_ H2].
  split.
  - apply H1; reflexivity.
  - apply H2; try reflexivity. now right.
Defined.

End MarkdownFacts.


(** ** Reading citation marks back ([parseCitationString]) *)

Module ParsingFacts.
Import Registry Spec Notions TextProcessor.
Local Open Scope string_scope.

(** *** Decimal numbers *)

Lemma uint_digits (d : Decimal.uint) :
  every isDigit (NilEmpty.string_of_uint d) = true.
Proof. induction d; cbn [NilEmpty.string_of_uint every]; auto. Qed.

Lemma readDigits_stop (acc : option Z) (rest : string) :
  stops rest -> readDigits 10 acc rest = acc.
Proof.
  destruct rest as [|c r]; cbn [stops readDigits]; [reflexivity|]. now intros ->.
Qed.

Lemma readDigits_uint (d : Decimal.uint) (acc : Z) (rest : string) :
  stops rest ->
  readDigits 10 (Some acc) (NilEmpty.string_of_uint d ++ rest) = Some (horner acc d).
Proof.
  intros Hs. revert acc.
  induction d; intros acc; cbn [NilEmpty.string_of_uint append horner];
    [now apply readDigits_stop| ..];
    cbn [readDigits]; match goal with |- context [digitValue 10 ?c] =>
      let v := eval vm_compute in (digitValue 10 c) in
      change (digitValue 10 c) with v
    end; cbv iota; apply IHd.
Qed.

Lemma readDigits_start (d : Decimal.uint) (rest : string) :
  d <> Decimal.Nil ->
  readDigits 10 None (NilEmpty.string_of_uint d ++ rest)
  = readDigits 10 (Some 0) (NilEmpty.string_of_uint d ++ rest).
Proof. destruct d; [congruence| ..]; reflexivity. Qed.

Lemma horner_pos (d : Decimal.uint) (p : positive) :
  horner (Z.pos p) d = Z.pos (Pos.of_uint_acc d p).
Proof.
  revert p. induction d; intros p; cbn [horner Pos.of_uint_acc]; [reflexivity| ..].
  - replace (10 * Z.pos p + 0) with (Z.pos (10 * p)) by lia. apply IHd.
  - replace (10 * Z.pos p + 1) with (Z.pos (1 + 10 * p)) by lia. apply IHd.
  - replace (10 * Z.pos p + 2) with (Z.pos (2 + 10 * p)) by lia. apply IHd.
  - replace (10 * Z.pos p + 3) with (Z.pos (3 + 10 * p)) by lia. apply IHd.
  - replace (10 * Z.pos p + 4) with (Z.pos (4 + 10 * p)) by lia. apply IHd.
  - replace (10 * Z.pos p + 5) with (Z.pos (5 + 10 * p)) by lia. apply IHd.
  - replace (10 * Z.pos p + 6) with (Z.pos (6 + 10 * p)) by lia. apply IHd.
  - replace (10 * Z.pos p + 7) with (Z.pos (7 + 10 * p)) by lia. apply IHd.
  - replace (10 * Z.pos p + 8) with (Z.pos (8 + 10 * p)) by lia. apply IHd.
  - replace (10 * Z.pos p + 9) with (Z.pos (9 + 10 * p)) by lia. apply IHd.
Qed.

Lemma horner_zero (d : Decimal.uint) : horner 0 d = Z.of_N (Pos.of_uint d).
Proof.
  induction d; cbn [horner Pos.of_uint]; [reflexivity|exact IHd| ..];
    match goal with |- horner (10 * 0 + ?k) _ = _ =>
      change (10 * 0 + k) with k
    end; apply horner_pos.
Qed.

Lemma to_uint_nonnil (p : positive) : Pos.to_uint p <> Decimal.Nil.
Proof.
  intros E. pose proof (DecimalPos.Unsigned.of_to p) as H. rewrite E in H. discriminate.
Qed.

Lemma showZ_read (n : Z) (rest : string) :
  0 <= n -> stops rest -> readDigits 10 None (showZ n ++ rest) = Some n.
Proof.
  intros Hn Hs. unfold showZ. destruct n as [|p|p]; [| |lia].
  - cbn [Z.to_int NilEmpty.string_of_int NilEmpty.string_of_uint append readDigits].
    change (digitValue 10 "0") with (Some 0). cbv iota.
    now apply readDigits_stop.
  - cbn [Z.to_int NilEmpty.string_of_int].
    rewrite readDigits_start by apply to_uint_nonnil.
    rewrite (readDigits_uint _ _ _ Hs), horner_zero, DecimalPos.Unsigned.of_to.
    reflexivity.
Qed.

Lemma showZ_digits (n : Z) :
  0 <= n -> every isDigit (showZ n) = true /\ showZ n <> "".
Proof.
  intros Hn. unfold showZ. destruct n as [|p|p]; [| |lia].
  - split; [reflexivity|discriminate].
  - cbn [Z.to_int NilEmpty.string_of_int]. split; [apply uint_digits|].
    pose proof (to_uint_nonnil p). now destruct (Pos.to_uint p).
Qed.

(** *** Strings without white space or separators *)

Lemma every_app (p : ascii -> bool) (a b : string) :
  every p (a ++ b) = every p a && every p b.
Proof.
  induction a as [|c a IH]; cbn [append every]; [reflexivity|].
  now rewrite IH, andb_assoc.
Qed.

Lemma every_weaken (p q : ascii -> bool) (s : string) :
  (forall c, p c = true -> q c = true) -> every p s = true -> every q s = true.
Proof.
  intros Hpq. induction s as [|c s IH]; cbn [every]; [reflexivity|].
  intros H. apply andb_prop in H as [Hc Hs]. now rewrite (Hpq c Hc), (IH Hs).
Qed.

Lemma digit_not_white (c : ascii) : digitOrHyphen c = true -> isWhite c = false.
Proof.
  destruct c as [[] [] [] [] [] [] [] []]; try reflexivity; discriminate.
Qed.

Lemma digit_is_plain (c : ascii) : isDigit c = true -> digitOrHyphen c = true.
Proof. unfold digitOrHyphen. now intros ->. Qed.

Lemma trimEnd_plain (s : string) : every digitOrHyphen s = true -> trimEnd s = s.
Proof.
  induction s as [|c s IH]; cbn [every trimEnd]; [reflexivity|].
  intros H. apply andb_prop in H as [Hc Hs]. rewrite (IH Hs).
  destruct s; [now rewrite (digit_not_white c Hc)|reflexivity].
Qed.

Lemma trim_plain (w s : string) :
  w = "" \/ w = " " -> every digitOrHyphen s = true -> trim (w ++ s) = s.
Proof.
  intros Hw Hs. unfold trim.
  assert (Hstart : trimStart (w ++ s) = s).
  { assert (H0 : trimStart s = s).
    { destruct s as [|c s]; [reflexivity|]. cbn [every] in Hs.
      apply andb_prop in Hs as [Hc _]. cbn [trimStart].
      now rewrite (digit_not_white c Hc). }
    destruct Hw as [-> | ->]; [exact H0|]. cbn [append trimStart].
    change (isWhite " ") with true. cbv iota. exact H0. }
  rewrite Hstart. now apply trimEnd_plain.
Qed.

Lemma includes_digits (s : string) :
  every isDigit s = true -> includes "-" s = false.
Proof.
  induction s as [|c s IH]; cbn [every includes]; [reflexivity|].
  intros H. apply andb_prop in H as [Hc Hs]. rewrite (IH Hs), orb_false_r.
  destruct (Ascii.eqb_spec c "-") as [->|N]; [discriminate|reflexivity].
Qed.

Lemma includes_here (a b : string) (c : ascii) : includes c (a ++ String c b) = true.
Proof.
  induction a as [|d a IH]; cbn [append includes].
  - now rewrite Ascii.eqb_refl.
  - now rewrite IH, orb_true_r.
Qed.

Lemma split_nonempty (sep : ascii) (s : string) : split sep s <> [].
Proof.
  induction s as [|c s IH]; cbn [split]; [discriminate|].
  destruct (Ascii.eqb c sep); [discriminate|].
  destruct (split sep s); [contradiction|discriminate].
Qed.

Lemma split_before (p : ascii -> bool) (sep : ascii) (s rest : string) :
  p sep = false -> every p s = true ->
  split sep (s ++ String sep rest) = s :: split sep rest.
Proof.
  intros Hsep. induction s as [|c s IH]; cbn [every append split].
  - intros _. now rewrite Ascii.eqb_refl.
  - intros H. apply andb_prop in H as [Hc Hs].
    destruct (Ascii.eqb_spec c sep) as [->|N]; [congruence|].
    now rewrite (IH Hs).
Qed.

Lemma split_none (p : ascii -> bool) (sep : ascii) (s : string) :
  p sep = false -> every p s = true -> split sep s = [s].
Proof.
  intros Hsep. induction s as [|c s IH]; cbn [every split]; [reflexivity|].
  intros H. apply andb_prop in H as [Hc Hs].
  destruct (Ascii.eqb_spec c sep) as [->|N]; [congruence|].
  now rewrite (IH Hs).
Qed.

(** [parseInt] of a decimal numeral. *)
Lemma parseInt_digits (s : string) :
  every isDigit s = true -> parseInt s = readDigits 10 None s.
Proof.
  intros H. unfold parseInt.
  assert (Ht : trimStart s = s).
  { destruct s as [|c s]; [reflexivity|]. cbn [every] in H.
    apply andb_prop in H as [Hc _]. cbn [trimStart].
    now rewrite (digit_not_white c (digit_is_plain c Hc)). }
  rewrite Ht. destruct s as [|c s]; [reflexivity|].
  cbn [every] in H. apply andb_prop in H as [Hc Hs].
  assert (Hx : match s with
               | String d _ => isDigit d = true
               | EmptyString => True
               end).
  { destruct s as [|d s]; [exact I|]. cbn [every] in Hs.
    now apply andb_prop in Hs as [Hd _]. }
  destruct c as [[] [] [] [] [] [] [] []]; try discriminate Hc;
    cbn [fst snd];
    try (now destruct (readDigits 10 None _)).
  destruct s as [|d s]; [reflexivity|].
  destruct d as [[] [] [] [] [] [] [] []]; try discriminate Hx;
    cbn [fst snd]; now destruct (readDigits 10 None _).
Qed.

Lemma parseInt_showZ (n : Z) : 0 <= n -> parseInt (showZ n) = Some n.
Proof.
  intros Hn. destruct (showZ_digits n Hn) as [Hd _].
  rewrite (parseInt_digits _ Hd).
  rewrite <- (showZ_read n "" Hn I). f_equal.
  clear. induction (showZ n) as [|c s IH]; cbn [append]; [reflexivity|now rewrite <- IH].
Qed.

(** *** Ranges *)

Lemma renderRange_plain (a b : Z) :
  0 <= a -> 0 <= b -> every digitOrHyphen (renderRange (a, b)) = true.
Proof.
  intros Ha Hb. unfold renderRange.
  destruct (showZ_digits a Ha) as [Da _]. destruct (showZ_digits b Hb) as [Db _].
  pose proof (every_weaken _ _ _ digit_is_plain Da) as Pa.
  pose proof (every_weaken _ _ _ digit_is_plain Db) as Pb.
  destruct (a =? b)%Z; [exact Pa|].
  rewrite every_app, Pa. cbn [append every andb]. exact Pb.
Qed.

Lemma parsePart_range (w : string) (a b : Z) :
  w = "" \/ w = " " -> 0 <= a -> a <= b ->
  parsePart (w ++ renderRange (a, b)) = interval (a, b).
Proof.
  intros Hw Ha Hab. unfold parsePart.
  rewrite (trim_plain w _ Hw) by (apply renderRange_plain; lia).
  destruct (showZ_digits a Ha) as [Da _].
  destruct (showZ_digits b) as [Db _]; [lia|].
  unfold renderRange. destruct (Z.eqb_spec a b) as [<-|N].
  - rewrite (includes_digits _ Da), (parseInt_showZ a Ha).
    symmetry. apply RegistryFacts.interval_one.
  - cbn [append]. rewrite includes_here.
    rewrite (split_before isDigit "-" _ _ eq_refl Da).
    rewrite (split_none isDigit "-" _ eq_refl Db).
    cbn [map].
    pose proof (trim_plain "" (showZ a) (or_introl eq_refl)
                  (every_weaken _ _ _ digit_is_plain Da)) as Ta.
    pose proof (trim_plain "" (showZ b) (or_introl eq_refl)
                  (every_weaken _ _ _ digit_is_plain Db)) as Tb.
    cbn [append] in Ta, Tb. rewrite Ta, Tb.
    rewrite (parseInt_showZ a Ha), (parseInt_showZ b) by lia.
    reflexivity.
Qed.

Lemma plain_no_comma (c : ascii) :
  (fun x => digitOrHyphen x || Ascii.eqb x " ") c = true -> Ascii.eqb c "," = false.
Proof.
  destruct c as [[] [] [] [] [] [] [] []]; try reflexivity; discriminate.
Qed.

Lemma parse_joined (rs : list (Z * Z)) (w : string) :
  w = "" \/ w = " " -> rs <> [] ->
  Forall (fun r => 0 <= fst r /\ fst r <= snd r) rs ->
  flat_map parsePart (split "," (w ++ join ", " (map renderRange rs)))
  = List.concat (map interval rs).
Proof.
  revert w. induction rs as [|[a b] rs IH]; intros w Hw Hne Hall; [contradiction|].
  apply Forall_cons_iff in Hall. destruct Hall as [[Ha Hab] Hrest].
  cbn [fst snd] in Ha, Hab.
  assert (Hplain : every (fun x => digitOrHyphen x || Ascii.eqb x " ")
                     (w ++ renderRange (a, b)) = true).
  { rewrite every_app. apply andb_true_intro. split.
    - destruct Hw as [-> | ->]; reflexivity.
    - apply (every_weaken digitOrHyphen); [intros c ->; reflexivity|].
      apply renderRange_plain; lia. }
  destruct rs as [|r' rs].
  - cbn [map join List.concat flat_map].
    rewrite (split_none _ "," _ eq_refl Hplain). cbn [flat_map].
    rewrite (parsePart_range w a b Hw Ha Hab). reflexivity.
  - change (join ", " (map renderRange ((a, b) :: r' :: rs)))
      with (renderRange (a, b) ++ ", " ++ join ", " (map renderRange (r' :: rs))).
    replace (w ++ renderRange (a, b) ++ ", " ++ join ", " (map renderRange (r' :: rs)))
      with ((w ++ renderRange (a, b))
            ++ String "," (" " ++ join ", " (map renderRange (r' :: rs)))).
    + rewrite (split_before _ "," _ _ eq_refl Hplain).
      cbn [flat_map map List.concat].
      rewrite (parsePart_range w a b Hw Ha Hab).
      f_equal. apply (IH " "); [now right|discriminate|exact Hrest].
    + rewrite MarkdownFacts.append_assoc. reflexivity.
Qed.

Lemma runs_nonneg (l : list Z) :
  Forall (fun i => 0 <= i) l ->
  Forall (fun r => 0 <= fst r /\ fst r <= snd r) (runs l).
Proof.
  induction 1 as [|x l Hx _ IH]; cbn [runs]; [constructor|].
  destruct (runs l) as [|[a b] rs]; cbn [extend].
  - repeat constructor; cbn; lia.
  - pose proof (Forall_inv IH) as [H0 H1]. cbn [fst snd] in H0, H1.
    destruct (Z.eqb_spec a (x + 1)).
    + constructor; [cbn [fst snd]; lia|]. now apply Forall_inv_tail in IH.
    + constructor; [cbn [fst snd]; lia|exact IH].
Qed.

(** Marks read back.  For ids that are not negative, the text between
    the brackets of the mark that the manager renders reads back, with
    [parseCitationString], as the ids in ascending order, each as often
    as it was given.  A negative number does not read back at all: the
    hyphen of its sign is taken for the hyphen of a range. *)
Theorem marks_read_back (ids : list Z) (n : Z) :
  (Forall (fun i => 0 <= i) ids ->
   let inner := join ", " (map renderRange (runs (sortAsc ids))) in
   renderMark ids = "[" ++ inner ++ "]"
   /\ parseCitationString inner = sortAsc ids)
  /\ (n < 0 -> parseCitationString (showZ n) = []).
Proof.
  split.
  - intros Hall. cbn zeta. split; [reflexivity|].
    assert (Hsorted : Forall (fun i => 0 <= i) (sortAsc ids)).
    { eapply Permutation_Forall; [|exact Hall].
      symmetry. apply RegistryFacts.sortAsc_perm. }
    rewrite <- (RegistryFacts.runs_intervals (sortAsc ids)) at 2.
    unfold parseCitationString.
    destruct (runs (sortAsc ids)) as [|r rs] eqn:E; [reflexivity|].
    rewrite <- E.
    apply (parse_joined (runs (sortAsc ids)) "" (or_introl eq_refl)).
    + rewrite E. discriminate.
    + now apply runs_nonneg.
  - intros Hn. destruct n as [|p|p]; try lia.
    unfold parseCitationString, showZ.
    cbn [Z.to_int NilEmpty.string_of_int].
    pose proof (uint_digits (Pos.to_uint p)) as Hd.
    assert (Hplain : every (fun x => digitOrHyphen x || Ascii.eqb x " ")
                       (String "-" (NilEmpty.string_of_uint (Pos.to_uint p))) = true).
    { cbn [every]. apply (every_weaken isDigit); [|exact Hd].
      intros c Hc. unfold digitOrHyphen. now rewrite Hc. }
    rewrite (split_none _ "," _ eq_refl Hplain). cbn [flat_map].
    unfold parsePart.
    assert (Ht : trim (String "-" (NilEmpty.string_of_uint (Pos.to_uint p)))
                 = String "-" (NilEmpty.string_of_uint (Pos.to_uint p))).
    { apply (trim_plain "" _ (or_introl eq_refl)).
      cbn [every]. apply (every_weaken isDigit); [exact digit_is_plain|exact Hd]. }
    rewrite Ht.
    cbn [includes]. rewrite Ascii.eqb_refl. cbn [orb].
    cbn [split]. rewrite Ascii.eqb_refl.
    rewrite (split_none isDigit "-" _ eq_refl Hd). reflexivity.
Qed.

Lemma marks_read_back_witness :
  parseCitationString "1-3, 5" = [1; 2; 3; 5]
  /\ parseCitationString "-3" = [].
Proof.
  destruct (marks_read_back [5; 2; 1; 3] (-3)) as [H1 H2].
  split.
  - apply H1. repeat constructor; lia.
  - apply H2. lia.
Defined.

End ParsingFacts.


(** * Citations grouped by domain *)

Module DedupFacts.
Import Registry Dedup Notions.
Local Open Scope list_scope.

(** ** The grouping map *)

Lemma groupSet_In (k : string) (v : list Citation) (g : Groups)
    (k' : string) (ms : list Citation) :
  In (k', ms) (groupSet k v g) -> (k' = k /\ ms = v) \/ In (k', ms) g.
Proof.
  induction g as [|[k0 old] rest IH]; cbn [groupSet].
  - intros [E|[]]. injection E as <- <-. now left.
  - destruct (String.eqb_spec k0 k) as [->|N].
    + intros [E|Hin]; [injection E as <- <-; now left|right; now right].
    + intros [E|Hin]; [right; now left|].
      destruct (IH Hin) as [H|H]; [now left|right; now right].
Qed.

Lemma groupSet_new (k : string) (v : list Citation) (g : Groups) :
  In (k, v) (groupSet k v g).
Proof.
  induction g as [|[k0 old] rest IH]; cbn [groupSet]; [now left|].
  destruct (String.eqb_spec k0 k) as [->|N]; [now left|now right].
Qed.

Lemma groupSet_keep (k : string) (v : list Citation) (g : Groups)
    (k' : string) (ms : list Citation) :
  In (k', ms) g -> k' <> k -> In (k', ms) (groupSet k v g).
Proof.
  intros Hin Hne. induction g as [|[k0 old] rest IH]; [destruct Hin|].
  cbn [groupSet]. destruct (String.eqb_spec k0 k) as [->|N].
  - destruct Hin as [E|Hin]; [injection E as <- <-; congruence|now right].
  - destruct Hin as [E|Hin]; [now left|right; now apply IH].
Qed.

Lemma groupSet_keys (k : string) (v : list Citation) (g : Groups) :
  map fst (groupSet k v g)
  = if in_dec string_dec k (map fst g) then map fst g else map fst g ++ [k].
Proof.
  induction g as [|[k0 old] rest IH]; cbn [groupSet map fst].
  - destruct (in_dec string_dec k []) as [[]|_]. reflexivity.
  - destruct (String.eqb_spec k0 k) as [->|N].
    + cbn [map fst]. destruct (in_dec string_dec k (k :: map fst rest)) as [_|No];
        [reflexivity|exfalso; apply No; now left].
    + cbn [map fst]. rewrite IH.
      destruct (in_dec string_dec k (map fst rest)) as [Y|No];
        destruct (in_dec string_dec k (k0 :: map fst rest)) as [Y'|No'];
        try reflexivity.
      * exfalso. apply No'. now right.
      * exfalso. destruct Y' as [E|Y']; [now apply N|now apply No].
Qed.

Lemma groupSet_NoDup (k : string) (v : list Citation) (g : Groups) :
  NoDup (map fst g) -> NoDup (map fst (groupSet k v g)).
Proof.
  intros Hnd. rewrite groupSet_keys.
  destruct (in_dec string_dec k (map fst g)) as [_|No]; [exact Hnd|].
  apply (Permutation_NoDup (Permutation_cons_append (map fst g) k)).
  now constructor.
Qed.

Lemma groupSet_has (k : string) (v : list Citation) (g : Groups) (k' : string) :
  In k' (map fst g) \/ k' = k -> In k' (map fst (groupSet k v g)).
Proof.
  rewrite groupSet_keys.
  destruct (in_dec string_dec k (map fst g)) as [Y|No]; intros [H| ->];
    try assumption; apply in_or_app; [now left|right; now left].
Qed.

Lemma groupGet_In (k : string) (g : Groups) (ms : list Citation) :
  groupGet k g = Some ms -> In (k, ms) g.
Proof.
  induction g as [|[k0 old] rest IH]; cbn [groupGet]; [discriminate|].
  destruct (String.eqb_spec k0 k) as [->|N].
  - intros E. injection E as <-. now left.
  - intros E. right. now apply IH.
Qed.

Lemma groupGet_of_member (k : string) (g : Groups) (ms : list Citation) :
  NoDup (map fst g) -> In (k, ms) g -> groupGet k g = Some ms.
Proof.
  induction g as [|[k0 old] rest IH]; intros Hnd Hin; [destruct Hin|].
  cbn [map fst] in Hnd. apply NoDup_cons_iff in Hnd as [Hno Hnd].
  cbn [groupGet]. destruct (String.eqb_spec k0 k) as [->|N].
  - destruct Hin as [E|Hin]; [now injection E as <-|].
    exfalso. apply Hno. now apply (in_map fst _ _ Hin).
  - destruct Hin as [E|Hin]; [injection E as -> _; now contradiction N|].
    now apply IH.
Qed.

(** ** Ordering a group *)

Lemma insertByScore_perm (c : Citation) (l : list Citation) :
  Permutation (c :: l) (insertByScore c l).
Proof.
  induction l as [|d rest IH]; cbn [insertByScore]; [reflexivity|].
  destruct (score c <? score d)%Z; [|reflexivity].
  rewrite perm_swap. now constructor.
Qed.

Lemma sortByScore_perm (l : list Citation) : Permutation l (sortByScore l).
Proof.
  induction l as [|c rest IH]; cbn [sortByScore]; [constructor|].
  rewrite <- insertByScore_perm. now constructor.
Qed.

Lemma insertByScore_sorted (c : Citation) (l : list Citation) :
  StronglySorted (fun a b => (score b <= score a)%Z) l ->
  StronglySorted (fun a b => (score b <= score a)%Z) (insertByScore c l).
Proof.
  induction l as [|d rest IH]; intros Hs; cbn [insertByScore].
  - repeat constructor.
  - apply StronglySorted_inv in Hs as [Hrest Hd].
    destruct (Z.ltb_spec (score c) (score d)) as [Lt|Ge].
    + constructor; [now apply IH|].
      apply (Permutation_Forall (insertByScore_perm c rest)).
      constructor; [lia|exact Hd].
    + constructor; [now constructor|].
      constructor; [lia|].
      apply (Forall_impl _ (fun a (H : (score a <= score d)%Z) =>
                              Z.le_trans _ _ _ H Ge) Hd).
Qed.

Lemma sortByScore_sorted (l : list Citation) :
  StronglySorted (fun a b => (score b <= score a)%Z) (sortByScore l).
Proof.
  induction l as [|c rest IH]; cbn [sortByScore]; [constructor|].
  now apply insertByScore_sorted.
Qed.

Lemma best_incl (ms : list Citation) : incl (best ms) ms.
Proof.
  intros c Hin. unfold best in Hin.
  assert (Hs : In c (firstn 2 (sortByScore ms)) -> In c ms).
  { intros H. apply (Permutation_in _ (Permutation_sym (sortByScore_perm ms))).
    rewrite <- (firstn_skipn 2 (sortByScore ms)). apply in_or_app. now left. }
  destruct ms as [|x [|y r]]; [now apply Hs|exact Hin|now apply Hs].
Qed.

Lemma best_short (ms : list Citation) : (List.length (best ms) <= 2)%nat.
Proof.
  unfold best. destruct ms as [|x [|y r]]; try (cbn; lia);
    rewrite length_firstn; lia.
Qed.

Lemma best_nonempty (ms : list Citation) : ms <> [] -> best ms <> [].
Proof.
  intros Hne. destruct ms as [|x [|y r]]; [now contradiction Hne|discriminate|].
  unfold best. pose proof (Permutation_length (sortByScore_perm (x :: y :: r))) as Hl.
  destruct (sortByScore (x :: y :: r)) as [|a [|b rest]]; cbn in Hl; try lia.
  discriminate.
Qed.

(** A member that is left out is outscored by two that are kept. *)
Lemma best_outscores (ms : list Citation) (c : Citation) :
  In c ms -> ~ In c (best ms) ->
  exists a b, best ms = [a; b]
    /\ (score c <= score b)%Z /\ (score b <= score a)%Z.
Proof.
  intros Hin Hout. destruct ms as [|x [|y r]]; [destruct Hin| |].
  - exfalso. apply Hout. exact Hin.
  - unfold best in *.
    pose proof (sortByScore_perm (x :: y :: r)) as Hp.
    pose proof (sortByScore_sorted (x :: y :: r)) as Hs.
    pose proof (Permutation_length Hp) as Hl.
    pose proof (Permutation_in _ Hp Hin) as Hc.
    destruct (sortByScore (x :: y :: r)) as [|a [|b rest]]; cbn in Hl; try lia.
    cbn [firstn] in *. exists a, b. split; [reflexivity|].
    apply StronglySorted_inv in Hs as [Hs Ha].
    apply StronglySorted_inv in Hs as [_ Hb].
    apply Forall_inv in Ha as Hba.
    destruct Hc as [->|[->|Hc]];
      [exfalso; apply Hout; now left|exfalso; apply Hout; right; now left|].
    split; [|exact Hba].
    rewrite Forall_forall in Hb. now apply Hb.
Qed.

Section WithPlatform.

Variable parseURL : string -> option URL.

(** ** One round of the grouping *)

Lemma addToGroups_shape (g : Groups) (c : Citation) :
  addToGroups parseURL g c
  = groupSet (groupKey parseURL c)
      (match domainOf parseURL c, groupGet (groupKey parseURL c) g with
       | Some _, Some ms => ms ++ [c]
       | _, _ => [c]
       end) g.
Proof.
  unfold addToGroups, groupKey. destruct (domainOf parseURL c) as [d|]; [|reflexivity].
  now destruct (groupGet d g).
Qed.

Lemma addToGroups_grouped (processed : list Citation) (g : Groups) (c : Citation) :
  grouped parseURL processed g ->
  grouped parseURL (processed ++ [c]) (addToGroups parseURL g c).
Proof.
  intros (Hnd & Hmem & Hkeys). rewrite addToGroups_shape.
  set (v := match domainOf parseURL c, groupGet (groupKey parseURL c) g with
            | Some _, Some ms => ms ++ [c]
            | _, _ => [c]
            end).
  assert (Hv : v <> [] /\ forall m, In m v ->
                 groupKey parseURL m = groupKey parseURL c /\ In m (processed ++ [c])).
  { assert (Hone : [c] <> [] /\ forall m, In m [c] ->
                 groupKey parseURL m = groupKey parseURL c /\ In m (processed ++ [c])).
    { split; [discriminate|]. intros m [<-|[]]. split; [reflexivity|].
      apply in_or_app. right. now left. }
    subst v. destruct (domainOf parseURL c) as [d|]; [|exact Hone].
    destruct (groupGet (groupKey parseURL c) g) as [ms|] eqn:G; [|exact Hone].
    apply groupGet_In in G. destruct (Hmem _ _ G) as [_ Hms].
    split; [now destruct ms|]. intros m Hin.
    apply in_app_or in Hin as [Hin|[<-|[]]].
    - destruct (Hms _ Hin) as [K P]. split; [exact K|].
      apply in_or_app. now left.
    - split; [reflexivity|]. apply in_or_app. right. now left. }
  split; [now apply groupSet_NoDup|]. split.
  - intros k ms Hin. apply groupSet_In in Hin as [[-> ->]|Hin]; [exact Hv|].
    destruct (Hmem _ _ Hin) as [Hne Hms]. split; [exact Hne|].
    intros m Hm. destruct (Hms _ Hm) as [K P]. split; [exact K|].
    apply in_or_app. now left.
  - intros c' Hin. apply groupSet_has.
    apply in_app_or in Hin as [Hin|[<-|[]]]; [left; now apply Hkeys|now right].
Qed.

Lemma addToGroups_filed (processed : list Citation) (g : Groups) (c : Citation) :
  NoDup (map fst g) -> parseURL (url c) <> None ->
  filed parseURL processed g ->
  filed parseURL (processed ++ [c]) (addToGroups parseURL g c).
Proof.
  intros Hnd Hvalid Hfiled. rewrite addToGroups_shape.
  assert (Hd : exists d, domainOf parseURL c = Some d).
  { unfold domainOf. destruct (parseURL (url c)); [eauto|now contradiction Hvalid]. }
  destruct Hd as [d Hd]. rewrite Hd.
  intros c' Hin. apply in_app_or in Hin as [Hin|[<-|[]]].
  - destruct (Hfiled _ Hin) as (ms & Hg & Hc').
    destruct (string_dec (groupKey parseURL c') (groupKey parseURL c)) as [E|N].
    + rewrite E in Hg. rewrite (groupGet_of_member _ _ _ Hnd Hg).
      exists (ms ++ [c]). rewrite E. split; [apply groupSet_new|].
      apply in_or_app. now left.
    + exists ms. split; [now apply groupSet_keep|exact Hc'].
  - eexists. split; [apply groupSet_new|].
    destruct (groupGet (groupKey parseURL c) g); [apply in_or_app; right|]; now left.
Qed.

(** ** All rounds *)

Lemma fold_grouped (cs processed : list Citation) (g : Groups) :
  grouped parseURL processed g ->
  grouped parseURL (processed ++ cs) (fold_left (addToGroups parseURL) cs g).
Proof.
  revert processed g. induction cs as [|c rest IH]; intros processed g Hg;
    cbn [fold_left]; [now rewrite app_nil_r|].
  replace (processed ++ c :: rest) with ((processed ++ [c]) ++ rest)
    by now rewrite <- app_assoc.
  now apply IH, addToGroups_grouped.
Qed.

Lemma fold_filed (cs processed : list Citation) (g : Groups) :
  Forall (fun c => parseURL (url c) <> None) cs ->
  grouped parseURL processed g -> filed parseURL processed g ->
  filed parseURL (processed ++ cs) (fold_left (addToGroups parseURL) cs g).
Proof.
  revert processed g. induction cs as [|c rest IH]; intros processed g Hv Hg Hf;
    cbn [fold_left]; [now rewrite app_nil_r|].
  replace (processed ++ c :: rest) with ((processed ++ [c]) ++ rest)
    by now rewrite <- app_assoc.
  apply Forall_cons_iff in Hv as [Hc Hv].
  apply IH; [exact Hv|now apply addToGroups_grouped|].
  apply addToGroups_filed; [apply Hg|exact Hc|exact Hf].
Qed.

Lemma grouped_start : grouped parseURL [] [].
Proof.
  split; [constructor|]. split; [intros k ms []|intros c []].
Qed.

(** ** What the groups contribute *)

Lemma keptOf_app (k : string) (l l' : list Citation) :
  keptOf parseURL k (l ++ l') = keptOf parseURL k l ++ keptOf parseURL k l'.
Proof. apply filter_app. Qed.

Lemma keptOf_same (k : string) (l : list Citation) :
  (forall m, In m l -> groupKey parseURL m = k) -> keptOf parseURL k l = l.
Proof.
  induction l as [|m rest IH]; intros Hk; [reflexivity|].
  unfold keptOf in *. cbn [filter]. rewrite (Hk m) by now left.
  rewrite String.eqb_refl. f_equal. apply IH. intros m' Hin. apply Hk. now right.
Qed.

Lemma keptOf_other (k : string) (l : list Citation) :
  (forall m, In m l -> groupKey parseURL m <> k) -> keptOf parseURL k l = [].
Proof.
  induction l as [|m rest IH]; intros Hk; [reflexivity|].
  unfold keptOf in *. cbn [filter].
  destruct (String.eqb_spec (groupKey parseURL m) k) as [E|_].
  - exfalso. now apply (Hk m); [left|].
  - apply IH. intros m' Hin. apply Hk. now right.
Qed.

Lemma keptOf_groups (g : Groups) (k : string) :
  NoDup (map fst g) ->
  (forall k' ms, In (k', ms) g -> forall m, In m ms -> groupKey parseURL m = k') ->
  keptOf parseURL k (flat_map (fun group => best (snd group)) g)
  = match groupGet k g with Some ms => best ms | None => [] end.
Proof.
  induction g as [|[k0 ms0] rest IH]; intros Hnd Hmem; [reflexivity|].
  cbn [map fst] in Hnd. apply NoDup_cons_iff in Hnd as [Hno Hnd].
  cbn [flat_map snd groupGet]. rewrite keptOf_app.
  assert (Hrest : forall k' ms, In (k', ms) rest ->
                    forall m, In m ms -> groupKey parseURL m = k').
  { intros k' ms Hin. apply (Hmem k' ms). now right. }
  specialize (IH Hnd Hrest).
  assert (H0 : forall m, In m (best ms0) -> groupKey parseURL m = k0).
  { intros m Hin. apply (Hmem k0 ms0); [now left|now apply best_incl]. }
  destruct (String.eqb_spec k0 k) as [->|N].
  - rewrite (keptOf_same _ _ H0), IH.
    destruct (groupGet k rest) as [ms|] eqn:G; [|apply app_nil_r].
    exfalso. apply Hno. apply groupGet_In in G. now apply (in_map fst _ _ G).
  - rewrite keptOf_other, IH; [reflexivity|].
    intros m Hin. now rewrite (H0 m Hin).
Qed.

Lemma member_kept (g : Groups) (k : string) (ms : list Citation) (c : Citation) :
  In (k, ms) g -> In c (best ms) ->
  In c (flat_map (fun group => best (snd group)) g).
Proof.
  intros Hg Hc. apply in_flat_map. now exists (k, ms).
Qed.

(** ** The result *)

(** advancedDeduplication returns citations of its input only, at most two
    under each key (the domain of a URL that parses, the whole URL marked
    as invalid otherwise), and at least one under every key of the input. *)
Theorem two_per_domain (cs : list Citation) :
  let out := advancedDeduplication parseURL cs in
  incl out cs
  /\ (forall k, (List.length (keptOf parseURL k out) <= 2)%nat)
  /\ (forall c, In c cs ->
        exists d, In d out /\ groupKey parseURL d = groupKey parseURL c).
Proof.
  cbn zeta. unfold advancedDeduplication.
  destruct (fold_grouped cs [] [] grouped_start) as (Hnd & Hmem & Hkeys).
  cbn [app] in Hmem, Hkeys.
  set (g := fold_left (addToGroups parseURL) cs []) in *.
  assert (Hk : forall k' ms, In (k', ms) g ->
                 forall m, In m ms -> groupKey parseURL m = k').
  { intros k' ms Hin m Hm. now apply (Hmem k' ms Hin). }
  split; [|split].
  - intros c Hin. apply in_flat_map in Hin as ([k ms] & Hg & Hc).
    cbn [snd] in Hc. apply best_incl in Hc. now apply (Hmem k ms Hg).
  - intros k. rewrite (keptOf_groups g k Hnd Hk).
    destruct (groupGet k g); [apply best_short|cbn; lia].
  - intros c Hin. specialize (Hkeys c Hin).
    apply in_map_iff in Hkeys as ([k ms] & Ek & Hg). cbn [fst] in Ek. subst k.
    destruct (Hmem _ _ Hg) as [Hne Hms].
    destruct (best ms) as [|d rest] eqn:B; [now apply best_nonempty in B|].
    assert (Hd : In d (best ms)) by (rewrite B; now left).
    exists d. split; [exact (member_kept g _ ms d Hg Hd)|].
    now apply Hms, best_incl.
Qed.

(** When every URL parses, a citation that advancedDeduplication leaves out
    is outscored: exactly two citations of its domain are kept, the higher
    score first, and both score at least as much as the one left out. *)
Theorem dropped_is_outscored (cs : list Citation) (c : Citation) :
  Forall (fun c => parseURL (url c) <> None) cs ->
  In c cs -> ~ In c (advancedDeduplication parseURL cs) ->
  exists a b,
    keptOf parseURL (groupKey parseURL c) (advancedDeduplication parseURL cs) = [a; b]
    /\ (score c <= score b)%Z /\ (score b <= score a)%Z.
Proof.
  intros Hvalid Hin Hout. unfold advancedDeduplication in *.
  pose proof (fold_grouped cs [] [] grouped_start) as Hg.
  pose proof (fold_filed cs [] [] Hvalid grouped_start
                (fun c (H : In c []) => match H with end)) as Hf.
  cbn [app] in Hg, Hf.
  set (g := fold_left (addToGroups parseURL) cs []) in *.
  destruct Hg as (Hnd & Hmem & _).
  assert (Hk : forall k' ms, In (k', ms) g ->
                 forall m, In m ms -> groupKey parseURL m = k').
  { intros k' ms Hi m Hm. now apply (Hmem k' ms Hi). }
  destruct (Hf c Hin) as (ms & Hms & Hc).
  rewrite (keptOf_groups g _ Hnd Hk), (groupGet_of_member _ _ _ Hnd Hms).
  apply best_outscores; [exact Hc|].
  intros Hb. apply Hout. exact (member_kept g _ ms c Hms Hb).
Qed.

End WithPlatform.

Lemma two_per_domain_witness :
  advancedDeduplication Scenario.parseSimpleURL Cases.sameDomain
  = [Cases.middle; Cases.plainHttp; Scenario.paperB]
  /\ exists d, In d (advancedDeduplication Scenario.parseSimpleURL Cases.sameDomain)
       /\ groupKey Scenario.parseSimpleURL d
          = groupKey Scenario.parseSimpleURL Cases.shortTitle.
Proof.
  split; [reflexivity|].
  destruct (two_per_domain Scenario.parseSimpleURL Cases.sameDomain) as (_ & _ & H).
  apply H. now left.
Defined.

Lemma dropped_is_outscored_witness :
  exists a b,
    keptOf Scenario.parseSimpleURL "example.org"
      (advancedDeduplication Scenario.parseSimpleURL Cases.sameDomain) = [a; b]
    /\ (score Cases.shortTitle <= score b)%Z /\ (score b <= score a)%Z.
Proof.
  apply (dropped_is_outscored Scenario.parseSimpleURL Cases.sameDomain Cases.shortTitle).
  - repeat constructor; discriminate.
  - now left.
  - vm_compute. intros [H|[H|[H|[]]]]; discriminate.
Defined.

End DedupFacts.
